(** * Connectivity graph of a hierarchical netlist

    A shallow embedding of [examples/special/plot_connectivity_graph.py]:
    the hierarchy expander [generate_nodes], the collectors
    [get_leaf_instance_nodes] and [get_top_port_nodes], the downstream
    traversal [get_downstream_nodes], the assembler
    [get_connectivity_graph] and the naming utility of class [Node].

    [Node] objects have identity and are mutated after their creation
    ([node.children[port] = new_node]); they are modelled by addresses
    into a store, drawn from an allocation counter that is threaded
    through the calls.  Python exceptions are the [Raise] results of an
    error monad; every [while] loop takes fuel and reports [OutOfFuel]
    when it is exhausted. *)

From stdpp Require Import base decidable option list gmap sets strings pretty.

Set Default Proof Using "Type".

(** ** Netlist elements *)

Inductive Direction := UNDEFINED | INOUT | IN | OUT.

(** The elements a hierarchy node can wrap.  Each carries the identity of
    the underlying netlist object. *)
Inductive Element :=
| Instance (i : nat)
| Port (p : nat)
| Cable (c : nat)
| Wire (w : nat)
| InnerPin (p : nat).

(** The pins attached to a wire: [isinstance(pin, sdn.InnerPin)] or
    [isinstance(pin, sdn.OuterPin)]. *)
Inductive Pin :=
| Inner (p : nat)
| Outer (o : nat).

Global Instance Direction_eq_dec : EqDecision Direction.
Proof. solve_decision. Defined.
Global Instance Element_eq_dec : EqDecision Element.
Proof. solve_decision. Defined.
Global Instance Pin_eq_dec : EqDecision Pin.
Proof. solve_decision. Defined.

(** Modelled from the spec: the read-only netlist model of the [spydrnet]
    intermediate representation (classes Netlist, Instance, Definition,
    Port, Cable, Wire, InnerPin, OuterPin), whose declarations are not part
    of the sources.  One field per capability the code uses: "for an
    instance, obtain its definition, its pins, and whether the definition
    is leaf; for a definition, enumerate ports, cables, and child
    instances; for a port, obtain direction and enumerate pins; for a
    cable, enumerate wires in order; for a wire, enumerate connected pins;
    for a pin, [...] obtain its connected wire (possibly absent) and its
    owning port/instance".  Objects are named by numbers; attribute reads
    are total functions of them. *)
Record Netlist := mkNetlist {
  top_instance : nat;                       (* netlist.top_instance *)
  reference : nat → nat;                    (* instance.reference *)
  instance_pins : nat → list nat;           (* iterating instance.pins: outer pins *)
  instance_pin_of : nat → nat → option nat; (* instance.pins[inner_pin] *)
  is_leaf : nat → bool;                     (* definition.is_leaf() *)
  ports : nat → list nat;                   (* definition.ports *)
  cables : nat → list nat;                  (* definition.cables *)
  def_children : nat → list nat;            (* definition.children *)
  direction : nat → Direction;              (* port.direction *)
  port_pins : nat → list nat;               (* port.pins: inner pins *)
  wires : nat → list nat;                   (* cable.wires *)
  cable : nat → nat;                        (* wire.cable *)
  wire_pins : nat → list Pin;               (* wire.pins *)
  port : nat → nat;                         (* inner_pin.port *)
  inner_wire : nat → option nat;            (* inner_pin.wire *)
  inner_pin : nat → nat;                    (* outer_pin.inner_pin *)
  instance : nat → nat;                     (* outer_pin.instance *)
  outer_wire : nat → option nat;            (* outer_pin.wire *)
  attr : Element → string → option string   (* key in element, element[key] *)
}.

(** ** Exceptions and results *)

Inductive exn := AttributeError | KeyError | TypeError | ValueError.

Inductive result (A : Type) :=
| Ok (a : A)
| Raise (e : exn)
| OutOfFuel.
Arguments Ok {A} a.
Arguments Raise {A} e.
Arguments OutOfFuel {A}.

Global Instance result_ret : MRet result := λ A a, Ok a.
Global Instance result_bind : MBind result := λ A B f r,
  match r with
  | Ok a => f a
  | Raise e => Raise e
  | OutOfFuel => OutOfFuel
  end.
Global Instance result_fmap : FMap result := λ A B f r,
  match r with
  | Ok a => Ok (f a)
  | Raise e => Raise e
  | OutOfFuel => OutOfFuel
  end.

(** A [for] loop whose body may raise. *)
Fixpoint fold_result {A B} (f : A → B → result A) (a : A) (l : list B)
  : result A :=
  match l with
  | [] => Ok a
  | b :: l' => a' ← f a b; fold_result f a' l'
  end.

(** ** Python dictionaries keyed by elements, in insertion order *)

Fixpoint dict_get {V} (d : list (Element * V)) (k : Element) : option V :=
  match d with
  | [] => None
  | (k', v) :: d' => if decide (k = k') then Some v else dict_get d' k
  end.

Fixpoint dict_set {V} (d : list (Element * V)) (k : Element) (v : V)
  : list (Element * V) :=
  match d with
  | [] => [(k, v)]
  | (k', v') :: d' =>
      if decide (k = k') then (k, v) :: d' else (k', v') :: dict_set d' k v
  end.

(** ** class Node, and the store of Node objects *)

Record Node := mkNode {
  parent : option nat;
  item : Element;
  children : list (Element * nat)
}.

(** The nodes allocated since the counter was [base]; the node at address
    [base + i] is [cells !! i]. *)
Record Store := mkStore {
  base : nat;
  cells : list Node
}.

Definition limit (s : Store) : nat := base s + length (cells s).

Definition node (s : Store) (n : nat) : option Node :=
  if decide (base s ≤ n) then cells s !! (n - base s) else None.

(** [Node(parent, item)] *)
Definition alloc (s : Store) (nd : Node) : nat * Store :=
  (limit s, mkStore (base s) (cells s ++ [nd])).

Definition with_child (e : Element) (c : nat) (nd : Node) : Node :=
  mkNode (parent nd) (item nd) (dict_set (children nd) e c).

(** [node.children[e] = c] *)
Definition set_child (s : Store) (n : nat) (e : Element) (c : nat) : Store :=
  if decide (base s ≤ n)
  then mkStore (base s) (alter (with_child e c) (n - base s) (cells s))
  else s.

(** Reading an attribute of the node at address [n]. *)
Definition get (s : Store) (n : nat) : result Node :=
  match node s n with
  | Some nd => Ok nd
  | None => Raise AttributeError
  end.

(** Reading an attribute of [n], where [n] may be [None]. *)
Definition deref (s : Store) (on : option nat) : result Node :=
  match on with
  | None => Raise AttributeError
  | Some n => get s n
  end.

(** [n.children[e]], where [n] may be [None]. *)
Definition child_of (s : Store) (on : option nat) (e : Element) : result nat :=
  nd ← deref s on;
  match dict_get (children nd) e with
  | Some c => Ok c
  | None => Raise KeyError
  end.

(** ** The directed graph *)

(** Modelled from the spec: the directed-graph output structure
    ([networkx.DiGraph], an external collaborator).  "No edge multiplicity;
    an edge either exists or does not", "edge insertion is idempotent";
    nodes and edges are kept in insertion order, and inserting an edge
    inserts its end points when they are not nodes yet. *)
Record DiGraph := mkDiGraph {
  g_nodes : list nat;
  g_edges : list (nat * nat)
}.

Definition add_node (g : DiGraph) (n : nat) : DiGraph :=
  if decide (n ∈ g_nodes g) then g
  else mkDiGraph (g_nodes g ++ [n]) (g_edges g).

Definition add_nodes_from (g : DiGraph) (ns : list nat) : DiGraph :=
  foldl add_node g ns.

Definition add_edge (g : DiGraph) (u v : nat) : DiGraph :=
  let g1 := add_node (add_node g u) v in
  if decide ((u, v) ∈ g_edges g1) then g1
  else mkDiGraph (g_nodes g1) (g_edges g1 ++ [(u, v)]).

Definition number_of_nodes (g : DiGraph) : nat := length (g_nodes g).
Definition number_of_edges (g : DiGraph) : nat := length (g_edges g).

(** State of one downstream search.  The stacks ([search_stack]) are kept
    with their top, the end of the Python list, at the head. *)
Record Search := mkSearch {
  found_pin_nodes : gset nat;
  search_stack : list nat;
  downstream_nodes : list nat
}.

Section Program.
Context (netlist : Netlist).

(** *** generate_nodes *)

(** [new_node = Node(node, e); node.children[e] = new_node;
    search_stack.append(new_node)] *)
Definition new_child (nd : nat) (acc : Store * list nat) (e : Element)
  : Store * list nat :=
  let new_node := alloc acc.1 (mkNode (Some nd) e []) in
  (set_child new_node.2 nd e new_node.1, new_node.1 :: acc.2).

Definition generate_step (s : Store) (stack : list nat) (nd : nat)
    (it : Element) : Store * list nat :=
  match it with
  | Instance i =>
      let ref := reference netlist i in
      let a1 := foldl (new_child nd) (s, stack) (Port <$> ports netlist ref) in
      let a2 := foldl (new_child nd) a1 (Cable <$> cables netlist ref) in
      foldl (new_child nd) a2 (Instance <$> def_children netlist ref)
  | Port p => foldl (new_child nd) (s, stack) (InnerPin <$> port_pins netlist p)
  | Cable c => foldl (new_child nd) (s, stack) (Wire <$> wires netlist c)
  | _ => (s, stack)
  end.

Fixpoint generate_loop (fuel : nat) (s : Store) (search_stack : list nat)
  : result Store :=
  match fuel with
  | 0 => OutOfFuel
  | S fuel' =>
      match search_stack with
      | [] => Ok s
      | nd :: rest =>
          n ← get s nd;
          let '(s', stack') := generate_step s rest nd (item n) in
          generate_loop fuel' s' stack'
      end
  end.

Definition generate_nodes (fuel : nat) (counter : nat) : result (nat * Store) :=
  let top_node :=
    alloc (mkStore counter []) (mkNode None (Instance (top_instance netlist)) []) in
  s' ← generate_loop fuel top_node.2 [top_node.1];
  Ok (top_node.1, s').

(** *** get_leaf_instance_nodes *)

Fixpoint leaf_loop (fuel : nat) (s : Store) (search_stack : list nat)
    (leaf_instance_nodes : list nat) : result (list nat) :=
  match fuel with
  | 0 => OutOfFuel
  | S fuel' =>
      match search_stack with
      | [] => Ok leaf_instance_nodes
      | current_node :: rest =>
          n ← get s current_node;
          match item n with
          | Instance i =>
              if is_leaf netlist (reference netlist i)
              then leaf_loop fuel' s rest (leaf_instance_nodes ++ [current_node])
              else leaf_loop fuel' s (reverse (children n).*2 ++ rest)
                     leaf_instance_nodes
          | _ => leaf_loop fuel' s rest leaf_instance_nodes
          end
      end
  end.

Definition get_leaf_instance_nodes (fuel : nat) (s : Store)
    (top_instance_node : nat) : result (list nat) :=
  leaf_loop fuel s [top_instance_node] [].

(** *** get_top_port_nodes *)

Definition is_Port (e : Element) : bool :=
  match e with Port _ => true | _ => false end.

Definition get_top_port_nodes (s : Store) (top_instance_node : nat)
  : result (list nat) :=
  n ← get s top_instance_node;
  Ok (filter (λ kv, is_Port kv.1) (children n)).*2.

(** *** get_downstream_nodes *)

Definition mark (pin_node : nat) (st : Search) : Search :=
  mkSearch ({[pin_node]} ∪ found_pin_nodes st) (search_stack st)
           (downstream_nodes st).
Definition push (wire_node : nat) (st : Search) : Search :=
  mkSearch (found_pin_nodes st) (wire_node :: search_stack st)
           (downstream_nodes st).
Definition emit (n : nat) (st : Search) : Search :=
  mkSearch (found_pin_nodes st) (search_stack st) (downstream_nodes st ++ [n]).

Definition drives (d : Direction) : bool :=
  match d with OUT | INOUT => true | _ => false end.
Definition receives (d : Direction) : bool :=
  match d with IN | INOUT => true | _ => false end.

(** Body of [for pin in instance.pins] (seed step, instance case). *)
Definition seed_instance_pin (s : Store) (nd : nat)
    (parent_instance : option nat) (st : Search) (pin : nat) : result Search :=
  let ip := inner_pin netlist pin in
  match outer_wire netlist pin with
  | Some wire =>
      if drives (direction netlist (port netlist ip)) then
        port_node ← child_of s (Some nd) (Port (port netlist ip));
        pin_node ← child_of s (Some port_node) (InnerPin ip);
        cable_node ← child_of s parent_instance (Cable (cable netlist wire));
        wire_node ← child_of s (Some cable_node) (Wire wire);
        Ok (push wire_node (mark pin_node st))
      else Ok st
  | None => Ok st
  end.

(** Body of [for pin in port.pins] (seed step, port case). *)
Definition seed_port_pin (s : Store) (nd : nat)
    (parent_instance : option nat) (st : Search) (pin : nat) : result Search :=
  match inner_wire netlist pin with
  | Some wire =>
      pin_node ← child_of s (Some nd) (InnerPin pin);
      cable_node ← child_of s parent_instance (Cable (cable netlist wire));
      wire_node ← child_of s (Some cable_node) (Wire wire);
      Ok (push wire_node (mark pin_node st))
  | None => Ok st
  end.

Definition seeds (s : Store) (nd : nat) (include_top_ports : bool)
  : result Search :=
  let st := mkSearch ∅ [] [] in
  n ← get s nd;
  match item n with
  | Instance i =>
      fold_result (seed_instance_pin s nd (parent n)) st (instance_pins netlist i)
  | Port p =>
      if include_top_ports then
        if receives (direction netlist p)
        then fold_result (seed_port_pin s nd (parent n)) st (port_pins netlist p)
        else Ok st
      else Ok st
  | _ => Ok st
  end.

(** [x.pins] for the element a node wraps. *)
Definition pins_of (it : Element) : result (list Pin) :=
  match it with
  | Wire w => Ok (wire_pins netlist w)
  | Port p => Ok (Inner <$> port_pins netlist p)
  | Instance i => Ok (Outer <$> instance_pins netlist i)
  | _ => Raise AttributeError
  end.

(** [x.pins[pin]] for the element a node wraps. *)
Definition outer_pin_of (it : Element) (pin : nat) : result nat :=
  match it with
  | Instance i =>
      match instance_pin_of netlist i pin with
      | Some o => Ok o
      | None => Raise KeyError
      end
  | Port _ | Wire _ => Raise TypeError
  | _ => Raise AttributeError
  end.

(** Body of [for pin in current_wire.pins]. *)
Definition visit_pin (s : Store) (include_top_ports : bool)
    (current_instance_node : option nat) (st : Search) (pin : Pin)
  : result Search :=
  match pin with
  | Inner p =>
      port_node ← child_of s current_instance_node (Port (port netlist p));
      pin_node ← child_of s (Some port_node) (InnerPin p);
      if decide (pin_node ∈ found_pin_nodes st) then Ok st
      else
        let st := mark pin_node st in
        cur ← deref s current_instance_node;
        match parent cur with
        | Some current_instance_parent_node =>
            outer_pin ← outer_pin_of (item cur) p;
            match outer_wire netlist outer_pin with
            | Some wire =>
                cable_node ← child_of s (Some current_instance_parent_node)
                               (Cable (cable netlist wire));
                wire_node ← child_of s (Some cable_node) (Wire wire);
                Ok (push wire_node st)
            | None => Ok st
            end
        | None =>
            if include_top_ports then Ok (emit port_node st) else Ok st
        end
  | Outer o =>
      let inst := instance netlist o in
      instance_node ← child_of s current_instance_node (Instance inst);
      if is_leaf netlist (reference netlist inst) then Ok (emit instance_node st)
      else
        let ip := inner_pin netlist o in
        port_node ← child_of s (Some instance_node) (Port (port netlist ip));
        pin_node ← child_of s (Some port_node) (InnerPin ip);
        let st := mark pin_node st in
        match inner_wire netlist ip with
        | Some wire =>
            cable_node ← child_of s (Some instance_node) (Cable (cable netlist wire));
            wire_node ← child_of s (Some cable_node) (Wire wire);
            Ok (push wire_node st)
        | None => Ok st
        end
  end.

(** One iteration of [while search_stack], after the [pop]. *)
Definition visit_wire (s : Store) (include_top_ports : bool)
    (current_wire_node : nat) (st : Search) : result Search :=
  wn ← get s current_wire_node;
  current_cable_node ← deref s (parent wn);
  let current_instance_node := parent current_cable_node in
  pins ← pins_of (item wn);
  fold_result (visit_pin s include_top_ports current_instance_node) st pins.

Fixpoint traverse (fuel : nat) (s : Store) (include_top_ports : bool)
    (st : Search) : result (list nat) :=
  match fuel with
  | 0 => OutOfFuel
  | S fuel' =>
      match search_stack st with
      | [] => Ok (downstream_nodes st)
      | current_wire_node :: rest =>
          st' ← visit_wire s include_top_ports current_wire_node
                  (mkSearch (found_pin_nodes st) rest (downstream_nodes st));
          traverse fuel' s include_top_ports st'
      end
  end.

Definition get_downstream_nodes (fuel : nat) (s : Store) (nd : nat)
    (include_top_ports : bool) : result (list nat) :=
  st ← seeds s nd include_top_ports;
  traverse fuel s include_top_ports st.

(** *** get_connectivity_graph *)

Definition add_edges_from (g : DiGraph) (u : nat) (vs : list nat) : DiGraph :=
  foldl (λ g v, add_edge g u v) g vs.

Definition connect (fuel : nat) (s : Store) (include_top_ports : bool)
    (g : DiGraph) (nd : nat) : result DiGraph :=
  ds ← get_downstream_nodes fuel s nd include_top_ports;
  Ok (add_edges_from g nd ds).

Definition get_connectivity_graph (fuel : nat) (include_top_ports : bool)
    (counter : nat) : result (DiGraph * Store) :=
  '(top_instance_node, s) ← generate_nodes fuel counter;
  leaf_instance_nodes ← get_leaf_instance_nodes fuel s top_instance_node;
  let g := add_nodes_from (mkDiGraph [] []) leaf_instance_nodes in
  g ← (if include_top_ports
        then top_port_nodes ← get_top_port_nodes s top_instance_node;
             Ok (add_nodes_from g top_port_nodes)
        else Ok g);
  g ← fold_result (connect fuel s include_top_ports) g (g_nodes g);
  Ok (g, s).
End Program.


(** ** Naming utility: Node.get_name and Node.get_hiearchical_name *)

Section Naming.
Context (netlist : Netlist).

(** The value returned by [get_name]: a string, or Python's [None] when
    the method falls off its end. *)
Definition get_name (n : Node) : option string :=
  match attr netlist (item n) "EDIF.original_identifier" with
  | Some v => Some v
  | None =>
      match attr netlist (item n) "EDIF.identifier" with
      | Some v => Some v
      | None => None
      end
  end.

(** [while parent: parents.append(parent); parent = parent.parent] *)
Fixpoint ancestors (fuel : nat) (s : Store) (p : option nat)
  : result (list Node) :=
  match p with
  | None => Ok []
  | Some a =>
      match fuel with
      | 0 => OutOfFuel
      | S fuel' =>
          nd ← get s a;
          rest ← ancestors fuel' s (parent nd);
          Ok (nd :: rest)
      end
  end.

(** [sep.join(l)]; an item that is [None] is a [TypeError]. *)
Fixpoint join (sep : string) (l : list (option string)) : result string :=
  match l with
  | [] => Ok ""
  | None :: _ => Raise TypeError
  | Some x :: l' =>
      match l' with
      | [] => Ok x
      | _ => rest ← join sep l'; Ok (x +:+ sep +:+ rest)
      end
  end.

(** [l.index(x)] *)
Definition index (l : list nat) (x : nat) : result nat :=
  match list_find (λ y, y = x) l with
  | Some (i, _) => Ok i
  | None => Raise ValueError
  end.

(** How [str.format] prints a value that may be [None]. *)
Definition str (v : option string) : string := default "None" v.

Definition bracket (prefix : string) (i : nat) : string :=
  prefix +:+ "[" +:+ pretty i +:+ "]".

Definition get_hiearchical_name (fuel : nat) (s : Store) (n : nat)
  : result (option string) :=
  self ← get s n;
  parents ← ancestors fuel s (parent self);
  prefix ← join "/" (get_name <$> reverse parents);
  match item self with
  | Wire w =>
      i ← index (wires netlist (cable netlist w)) w;
      Ok (Some (bracket prefix i))
  | InnerPin p =>
      i ← index (port_pins netlist (port netlist p)) p;
      Ok (Some (bracket prefix i))
  | _ =>
      if decide (prefix = "") then Ok (get_name self)
      else Ok (Some (prefix +:+ "/" +:+ str (get_name self)))
  end.
End Naming.


(** ** Measures on the store *)

(** Number of ancestors of the node at [n]. *)
Fixpoint depth_aux (fuel : nat) (s : Store) (n : nat) : nat :=
  match fuel with
  | 0 => 0
  | S fuel' =>
      match node s n with
      | Some nd =>
          match parent nd with
          | Some p => S (depth_aux fuel' s p)
          | None => 0
          end
      | None => 0
      end
  end.

Definition depth (s : Store) (n : nat) : nat := depth_aux (S n) s n.

(** How far below the deepest possible level a stored node is; 0 for an
    address that holds no node. *)
Definition weight (s : Store) (n : nat) : nat :=
  match node s n with
  | Some _ => limit s - depth s n
  | None => 0
  end.

(** Number of stored nodes that are not in the visited set. *)
Definition unfound (s : Store) (found : gset nat) : nat :=
  length (filter (λ n, n ∉ found) (seq (base s) (length (cells s)))).

(** What one iteration of the search loop on the wire node [w] achieves:
    the visited set only grows, and either it grows by a stored node or
    every node pushed lies deeper than [w]. *)
Definition progress (s : Store) (w : nat) (st st' : Search) : Prop :=
  found_pin_nodes st ⊆ found_pin_nodes st'
  ∧ ∃ new, search_stack st' = new ++ search_stack st
      ∧ (unfound s (found_pin_nodes st') < unfound s (found_pin_nodes st)
         ∨ ∀ x, x ∈ new → weight s x < weight s w).

(** The node at [wn] wraps the wire [w]. *)
Definition wraps_wire (s : Store) (wn w : nat) : Prop :=
  ∃ wd, node s wn = Some wd ∧ item wd = Wire w.

(** The search state [st'] is [st] without the top port nodes [tops] among
    its results. *)
Definition drop_ports (tops : list nat) (st st' : Search) : Prop :=
  found_pin_nodes st' = found_pin_nodes st
  ∧ search_stack st' = search_stack st
  ∧ downstream_nodes st' = filter (λ d, d ∉ tops) (downstream_nodes st).

(** The graph [g] after the removal of the nodes [tops] and of every edge
    that has one of them as an end point. *)
Definition remove_nodes (tops : list nat) (g : DiGraph) : DiGraph :=
  mkDiGraph (filter (λ n, n ∉ tops) (g_nodes g))
            (filter (λ e, e.1 ∉ tops ∧ e.2 ∉ tops) (g_edges g)).

(** ** Renaming of node addresses

    What a run allocates depends on the allocation counter it starts
    from; [shift δ] moves every address by [δ]. *)

Definition shift (δ n : nat) : nat := n + δ.

Definition shift_dict (δ : nat) (d : list (Element * nat)) : list (Element * nat) :=
  prod_map id (shift δ) <$> d.

Definition shift_node (δ : nat) (nd : Node) : Node :=
  mkNode (shift δ <$> parent nd) (item nd) (shift_dict δ (children nd)).

Definition shift_store (δ : nat) (s : Store) : Store :=
  mkStore (shift δ (base s)) (shift_node δ <$> cells s).

Definition shift_search (δ : nat) (st : Search) : Search :=
  mkSearch (set_map (C:=gset nat) (D:=gset nat) (shift δ) (found_pin_nodes st))
           (shift δ <$> search_stack st)
           (shift δ <$> downstream_nodes st).

Definition shift_graph (δ : nat) (g : DiGraph) : DiGraph :=
  mkDiGraph (shift δ <$> g_nodes g)
            (prod_map (shift δ) (shift δ) <$> g_edges g).

(** The hierarchical path of the node at [n]: the elements wrapped by its
    ancestors, from the root down, and by the node itself. *)
Fixpoint path_aux (fuel : nat) (s : Store) (n : nat) : list Element :=
  match fuel with
  | 0 => []
  | S fuel' =>
      match node s n with
      | Some nd =>
          match parent nd with
          | Some p => path_aux fuel' s p ++ [item nd]
          | None => [item nd]
          end
      | None => []
      end
  end.

Definition path (s : Store) (n : nat) : list Element :=
  path_aux (length (cells s)) s n.

(** A result that is not a loop running out of fuel. *)
Definition finished {A} (r : result A) : Prop := r ≠ OutOfFuel.

(** ** Two calls in a row *)

(** [g1 = get_connectivity_graph(flag); g2 = get_connectivity_graph(flag)]:
    the second call allocates its nodes after those of the first. *)
Definition get_connectivity_graph_twice (netlist : Netlist) (fuel : nat)
    (include_top_ports : bool) (counter : nat)
  : result ((DiGraph * Store) * (DiGraph * Store)) :=
  r1 ← get_connectivity_graph netlist fuel include_top_ports counter;
  r2 ← get_connectivity_graph netlist fuel include_top_ports (limit r1.2);
  Ok (r1, r2).

(** ** The shape of the tree of nodes *)

Section Shape.
Context (netlist : Netlist).

(** The elements whose nodes [generate_nodes] hangs under a node that
    wraps [it]. *)
Definition elements_of (it : Element) : list Element :=
  match it with
  | Instance i =>
      let ref := reference netlist i in
      (Port <$> ports netlist ref) ++ (Cable <$> cables netlist ref)
        ++ (Instance <$> def_children netlist ref)
  | Port p => InnerPin <$> port_pins netlist p
  | Cable c => Wire <$> wires netlist c
  | _ => []
  end.

(** Parent/child consistency of the nodes of a store whose root is [top]. *)
Record tree_ok (s : Store) (top : nat) : Prop := {
  tree_root : ∃ rd, node s top = Some rd ∧ parent rd = None
                    ∧ item rd = Instance (top_instance netlist);
  tree_top : ∀ n nd, node s n = Some nd → parent nd = None → n = top;
  tree_child : ∀ n nd e c,
    node s n = Some nd → dict_get (children nd) e = Some c →
    ∃ cd, node s c = Some cd ∧ parent cd = Some n ∧ item cd = e;
  tree_parent : ∀ n nd p,
    node s n = Some nd → parent nd = Some p → p < n ∧ is_Some (node s p);
  tree_keys : ∀ n nd e,
    node s n = Some nd → is_Some (dict_get (children nd) e) →
    e ∈ elements_of (item nd);
  tree_dict : ∀ n nd, node s n = Some nd → NoDup (children nd).*1
}.

(** The nodes [get_leaf_instance_nodes] visits: those reached from the
    root through the dictionaries of instances that are not leaves. *)
Inductive visited (s : Store) (top : nat) : nat → Prop :=
| visited_top : visited s top top
| visited_child p pd i e c :
    visited s top p → node s p = Some pd → item pd = Instance i →
    is_leaf netlist (reference netlist i) = false →
    dict_get (children pd) e = Some c → visited s top c.

(** The node at [n] wraps an instance of a leaf definition. *)
Definition leaf_node (s : Store) (n : nat) : Prop :=
  ∃ nd i, node s n = Some nd ∧ item nd = Instance i
          ∧ is_leaf netlist (reference netlist i) = true.

(** The node at [n] wraps a port and is a direct child of the root. *)
Definition top_port_node (s : Store) (top n : nat) : Prop :=
  ∃ td p, node s top = Some td ∧ dict_get (children td) (Port p) = Some n.

(** The node at [n] has a child for each element it should have. *)
Definition expanded (s : Store) (n : nat) : Prop :=
  ∀ nd e, node s n = Some nd → e ∈ elements_of (item nd) →
          is_Some (dict_get (children nd) e).

(** Every node is registered in the dictionary of its parent. *)
Definition registered (s : Store) : Prop :=
  ∀ c cd p, node s c = Some cd → parent cd = Some p →
    ∃ pd, node s p = Some pd ∧ dict_get (children pd) (item cd) = Some c.

(** The invariant of [while search_stack] in [generate_nodes]: the
    nodes still on the stack exist, all others have their children. *)
Definition gen_inv (s : Store) (stack : list nat) (top : nat) : Prop :=
  tree_ok s top
  ∧ (∀ n, n ∈ stack → is_Some (node s n))
  ∧ (∀ n, n ∉ stack → expanded s n).

(** With no element listed twice, every node stays registered in its
    parent: the nodes on the stack have no children yet. *)
Definition reg_inv (s : Store) (stack : list nat) : Prop :=
  registered s ∧ NoDup stack
  ∧ (∀ m c cd, m ∈ stack → node s c = Some cd → parent cd ≠ Some m).

(** [c] is the node registered for element [e] in the dictionary of the
    node at [n], and points back to it. *)
Definition kid (s : Store) (n : nat) (e : Element) (c : nat) : Prop :=
  ∃ nd cd, node s n = Some nd ∧ dict_get (children nd) e = Some c
           ∧ node s c = Some cd ∧ parent cd = Some n ∧ item cd = e.

(** The cases of the body of [for pin in current_wire.pins] that do not
    raise, with the nodes they look up. *)
Inductive pin_step (s : Store) (include_top_ports : bool) (cur : nat)
    (st : Search) : Pin → Search → Prop :=
| step_skip p port_node pin_node :
    kid s cur (Port (port netlist p)) port_node →
    kid s port_node (InnerPin p) pin_node →
    pin_node ∈ found_pin_nodes st →
    pin_step s include_top_ports cur st (Inner p) st
| step_up p port_node pin_node curd par o w cable_node wire_node :
    kid s cur (Port (port netlist p)) port_node →
    kid s port_node (InnerPin p) pin_node →
    pin_node ∉ found_pin_nodes st →
    node s cur = Some curd → parent curd = Some par →
    outer_pin_of netlist (item curd) p = Ok o →
    outer_wire netlist o = Some w →
    kid s par (Cable (cable netlist w)) cable_node →
    kid s cable_node (Wire w) wire_node →
    pin_step s include_top_ports cur st (Inner p)
      (push wire_node (mark pin_node st))
| step_up_open p port_node pin_node curd par o :
    kid s cur (Port (port netlist p)) port_node →
    kid s port_node (InnerPin p) pin_node →
    pin_node ∉ found_pin_nodes st →
    node s cur = Some curd → parent curd = Some par →
    outer_pin_of netlist (item curd) p = Ok o →
    outer_wire netlist o = None →
    pin_step s include_top_ports cur st (Inner p) (mark pin_node st)
| step_top p port_node pin_node curd :
    kid s cur (Port (port netlist p)) port_node →
    kid s port_node (InnerPin p) pin_node →
    pin_node ∉ found_pin_nodes st →
    node s cur = Some curd → parent curd = None →
    pin_step s include_top_ports cur st (Inner p)
      (if include_top_ports then emit port_node (mark pin_node st)
       else mark pin_node st)
| step_leaf o instance_node :
    kid s cur (Instance (instance netlist o)) instance_node →
    is_leaf netlist (reference netlist (instance netlist o)) = true →
    pin_step s include_top_ports cur st (Outer o) (emit instance_node st)
| step_down o instance_node port_node pin_node w cable_node wire_node :
    kid s cur (Instance (instance netlist o)) instance_node →
    is_leaf netlist (reference netlist (instance netlist o)) = false →
    kid s instance_node (Port (port netlist (inner_pin netlist o))) port_node →
    kid s port_node (InnerPin (inner_pin netlist o)) pin_node →
    inner_wire netlist (inner_pin netlist o) = Some w →
    kid s instance_node (Cable (cable netlist w)) cable_node →
    kid s cable_node (Wire w) wire_node →
    pin_step s include_top_ports cur st (Outer o)
      (push wire_node (mark pin_node st))
| step_down_open o instance_node port_node pin_node :
    kid s cur (Instance (instance netlist o)) instance_node →
    is_leaf netlist (reference netlist (instance netlist o)) = false →
    kid s instance_node (Port (port netlist (inner_pin netlist o))) port_node →
    kid s port_node (InnerPin (inner_pin netlist o)) pin_node →
    inner_wire netlist (inner_pin netlist o) = None →
    pin_step s include_top_ports cur st (Outer o) (mark pin_node st).

(** What a graph node wraps: an instance of a leaf definition, or, with
    top ports enabled, a port directly under the root. *)
Definition wraps_selected (s : Store) (top : nat) (include_top_ports : bool)
    (d : nat) : Prop :=
  ∃ dd, node s d = Some dd
    ∧ ((∃ i, item dd = Instance i
             ∧ is_leaf netlist (reference netlist i) = true)
       ∨ (include_top_ports = true
          ∧ ∃ p, item dd = Port p ∧ parent dd = Some top)).

(** The nodes [get_connectivity_graph] selects as graph nodes. *)
Definition selected (s : Store) (top : nat) (include_top_ports : bool)
    (d : nat) : Prop :=
  (visited s top d ∧ leaf_node s d)
  ∨ (include_top_ports = true ∧ top_port_node s top d).

(** A wire node whose cable lies in a visited instance node. *)
Definition under_visited (s : Store) (top : nat) (w : nat) : Prop :=
  ∃ wd cab cabd cur, node s w = Some wd ∧ parent wd = Some cab
    ∧ node s cab = Some cabd ∧ parent cabd = Some cur ∧ visited s top cur.

(** The invariant of a downstream search that starts at a selected node. *)
Definition search_inv (s : Store) (top : nat) (include_top_ports : bool)
    (st : Search) : Prop :=
  (∀ w, w ∈ search_stack st → under_visited s top w)
  ∧ (∀ d, d ∈ downstream_nodes st → selected s top include_top_ports d).

(** A downstream search halts: some amount of fuel lets the loop finish,
    with a result or with an exception. *)
Definition halts (s : Store) (include_top_ports : bool) (st : Search) : Prop :=
  ∃ fuel, traverse netlist fuel s include_top_ports st ≠ OutOfFuel.

(** No element is listed twice by the netlist. *)
Definition listed_once : Prop :=
  ∀ it, NoDup (elements_of it).

(** A leaf definition has no child instances. *)
Definition leaf_childless : Prop :=
  ∀ d, is_leaf netlist d = true → def_children netlist d = [].
End Shape.


(** ** Finite hierarchy depth *)

(** The hierarchy is finite in depth: the definitions can be ranked so
    that every definition ranks above the definitions of its child
    instances. *)
Definition ranked (netlist : Netlist) (rank : nat → nat) : Prop :=
  ∀ d i, i ∈ def_children netlist d → rank (reference netlist i) < rank d.

(** How many levels of nodes hang under a node that wraps [it]. *)
Definition level (netlist : Netlist) (rank : nat → nat) (it : Element) : nat :=
  match it with
  | Instance i => 2 * rank (reference netlist i) + 2
  | Port _ | Cable _ => 1
  | Wire _ | InnerPin _ => 0
  end.

(** The store [s'] has the nodes of [s], wrapping the same elements. *)
Definition extends (s s' : Store) : Prop :=
  ∀ n nd, node s n = Some nd → ∃ nd', node s' n = Some nd' ∧ item nd' = item nd.

(** The loop of [generate_nodes] finishes from the store [s] and the stack
    [stack]. *)
Definition generates (netlist : Netlist) (s : Store) (stack : list nat) : Prop :=
  ∃ fuel s', generate_loop netlist fuel s stack = Ok s'.

(** The netlist with other attributes on its elements. *)
Definition with_attr (netlist : Netlist) (a : Element → string → option string)
  : Netlist :=
  mkNetlist (top_instance netlist) (reference netlist) (instance_pins netlist)
    (instance_pin_of netlist) (is_leaf netlist) (ports netlist)
    (cables netlist) (def_children netlist) (direction netlist)
    (port_pins netlist) (wires netlist) (cable netlist) (wire_pins netlist)
    (port netlist) (inner_wire netlist) (inner_pin netlist) (instance netlist)
    (outer_wire netlist) a.

(** Every wire names the cable that lists it, every pin the port that
    lists it. *)
Definition owned (netlist : Netlist) : Prop :=
  (∀ c w, w ∈ wires netlist c → cable netlist w = c)
  ∧ (∀ p q, q ∈ port_pins netlist p → port netlist q = p).

(** ** The scenario netlist

    One top instance (instance 0 of definition 0) with an input port
    [P_in] (port 0) and an output port [P_out] (port 1), holding two
    instances [A] (1) and [B] (2) of one leaf definition (1) with an input
    port (2) and an output port (3).  Wire 0 joins [P_in] to the input of
    [A], wire 1 the output of [A] to the input of [B], wire 2 the output
    of [B] to [P_out].  Outer pins: 0, 1 on [A], 2, 3 on [B], 4, 5 on the
    top instance (unconnected). *)
Module Scenario.
Definition names (e : Element) (k : string) : option string :=
  if decide (k = "EDIF.identifier") then
    match e with
    | Instance 0 => Some "top"
    | Instance 1 => Some "A"
    | Instance 2 => Some "B"
    | Port 0 => Some "P_in"
    | Port 1 => Some "P_out"
    | Port 2 => Some "I"
    | Port 3 => Some "O"
    | Cable 0 => Some "P_in"
    | Cable 1 => Some "n1"
    | Cable 2 => Some "P_out"
    | _ => None
    end
  else None.

Definition netlist : Netlist := {|
  top_instance := 0;
  reference := λ i, match i with 0 => 0 | _ => 1 end;
  instance_pins := λ i,
    match i with 0 => [4; 5] | 1 => [0; 1] | 2 => [2; 3] | _ => [] end;
  instance_pin_of := λ i p,
    match i, p with
    | 0, 0 => Some 4 | 0, 1 => Some 5
    | 1, 2 => Some 0 | 1, 3 => Some 1
    | 2, 2 => Some 2 | 2, 3 => Some 3
    | _, _ => None
    end;
  is_leaf := λ d, match d with 0 => false | _ => true end;
  ports := λ d, match d with 0 => [0; 1] | 1 => [2; 3] | _ => [] end;
  cables := λ d, match d with 0 => [0; 1; 2] | _ => [] end;
  def_children := λ d, match d with 0 => [1; 2] | _ => [] end;
  direction := λ p, match p with 0 | 2 => IN | 1 | 3 => OUT | _ => UNDEFINED end;
  port_pins := λ p, match p with 0 | 1 | 2 | 3 => [p] | _ => [] end;
  wires := λ c, match c with 0 | 1 | 2 => [c] | _ => [] end;
  cable := λ w, w;
  wire_pins := λ w,
    match w with
    | 0 => [Inner 0; Outer 0]
    | 1 => [Outer 1; Outer 2]
    | 2 => [Outer 3; Inner 1]
    | _ => []
    end;
  port := λ p, p;
  inner_wire := λ p, match p with 0 => Some 0 | 1 => Some 2 | _ => None end;
  inner_pin := λ o, match o with 0 | 2 => 2 | 1 | 3 => 3 | 4 => 0 | _ => 1 end;
  instance := λ o, match o with 0 | 1 => 1 | 2 | 3 => 2 | _ => 0 end;
  outer_wire := λ o,
    match o with 0 => Some 0 | 1 | 2 => Some 1 | 3 => Some 2 | _ => None end;
  attr := names
|}.

(** The same netlist with no identifier on the instance [A]. *)
Definition unnamed : Netlist :=
  with_attr netlist
    (λ e k, if decide (e = Instance 1) then None else names e k).

(** The tree [generate_nodes] builds from counter 0: the root is node 0,
    [P_in] node 1, [P_out] node 2, [A] node 6 and [B] node 7. *)
Definition store : Store :=
  Eval vm_compute in
    match generate_nodes netlist 30 0 with
    | Ok (_, s) => s
    | _ => mkStore 0 []
    end.

Definition root_node : Node :=
  mkNode None (Instance 0)
    [(Port 0, 1); (Port 1, 2); (Cable 0, 3); (Cable 1, 4); (Cable 2, 5);
     (Instance 1, 6); (Instance 2, 7)].
Definition A_node : Node :=
  mkNode (Some 0) (Instance 1) [(Port 2, 12); (Port 3, 13)].
Definition wire0_node : Node := mkNode (Some 3) (Wire 0) [].

Definition graph_with_ports : DiGraph :=
  mkDiGraph [7; 6; 1; 2] [(7, 7); (7, 2); (6, 6); (6, 7); (1, 6)].
Definition graph_without_ports : DiGraph :=
  mkDiGraph [7; 6] [(7, 7); (6, 6); (6, 7)].
(** The graph of a second call with top ports, made after the first. *)
Definition second_graph : DiGraph :=
  mkDiGraph [28; 27; 22; 23]
            [(28, 28); (28, 23); (27, 27); (27, 28); (22, 27)].
End Scenario.

(** ** A netlist with hierarchy and feedback

    The top instance (0, of definition 0) has the ports [P_in] (0) and
    [P_out] (1) and holds two instances [X] (1) and [Y] (2) of one
    definition (1) that is not a leaf: it has an input port (2), an
    output port (3) and one instance [L] (3) of a leaf definition (2) with
    an input port (4) and an output port (5).  Inside definition 1, wire 3
    joins the input port to the input of [L], wire 4 the output of [L] to
    the output port.  At the top, wire 1 joins the output of [X] to the
    input of [Y]; wire 0 joins the output of [Y] back to the input of [X]
    and to [P_out]; wire 2 hangs on [P_in] alone.  Outer pins: 0, 1 on
    [X], 2, 3 on [Y], 4, 5 on [L], 6, 7 on the top instance. *)
Module Feedback.
Definition names (e : Element) (k : string) : option string :=
  if decide (k = "EDIF.identifier") then
    match e with
    | Instance 0 => Some "top"
    | Instance 1 => Some "X"
    | Instance 2 => Some "Y"
    | Instance 3 => Some "L"
    | Port 0 => Some "P_in"
    | Port 1 => Some "P_out"
    | Port 2 | Port 4 => Some "a"
    | Port 3 | Port 5 => Some "z"
    | Cable c => Some ("n" +:+ pretty c)
    | _ => None
    end
  else None.

Definition netlist : Netlist := {|
  top_instance := 0;
  reference := λ i, match i with 0 => 0 | 1 | 2 => 1 | _ => 2 end;
  instance_pins := λ i,
    match i with
    | 0 => [6; 7] | 1 => [0; 1] | 2 => [2; 3] | 3 => [4; 5] | _ => []
    end;
  instance_pin_of := λ i p,
    match i, p with
    | 0, 0 => Some 6 | 0, 1 => Some 7
    | 1, 2 => Some 0 | 1, 3 => Some 1
    | 2, 2 => Some 2 | 2, 3 => Some 3
    | 3, 4 => Some 4 | 3, 5 => Some 5
    | _, _ => None
    end;
  is_leaf := λ d, match d with 0 | 1 => false | _ => true end;
  ports := λ d,
    match d with 0 => [0; 1] | 1 => [2; 3] | 2 => [4; 5] | _ => [] end;
  cables := λ d, match d with 0 => [0; 1; 2] | 1 => [3; 4] | _ => [] end;
  def_children := λ d, match d with 0 => [1; 2] | 1 => [3] | _ => [] end;
  direction := λ p,
    match p with 0 | 2 | 4 => IN | 1 | 3 | 5 => OUT | _ => UNDEFINED end;
  port_pins := λ p, match p with 0 | 1 | 2 | 3 | 4 | 5 => [p] | _ => [] end;
  wires := λ c, match c with 0 | 1 | 2 | 3 | 4 => [c] | _ => [] end;
  cable := λ w, w;
  wire_pins := λ w,
    match w with
    | 0 => [Outer 3; Outer 0; Inner 1]
    | 1 => [Outer 1; Outer 2]
    | 2 => [Inner 0]
    | 3 => [Inner 2; Outer 4]
    | 4 => [Outer 5; Inner 3]
    | _ => []
    end;
  port := λ p, p;
  inner_wire := λ p,
    match p with
    | 0 => Some 2 | 1 => Some 0 | 2 => Some 3 | 3 => Some 4 | _ => None
    end;
  inner_pin := λ o,
    match o with
    | 0 | 2 => 2 | 1 | 3 => 3 | 4 => 4 | 5 => 5 | 6 => 0 | _ => 1
    end;
  instance := λ o,
    match o with 0 | 1 => 1 | 2 | 3 => 2 | 4 | 5 => 3 | _ => 0 end;
  outer_wire := λ o,
    match o with
    | 0 | 3 => Some 0 | 1 | 2 => Some 1 | 4 => Some 3 | 5 => Some 4
    | _ => None
    end;
  attr := names
|}.

(** The tree [generate_nodes] builds from counter 0: [X] is node 6, [Y]
    node 7, the [L] inside [X] node 25, the [L] inside [Y] node 12, the
    input port of [X] node 21. *)
Definition store : Store :=
  Eval vm_compute in
    match generate_nodes netlist 60 0 with
    | Ok (_, s) => s
    | _ => mkStore 0 []
    end.

Definition graph_with_ports : DiGraph :=
  mkDiGraph [12; 25; 1; 2] [(12, 12); (12, 2); (12, 25); (25, 25); (25, 12)].
End Feedback.


(** ** Hierarchical paths of the netlist *)

(** The paths of the hierarchy: the top instance alone, or a path
    followed by an element that is listed under its last element. *)
Inductive hierarchical_path (netlist : Netlist) : list Element → Prop :=
| path_top : hierarchical_path netlist [Instance (top_instance netlist)]
| path_down l e e' :
    hierarchical_path netlist (l ++ [e]) → e' ∈ elements_of netlist e →
    hierarchical_path netlist ((l ++ [e]) ++ [e']).

(** ** Consistent cross-references

    What the look-ups of [get_downstream_nodes] ask of the netlist: the
    objects that pins, wires and instances name are listed where the
    code looks for their nodes. *)
Record consistent (netlist : Netlist) : Prop := {
  (** an inner pin on a wire of a definition belongs to a port of that
      definition *)
  wire_inner_pin : ∀ d c w p,
    c ∈ cables netlist d → w ∈ wires netlist c →
    Inner p ∈ wire_pins netlist w →
    port netlist p ∈ ports netlist d
    ∧ p ∈ port_pins netlist (port netlist p);
  (** an outer pin on a wire of a definition belongs to a child instance
      of that definition, and its inner pin to a port of the definition
      of that instance *)
  wire_outer_pin : ∀ d c w o,
    c ∈ cables netlist d → w ∈ wires netlist c →
    Outer o ∈ wire_pins netlist w →
    instance netlist o ∈ def_children netlist d
    ∧ port netlist (inner_pin netlist o)
        ∈ ports netlist (reference netlist (instance netlist o))
    ∧ inner_pin netlist o
        ∈ port_pins netlist (port netlist (inner_pin netlist o));
  (** the wire of an inner pin of a definition is a wire of a cable of
      that definition *)
  inner_pin_wire : ∀ d p q w,
    p ∈ ports netlist d → q ∈ port_pins netlist p →
    inner_wire netlist q = Some w →
    cable netlist w ∈ cables netlist d
    ∧ w ∈ wires netlist (cable netlist w);
  (** a child instance has an outer pin for every inner pin of its
      definition, wired, if at all, in the definition that holds the
      instance *)
  instance_outer_pin : ∀ d i p q,
    i ∈ def_children netlist d → p ∈ ports netlist (reference netlist i) →
    q ∈ port_pins netlist p →
    ∃ o, instance_pin_of netlist i q = Some o
         ∧ ∀ w, outer_wire netlist o = Some w →
                cable netlist w ∈ cables netlist d
                ∧ w ∈ wires netlist (cable netlist w);
  (** the connected driving pins of a child instance *)
  driving_pin : ∀ d i o w,
    i ∈ def_children netlist d → o ∈ instance_pins netlist i →
    outer_wire netlist o = Some w →
    drives (direction netlist (port netlist (inner_pin netlist o))) = true →
    port netlist (inner_pin netlist o) ∈ ports netlist (reference netlist i)
    ∧ inner_pin netlist o
        ∈ port_pins netlist (port netlist (inner_pin netlist o))
    ∧ cable netlist w ∈ cables netlist d
    ∧ w ∈ wires netlist (cable netlist w);
  (** a top instance that is a leaf drives no wire *)
  top_pin : ∀ o w,
    is_leaf netlist (reference netlist (top_instance netlist)) = true →
    o ∈ instance_pins netlist (top_instance netlist) →
    outer_wire netlist o = Some w →
    drives (direction netlist (port netlist (inner_pin netlist o))) = false
}.

(** Every node on the stack of the search wraps a wire. *)
Definition wires_only (s : Store) (st : Search) : Prop :=
  ∀ x, x ∈ search_stack st → ∃ w, wraps_wire s x w.

(** ** Names of elements *)

(** The name [get_name] finds for a node that wraps [e]. *)
Definition name (netlist : Netlist) (e : Element) : option string :=
  get_name netlist (mkNode None e []).

(** The string holds no "/". *)
Fixpoint slash_free (x : string) : bool :=
  match x with
  | EmptyString => true
  | String a x' => if decide (String a "" = "/") then false else slash_free x'
  end.

(** The instances of the hierarchy: the top instance and the child
    instances of the definitions. *)
Definition in_hierarchy (netlist : Netlist) (i : nat) : Prop :=
  i = top_instance netlist ∨ ∃ d, i ∈ def_children netlist d.

(** Every instance of the hierarchy has a name, which is not empty and
    holds no "/". *)
Definition instances_named (netlist : Netlist) : Prop :=
  ∀ i, in_hierarchy netlist i →
    ∃ x, name netlist (Instance i) = Some x ∧ x ≠ "" ∧ slash_free x = true.

(** The child instances of a definition have different names. *)
Definition siblings_named_apart (netlist : Netlist) : Prop :=
  ∀ d i j, i ∈ def_children netlist d → j ∈ def_children netlist d →
    name netlist (Instance i) = name netlist (Instance j) → i = j.

(** Every node of the store that wraps an instance, a port or a cable
    resolves a name. *)
Definition nodes_named (netlist : Netlist) (s : Store) : Prop :=
  ∀ m md, node s m = Some md →
    match item md with
    | Wire _ | InnerPin _ => True
    | _ => is_Some (get_name netlist md)
    end.

(** ** run *)

(** What [run] prints and how it ends.  The netlist is the one that
    [sdn.load_example_netlist_by_name('b13')] returns; each [print] call
    gives one entry, its text and its number; the second call of
    [get_connectivity_graph] allocates its nodes after those of the
    first. *)
Definition run (netlist : Netlist) (fuel counter : nat)
  : list (string * nat) * result unit :=
  match get_connectivity_graph netlist fuel true counter with
  | Ok (connectivity_graph_with_top_level_ports, s1) =>
      let out :=
        [("Total nodes in connectivity_graph with top_level_ports",
          number_of_nodes connectivity_graph_with_top_level_ports);
         ("Total edges in connectivity_graph with top_level_ports",
          number_of_edges connectivity_graph_with_top_level_ports)] in
      match get_connectivity_graph netlist fuel false (limit s1) with
      | Ok (connectivity_graph_without_top_level_ports, _) =>
          (out ++
           [("Total nodes in connectivity_graph without top_level_ports",
             number_of_nodes connectivity_graph_without_top_level_ports);
            ("Total edges in connectivity_graph without top_level_ports",
             number_of_edges connectivity_graph_without_top_level_ports)],
           Ok ())
      | Raise e => (out, Raise e)
      | OutOfFuel => (out, OutOfFuel)
      end
  | Raise e => ([], Raise e)
  | OutOfFuel => ([], OutOfFuel)
  end.

(** ** Ancestors in the store *)

(** The node at [x] is the node at [a] or lies below it: following the
    parents from [x] leads to [a]. *)
Inductive below (s : Store) (a : nat) : nat → Prop :=
| below_self : below s a a
| below_child x xd p :
    node s x = Some xd → parent xd = Some p → below s a p → below s a x.

(** What the loop of [get_leaf_instance_nodes] keeps true: no node is on
    the stack or in the result twice, no node of the stack lies below
    another one, and no result lies below a node of the stack. *)
Definition apart (s : Store) (stack acc : list nat) : Prop :=
  NoDup acc ∧ NoDup stack
  ∧ (∀ m1 m2, m1 ∈ stack → m2 ∈ stack → m1 ≠ m2 → ¬ below s m1 m2)
  ∧ (∀ a m, a ∈ acc → m ∈ stack → ¬ below s m a).

(** What the loop of [generate_nodes] keeps true of the dictionaries: a
    node still on the stack has no children yet, and the keys of any other
    node are the elements under its item, in the order of the netlist. *)
Definition in_order (netlist : Netlist) (s : Store) (stack : list nat) : Prop :=
  ∀ n nd, node s n = Some nd →
    (n ∈ stack → children nd = [])
    ∧ (n ∉ stack → (children nd).*1 = elements_of netlist (item nd)).

(** ** The seed step *)

(** The node at [wn] is the node of the wire [w] in the instance node at
    [par]: the child for [w] of the child of [par] for the cable of
    [w]. *)
Definition wire_node (netlist : Netlist) (s : Store) (par w wn : nat) : Prop :=
  ∃ cab, kid s par (Cable (cable netlist w)) cab ∧ kid s cab (Wire w) wn.

(** The netlist with another top instance ([netlist.top_instance = i]). *)
Definition with_top_instance (netlist : Netlist) (i : nat) : Netlist :=
  mkNetlist i (reference netlist) (instance_pins netlist)
    (instance_pin_of netlist) (is_leaf netlist) (ports netlist)
    (cables netlist) (def_children netlist) (direction netlist)
    (port_pins netlist) (wires netlist) (cable netlist) (wire_pins netlist)
    (port netlist) (inner_wire netlist) (inner_pin netlist) (instance netlist)
    (outer_wire netlist) (attr netlist).

(** The netlist of the scenario with the leaf instance [A] as its top
    instance: the root node wraps [A], whose output pin is on the wire
    of [n1]. *)
Module LeafTop.
Definition netlist : Netlist := with_top_instance Scenario.netlist 1.

Definition store : Store :=
  Eval vm_compute in
    match generate_nodes netlist 30 0 with
    | Ok (_, s) => s
    | _ => mkStore 0 []
    end.
End LeafTop.

(** ** The nodes created under a node *)

(** The elements wrapped by the nodes whose parent is the node at [n], in
    the order in which the nodes were created. *)
Definition child_items (s : Store) (n : nat) : list Element :=
  item <$> filter (λ cd, parent cd = Some n) (cells s).

(** What the loop of [generate_nodes] keeps true of the nodes it has
    created: a node still on the stack is the parent of no node yet, and
    the nodes created under any other node wrap the elements listed
    under its item, one node for each, in the order of the netlist. *)
Definition born (netlist : Netlist) (s : Store) (stack : list nat) : Prop :=
  NoDup stack
  ∧ ∀ n nd, node s n = Some nd →
      child_items s n
      = if decide (n ∈ stack) then [] else elements_of netlist (item nd).
(** * The parser front end: spydrnet/parsers/__init__.py

    A file name is a Python [str] whose characters have code points below
    256 (ASCII and Latin-1): a [string] of Rocq, one character for each
    code point.  Names with other characters are outside the model.
    Paths are POSIX paths.  The EDIF parser, the zip archive and the
    temporary directory are collaborators whose answers are parameters
    of the model; Python's [assert] statements are enabled. *)
Module Parsers.
Inductive error :=
| AssertionError (msg : string)
| RuntimeError (msg : string)
| LibraryError (msg : string).

Inductive outcome (A : Type) :=
| Returns (a : A)
| Raises (e : error).
Arguments Returns {A} a.
Arguments Raises {A} e.

Definition bind {A B} (r : outcome A) (f : A → outcome B) : outcome B :=
  match r with
  | Returns a => f a
  | Raises e => Raises e
  end.

(** ** os.path and str.lower

    Modelled from the documentation of the Python standard library
    ([posixpath], [str]), which is not part of the sources. *)

Definition is_sep (a : Ascii.ascii) : bool := bool_decide (String a "" = "/").
Definition is_dot (a : Ascii.ascii) : bool := bool_decide (String a "" = ".").

Fixpoint sep_free (x : string) : bool :=
  match x with
  | EmptyString => true
  | String a x' => if is_sep a then false else sep_free x'
  end.

Fixpoint dot_free (x : string) : bool :=
  match x with
  | EmptyString => true
  | String a x' => if is_dot a then false else dot_free x'
  end.

Fixpoint all_dots (x : string) : bool :=
  match x with
  | EmptyString => true
  | String a x' => if is_dot a then all_dots x' else false
  end.

(** [(p[:i+1], p[i+1:])] for [i = p.rfind('/')] *)
Fixpoint split_sep (p : string) : string * string :=
  match p with
  | EmptyString => ("", "")
  | String a p' =>
      if sep_free p' then
        if is_sep a then (String a "", p') else ("", String a p')
      else (String a (split_sep p').1, (split_sep p').2)
  end.

(** [os.path.basename(p)] *)
Definition basename (p : string) : string := (split_sep p).2.

(** The leading dots of a file name, and what follows them. *)
Fixpoint lstrip_dots (b : string) : string * string :=
  match b with
  | EmptyString => ("", "")
  | String a b' =>
      if is_dot a then (String a (lstrip_dots b').1, (lstrip_dots b').2)
      else ("", b)
  end.

(** [(r[:j], r[j:])] for [j = r.rfind('.')], when there is a dot. *)
Fixpoint rsplit_dot (r : string) : option (string * string) :=
  match r with
  | EmptyString => None
  | String a r' =>
      match rsplit_dot r' with
      | Some (root, ext) => Some (String a root, ext)
      | None => if is_dot a then Some ("", r) else None
      end
  end.

(** [os.path.splitext(p)]: the extension starts at the last dot of the
    last path component; leading dots of that component are not
    counted. *)
Definition splitext (p : string) : string * string :=
  match rsplit_dot (lstrip_dots (split_sep p).2).2 with
  | Some (root, ext) =>
      ((split_sep p).1 +:+ (lstrip_dots (split_sep p).2).1 +:+ root, ext)
  | None => (p, "")
  end.

Definition ends_with_sep (a : string) : bool :=
  bool_decide ((split_sep a).2 = "" ∧ a ≠ "").

Definition starts_with_sep (b : string) : bool :=
  match b with
  | String a _ => is_sep a
  | EmptyString => false
  end.

(** [os.path.join(a, b)] *)
Definition join (a b : string) : string :=
  if starts_with_sep b then b
  else if bool_decide (a = "") || ends_with_sep a then a +:+ b
  else a +:+ "/" +:+ b.

(** [str.lower] on one character of code point below 256: the letters
    A to Z (65 to 90) and the capital letters of Latin-1 (192 to 222,
    less the multiplication sign 215) are moved by 32 to their small
    letter; every other character is left as it is. *)
Definition lower_char (a : Ascii.ascii) : Ascii.ascii :=
  let n := Ascii.N_of_ascii a in
  if bool_decide ((65 ≤ n ∧ n ≤ 90) ∨ (192 ≤ n ∧ n ≤ 222 ∧ n ≠ 215))%N
  then Ascii.ascii_of_N (n + 32) else a.

(** [x.lower()]: on these characters [str.lower] works character by
    character, and keeps the length. *)
Fixpoint lower (x : string) : string :=
  match x with
  | EmptyString => ""
  | String a x' => String (lower_char a) (lower x')
  end.

(** ** The collaborators *)

(** Modelled from the library documentation: what [zipfile],
    [tempfile] and [spydrnet.parsers.edif.parser.EdifParser] answer.
    [N] are netlists, [P] parser objects and [H] file handles. *)
Record World {N P H : Type} := mkWorld {
  is_zipfile : string → bool;                 (* zipfile.is_zipfile(filename) *)
  namelist : string → outcome (list string);  (* zipfile.ZipFile(filename).namelist() *)
  extract : string → string → string → outcome unit;
                                              (* zip.extract(member, path) *)
  tempdirname : string;                       (* tempfile.TemporaryDirectory() *)
  from_filename : string → outcome P;         (* EdifParser.from_filename *)
  from_file_handle : H → outcome P;           (* EdifParser.from_file_handle *)
  parse_edif : P → outcome P;                 (* parser.parse() *)
  netlist_of : P → N                          (* parser.netlist *)
}.
Arguments World : clear implicits.

Section Parse.
Context {N P H : Type} (w : World N P H).

Definition get_lowercase_extension (filename : string) : string :=
  let extension := (splitext filename).2 in
  let extension_lower := lower extension in
  extension_lower.

Definition _parse (filename : string) (file_handle : option H) : outcome N :=
  let extension := get_lowercase_extension filename in
  if bool_decide (extension ∈ [".edf"; ".edif"]) then
    bind (match file_handle with
          | Some h => from_file_handle w h
          | None => from_filename w filename
          end) (λ parser,
    bind (parse_edif w parser) (λ parser,
    Returns (netlist_of w parser)))
  else
    Raises (RuntimeError ("Extension " +:+ extension +:+ " not recognized.")).

Definition parse (filename : string) : outcome N :=
  let basename_less_final_extension := (splitext (basename filename)).1 in
  let extension := get_lowercase_extension filename in
  if bool_decide (extension = ".zip") then
    if is_zipfile w filename then
      bind (namelist w filename) (λ files,
      match files with
      | [file] =>
          if bool_decide (file = basename_less_final_extension) then
            bind (extract w filename basename_less_final_extension
                    (tempdirname w)) (λ _,
            let filename :=
              join (tempdirname w) basename_less_final_extension in
            _parse filename None)
          else
            Raises (AssertionError
              "Only single file archives allowed with a file whose name matches the name of the archive")
      | _ =>
          Raises (AssertionError
            "Only single file archives allowed with a file whose name matches the name of the archive")
      end)
    else
      Raises (AssertionError
        ("Input filename " +:+ basename_less_final_extension
         +:+ " with extension .zip is not a zip file."))
  else _parse filename None.
End Parse.

(** A world with one archive, [lib/design.EDF.zip], that holds the one
    file [design.EDF]; parsers and netlists are numbers. *)
Definition archive_world : World nat nat nat := {|
  is_zipfile := λ f, bool_decide (f = "lib/design.EDF.zip");
  namelist := λ f,
    if bool_decide (f = "lib/design.EDF.zip") then Returns ["design.EDF"]
    else Raises (LibraryError "FileNotFoundError");
  extract := λ _ _ _, Returns ();
  tempdirname := "/tmp/tmp0";
  from_filename := λ f,
    if bool_decide (f = "/tmp/tmp0/design.EDF") then Returns 1
    else Raises (LibraryError "FileNotFoundError");
  from_file_handle := λ h, Returns h;
  parse_edif := λ p, Returns p;
  netlist_of := λ p, p
|}.
End Parsers.

(** * Properties *)

(** ** The result monad *)

Lemma bind_Ok {A B} (f : A → result B) (r : result A) (b : B) :
  r ≫= f = Ok b ↔ ∃ a, r = Ok a ∧ f a = Ok b.
Proof.
  destruct r as [a| |]; simpl; split.
  - eauto.
  - by intros (a' & [= <-] & ?).
  - done.
  - by intros (? & ? & ?).
  - done.
  - by intros (? & ? & ?).
Qed.

Lemma fold_result_app {A B} (f : A → B → result A) a l1 l2 :
  fold_result f a (l1 ++ l2) = fold_result f a l1 ≫= λ a', fold_result f a' l2.
Proof.
  revert a; induction l1 as [|b l1 IH]; intros a; simpl; [done|].
  destruct (f a b) as [a'| |]; simpl; auto.
Qed.

(** An invariant of the loop body is an invariant of the loop. *)
Lemma fold_result_ind {A B} (P : A → Prop) (f : A → B → result A) l :
  (∀ a b a', b ∈ l → P a → f a b = Ok a' → P a') →
  ∀ a a', P a → fold_result f a l = Ok a' → P a'.
Proof.
  induction l as [|b l IH]; intros Hf a a' Ha; simpl.
  - by intros [= <-].
  - intros (a1 & H1 & H2)%bind_Ok.
    eapply IH; [| |exact H2].
    + intros ???? ; apply Hf; by right.
    + eapply Hf; [left|exact Ha|exact H1].
Qed.

Lemma foldl_ind {A B} (P : A → Prop) (f : A → B → A) l :
  (∀ a b, b ∈ l → P a → P (f a b)) → ∀ a, P a → P (foldl f a l).
Proof.
  induction l as [|b l IH]; intros Hf a Ha; simpl; [done|].
  apply IH; [intros; apply Hf; [by right|done]|].
  apply Hf; [left|done].
Qed.

(** ** Dictionaries *)

Lemma dict_get_set {V} (d : list (Element * V)) k v k' :
  dict_get (dict_set d k v) k' = if decide (k' = k) then Some v else dict_get d k'.
Proof.
  induction d as [|[k0 v0] d IH]; simpl.
  - by destruct (decide (k' = k)).
  - destruct (decide (k = k0)) as [->|Hk]; simpl.
    + destruct (decide (k' = k0)); done.
    + destruct (decide (k' = k0)) as [->|?].
      * by rewrite decide_False by done.
      * done.
Qed.

Lemma dict_get_Some_elem {V} (d : list (Element * V)) k v :
  dict_get d k = Some v → (k, v) ∈ d.
Proof.
  induction d as [|[k0 v0] d IH]; simpl; [done|].
  destruct (decide (k = k0)) as [->|?].
  - intros [= ->]; left.
  - intros ?; right; auto.
Qed.

Lemma dict_get_is_Some {V} (d : list (Element * V)) k :
  is_Some (dict_get d k) ↔ k ∈ d.*1.
Proof.
  induction d as [|[k0 v0] d IH]; simpl.
  - split; [by intros [? ?]|by intros ?%elem_of_nil].
  - destruct (decide (k = k0)) as [->|?].
    + split; [intros _; left|eauto].
    + rewrite IH. split; [by right|].
      by intros [?|?]%elem_of_cons.
Qed.

Lemma dict_set_keys {V} (d : list (Element * V)) k v :
  NoDup d.*1 → NoDup (dict_set d k v).*1 ∧ ∀ k', k' ∈ (dict_set d k v).*1 → k' = k ∨ k' ∈ d.*1.
Proof.
  induction d as [|[k0 v0] d IH]; simpl.
  - intros _. split; [apply NoDup_singleton|].
    intros k' ->%list_elem_of_singleton. by left.
  - intros [Hk0 Hd]%NoDup_cons. destruct (IH Hd) as [IH1 IH2].
    destruct (decide (k = k0)) as [->|Hk]; simpl.
    + split; [by apply NoDup_cons|]. intros k' ?. by right.
    + split.
      * apply NoDup_cons. split; [|done].
        intros [->|?]%IH2; done.
      * intros k' [->|[->|?]%IH2]%elem_of_cons.
        -- right; left.
        -- by left.
        -- right; by right.
Qed.

Lemma dict_get_elem {V} (d : list (Element * V)) k v :
  NoDup d.*1 → (k, v) ∈ d → dict_get d k = Some v.
Proof.
  induction d as [|[k0 v0] d IH]; simpl.
  - by intros _ ?%elem_of_nil.
  - intros [Hk0 Hd]%NoDup_cons [[= -> ->]|Hin]%elem_of_cons.
    + by rewrite decide_True.
    + rewrite decide_False; [by apply IH|].
      intros ->. apply Hk0. apply list_elem_of_fmap. by exists (k0, v).
Qed.

(** ** The store *)

Lemma node_Some_lt s n nd : node s n = Some nd → base s ≤ n < limit s.
Proof.
  unfold node, limit. case_decide; [|done].
  intros ?%lookup_lt_Some. lia.
Qed.

Lemma node_limit_None s n : limit s ≤ n → node s n = None.
Proof.
  unfold node, limit. intros. case_decide; [|done].
  apply lookup_ge_None. lia.
Qed.

Lemma node_alloc s nd n :
  node (alloc s nd).2 n = if decide (n = limit s) then Some nd else node s n.
Proof.
  unfold node, alloc, limit; simpl.
  destruct (decide (n = base s + length (cells s))) as [Hn|Hn].
  - subst. rewrite decide_True by lia.
    rewrite lookup_app_r by lia.
    by replace (_ - _ - _) with 0 by lia.
  - case_decide; [|done].
    destruct (decide (n - base s < length (cells s))).
    + by rewrite lookup_app_l.
    + rewrite !lookup_ge_None_2; [done|lia|rewrite length_app; simpl; lia].
Qed.

Lemma limit_alloc s nd : limit (alloc s nd).2 = S (limit s).
Proof. unfold limit, alloc; simpl. rewrite length_app; simpl; lia. Qed.

Lemma base_alloc s nd : base (alloc s nd).2 = base s.
Proof. done. Qed.

Lemma node_set_child s m e c n :
  node (set_child s m e c) n
  = if decide (n = m) then with_child e c <$> node s m else node s n.
Proof.
  unfold set_child, node.
  destruct (decide (base s ≤ m)) as [Hm|Hm]; simpl.
  - destruct (decide (n = m)) as [Hn|Hn].
    + subst. rewrite decide_True by done.
      by rewrite list_lookup_alter_eq.
    + case_decide; [|done].
      rewrite list_lookup_alter_ne; [done|lia].
  - destruct (decide (n = m)) as [Hn|Hn]; [|done]. subst.
    by rewrite decide_False by done.
Qed.

Lemma limit_set_child s m e c : limit (set_child s m e c) = limit s.
Proof.
  unfold set_child, limit. case_decide; simpl; [|done].
  by rewrite length_alter.
Qed.

Lemma base_set_child s m e c : base (set_child s m e c) = base s.
Proof. unfold set_child. by case_decide. Qed.

(** What one [new_child] does to the store. *)
Lemma node_new_child m s st e n :
  m < limit s →
  node (new_child m (s, st) e).1 n
  = if decide (n = limit s) then Some (mkNode (Some m) e [])
    else if decide (n = m) then with_child e (limit s) <$> node s m
    else node s n.
Proof.
  intros Hm. unfold new_child; cbn [fst snd].
  rewrite node_set_child, !node_alloc.
  change (alloc s (mkNode (Some m) e [])).1 with (limit s).
  destruct (decide (n = limit s)) as [->|?].
  - by rewrite decide_False by lia.
  - destruct (decide (n = m)) as [->|?]; [|done].
    by rewrite decide_False by lia.
Qed.

Lemma limit_new_child m s st e : limit (new_child m (s, st) e).1 = S (limit s).
Proof. unfold new_child; cbn [fst snd]. by rewrite limit_set_child, limit_alloc. Qed.

Lemma base_new_child m s st e : base (new_child m (s, st) e).1 = base s.
Proof. unfold new_child; cbn [fst snd]. by rewrite base_set_child. Qed.

Lemma stack_new_child m s st e : (new_child m (s, st) e).2 = limit s :: st.
Proof. done. Qed.

(** ** generate_nodes builds a consistent tree *)

Section Generate.
Context (netlist : Netlist).

Lemma generate_step_foldl s st m it :
  generate_step netlist s st m it
  = foldl (new_child m) (s, st) (elements_of netlist it).
Proof.
  destruct it; simpl; try done.
  by rewrite !foldl_app.
Qed.

(** One [new_child] keeps the tree consistent. *)
Lemma new_child_tree_ok s st top m md e :
  tree_ok netlist s top → node s m = Some md →
  e ∈ elements_of netlist (item md) →
  tree_ok netlist (new_child m (s, st) e).1 top.
Proof.
  intros [Hroot Htop Hchild Hparent Hkeys Hdict] Hm He.
  pose proof (node_Some_lt _ _ _ Hm) as Hlt.
  assert (∀ n nd, node (new_child m (s, st) e).1 n = Some nd →
    (n = limit s ∧ nd = mkNode (Some m) e []) ∨
    (n = m ∧ nd = with_child e (limit s) md) ∨
    (n ≠ limit s ∧ n ≠ m ∧ node s n = Some nd)) as Hcases.
  { intros n nd. rewrite node_new_child by lia.
    destruct (decide (n = limit s)); [naive_solver|].
    destruct (decide (n = m)) as [->|?]; [|naive_solver].
    rewrite Hm; simpl. naive_solver. }
  assert (∀ n nd, node s n = Some nd →
    ∃ nd', node (new_child m (s, st) e).1 n = Some nd'
           ∧ parent nd' = parent nd ∧ item nd' = item nd) as Hkeep.
  { intros n nd Hn. pose proof (node_Some_lt _ _ _ Hn).
    rewrite node_new_child by lia.
    rewrite decide_False by lia.
    destruct (decide (n = m)) as [->|?]; [|eauto].
    rewrite Hm; simpl. assert (nd = md) as -> by congruence. eauto. }
  assert (node (new_child m (s, st) e).1 (limit s)
          = Some (mkNode (Some m) e [])) as Hnew.
  { rewrite node_new_child by lia. by rewrite decide_True. }
  split.
  - destruct Hroot as (rd & Hrd & Hp & Hi).
    destruct (Hkeep _ _ Hrd) as (rd' & ? & Hp' & Hi').
    exists rd'. rewrite Hp', Hi'. done.
  - intros n nd [[-> ->]|[[-> ->]|(? & ? & Hn)]]%Hcases; simpl; eauto.
    done.
  - intros n nd e' c [[-> ->]|[[-> ->]|(? & ? & Hn)]]%Hcases; simpl.
    + done.
    + rewrite dict_get_set. case_decide as Heq.
      * intros [= <-]. subst e'. eauto.
      * intros Hc. destruct (Hchild _ _ _ _ Hm Hc) as (cd & Hcd & Hp & Hi).
        destruct (Hkeep _ _ Hcd) as (cd' & ? & Hp' & Hi').
        exists cd'. rewrite Hp', Hi'. done.
    + intros Hc. destruct (Hchild _ _ _ _ Hn Hc) as (cd & Hcd & Hp & Hi).
      destruct (Hkeep _ _ Hcd) as (cd' & ? & Hp' & Hi').
      exists cd'. rewrite Hp', Hi'. done.
  - intros n nd p [[-> ->]|[[-> ->]|(? & ? & Hn)]]%Hcases; simpl.
    + intros [= <-]. split; [lia|].
      destruct (Hkeep _ _ Hm) as (md' & Hmd' & _). by exists md'.
    + intros Hp. destruct (Hparent _ _ _ Hm Hp) as [? [pd Hpd]].
      split; [done|]. destruct (Hkeep _ _ Hpd) as (pd' & Hpd' & _). by exists pd'.
    + intros Hp. destruct (Hparent _ _ _ Hn Hp) as [? [pd Hpd]].
      split; [done|]. destruct (Hkeep _ _ Hpd) as (pd' & Hpd' & _). by exists pd'.
  - intros n nd e' [[-> ->]|[[-> ->]|(? & ? & Hn)]]%Hcases; simpl.
    + by intros [? ?].
    + rewrite dict_get_set. case_decide as Heq; [by subst|].
      by apply (Hkeys _ _ _ Hm).
    + by apply (Hkeys _ _ _ Hn).
  - intros n nd [[-> ->]|[[-> ->]|(? & ? & Hn)]]%Hcases; simpl.
    + apply NoDup_nil_2.
    + apply dict_set_keys. by eapply Hdict.
    + by eapply Hdict.
Qed.

(** What a whole [for] loop of [new_child] does. *)
Lemma expand_spec m es : ∀ s st md,
  node s m = Some md →
  let r := foldl (new_child m) (s, st) es in
  base r.1 = base s
  ∧ limit r.1 = limit s + length es
  ∧ r.2 = reverse (seq (limit s) (length es)) ++ st
  ∧ (∀ n, n < limit s → n ≠ m → node r.1 n = node s n)
  ∧ (∃ md', node r.1 m = Some md' ∧ parent md' = parent md
       ∧ item md' = item md
       ∧ (∀ e, is_Some (dict_get (children md') e)
               ↔ is_Some (dict_get (children md) e) ∨ e ∈ es)
       ∧ (∀ e c, dict_get (children md') e = Some c →
                 dict_get (children md) e = Some c
                 ∨ es !! (c - limit s) = Some e ∧ limit s ≤ c))
  ∧ (∀ j e, es !! j = Some e →
            node r.1 (limit s + j) = Some (mkNode (Some m) e [])).
Proof.
  induction es as [|e es IH]; intros s st md Hm; simpl.
  - split; [done|]. split; [lia|]. split; [done|]. split; [done|]. split.
    + exists md. split; [done|]. split; [done|]. split; [done|]. split.
      * intros e. rewrite elem_of_nil. naive_solver.
      * intros e c ?. by left.
    + intros j e. by rewrite lookup_nil.
  - pose proof (node_Some_lt _ _ _ Hm) as Hlt.
    assert (node (new_child m (s, st) e).1 m
            = Some (with_child e (limit s) md)) as Hm'.
    { rewrite node_new_child by lia. rewrite decide_False by lia.
      rewrite decide_True by done. by rewrite Hm. }
    destruct (new_child m (s, st) e) as [s1 st1] eqn:Hnc.
    assert (limit s1 = S (limit s)) as Hl1.
    { change s1 with (s1, st1).1. rewrite <- Hnc. apply limit_new_child. }
    assert (base s1 = base s) as Hb1.
    { change s1 with (s1, st1).1. rewrite <- Hnc. apply base_new_child. }
    assert (st1 = limit s :: st) as ->.
    { change st1 with (s1, st1).2. by rewrite <- Hnc. }
    assert (∀ n, node s1 n
      = if decide (n = limit s) then Some (mkNode (Some m) e [])
        else if decide (n = m) then with_child e (limit s) <$> node s m
        else node s n) as Hs1.
    { intros n. change s1 with (s1, limit s :: st).1. rewrite <- Hnc.
      apply node_new_child. lia. }
    simpl in Hm'.
    destruct (IH s1 (limit s :: st) _ Hm') as (Hb & Hl & Hst & Hfr & Hmd & Hnew).
    split_and!.
    + congruence.
    + lia.
    + rewrite Hst, Hl1. rewrite reverse_cons, <- app_assoc. done.
    + intros n ??. rewrite Hfr by lia. rewrite Hs1.
      rewrite !decide_False by lia. done.
    + destruct Hmd as (md' & ? & ? & ? & Hk & Hv).
      exists md'. split_and!; try done.
      * intros e'. rewrite Hk. simpl. rewrite dict_get_set, elem_of_cons.
        case_decide; naive_solver.
      * intros e' c Hc. destruct (Hv _ _ Hc) as [Hc'|[Hc' ?]].
        -- simpl in Hc'. rewrite dict_get_set in Hc'.
           case_decide; [|by left]. injection Hc' as <-. subst e'.
           right. split; [|lia]. by rewrite Nat.sub_diag.
        -- right. split; [|lia].
           replace (c - limit s) with (S (c - limit s1)) by lia. done.
    + intros [|j] e' Hj; simpl in Hj.
      * injection Hj as <-. rewrite Hfr by lia.
        rewrite Hs1. rewrite Nat.add_0_r. by rewrite decide_True.
      * replace (limit s + S j) with (limit s1 + j) by lia. by apply Hnew.
Qed.

Lemma expand_tree_ok top m es : ∀ s st md,
  tree_ok netlist s top → node s m = Some md →
  (∀ e, e ∈ es → e ∈ elements_of netlist (item md)) →
  tree_ok netlist (foldl (new_child m) (s, st) es).1 top.
Proof.
  induction es as [|e es IH]; intros s st md Hok Hm Hes; simpl; [done|].
  pose proof (node_Some_lt _ _ _ Hm) as Hlt.
  destruct (new_child m (s, st) e) as [s1 st1] eqn:Hnc.
  assert (tree_ok netlist s1 top) as Hok1.
  { change s1 with (s1, st1).1. rewrite <- Hnc.
    eapply new_child_tree_ok; [done..|]. apply Hes. left. }
  assert (node s1 m = Some (with_child e (limit s) md)) as Hm1.
  { change s1 with (s1, st1).1. rewrite <- Hnc.
    rewrite node_new_child by lia. rewrite decide_False by lia.
    rewrite decide_True by done. by rewrite Hm. }
  eapply IH; [done..|]. simpl. intros e' ?. apply Hes. by right.
Qed.

Lemma gen_inv_step s m rest md top :
  gen_inv netlist s (m :: rest) top → node s m = Some md →
  let r := generate_step netlist s rest m (item md) in
  gen_inv netlist r.1 r.2 top.
Proof.
  intros (Hok & Hst & Hexp) Hm. rewrite generate_step_foldl.
  set (es := elements_of netlist (item md)).
  pose proof (expand_spec m es s rest md Hm) as
    (Hb & Hl & Hst' & Hfr & (md' & Hm' & Hp' & Hi' & Hk & Hv) & Hnew).
  pose proof (node_Some_lt _ _ _ Hm) as Hlt.
  cbv zeta. split_and!.
  - by eapply expand_tree_ok.
  - intros n. rewrite Hst'. rewrite elem_of_app, elem_of_reverse, elem_of_seq.
    intros [[? ?]|Hn].
    + destruct (lookup_lt_is_Some_2 es (n - limit s)) as [e He]; [lia|].
      exists (mkNode (Some m) e []).
      replace n with (limit s + (n - limit s)) at 1 by lia. by apply Hnew.
    + destruct (decide (n = m)) as [->|?]; [by exists md'|].
      destruct (Hst n) as [nd Hnd]; [by right|].
      pose proof (node_Some_lt _ _ _ Hnd).
      rewrite Hfr by lia. by exists nd.
  - intros n Hn nd e Hnd He.
    rewrite Hst' in Hn. rewrite elem_of_app, elem_of_reverse, elem_of_seq in Hn.
    pose proof (node_Some_lt _ _ _ Hnd) as Hlt'. rewrite Hl in Hlt'.
    assert (n < limit s) by lia.
    destruct (decide (n = m)) as [->|?].
    + assert (nd = md') as -> by congruence.
      apply Hk. right. by rewrite Hi' in He.
    + rewrite Hfr in Hnd by lia.
      apply (Hexp n); [|done..].
      intros [->|?]%elem_of_cons; [done|]. apply Hn. by right.
Qed.

Lemma generate_loop_inv top fuel : ∀ s stack s',
  gen_inv netlist s stack top → generate_loop netlist fuel s stack = Ok s' →
  base s' = base s ∧ tree_ok netlist s' top ∧ ∀ n, expanded netlist s' n.
Proof.
  induction fuel as [|fuel IH]; intros s stack s' Hinv; simpl; [done|].
  destruct stack as [|m rest].
  - intros [= <-]. destruct Hinv as (? & ? & Hexp). split_and!; [done..|].
    intros n. apply Hexp. apply not_elem_of_nil.
  - intros (md & Hget & Hloop)%bind_Ok.
    unfold get in Hget. destruct (node s m) as [md0|] eqn:Hm; [|done].
    injection Hget as ->.
    pose proof (gen_inv_step _ _ _ _ _ Hinv Hm) as Hinv'.
    pose proof (generate_step_foldl s rest m (item md)) as Hgs.
    pose proof (expand_spec m (elements_of netlist (item md)) s rest md Hm)
      as (Hb & _). rewrite <- Hgs in Hb.
    destruct (generate_step netlist s rest m (item md)) as [s1 st1].
    destruct (IH _ _ _ Hinv' Hloop) as (? & ? & ?). simpl in *.
    split_and!; [congruence|done..].
Qed.

Lemma node_init counter rd n nd :
  node (alloc (mkStore counter []) rd).2 n = Some nd →
  n = counter ∧ nd = rd.
Proof.
  rewrite node_alloc. unfold limit; simpl.
  rewrite Nat.add_0_r. case_decide; [naive_solver|].
  unfold node; simpl. case_decide; [|done]. by rewrite lookup_nil.
Qed.

Lemma tree_ok_init counter :
  let s := (alloc (mkStore counter [])
              (mkNode None (Instance (top_instance netlist)) [])).2 in
  gen_inv netlist s [counter] counter.
Proof.
  intros s.
  assert (∀ n nd, node s n = Some nd →
    n = counter ∧ nd = mkNode None (Instance (top_instance netlist)) [])
    as Hs by apply node_init.
  assert (node s counter
          = Some (mkNode None (Instance (top_instance netlist)) [])) as Hc.
  { unfold s. rewrite node_alloc. unfold limit; simpl.
    rewrite Nat.add_0_r. by rewrite decide_True. }
  split_and!.
  - split.
    + eauto.
    + by intros n nd [-> ->]%Hs.
    + by intros n nd e c [-> ->]%Hs.
    + by intros n nd p [-> ->]%Hs.
    + intros n nd e [-> ->]%Hs. simpl. by intros [? ?].
    + intros n nd [-> ->]%Hs. apply NoDup_nil_2.
  - intros n ->%list_elem_of_singleton. eauto.
  - intros n Hn nd e [-> ->]%Hs. exfalso. apply Hn. left.
Qed.

(** [generate_nodes] returns a consistent and complete tree whose root
    is the first node it allocates. *)
Lemma generate_nodes_tree fuel counter top s :
  generate_nodes netlist fuel counter = Ok (top, s) →
  top = counter ∧ base s = counter ∧ tree_ok netlist s top
  ∧ ∀ n, expanded netlist s n.
Proof.
  unfold generate_nodes. cbv zeta.
  assert ((alloc (mkStore counter [])
             (mkNode None (Instance (top_instance netlist)) [])).1 = counter)
    as -> by (unfold alloc, limit; simpl; lia).
  intros (s' & Hloop & [= <- <-])%bind_Ok.
  pose proof (tree_ok_init counter) as Hinit.
  destruct (generate_loop_inv counter _ _ _ _ Hinit Hloop) as (Hb & ? & ?).
  split_and!; done.
Qed.

Lemma reg_inv_step s m rest md top :
  listed_once netlist →
  gen_inv netlist s (m :: rest) top → reg_inv s (m :: rest) → node s m = Some md →
  let r := generate_step netlist s rest m (item md) in
  reg_inv r.1 r.2.
Proof.
  intros Hnd (Hok & Hst & Hexp) (Hreg & Hdup & Hfresh) Hm.
  rewrite generate_step_foldl.
  set (es := elements_of netlist (item md)).
  pose proof (expand_spec m es s rest md Hm) as
    (Hb & Hl & Hst' & Hfr & (md' & Hm' & Hp' & Hi' & Hk & Hv) & Hnew).
  pose proof (node_Some_lt _ _ _ Hm) as Hlt.
  apply NoDup_cons in Hdup as [Hm_rest Hdup].
  assert (∀ n, n ∈ rest → n < limit s) as Hrest.
  { intros n Hn. destruct (Hst n) as [nd Hnd']; [by right|].
    by apply node_Some_lt in Hnd' as [? ?]. }
  assert (∀ c cd, node (foldl (new_child m) (s, rest) es).1 c = Some cd →
    (limit s ≤ c ∧ ∃ e, es !! (c - limit s) = Some e
                       ∧ cd = mkNode (Some m) e [])
    ∨ (c = m ∧ cd = md')
    ∨ (c < limit s ∧ c ≠ m ∧ node s c = Some cd)) as Hcases.
  { intros c cd Hc.
    pose proof (node_Some_lt _ _ _ Hc) as Hlt'. rewrite Hl in Hlt'.
    destruct (decide (limit s ≤ c)).
    - left. split; [done|].
      destruct (lookup_lt_is_Some_2 es (c - limit s)) as [e He]; [lia|].
      exists e. split; [done|].
      pose proof (Hnew _ _ He) as Hc'.
      replace (limit s + (c - limit s)) with c in Hc' by lia. congruence.
    - right. destruct (decide (c = m)) as [->|?].
      + left. split; [done|]. congruence.
      + right. rewrite Hfr in Hc by lia. split_and!; [lia|done..]. }
  cbv zeta. split_and!.
  - intros c cd p Hc Hp.
    destruct (Hcases _ _ Hc) as [(Hge & e & He & ->)|[[-> ->]|(? & ? & Hc')]].
    + simpl in Hp. injection Hp as <-. exists md'. split; [done|]. simpl.
      destruct (proj2 (Hk e)) as [c' Hc'].
      { right. by eapply list_elem_of_lookup_2. }
      rewrite Hc'. f_equal.
      destruct (Hv _ _ Hc') as [Hold|[Hidx ?]].
      * destruct (tree_child _ _ _ Hok _ _ _ _ Hm Hold) as (cd' & Hcd' & Hpar & _).
        exfalso. apply (Hfresh m c' cd'); [left|done..].
      * pose proof (NoDup_lookup _ _ _ _ (Hnd (item md)) He Hidx). lia.
    + rewrite Hp' in Hp. destruct (Hreg _ _ _ Hm Hp) as (pd & Hpd & Hd).
      destruct (tree_parent _ _ _ Hok _ _ _ Hm Hp) as [? _].
      exists pd. rewrite Hfr by lia. rewrite Hi'. done.
    + destruct (Hreg _ _ _ Hc' Hp) as (pd & Hpd & Hd).
      assert (p ≠ m).
      { intros ->. apply (Hfresh m c cd); [left|done..]. }
      pose proof (node_Some_lt _ _ _ Hpd).
      exists pd. rewrite Hfr by lia. done.
  - rewrite Hst'. apply NoDup_app. split_and!.
    + rewrite reverse_Permutation. apply NoDup_seq.
    + intros n. rewrite elem_of_reverse, elem_of_seq. intros [? ?] ?%Hrest. lia.
    + done.
  - intros x c cd. rewrite Hst', elem_of_app, elem_of_reverse, elem_of_seq.
    intros Hx Hc Hp.
    destruct (Hcases _ _ Hc) as [(Hge & e & He & ->)|[[-> ->]|(? & ? & Hc')]].
    + simpl in Hp. injection Hp as <-.
      destruct Hx as [[? ?]|?]; [lia|done].
    + rewrite Hp' in Hp. destruct Hx as [[? ?]|?].
      * destruct (tree_parent _ _ _ Hok _ _ _ Hm Hp) as [? _]. lia.
      * apply (Hfresh x m md); [by right|done..].
    + destruct Hx as [[? ?]|?].
      * destruct (tree_parent _ _ _ Hok _ _ _ Hc' Hp) as [? _]. lia.
      * apply (Hfresh x c cd); [by right|done..].
Qed.

Lemma generate_loop_registered top fuel : ∀ s stack s',
  listed_once netlist →
  gen_inv netlist s stack top → reg_inv s stack →
  generate_loop netlist fuel s stack = Ok s' → registered s'.
Proof.
  induction fuel as [|fuel IH]; intros s stack s' Hnd Hinv Hreg; simpl; [done|].
  destruct stack as [|m rest].
  - intros [= <-]. by destruct Hreg.
  - intros (md & Hget & Hloop)%bind_Ok.
    unfold get in Hget. destruct (node s m) as [md0|] eqn:Hm; [|done].
    injection Hget as ->.
    pose proof (gen_inv_step _ _ _ _ _ Hinv Hm) as Hinv'.
    pose proof (reg_inv_step _ _ _ _ _ Hnd Hinv Hreg Hm) as Hreg'.
    destruct (generate_step netlist s rest m (item md)) as [s1 st1].
    by eapply IH.
Qed.

Lemma generate_nodes_registered fuel counter top s :
  listed_once netlist →
  generate_nodes netlist fuel counter = Ok (top, s) → registered s.
Proof.
  intros Hnd. unfold generate_nodes. cbv zeta.
  assert ((alloc (mkStore counter [])
             (mkNode None (Instance (top_instance netlist)) [])).1 = counter)
    as -> by (unfold alloc, limit; simpl; lia).
  intros (s' & Hloop & [= <- <-])%bind_Ok.
  pose proof (tree_ok_init counter) as Hinit.
  eapply generate_loop_registered; [done..| |done].
  split_and!.
  - by intros c cd p [-> ->]%node_init.
  - apply NoDup_singleton.
  - by intros m c cd _ [-> ->]%node_init.
Qed.
End Generate.

(** ** The collectors *)

Section Collect.
Context (netlist : Netlist).

Lemma elements_of_Instance it j :
  Instance j ∈ elements_of netlist it →
  ∃ i, it = Instance i ∧ j ∈ def_children netlist (reference netlist i).
Proof.
  destruct it as [i|p|c|w|p]; simpl.
  - rewrite !elem_of_app, !list_elem_of_fmap.
    intros [(? & ? & ?)|[(? & ? & ?)|(j' & [= <-] & ?)]]; [done..|eauto].
  - rewrite list_elem_of_fmap. by intros (? & ? & ?).
  - rewrite list_elem_of_fmap. by intros (? & ? & ?).
  - by intros ?%elem_of_nil.
  - by intros ?%elem_of_nil.
Qed.

Lemma elements_of_Port it p :
  Port p ∈ elements_of netlist it →
  ∃ i, it = Instance i ∧ p ∈ ports netlist (reference netlist i).
Proof.
  destruct it as [i|p'|c|w|p']; simpl.
  - rewrite !elem_of_app, !list_elem_of_fmap.
    intros [(j' & [= <-] & ?)|[(? & ? & ?)|(? & ? & ?)]]; [eauto|done..].
  - rewrite list_elem_of_fmap. by intros (? & ? & ?).
  - rewrite list_elem_of_fmap. by intros (? & ? & ?).
  - by intros ?%elem_of_nil.
  - by intros ?%elem_of_nil.
Qed.

Lemma elements_of_Cable it c :
  Cable c ∈ elements_of netlist it →
  ∃ i, it = Instance i ∧ c ∈ cables netlist (reference netlist i).
Proof.
  destruct it as [i|p'|c'|w|p']; simpl.
  - rewrite !elem_of_app, !list_elem_of_fmap.
    intros [(? & ? & ?)|[(j' & [= <-] & ?)|(? & ? & ?)]]; [done|eauto|done].
  - rewrite list_elem_of_fmap. by intros (? & ? & ?).
  - rewrite list_elem_of_fmap. by intros (? & ? & ?).
  - by intros ?%elem_of_nil.
  - by intros ?%elem_of_nil.
Qed.

Lemma elements_of_Wire it w :
  Wire w ∈ elements_of netlist it →
  ∃ c, it = Cable c ∧ w ∈ wires netlist c.
Proof.
  destruct it as [i|p'|c'|w'|p']; simpl.
  - rewrite !elem_of_app, !list_elem_of_fmap.
    by intros [(? & ? & ?)|[(? & ? & ?)|(? & ? & ?)]].
  - rewrite list_elem_of_fmap. by intros (? & ? & ?).
  - rewrite list_elem_of_fmap. intros (? & [= <-] & ?). eauto.
  - by intros ?%elem_of_nil.
  - by intros ?%elem_of_nil.
Qed.

Lemma elements_of_InnerPin it q :
  InnerPin q ∈ elements_of netlist it →
  ∃ p, it = Port p ∧ q ∈ port_pins netlist p.
Proof.
  destruct it as [i|p'|c'|w'|p']; simpl.
  - rewrite !elem_of_app, !list_elem_of_fmap.
    by intros [(? & ? & ?)|[(? & ? & ?)|(? & ? & ?)]].
  - rewrite list_elem_of_fmap. intros (? & [= <-] & ?). eauto.
  - rewrite list_elem_of_fmap. by intros (? & ? & ?).
  - by intros ?%elem_of_nil.
  - by intros ?%elem_of_nil.
Qed.

Lemma visited_head s m n :
  visited netlist s m n →
  n = m ∨ ∃ md i e c, node s m = Some md ∧ item md = Instance i
    ∧ is_leaf netlist (reference netlist i) = false
    ∧ dict_get (children md) e = Some c ∧ visited netlist s c n.
Proof.
  induction 1 as [|p pd i e c Hp IH Hpd Hi Hl Hc]; [by left|].
  right. destruct IH as [-> |(md & i' & e' & c' & ? & ? & ? & ? & ?)].
  - exists pd, i, e, c. split_and!; [done..|]. constructor.
  - exists md, i', e', c'. split_and!; [done..|].
    by eapply visited_child.
Qed.

Lemma visited_trans s top m n :
  visited netlist s top m → visited netlist s m n → visited netlist s top n.
Proof.
  intros Hm. induction 1; [done|]. by eapply visited_child.
Qed.

Lemma visited_parent s top c cd p :
  tree_ok netlist s top → visited netlist s top c →
  node s c = Some cd → parent cd = Some p → visited netlist s top p.
Proof.
  intros Hok Hv Hc Hp. destruct Hv as [|p' pd i e c Hv Hpd Hi Hl Hd].
  - destruct (tree_root _ _ _ Hok) as (rd & ? & ? & ?). congruence.
  - destruct (tree_child _ _ _ Hok _ _ _ _ Hpd Hd) as (cd' & ? & ? & ?).
    by simplify_eq.
Qed.

Lemma visited_instance_child s top cur curd j c :
  tree_ok netlist s top → leaf_childless netlist →
  visited netlist s top cur → node s cur = Some curd →
  dict_get (children curd) (Instance j) = Some c →
  visited netlist s top c.
Proof.
  intros Hok Hleaf Hv Hcur Hd.
  destruct (elements_of_Instance (item curd) j) as (i & Hi & Hj).
  { eapply tree_keys; eauto. }
  eapply visited_child; [done..| |done].
  destruct (is_leaf netlist (reference netlist i)) eqn:Hl; [|done].
  rewrite (Hleaf _ Hl) in Hj. by apply elem_of_nil in Hj.
Qed.

Lemma leaf_loop_spec s top fuel : ∀ stack acc res,
  tree_ok netlist s top →
  leaf_loop netlist fuel s stack acc = Ok res →
  ∀ x, x ∈ res ↔
       x ∈ acc ∨ ∃ m, m ∈ stack ∧ visited netlist s m x ∧ leaf_node netlist s x.
Proof.
  induction fuel as [|fuel IH]; intros stack acc res Hok; simpl; [done|].
  destruct stack as [|m rest].
  - intros [= <-] x. split; [by left|].
    intros [?|(? & ?%elem_of_nil & _)]; done.
  - intros (md & Hget & Hloop)%bind_Ok.
    unfold get in Hget. destruct (node s m) as [md0|] eqn:Hm; [|done].
    injection Hget as ->.
    assert (∀ x, visited netlist s m x → leaf_node netlist s x →
                 (∀ i, item md = Instance i →
                       is_leaf netlist (reference netlist i) = false) →
                 ∃ c, c ∈ (children md).*2 ∧ visited netlist s c x) as Hdown.
    { intros x [-> |(md' & i & e & c & ? & ? & ? & Hc & ?)]%visited_head
        (nd & i' & ? & ? & Hl) Hnl.
      - simplify_eq. rewrite (Hnl i') in Hl; done.
      - simplify_eq. exists c. split; [|done].
        apply list_elem_of_fmap. exists (e, c). split; [done|].
        by apply dict_get_Some_elem. }
    assert (∀ x, visited netlist s m x → leaf_node netlist s x →
                 (∀ i, item md ≠ Instance i) → False) as Hnone.
    { intros x [-> |(md' & i & e & c & ? & ? & ? & Hc & ?)]%visited_head
        (nd & i' & ? & ? & Hl) Hni; simplify_eq; by eapply Hni. }
    destruct (item md) as [i| | | |] eqn:Hi;
      [destruct (is_leaf netlist (reference netlist i)) eqn:Hl|..];
      intros x; rewrite (IH _ _ _ Hok Hloop x).
    + rewrite elem_of_app, list_elem_of_singleton. split.
      * intros [[?| ->]|(m' & ? & ? & ?)]; [by left| |].
        -- right. exists m. split_and!; [left|constructor|].
           by exists md, i.
        -- right. exists m'. split_and!; [by right|done..].
      * intros [?|(m' & [-> |?]%elem_of_cons & Hv & Hleaf)]; [by left;left| |].
        -- apply visited_head in Hv as [-> |(md' & i' & ? & ? & ? & ? & ? & _)];
             [by left; right|]. simplify_eq. congruence.
        -- right. by exists m'.
    + split.
      * intros [?|(m' & [Hin|?]%elem_of_app & Hv & Hleaf)]; [by left| |].
        -- right. exists m. split_and!; [left| |done].
           apply elem_of_reverse, list_elem_of_fmap in Hin as ([e c] & -> & Hin).
           eapply visited_trans; [|done].
           eapply visited_child; [constructor|done..|].
           apply dict_get_elem; [|done]. by eapply tree_dict.
        -- right. exists m'. split_and!; [by right|done..].
      * intros [?|(m' & [-> |?]%elem_of_cons & Hv & Hleaf)]; [by left| |].
        -- destruct (Hdown _ Hv Hleaf) as (c & ? & ?).
           { intros ? [= <-]. done. }
           right. exists c. split_and!; [|done..].
           apply elem_of_app. left. by apply elem_of_reverse.
        -- right. exists m'. split_and!; [|done..].
           apply elem_of_app. by right.
    + split.
      * intros [?|(m' & ? & ? & ?)]; [by left|].
        right. exists m'. split_and!; [by right|done..].
      * intros [?|(m' & [-> |?]%elem_of_cons & Hv & Hleaf)]; [by left| |].
        -- exfalso. by eapply Hnone.
        -- right. by exists m'.
    + split.
      * intros [?|(m' & ? & ? & ?)]; [by left|].
        right. exists m'. split_and!; [by right|done..].
      * intros [?|(m' & [-> |?]%elem_of_cons & Hv & Hleaf)]; [by left| |].
        -- exfalso. by eapply Hnone.
        -- right. by exists m'.
    + split.
      * intros [?|(m' & ? & ? & ?)]; [by left|].
        right. exists m'. split_and!; [by right|done..].
      * intros [?|(m' & [-> |?]%elem_of_cons & Hv & Hleaf)]; [by left| |].
        -- exfalso. by eapply Hnone.
        -- right. by exists m'.
    + split.
      * intros [?|(m' & ? & ? & ?)]; [by left|].
        right. exists m'. split_and!; [by right|done..].
      * intros [?|(m' & [-> |?]%elem_of_cons & Hv & Hleaf)]; [by left| |].
        -- exfalso. by eapply Hnone.
        -- right. by exists m'.
Qed.

(** [get_leaf_instance_nodes] returns the visited nodes that wrap an
    instance of a leaf definition. *)
Lemma get_leaf_instance_nodes_spec fuel s top leaves :
  tree_ok netlist s top →
  get_leaf_instance_nodes netlist fuel s top = Ok leaves →
  ∀ x, x ∈ leaves ↔ visited netlist s top x ∧ leaf_node netlist s x.
Proof.
  intros Hok Hl x. unfold get_leaf_instance_nodes in Hl.
  rewrite (leaf_loop_spec _ _ _ _ _ _ Hok Hl x). split.
  - intros [?%elem_of_nil|(m & ->%list_elem_of_singleton & ? & ?)]; done.
  - intros [? ?]. right. exists top. split_and!; [left|done..].
Qed.

(** [get_top_port_nodes] returns the port nodes under the root. *)
Lemma get_top_port_nodes_spec s top tops :
  tree_ok netlist s top →
  get_top_port_nodes s top = Ok tops →
  ∀ x, x ∈ tops ↔ top_port_node s top x.
Proof.
  intros Hok. unfold get_top_port_nodes.
  intros (td & Hget & [= <-])%bind_Ok x.
  unfold get in Hget. destruct (node s top) as [td0|] eqn:Htop; [|done].
  injection Hget as ->.
  rewrite list_elem_of_fmap. split.
  - intros ([k v] & -> & [Hp Hin]%list_elem_of_filter). simpl in *.
    destruct k as [|p| | |]; try done.
    exists td, p. split; [done|].
    apply dict_get_elem; [|done]. by eapply tree_dict.
  - intros (td' & p & ? & Hd). simplify_eq.
    exists (Port p, x). split; [done|].
    apply list_elem_of_filter. split; [done|]. by apply dict_get_Some_elem.
Qed.
End Collect.

(** ** The downstream traversal *)

Section Traverse.
Context (netlist : Netlist).

Lemma get_Ok s n nd : get s n = Ok nd ↔ node s n = Some nd.
Proof. unfold get. destruct (node s n); naive_solver. Qed.

Lemma deref_Ok s on nd :
  deref s on = Ok nd ↔ ∃ n, on = Some n ∧ node s n = Some nd.
Proof.
  destruct on as [n|]; simpl; [rewrite get_Ok|]; naive_solver.
Qed.

Lemma child_of_kid s top on e c :
  tree_ok netlist s top →
  child_of s on e = Ok c → ∃ n, on = Some n ∧ kid s n e c.
Proof.
  intros Hok. unfold child_of.
  intros (nd & (n & -> & Hn)%deref_Ok & Hd)%bind_Ok.
  destruct (dict_get (children nd) e) as [c'|] eqn:Hc; [|done].
  injection Hd as ->. exists n. split; [done|].
  destruct (tree_child _ _ _ Hok _ _ _ _ Hn Hc) as (cd & ? & ? & ?).
  by exists nd, cd.
Qed.

Lemma kid_child_of s n e c : kid s n e c → child_of s (Some n) e = Ok c.
Proof.
  intros (nd & cd & Hn & Hd & _). unfold child_of; simpl.
  unfold get. rewrite Hn; simpl. by rewrite Hd.
Qed.

Lemma visit_pin_step s top flag cur st pin st' :
  tree_ok netlist s top →
  visit_pin netlist s flag cur st pin = Ok st' →
  ∃ c, cur = Some c ∧ pin_step netlist s flag c st pin st'.
Proof.
  intros Hok. destruct pin as [p|o]; simpl.
  - intros (port_node & (c & -> & Hport)%(child_of_kid _ top) & H)%bind_Ok;
      [|done].
    apply bind_Ok in H as (pin_node & (? & [= <-] & Hpin)%(child_of_kid _ top) & H);
      [|done].
    exists c. split; [done|].
    case_decide as Hfound.
    { injection H as <-. by eapply step_skip. }
    apply bind_Ok in H as (curd & Hcur%get_Ok & H).
    destruct (parent curd) as [par|] eqn:Hpar.
    + apply bind_Ok in H as (o & Ho & H).
      destruct (outer_wire netlist o) as [w|] eqn:Hw.
      * apply bind_Ok in H
          as (cable_node & (? & [= <-] & Hcab)%(child_of_kid _ top) & H);
          [|done].
        apply bind_Ok in H
          as (wire_node & (? & [= <-] & Hwire)%(child_of_kid _ top) & H);
          [|done].
        injection H as <-. by eapply step_up.
      * injection H as <-. by eapply step_up_open.
    + assert (st' = if flag then emit port_node (mark pin_node st)
                    else mark pin_node st) as ->.
      { destruct flag; by injection H as <-. }
      by eapply step_top.
  - intros (instance_node & (c & -> & Hinst)%(child_of_kid _ top) & H)%bind_Ok;
      [|done].
    exists c. split; [done|].
    destruct (is_leaf netlist (reference netlist (instance netlist o))) eqn:Hl.
    { injection H as <-. by eapply step_leaf. }
    apply bind_Ok in H
      as (port_node & (? & [= <-] & Hport)%(child_of_kid _ top) & H); [|done].
    apply bind_Ok in H
      as (pin_node & (? & [= <-] & Hpin)%(child_of_kid _ top) & H); [|done].
    destruct (inner_wire netlist (inner_pin netlist o)) as [w|] eqn:Hw.
    + apply bind_Ok in H
        as (cable_node & (? & [= <-] & Hcab)%(child_of_kid _ top) & H); [|done].
      apply bind_Ok in H
        as (wire_node & (? & [= <-] & Hwire)%(child_of_kid _ top) & H); [|done].
      injection H as <-. by eapply step_down.
    + injection H as <-. by eapply step_down_open.
Qed.

Lemma pin_step_visit s flag c st pin st' :
  pin_step netlist s flag c st pin st' →
  visit_pin netlist s flag (Some c) st pin = Ok st'.
Proof.
  destruct 1; simpl; unfold get;
    repeat (first
      [ rewrite decide_True by done
      | rewrite decide_False by done
      | match goal with
        | H : kid _ _ _ _ |- _ => rewrite (kid_child_of _ _ _ _ H)
        | H : _ = _ |- _ => rewrite H
        end ]; simpl; unfold get); try done.
  by destruct flag.
Qed.

Lemma visit_wire_Ok s flag w st st' :
  visit_wire netlist s flag w st = Ok st' →
  ∃ wd cab cabd pins, node s w = Some wd ∧ parent wd = Some cab
    ∧ node s cab = Some cabd ∧ pins_of netlist (item wd) = Ok pins
    ∧ fold_result (visit_pin netlist s flag (parent cabd)) st pins = Ok st'.
Proof.
  unfold visit_wire.
  intros (wd & Hw%get_Ok & H)%bind_Ok.
  apply bind_Ok in H as (cabd & (cab & Hp & Hcab)%deref_Ok & H).
  apply bind_Ok in H as (pins & Hpins & H).
  by exists wd, cab, cabd, pins.
Qed.

Lemma kid_parent s n e c cd :
  kid s n e c → node s c = Some cd → parent cd = Some n ∧ item cd = e.
Proof. intros (nd & cd' & ? & ? & ? & ? & ?) ?. by simplify_eq. Qed.

Lemma kid_node s n e c : kid s n e c → ∃ cd, node s c = Some cd.
Proof. intros (nd & cd' & ? & ? & ? & ? & ?). eauto. Qed.

(** *** What the search emits *)

Lemma pin_step_wraps s top flag c st pin st' :
  tree_ok netlist s top → pin_step netlist s flag c st pin st' →
  ∀ d, d ∈ downstream_nodes st' →
       d ∈ downstream_nodes st ∨ wraps_selected netlist s top flag d.
Proof.
  intros Hok Hstep d.
  destruct Hstep as [| | |p port_node pin_node curd Hport Hpin Hnf Hcur Hpar
                     |o instance_node Hinst Hl| |]; simpl; auto.
  - destruct flag eqn:Hflag; simpl; [|auto].
    intros [?| ->%list_elem_of_singleton]%elem_of_app; [auto|]. right.
    destruct Hport as (nd & cd & ? & ? & ? & ? & ?).
    exists cd. split; [done|]. right. split; [done|].
    exists (port netlist p). split; [done|].
    by rewrite <- (tree_top _ _ _ Hok _ _ Hcur Hpar).
  - intros [?| ->%list_elem_of_singleton]%elem_of_app; [auto|]. right.
    destruct Hinst as (nd & cd & ? & ? & ? & ? & ?).
    exists cd. split; [done|]. left. eauto.
Qed.

Lemma seed_instance_pin_downstream s n par st pin st' :
  seed_instance_pin netlist s n par st pin = Ok st' →
  downstream_nodes st' = downstream_nodes st.
Proof.
  unfold seed_instance_pin.
  destruct (outer_wire netlist pin); [|by intros [= <-]].
  case_match; [|by intros [= <-]].
  intros (? & _ & (? & _ & (? & _ & (? & _ & [= <-])%bind_Ok)%bind_Ok)%bind_Ok)%bind_Ok.
  done.
Qed.

Lemma seed_port_pin_downstream s n par st pin st' :
  seed_port_pin netlist s n par st pin = Ok st' →
  downstream_nodes st' = downstream_nodes st.
Proof.
  unfold seed_port_pin.
  destruct (inner_wire netlist pin); [|by intros [= <-]].
  intros (? & _ & (? & _ & (? & _ & [= <-])%bind_Ok)%bind_Ok)%bind_Ok.
  done.
Qed.

Lemma seeds_downstream s n flag st :
  seeds netlist s n flag = Ok st → downstream_nodes st = [].
Proof.
  unfold seeds. intros (nd & _ & H)%bind_Ok.
  destruct (item nd).
  - revert H. apply (fold_result_ind (λ st, downstream_nodes st = [])); [|done].
    intros a b a' _ Ha Hs. by rewrite (seed_instance_pin_downstream _ _ _ _ _ _ Hs).
  - destruct flag; [|by injection H as <-].
    destruct (receives _); [|by injection H as <-].
    revert H. apply (fold_result_ind (λ st, downstream_nodes st = [])); [|done].
    intros a b a' _ Ha Hs. by rewrite (seed_port_pin_downstream _ _ _ _ _ _ Hs).
  - by injection H as <-.
  - by injection H as <-.
  - by injection H as <-.
Qed.

Lemma traverse_wraps s top flag fuel : ∀ st ds,
  tree_ok netlist s top →
  (∀ d, d ∈ downstream_nodes st → wraps_selected netlist s top flag d) →
  traverse netlist fuel s flag st = Ok ds →
  ∀ d, d ∈ ds → wraps_selected netlist s top flag d.
Proof.
  induction fuel as [|fuel IH]; intros st ds Hok Hst; simpl; [done|].
  destruct (search_stack st) as [|w rest]; [by intros [= <-]|].
  intros (st' & Hw & Ht)%bind_Ok.
  eapply IH; [done| |done].
  apply visit_wire_Ok in Hw as (wd & cab & cabd & pins & _ & _ & _ & _ & Hfold).
  revert Hfold.
  apply (fold_result_ind
           (λ st, ∀ d, d ∈ downstream_nodes st → wraps_selected netlist s top flag d));
    [|done].
  intros a pin a' _ Ha (c & _ & Hstep)%(visit_pin_step _ top) d Hd; [|done].
  destruct (pin_step_wraps _ _ _ _ _ _ _ Hok Hstep d Hd); auto.
Qed.

(** Whatever the start node, the downstream nodes wrap leaf instances
    or top ports. *)
Lemma get_downstream_nodes_wraps fuel s top n flag ds :
  tree_ok netlist s top →
  get_downstream_nodes netlist fuel s n flag = Ok ds →
  ∀ d, d ∈ ds → wraps_selected netlist s top flag d.
Proof.
  intros Hok (st & Hseeds & Ht)%bind_Ok.
  eapply traverse_wraps; [done| |done].
  rewrite (seeds_downstream _ _ _ _ Hseeds). by intros d ?%elem_of_nil.
Qed.

(** *** Searches that start at a selected node *)

Lemma kid_under_visited s top par cab e w wn :
  visited netlist s top par →
  kid s par e cab → kid s cab w wn → under_visited netlist s top wn.
Proof.
  intros Hv (? & cabd & ? & ? & ? & ? & ?) (? & wd & ? & ? & ? & ? & ?).
  by exists wd, cab, cabd, par.
Qed.

Lemma pin_step_inv s top flag c st pin st' :
  tree_ok netlist s top → leaf_childless netlist →
  visited netlist s top c →
  pin_step netlist s flag c st pin st' →
  search_inv netlist s top flag st → search_inv netlist s top flag st'.
Proof.
  intros Hok Hleaf Hv Hstep [Hstack Hdown].
  destruct Hstep as
    [| p port_node pin_node curd par o w cable_node wire_node
         Hport Hpin Hnf Hcur Hpar Ho Hw Hcab Hwire
     | | p port_node pin_node curd Hport Hpin Hnf Hcur Hpar
     | o instance_node Hinst Hl
     | o instance_node port_node pin_node w cable_node wire_node
         Hinst Hl Hport Hpin Hw Hcab Hwire
     | ]; try done.
  - split; [|done]. simpl. intros x [-> |?]%elem_of_cons; [|auto].
    eapply kid_under_visited; [|exact Hcab|exact Hwire].
    by eapply visited_parent.
  - destruct flag eqn:Hflag; [|done].
    split; [done|]. simpl.
    intros d [?| ->%list_elem_of_singleton]%elem_of_app; [auto|].
    right. split; [done|].
    rewrite (tree_top _ _ _ Hok _ _ Hcur Hpar) in Hport.
    destruct Hport as (td & ? & ? & ? & _). by exists td, (port netlist p).
  - split; [done|]. simpl.
    intros d [?| ->%list_elem_of_singleton]%elem_of_app; [auto|].
    left. destruct Hinst as (nd & cd & ? & ? & ? & ? & ?). split.
    + by eapply visited_instance_child.
    + by exists cd, (instance netlist o).
  - split; [|done]. simpl. intros x [-> |?]%elem_of_cons; [|auto].
    eapply kid_under_visited; [|exact Hcab|exact Hwire].
    destruct Hinst as (nd & cd & ? & ? & ? & ? & ?).
    by eapply visited_instance_child.
Qed.

Lemma visit_wire_inv s top flag w st rest st' :
  tree_ok netlist s top → leaf_childless netlist →
  search_inv netlist s top flag st → search_stack st = w :: rest →
  visit_wire netlist s flag w
    (mkSearch (found_pin_nodes st) rest (downstream_nodes st)) = Ok st' →
  search_inv netlist s top flag st'.
Proof.
  intros Hok Hleaf [Hstack Hdown] Hst
    (wd & cab & cabd & pins & Hw & Hp & Hcab & _ & Hfold)%visit_wire_Ok.
  destruct (Hstack w) as (wd' & cab' & cabd' & cur & ? & ? & ? & Hcur & Hv).
  { rewrite Hst. left. }
  simplify_eq. rewrite Hcur in Hfold.
  revert Hfold. apply fold_result_ind.
  - intros a pin a' _ Ha (c & [= <-] & Hstep)%(visit_pin_step _ top); [|done].
    by eapply pin_step_inv.
  - split; [|done]. simpl. intros x ?. apply Hstack. rewrite Hst. by right.
Qed.

Lemma traverse_inv s top flag fuel : ∀ st ds,
  tree_ok netlist s top → leaf_childless netlist →
  search_inv netlist s top flag st →
  traverse netlist fuel s flag st = Ok ds →
  ∀ d, d ∈ ds → selected netlist s top flag d.
Proof.
  induction fuel as [|fuel IH]; intros st ds Hok Hleaf Hinv; simpl; [done|].
  destruct (search_stack st) as [|w rest] eqn:Hst.
  - intros [= <-]. by destruct Hinv.
  - intros (st' & Hw & Ht)%bind_Ok.
    eapply IH; [done..| |done]. by eapply visit_wire_inv.
Qed.

Lemma seeds_inv s top n flag st :
  tree_ok netlist s top → selected netlist s top flag n →
  seeds netlist s n flag = Ok st → search_inv netlist s top flag st.
Proof.
  intros Hok Hsel. unfold seeds. intros (nd & Hn%get_Ok & H)%bind_Ok.
  assert (search_inv netlist s top flag (mkSearch ∅ [] [])) as Hinit.
  { split; simpl; by intros ? ?%elem_of_nil. }
  assert (∀ par, parent nd = Some par → visited netlist s top par) as Hpar.
  { intros par Hp. destruct Hsel as [[Hv _]|[_ (td & p & Htd & Hd)]].
    - by eapply visited_parent.
    - destruct (tree_child _ _ _ Hok _ _ _ _ Htd Hd) as (cd & ? & ? & ?).
      simplify_eq. constructor. }
  assert (∀ st1 st2 w cable_node wire_node,
    search_inv netlist s top flag st1 →
    child_of s (parent nd) (Cable (cable netlist w)) = Ok cable_node →
    child_of s (Some cable_node) (Wire w) = Ok wire_node →
    downstream_nodes st2 = downstream_nodes st1 →
    search_stack st2 = wire_node :: search_stack st1 →
    search_inv netlist s top flag st2) as Hpush.
  { intros st1 st2 w cable_node wire_node [Hs Hd]
      (par & Hp & Hcab)%(child_of_kid _ top)
      (? & [= <-] & Hwire)%(child_of_kid _ top) Hds Hss; [|done..].
    split.
    - rewrite Hss. intros x [-> |?]%elem_of_cons; [|auto].
      eapply kid_under_visited; [|exact Hcab|exact Hwire]. auto.
    - by rewrite Hds. }
  destruct (item nd).
  - revert H. apply fold_result_ind; [|done].
    intros a pin a' _ Ha. unfold seed_instance_pin.
    destruct (outer_wire netlist pin); [|by intros [= <-]].
    case_match; [|by intros [= <-]].
    intros (? & _ & (pn & _ & (cn & Hc & (wn & Hw & [= <-])%bind_Ok)%bind_Ok)%bind_Ok)%bind_Ok.
    by eapply (Hpush (mark pn a)).
  - destruct flag; [|by injection H as <-].
    destruct (receives _); [|by injection H as <-].
    revert H. apply fold_result_ind; [|done].
    intros a pin a' _ Ha. unfold seed_port_pin.
    destruct (inner_wire netlist pin); [|by intros [= <-]].
    intros (pn & _ & (cn & Hc & (wn & Hw & [= <-])%bind_Ok)%bind_Ok)%bind_Ok.
    by eapply (Hpush (mark pn a)).
  - by injection H as <-.
  - by injection H as <-.
  - by injection H as <-.
Qed.

(** From a selected node, the search returns selected nodes only. *)
Lemma get_downstream_nodes_selected fuel s top n flag ds :
  tree_ok netlist s top → leaf_childless netlist →
  selected netlist s top flag n →
  get_downstream_nodes netlist fuel s n flag = Ok ds →
  ∀ d, d ∈ ds → selected netlist s top flag d.
Proof.
  intros Hok Hleaf Hsel (st & Hseeds & Ht)%bind_Ok.
  eapply traverse_inv; [done..| |done]. by eapply seeds_inv.
Qed.
End Traverse.

(** ** The graph assembler *)

Lemma add_node_nodes g n x : x ∈ g_nodes (add_node g n) ↔ x ∈ g_nodes g ∨ x = n.
Proof.
  unfold add_node. case_decide; simpl.
  - naive_solver.
  - rewrite elem_of_app, list_elem_of_singleton. done.
Qed.

Lemma add_node_edges g n : g_edges (add_node g n) = g_edges g.
Proof. unfold add_node. by case_decide. Qed.

Lemma add_node_present g n : n ∈ g_nodes g → add_node g n = g.
Proof. intros. unfold add_node. by rewrite decide_True. Qed.

Lemma add_nodes_from_nodes ns : ∀ g x,
  x ∈ g_nodes (add_nodes_from g ns) ↔ x ∈ g_nodes g ∨ x ∈ ns.
Proof.
  unfold add_nodes_from.
  induction ns as [|n ns IH]; intros g x; simpl.
  - rewrite elem_of_nil. naive_solver.
  - rewrite IH, add_node_nodes, elem_of_cons. naive_solver.
Qed.

Lemma add_nodes_from_edges ns : ∀ g,
  g_edges (add_nodes_from g ns) = g_edges g.
Proof.
  unfold add_nodes_from.
  induction ns as [|n ns IH]; intros g; simpl; [done|].
  by rewrite IH, add_node_edges.
Qed.

Lemma add_edge_nodes g u v x :
  x ∈ g_nodes (add_edge g u v) ↔ x ∈ g_nodes g ∨ x = u ∨ x = v.
Proof.
  unfold add_edge. cbv zeta. case_decide; simpl;
    rewrite !add_node_nodes; naive_solver.
Qed.

Lemma add_edge_edges g u v e :
  e ∈ g_edges (add_edge g u v) ↔ e ∈ g_edges g ∨ e = (u, v).
Proof.
  unfold add_edge. cbv zeta. case_decide as Hin; simpl.
  - rewrite !add_node_edges in *. naive_solver.
  - rewrite elem_of_app, list_elem_of_singleton, !add_node_edges. done.
Qed.

Lemma add_edges_from_nodes u vs : ∀ g x,
  x ∈ g_nodes (add_edges_from g u vs)
  ↔ x ∈ g_nodes g ∨ (vs ≠ [] ∧ x = u) ∨ x ∈ vs.
Proof.
  unfold add_edges_from.
  induction vs as [|v vs IH]; intros g x; simpl.
  - rewrite elem_of_nil. naive_solver.
  - rewrite IH, add_edge_nodes, elem_of_cons.
    destruct vs; naive_solver.
Qed.

Lemma add_edges_from_edges u vs : ∀ g e,
  e ∈ g_edges (add_edges_from g u vs)
  ↔ e ∈ g_edges g ∨ ∃ v, v ∈ vs ∧ e = (u, v).
Proof.
  unfold add_edges_from.
  induction vs as [|v vs IH]; intros g e; simpl.
  - split; [by left|]. intros [?|(? & ?%elem_of_nil & _)]; done.
  - rewrite IH, add_edge_edges. split.
    + intros [[?| ->]|(v' & ? & ->)]; [by left|right..].
      * exists v. split; [left|done].
      * exists v'. split; [by right|done].
    + intros [?|(v' & [-> |?]%elem_of_cons & ->)]; [by left; left|by left; right|].
      right. by exists v'.
Qed.

Section Assemble.
Context (netlist : Netlist).

(** The pieces of a run of [get_connectivity_graph]. *)
Lemma get_connectivity_graph_Ok fuel flag counter g s :
  get_connectivity_graph netlist fuel flag counter = Ok (g, s) →
  ∃ top leaves tops,
    generate_nodes netlist fuel counter = Ok (top, s)
    ∧ get_leaf_instance_nodes netlist fuel s top = Ok leaves
    ∧ get_top_port_nodes s top = Ok tops
    ∧ let g1 := add_nodes_from
                  (add_nodes_from (mkDiGraph [] []) leaves)
                  (if flag then tops else []) in
      fold_result (connect netlist fuel s flag) g1 (g_nodes g1) = Ok g.
Proof.
  unfold get_connectivity_graph.
  intros ([top s'] & Hgen & H)%bind_Ok.
  apply bind_Ok in H as (leaves & Hleaves & H).
  apply bind_Ok in H as (g1 & Hg1 & H).
  apply bind_Ok in H as (g2 & Hfold & [= <- <-]).
  destruct flag.
  - apply bind_Ok in Hg1 as (tops & Htops & [= <-]).
    by exists top, leaves, tops.
  - injection Hg1 as <-.
    assert (∃ tops, get_top_port_nodes s' top = Ok tops) as [tops Htops].
    { unfold get_top_port_nodes.
      destruct (generate_nodes_tree _ _ _ _ _ Hgen) as (_ & _ & Hok & _).
      destruct (tree_root _ _ _ Hok) as (rd & Hrd & _).
      unfold get. rewrite Hrd. simpl. eauto. }
    by exists top, leaves, tops.
Qed.

Lemma selected_list s top (flag : bool) (leaves tops : list nat) fuel (x : nat) :
  tree_ok netlist s top →
  get_leaf_instance_nodes netlist fuel s top = Ok leaves →
  get_top_port_nodes s top = Ok tops →
  x ∈ leaves ++ (if flag then tops else []) ↔ selected netlist s top flag x.
Proof.
  intros Hok Hl Ht. rewrite elem_of_app.
  rewrite (get_leaf_instance_nodes_spec _ _ _ _ _ Hok Hl).
  unfold selected. destruct flag.
  - rewrite (get_top_port_nodes_spec _ _ _ _ Hok Ht). naive_solver.
  - rewrite elem_of_nil. naive_solver.
Qed.
End Assemble.

Section Selected.
Context (netlist : Netlist).

Lemma connect_selected fuel s flag (sel : list nat) g n g' :
  (∀ x, x ∈ sel →
     ∀ ds, get_downstream_nodes netlist fuel s x flag = Ok ds →
           ∀ d, d ∈ ds → d ∈ sel) →
  n ∈ sel →
  (∀ x, x ∈ g_nodes g ↔ x ∈ sel) →
  (∀ u v, (u, v) ∈ g_edges g → u ∈ sel ∧ v ∈ sel) →
  connect netlist fuel s flag g n = Ok g' →
  (∀ x, x ∈ g_nodes g' ↔ x ∈ sel)
  ∧ (∀ u v, (u, v) ∈ g_edges g' → u ∈ sel ∧ v ∈ sel).
Proof.
  intros Hsel Hn Hnodes Hedges (ds & Hds & [= <-])%bind_Ok.
  pose proof (Hsel _ Hn _ Hds) as Hin. split.
  - intros x. rewrite add_edges_from_nodes, Hnodes.
    split; [|by left]. intros [?|[[_ ->]|?]]; auto.
  - intros u v. rewrite add_edges_from_edges.
    intros [?|(d & ? & [= -> ->])]; auto.
Qed.
End Selected.

(** C9. Every element of the list returned by [get_downstream_nodes] for
    a selected start node is itself a selected graph node: it wraps an
    instance of a leaf definition or, only when [include_top_ports] is
    true, a port that is a direct child of the root node.  Hence the node
    set of the graph returned by [get_connectivity_graph] is the selected
    list, and every edge joins two of its members: no edge insertion adds
    a node.  A leaf definition is "a circuit definition with no internal
    instances". *)
Theorem downstream_nodes_are_graph_nodes netlist fuel flag counter g s :
  leaf_childless netlist →
  get_connectivity_graph netlist fuel flag counter = Ok (g, s) →
  ∃ top leaves tops,
    generate_nodes netlist fuel counter = Ok (top, s)
    ∧ get_leaf_instance_nodes netlist fuel s top = Ok leaves
    ∧ get_top_port_nodes s top = Ok tops
    ∧ let sel := leaves ++ (if flag then tops else []) in
      (∀ n fuel' ds d,
         n ∈ sel → get_downstream_nodes netlist fuel' s n flag = Ok ds →
         d ∈ ds → d ∈ sel ∧ wraps_selected netlist s top flag d)
      ∧ (∀ x, x ∈ g_nodes g ↔ x ∈ sel)
      ∧ (∀ u v, (u, v) ∈ g_edges g → u ∈ sel ∧ v ∈ sel).
Proof.
  intros Hleaf (top & leaves & tops & Hgen & Hl & Ht & Hfold)%get_connectivity_graph_Ok.
  exists top, leaves, tops. split_and!; [done..|].
  destruct (generate_nodes_tree _ _ _ _ _ Hgen) as (_ & _ & Hok & _).
  cbv zeta in *.
  set (sel := leaves ++ (if flag then tops else [])) in *.
  assert (∀ n fuel' ds d,
    n ∈ sel → get_downstream_nodes netlist fuel' s n flag = Ok ds →
    d ∈ ds → d ∈ sel ∧ wraps_selected netlist s top flag d) as Hdown.
  { intros n fuel' ds d Hn Hds Hd. split.
    - apply (selected_list _ _ _ _ _ _ _ _ Hok Hl Ht).
      eapply get_downstream_nodes_selected; [done..| |done|done].
      by apply (selected_list _ _ _ _ _ _ _ _ Hok Hl Ht).
    - by eapply get_downstream_nodes_wraps. }
  split; [done|].
  set (g1 := add_nodes_from (add_nodes_from (mkDiGraph [] []) leaves)
               (if flag then tops else [])) in *.
  assert (∀ x, x ∈ g_nodes g1 ↔ x ∈ sel) as Hg1.
  { intros x. unfold g1, sel. rewrite !add_nodes_from_nodes, elem_of_app.
    simpl. rewrite elem_of_nil. naive_solver. }
  revert Hfold.
  apply (fold_result_ind
    (λ g, (∀ x, x ∈ g_nodes g ↔ x ∈ sel)
          ∧ (∀ u v, (u, v) ∈ g_edges g → u ∈ sel ∧ v ∈ sel))).
  - intros a n a' Hn [Ha1 Ha2] Hc.
    eapply connect_selected; [|by apply Hg1|done..].
    intros x Hx ds Hds d Hd. by apply (Hdown x fuel ds d).
  - split; [done|]. intros u v. unfold g1.
    rewrite !add_nodes_from_edges. simpl. by intros ?%elem_of_nil.
Qed.

(** ** Termination of the downstream search *)

Lemma filter_length_le {A} (P Q : A → Prop) `{∀ x, Decision (P x)}
    `{∀ x, Decision (Q x)} (l : list A) :
  (∀ x, x ∈ l → P x → Q x) → length (filter P l) ≤ length (filter Q l).
Proof.
  induction l as [|a l IH]; intros HPQ; [done|].
  rewrite !filter_cons.
  assert (length (filter P l) ≤ length (filter Q l)) as Hle.
  { apply IH. intros x ?. apply HPQ. by right. }
  destruct (decide (P a)) as [HP|]; destruct (decide (Q a)) as [|HQ]; simpl; try lia.
  exfalso. apply HQ, HPQ; [left|done].
Qed.

Lemma filter_length_lt {A} (P Q : A → Prop) `{∀ x, Decision (P x)}
    `{∀ x, Decision (Q x)} (l : list A) x :
  (∀ y, y ∈ l → P y → Q y) → x ∈ l → Q x → ¬ P x →
  length (filter P l) < length (filter Q l).
Proof.
  induction l as [|a l IH]; intros HPQ Hx HQ HP; [by apply elem_of_nil in Hx|].
  rewrite !filter_cons.
  assert (length (filter P l) ≤ length (filter Q l)) as Hle.
  { apply filter_length_le. intros y ?. apply HPQ. by right. }
  apply elem_of_cons in Hx as [<-|Hx].
  - rewrite decide_False by done. rewrite decide_True by done. simpl. lia.
  - assert (length (filter P l) < length (filter Q l)) as Hlt.
    { apply IH; [|done..]. intros y ?. apply HPQ. by right. }
    destruct (decide (P a)) as [HPa|]; destruct (decide (Q a)) as [|HQa];
      simpl; try lia.
    exfalso. apply HQa, HPQ; [left|done].
Qed.

Lemma unfound_mono s (found found' : gset nat) :
  found ⊆ found' → unfound s found' ≤ unfound s found.
Proof.
  intros Hsub. apply filter_length_le. intros x _ Hx ?. apply Hx. by apply Hsub.
Qed.

Lemma unfound_mark s (found : gset nat) x nd :
  node s x = Some nd → x ∉ found →
  unfound s ({[x]} ∪ found) < unfound s found.
Proof.
  intros Hx Hnf. apply (filter_length_lt _ _ _ x).
  - intros y _. set_solver.
  - apply node_Some_lt in Hx. unfold limit in Hx. apply elem_of_seq. lia.
  - done.
  - set_solver.
Qed.

Section Depth.
Context (netlist : Netlist) (s : Store) (top : nat).
Hypothesis Hok : tree_ok netlist s top.

Lemma depth_aux_stable k : ∀ k' n,
  n < k → n < k' → depth_aux k s n = depth_aux k' s n.
Proof using Hok.
  induction k as [|k IH]; intros k' n Hk Hk'; [lia|].
  destruct k' as [|k']; [lia|]. simpl.
  destruct (node s n) as [nd|] eqn:Hn; [|done].
  destruct (parent nd) as [p|] eqn:Hp; [|done].
  destruct (tree_parent _ _ _ Hok _ _ _ Hn Hp) as [? _].
  f_equal. apply IH; lia.
Qed.

Lemma depth_child n nd p :
  node s n = Some nd → parent nd = Some p → depth s n = S (depth s p).
Proof using Hok.
  intros Hn Hp. unfold depth at 1. simpl. rewrite Hn, Hp. f_equal.
  destruct (tree_parent _ _ _ Hok _ _ _ Hn Hp) as [? _].
  apply depth_aux_stable; lia.
Qed.

Lemma depth_le n : depth s n ≤ n.
Proof using Hok.
  induction n as [n IH] using lt_wf_ind.
  unfold depth. simpl.
  destruct (node s n) as [nd|] eqn:Hn; [|lia].
  destruct (parent nd) as [p|] eqn:Hp; [|lia].
  destruct (tree_parent _ _ _ Hok _ _ _ Hn Hp) as [? _].
  rewrite (depth_aux_stable n (S p) p) by lia.
  specialize (IH p). unfold depth in IH. lia.
Qed.

Lemma kid_depth n e c : kid s n e c → depth s c = S (depth s n).
Proof using Hok.
  intros (nd & cd & ? & ? & ? & ? & ?). by eapply depth_child.
Qed.

Lemma weight_pos n nd : node s n = Some nd → 0 < weight s n.
Proof using Hok.
  intros Hn. unfold weight. rewrite Hn.
  pose proof (depth_le n). apply node_Some_lt in Hn. lia.
Qed.

Lemma weight_deeper n m nd md :
  node s n = Some nd → node s m = Some md →
  depth s m = S (depth s n) → weight s m < weight s n.
Proof using Hok.
  intros Hn Hm Hd. unfold weight. rewrite Hn, Hm.
  pose proof (depth_le m). apply node_Some_lt in Hm. lia.
Qed.
End Depth.

Section Halting.
Context (netlist : Netlist).

Lemma finished_bind {A B} (r : result A) (f : A → result B) :
  finished r → (∀ a, finished (f a)) → finished (r ≫= f).
Proof. unfold finished. destruct r; simpl; intros Hr Hf; [apply Hf|done..]. Qed.

Lemma finished_fold {A B} (f : A → B → result A) l :
  (∀ a b, finished (f a b)) → ∀ a, finished (fold_result f a l).
Proof.
  intros Hf. induction l as [|b l IH]; intros a; simpl; [done|].
  by apply finished_bind.
Qed.

Lemma finished_get s n : finished (get s n).
Proof. unfold get. by destruct (node s n). Qed.

Lemma finished_deref s on : finished (deref s on).
Proof. destruct on; [apply finished_get|done]. Qed.

Lemma finished_child_of s on e : finished (child_of s on e).
Proof.
  unfold child_of. apply finished_bind; [apply finished_deref|].
  intros nd. by destruct (dict_get _ _).
Qed.

Lemma finished_visit_pin s flag cur st pin :
  finished (visit_pin netlist s flag cur st pin).
Proof.
  destruct pin as [p|o]; simpl.
  - apply finished_bind; [apply finished_child_of|]. intros port_node.
    apply finished_bind; [apply finished_child_of|]. intros pin_node.
    case_decide; [done|].
    apply finished_bind; [apply finished_deref|]. intros curd.
    destruct (parent curd); [|by destruct flag].
    apply finished_bind.
    { unfold outer_pin_of. destruct (item curd); try done.
      by destruct (instance_pin_of _ _ _). }
    intros o. destruct (outer_wire netlist o); [|done].
    apply finished_bind; [apply finished_child_of|]. intros cable_node.
    apply finished_bind; [apply finished_child_of|]. done.
  - apply finished_bind; [apply finished_child_of|]. intros instance_node.
    destruct (is_leaf _ _); [done|].
    apply finished_bind; [apply finished_child_of|]. intros port_node.
    apply finished_bind; [apply finished_child_of|]. intros pin_node.
    destruct (inner_wire _ _); [|done].
    apply finished_bind; [apply finished_child_of|]. intros cable_node.
    apply finished_bind; [apply finished_child_of|]. done.
Qed.

Lemma finished_visit_wire s flag w st :
  finished (visit_wire netlist s flag w st).
Proof.
  unfold visit_wire.
  apply finished_bind; [apply finished_get|]. intros wd.
  apply finished_bind; [apply finished_deref|]. intros cabd.
  apply finished_bind; [by destruct (item wd)|]. intros pins.
  apply finished_fold. intros. apply finished_visit_pin.
Qed.

Lemma finished_seeds s n flag : finished (seeds netlist s n flag).
Proof.
  unfold seeds. apply finished_bind; [apply finished_get|]. intros nd.
  destruct (item nd); try done.
  - apply finished_fold. intros st pin. unfold seed_instance_pin.
    destruct (outer_wire _ _); [|done]. case_match; [|done].
    repeat (apply finished_bind; [apply finished_child_of|]; intros ?). done.
  - destruct flag; [|done]. destruct (receives _); [|done].
    apply finished_fold. intros st pin. unfold seed_port_pin.
    destruct (inner_wire _ _); [|done].
    repeat (apply finished_bind; [apply finished_child_of|]; intros ?). done.
Qed.

(** More fuel does not change a finished run. *)
Lemma traverse_fuel s flag fuel : ∀ st fuel',
  finished (traverse netlist fuel s flag st) → fuel ≤ fuel' →
  traverse netlist fuel' s flag st = traverse netlist fuel s flag st.
Proof.
  induction fuel as [|fuel IH]; intros st fuel' Hfin Hle; [done|].
  destruct fuel' as [|fuel']; [lia|]. simpl in *.
  destruct (search_stack st) as [|w rest]; [done|].
  destruct (visit_wire _ _ _ _ _) as [st'| |]; simpl in *; [|done..].
  apply IH; [done|lia].
Qed.

Lemma halts_step s flag st w rest :
  search_stack st = w :: rest →
  (∀ st', visit_wire netlist s flag w
            (mkSearch (found_pin_nodes st) rest (downstream_nodes st)) = Ok st' →
          halts netlist s flag st') →
  halts netlist s flag st.
Proof.
  intros Hst Hnext.
  destruct (visit_wire netlist s flag w
    (mkSearch (found_pin_nodes st) rest (downstream_nodes st))) as [st'| e|] eqn:Hw.
  - destruct (Hnext st' eq_refl) as [fuel Hf].
    exists (S fuel). simpl. by rewrite Hst, Hw.
  - exists 1. simpl. by rewrite Hst, Hw.
  - by destruct (finished_visit_wire s flag w
      (mkSearch (found_pin_nodes st) rest (downstream_nodes st))).
Qed.

Lemma progress_refl s w st : progress s w st st.
Proof.
  split; [done|]. exists []. split; [done|]. right. by intros ? ?%elem_of_nil.
Qed.

Lemma progress_trans s w st1 st2 st3 :
  progress s w st1 st2 → progress s w st2 st3 → progress s w st1 st3.
Proof.
  intros (Hs1 & new1 & Hn1 & H1) (Hs2 & new2 & Hn2 & H2).
  pose proof (unfound_mono s _ _ Hs1). pose proof (unfound_mono s _ _ Hs2).
  split; [set_solver|]. exists (new2 ++ new1).
  split; [by rewrite Hn2, Hn1, app_assoc|].
  destruct H1 as [?|H1]; [left; lia|].
  destruct H2 as [?|H2]; [left; lia|].
  right. intros x [?|?]%elem_of_app; auto.
Qed.

Lemma pin_step_progress s top flag w wd c st pin st' :
  tree_ok netlist s top →
  node s w = Some wd → depth s w = S (S (depth s c)) →
  pin_step netlist s flag c st pin st' → progress s w st st'.
Proof.
  intros Hok Hw Hd Hstep.
  assert (∀ x, progress s w st (mark x st)) as Hmark.
  { intros x. split; [simpl; set_solver|]. exists []. split; [done|].
    right. by intros ? ?%elem_of_nil. }
  assert (∀ x st0, progress s w st st0 → progress s w st (emit x st0)) as Hemit.
  { intros x st0 (? & new & ? & ?). split; [done|]. by exists new. }
  destruct Hstep as
    [| p port_node pin_node curd par o w' cable_node wire_node
         Hport Hpin Hnf Hcur Hpar Ho Hw' Hcab Hwire
     | | p port_node pin_node curd Hport Hpin Hnf Hcur Hpar
     | o instance_node Hinst Hl
     | o instance_node port_node pin_node w' cable_node wire_node
         Hinst Hl Hport Hpin Hw' Hcab Hwire
     | ].
  - apply progress_refl.
  - split; [simpl; set_solver|]. exists [wire_node]. split; [done|].
    left. simpl. destruct (kid_node _ _ _ _ Hpin) as [pd Hpd].
    by eapply unfound_mark.
  - apply Hmark.
  - destruct flag; [apply Hemit|]; apply Hmark.
  - apply Hemit, progress_refl.
  - split; [simpl; set_solver|]. exists [wire_node]. split; [done|].
    right. intros x ->%list_elem_of_singleton.
    destruct (kid_node _ _ _ _ Hwire) as [wnd Hwnd].
    eapply (weight_deeper netlist s top Hok); [done..|].
    rewrite (kid_depth _ _ _ Hok _ _ _ Hwire), (kid_depth _ _ _ Hok _ _ _ Hcab),
      (kid_depth _ _ _ Hok _ _ _ Hinst). lia.
  - apply Hmark.
Qed.

Lemma visit_wire_progress s top flag w st st' :
  tree_ok netlist s top →
  visit_wire netlist s flag w st = Ok st' →
  progress s w st st' ∧ is_Some (node s w).
Proof.
  intros Hok (wd & cab & cabd & pins & Hw & Hp & Hcab & _ & Hfold)%visit_wire_Ok.
  split; [|eauto]. revert Hfold. apply fold_result_ind.
  - intros a pin a' _ Ha (c & Hc & Hstep)%(visit_pin_step _ _ top); [|done].
    eapply progress_trans; [done|].
    eapply pin_step_progress; [done..| |done].
    rewrite (depth_child _ _ _ Hok _ _ _ Hw Hp).
    by rewrite (depth_child _ _ _ Hok _ _ _ Hcab Hc).
  - apply progress_refl.
Qed.

Lemma weight_le_limit s n : weight s n ≤ limit s.
Proof. unfold weight. destruct (node s n); lia. Qed.

(** The search loop halts from every state. *)
Lemma traverse_halts s top flag st :
  tree_ok netlist s top → halts netlist s flag st.
Proof.
  intros Hok.
  remember (unfound s (found_pin_nodes st)) as u eqn:Hu.
  revert st Hu. induction u as [u IHu] using lt_wf_ind. intros st Hu.
  assert (∀ k rest,
    (∀ found ds, unfound s found ≤ u → halts netlist s flag (mkSearch found rest ds)) →
    ∀ ws, (∀ x, x ∈ ws → weight s x ≤ k) →
    ∀ found ds, unfound s found ≤ u →
      halts netlist s flag (mkSearch found (ws ++ rest) ds)) as Hinner.
  { induction k as [k IHk] using lt_wf_ind. intros rest Hrest ws.
    induction ws as [|x ws IHws]; intros Hws found ds Hfound; [by apply Hrest|].
    eapply halts_step; [done|]. simpl. intros [f' stk' ds'] Hvw.
    destruct (visit_wire_progress _ _ _ _ _ _ Hok Hvw)
      as ((Hsub & new & Hstk & Hcase) & [xd Hx]).
    simpl in *. subst stk'.
    pose proof (unfound_mono s _ _ Hsub).
    destruct Hcase as [Hlt|Hdeep].
    - apply (IHu (unfound s f')); [lia|done].
    - pose proof (weight_pos netlist s top Hok _ _ Hx).
      assert (weight s x ≤ k) by (apply Hws; left).
      apply (IHk (k - 1)); [lia| | |lia].
      + intros found0 ds0 ?. apply IHws; [|done].
        intros y ?. apply Hws. by right.
      + intros y Hy. specialize (Hdeep y Hy). lia. }
  destruct st as [found stk ds]. simpl in *.
  rewrite <- (app_nil_r stk).
  apply (Hinner (limit s)); [|intros; apply weight_le_limit|lia].
  intros found0 ds0 _. by exists 1.
Qed.

(** Every downstream search halts, and more fuel then gives the same
    outcome. *)
Lemma get_downstream_nodes_halts s top n flag :
  tree_ok netlist s top →
  ∃ fuel r, r ≠ OutOfFuel
    ∧ ∀ fuel', fuel ≤ fuel' → get_downstream_nodes netlist fuel' s n flag = r.
Proof.
  intros Hok. unfold get_downstream_nodes.
  destruct (seeds netlist s n flag) as [st|e|] eqn:Hseeds; simpl.
  - destruct (traverse_halts s top flag st Hok) as [fuel Hf].
    exists fuel, (traverse netlist fuel s flag st). split; [done|].
    intros fuel' ?. by apply traverse_fuel.
  - by exists 0, (Raise e).
  - by destruct (finished_seeds s n flag).
Qed.
End Halting.

(** ** Termination of generate_nodes *)

Section GenerateHalts.
Context (netlist : Netlist) (rank : nat → nat).
Hypothesis Hrank : ranked netlist rank.

Lemma elements_level it e :
  e ∈ elements_of netlist it → level netlist rank e < level netlist rank it.
Proof using Hrank.
  destruct it as [i|p|c|w|p]; simpl.
  - rewrite !elem_of_app, !list_elem_of_fmap.
    intros [(? & -> & ?)|[(? & -> & ?)|(j & -> & Hj)]]; simpl; [lia..|].
    specialize (Hrank _ _ Hj). lia.
  - rewrite list_elem_of_fmap. intros (? & -> & ?). simpl. lia.
  - rewrite list_elem_of_fmap. intros (? & -> & ?). simpl. lia.
  - by intros ?%elem_of_nil.
  - by intros ?%elem_of_nil.
Qed.

Lemma extends_refl s : extends s s.
Proof. intros n nd ?. eauto. Qed.

Lemma extends_trans s1 s2 s3 : extends s1 s2 → extends s2 s3 → extends s1 s3.
Proof.
  intros H12 H23 n nd Hn. destruct (H12 _ _ Hn) as (nd2 & Hn2 & Hi2).
  destruct (H23 _ _ Hn2) as (nd3 & Hn3 & Hi3). exists nd3. split; congruence.
Qed.

(** One iteration: the store is extended, and the nodes pushed wrap
    elements of a lower level. *)
Lemma generate_step_extends s rest m md :
  node s m = Some md →
  let r := generate_step netlist s rest m (item md) in
  extends s r.1
  ∧ ∃ new, r.2 = new ++ rest
      ∧ ∀ x, x ∈ new →
          ∃ xd, node r.1 x = Some xd
                ∧ level netlist rank (item xd) < level netlist rank (item md).
Proof using Hrank.
  intros Hm. rewrite generate_step_foldl.
  set (es := elements_of netlist (item md)).
  pose proof (expand_spec m es s rest md Hm) as
    (Hb & Hl & Hst' & Hfr & (md' & Hm' & Hp' & Hi' & Hk & Hv) & Hnew).
  cbv zeta. split.
  - intros n nd Hn. pose proof (node_Some_lt _ _ _ Hn).
    destruct (decide (n = m)) as [->|?].
    + exists md'. split; [done|]. congruence.
    + exists nd. rewrite Hfr by lia. done.
  - exists (reverse (seq (limit s) (length es))). split; [done|].
    intros x [? ?]%elem_of_reverse%elem_of_seq.
    destruct (lookup_lt_is_Some_2 es (x - limit s)) as [e He]; [lia|].
    exists (mkNode (Some m) e []). split.
    + replace x with (limit s + (x - limit s)) at 1 by lia. by apply Hnew.
    + simpl. apply elements_level. by eapply list_elem_of_lookup_2.
Qed.

Lemma generates_step s m rest md :
  node s m = Some md →
  (let r := generate_step netlist s rest m (item md) in
   generates netlist r.1 r.2) →
  generates netlist s (m :: rest).
Proof.
  intros Hm. cbv zeta. intros (fuel & s' & Hloop).
  exists (S fuel), s'. simpl. unfold get. rewrite Hm. simpl.
  by destruct (generate_step netlist s rest m (item md)).
Qed.

Lemma generate_loop_halts k : ∀ (Q : Store → Prop) rest,
  (∀ s s', Q s → extends s s' → Q s') →
  (∀ s, Q s → generates netlist s rest) →
  ∀ ws s,
    (∀ x, x ∈ ws → ∃ xd, node s x = Some xd ∧ level netlist rank (item xd) ≤ k) →
    Q s → generates netlist s (ws ++ rest).
Proof using Hrank.
  induction k as [k IHk] using lt_wf_ind. intros Q rest HQ Hrest ws.
  induction ws as [|x ws IHws]; intros s Hws Hs; [by apply Hrest|].
  destruct (Hws x) as (xd & Hx & Hlevel); [left|].
  change ((x :: ws) ++ rest) with (x :: (ws ++ rest)).
  apply (generates_step s x (ws ++ rest) xd Hx).
  destruct (generate_step_extends s (ws ++ rest) x xd Hx)
    as (Hext & new & Hstack & Hnew).
  cbv zeta. rewrite Hstack.
  destruct (generate_step netlist s (ws ++ rest) x (item xd)) as [s1 st1].
  simpl in *. clear Hstack st1.
  assert (∀ y, y ∈ ws → ∃ yd, node s1 y = Some yd
                             ∧ level netlist rank (item yd) ≤ k) as Hws1.
  { intros y Hy. destruct (Hws y) as (yd & Hyd & ?); [by right|].
    destruct (Hext _ _ Hyd) as (yd' & ? & Hi). exists yd'. by rewrite Hi. }
  destruct new as [|n0 new].
  { apply IHws; [done|]. by eapply HQ. }
  assert (0 < k) as Hk.
  { destruct (Hnew n0) as (? & _ & ?); [left|]. lia. }
  apply (IHk (k - 1) ltac:(lia)
           (λ s', Q s' ∧ ∀ y, y ∈ ws →
              ∃ yd, node s' y = Some yd ∧ level netlist rank (item yd) ≤ k)).
  - intros s2 s3 [HQ2 Hws2] Hext23. split; [by eapply HQ|].
    intros y Hy. destruct (Hws2 y Hy) as (yd & Hyd & ?).
    destruct (Hext23 _ _ Hyd) as (yd' & ? & Hi). exists yd'. by rewrite Hi.
  - intros s2 [HQ2 Hws2]. by apply IHws.
  - intros y Hy. destruct (Hnew y Hy) as (yd & ? & ?). exists yd. split; [done|lia].
  - split; [by eapply HQ|done].
Qed.

(** With a hierarchy of finite depth, [generate_nodes] returns. *)
Lemma generate_nodes_halts counter :
  ∃ fuel top s, generate_nodes netlist fuel counter = Ok (top, s).
Proof using Hrank.
  set (root := mkNode None (Instance (top_instance netlist)) []).
  destruct (generate_loop_halts (level netlist rank (item root))
              (λ _, True) [] (λ _ _ _ _, I)
              (λ s _, ex_intro _ 1 (ex_intro _ s eq_refl))
              [counter] (alloc (mkStore counter []) root).2)
    as (fuel & s' & Hloop); [|done|].
  - intros x ->%list_elem_of_singleton. exists root. split; [|done].
    rewrite node_alloc. unfold limit. simpl. rewrite Nat.add_0_r.
    by rewrite decide_True.
  - exists fuel, counter, s'. unfold generate_nodes. cbv zeta.
    assert ((alloc (mkStore counter []) root).1 = counter) as Hc
      by (unfold alloc, limit; simpl; lia).
    fold root. rewrite Hc. simpl in Hloop.
    change ((alloc (mkStore counter []) root).2)
      with (mkStore counter [root]).
    by rewrite Hloop.
Qed.
End GenerateHalts.

(** C3. For every netlist with a hierarchy of finite depth (its
    definitions can be ranked, each above the definitions of its child
    instances) and finite lists of elements, also one with a cycle among
    its leaf components, [generate_nodes] builds the tree and
    [get_downstream_nodes] terminates for every start node: with enough
    fuel the work-stack loop reaches the empty stack (or raises), and any
    larger amount of fuel gives the same outcome.  The visited set
    [found_pin_nodes] bounds the moves up the hierarchy, the depth of the
    tree the moves down. *)
Theorem get_downstream_nodes_terminates netlist rank counter :
  ranked netlist rank →
  ∃ fuel0 top s,
    generate_nodes netlist fuel0 counter = Ok (top, s)
    ∧ ∀ n flag,
        ∃ fuel r, r ≠ OutOfFuel
          ∧ ∀ fuel', fuel ≤ fuel' →
              get_downstream_nodes netlist fuel' s n flag = r.
Proof.
  intros Hrank.
  destruct (generate_nodes_halts netlist rank Hrank counter)
    as (fuel0 & top & s & Hgen).
  exists fuel0, top, s. split; [done|]. intros n flag.
  destruct (generate_nodes_tree _ _ _ _ _ Hgen) as (_ & _ & Hok & _).
  by eapply get_downstream_nodes_halts.
Qed.


Lemma dict_no_keys {V} (d : list (Element * V)) :
  (∀ e, dict_get d e = None) → d = [].
Proof.
  destruct d as [|[k v] d]; [done|]. intros H. specialize (H k).
  simpl in H. by rewrite decide_True in H.
Qed.

(** C5, as the code has it.  In the tree built by [generate_nodes], the
    children of every instance node, of a leaf definition or not, are
    exactly one node for each port, each cable and each child instance of
    its definition; the children of a port node are exactly one node per
    pin of the port, those of a cable node exactly one node per wire of
    the cable; pin nodes and wire nodes have no children.  Each child
    wraps its element and points back to its parent. *)
Theorem generate_nodes_children netlist fuel counter top s n nd :
  generate_nodes netlist fuel counter = Ok (top, s) →
  node s n = Some nd →
  match item nd with
  | Instance i =>
      ∀ e, is_Some (dict_get (children nd) e) ↔
           (∃ p, e = Port p ∧ p ∈ ports netlist (reference netlist i))
           ∨ (∃ c, e = Cable c ∧ c ∈ cables netlist (reference netlist i))
           ∨ (∃ j, e = Instance j ∧ j ∈ def_children netlist (reference netlist i))
  | Port p =>
      ∀ e, is_Some (dict_get (children nd) e) ↔
           ∃ q, e = InnerPin q ∧ q ∈ port_pins netlist p
  | Cable c =>
      ∀ e, is_Some (dict_get (children nd) e) ↔
           ∃ w, e = Wire w ∧ w ∈ wires netlist c
  | Wire _ | InnerPin _ => children nd = []
  end
  ∧ ∀ e c, dict_get (children nd) e = Some c →
           ∃ cd, node s c = Some cd ∧ parent cd = Some n ∧ item cd = e.
Proof.
  intros Hgen Hn.
  destruct (generate_nodes_tree _ _ _ _ _ Hgen) as (_ & _ & Hok & Hexp).
  assert (∀ e, is_Some (dict_get (children nd) e)
               ↔ e ∈ elements_of netlist (item nd)) as Hkeys.
  { intros e. split; [by eapply tree_keys|by apply (Hexp n)]. }
  split; [|intros e c; by eapply tree_child].
  destruct (item nd) as [i|p|c|w|p]; simpl in Hkeys.
  - intros e. rewrite Hkeys, !elem_of_app, !list_elem_of_fmap. naive_solver.
  - intros e. rewrite Hkeys, list_elem_of_fmap. naive_solver.
  - intros e. rewrite Hkeys, list_elem_of_fmap. naive_solver.
  - apply dict_no_keys. intros e. apply eq_None_not_Some.
    rewrite Hkeys. apply not_elem_of_nil.
  - apply dict_no_keys. intros e. apply eq_None_not_Some.
    rewrite Hkeys. apply not_elem_of_nil.
Qed.

Section Seeds.
Context (netlist : Netlist) (s : Store) (top : nat).
Hypothesis Hok : tree_ok netlist s top.

Lemma child_of_wraps_wire cab w wn :
  child_of s (Some cab) (Wire w) = Ok wn → wraps_wire s wn w.
Proof using Hok.
  intros (? & _ & (? & cd & ? & ? & ? & ? & ?))%(child_of_kid netlist _ top);
    [|done].
  by exists cd.
Qed.

Lemma seed_instance_pins n par pins : ∀ st st' acc,
  fold_result (seed_instance_pin netlist s n par) st pins = Ok st' →
  Forall2 (wraps_wire s) (reverse (search_stack st)) acc →
  Forall2 (wraps_wire s) (reverse (search_stack st'))
    (acc ++ omap (λ o, if drives (direction netlist (port netlist (inner_pin netlist o)))
                       then outer_wire netlist o else None) pins).
Proof using Hok.
  induction pins as [|pin pins IH]; intros st st' acc; simpl.
  - intros [= <-]. by rewrite app_nil_r.
  - intros (st1 & H1 & H2)%bind_Ok Hacc. unfold seed_instance_pin in H1.
    destruct (outer_wire netlist pin) as [w|] eqn:Hw.
    + destruct (drives _) eqn:Hd.
      * apply bind_Ok in H1 as (? & _ & H1). apply bind_Ok in H1 as (pn & _ & H1).
        apply bind_Ok in H1 as (cn & _ & H1). apply bind_Ok in H1 as (wn & Hwn & H1).
        injection H1 as <-.
        rewrite cons_middle, app_assoc. apply (IH _ _ _ H2). simpl.
        rewrite reverse_cons. apply Forall2_app; [done|].
        constructor; [|done]. by eapply child_of_wraps_wire.
      * injection H1 as <-. by apply (IH _ _ _ H2).
    + injection H1 as <-. rewrite Tauto.if_same. by apply (IH _ _ _ H2).
Qed.

Lemma seed_port_pins n par pins : ∀ st st' acc,
  fold_result (seed_port_pin netlist s n par) st pins = Ok st' →
  Forall2 (wraps_wire s) (reverse (search_stack st)) acc →
  Forall2 (wraps_wire s) (reverse (search_stack st'))
    (acc ++ omap (inner_wire netlist) pins).
Proof using Hok.
  induction pins as [|pin pins IH]; intros st st' acc; simpl.
  - intros [= <-]. by rewrite app_nil_r.
  - intros (st1 & H1 & H2)%bind_Ok Hacc. unfold seed_port_pin in H1.
    destruct (inner_wire netlist pin) as [w|] eqn:Hw.
    + apply bind_Ok in H1 as (pn & _ & H1).
      apply bind_Ok in H1 as (cn & _ & H1). apply bind_Ok in H1 as (wn & Hwn & H1).
      injection H1 as <-.
      rewrite cons_middle, app_assoc. apply (IH _ _ _ H2). simpl.
      rewrite reverse_cons. apply Forall2_app; [done|].
      constructor; [|done]. by eapply child_of_wraps_wire.
    + injection H1 as <-. by apply (IH _ _ _ H2).
Qed.
End Seeds.


(** ** With and without top ports *)

Section Flag.
Context (netlist : Netlist) (s : Store) (top : nat) (tops : list nat).
Hypothesis Hok : tree_ok netlist s top.
Hypothesis Htops : get_top_port_nodes s top = Ok tops.

Lemma kid_port_top p port_node :
  kid s top (Port p) port_node → port_node ∈ tops.
Proof using Hok Htops.
  intros (td & ? & ? & ? & _).
  apply (get_top_port_nodes_spec netlist _ _ _ Hok Htops). by exists td, p.
Qed.

Lemma kid_instance_not_top c i instance_node :
  kid s c (Instance i) instance_node → instance_node ∉ tops.
Proof using Hok Htops.
  intros (? & cd & ? & ? & ? & ? & ?)
    (td & p & Htd & Hd)%(get_top_port_nodes_spec netlist _ _ _ Hok Htops).
  destruct (tree_child _ _ _ Hok _ _ _ _ Htd Hd) as (cd' & ? & ? & ?).
  congruence.
Qed.

Lemma drop_ports_mark x st st' :
  drop_ports tops st st' → drop_ports tops (mark x st) (mark x st').
Proof. intros (Hf & Hs & Hd). split_and!; simpl; congruence. Qed.

Lemma drop_ports_push x st st' :
  drop_ports tops st st' → drop_ports tops (push x st) (push x st').
Proof. intros (Hf & Hs & Hd). split_and!; simpl; congruence. Qed.

Lemma drop_ports_emit x st st' :
  x ∉ tops → drop_ports tops st st' → drop_ports tops (emit x st) (emit x st').
Proof.
  intros Hx (Hf & Hs & Hd). split_and!; simpl; [done..|].
  rewrite filter_app, Hd. f_equal. rewrite filter_cons.
  by rewrite decide_True.
Qed.

Lemma drop_ports_emit_port x st st' :
  x ∈ tops → drop_ports tops st st' → drop_ports tops (emit x st) st'.
Proof.
  intros Hx (Hf & Hs & Hd). split_and!; simpl; [done..|].
  rewrite filter_app, Hd. rewrite filter_cons.
  rewrite decide_False by (intros Hn; by apply Hn).
  by rewrite filter_nil, app_nil_r.
Qed.

Lemma pin_step_flag c st pin st1 st' :
  pin_step netlist s true c st pin st1 → drop_ports tops st st' →
  ∃ st1', pin_step netlist s false c st' pin st1' ∧ drop_ports tops st1 st1'.
Proof using Hok Htops.
  intros Hstep Hrel. pose proof Hrel as (Hf & _).
  destruct Hstep as
    [ p port_node pin_node Hport Hpin Hfound
    | p port_node pin_node curd par o w cable_node wire_node
         Hport Hpin Hnf Hcur Hpar Ho Hw Hcab Hwire
    | p port_node pin_node curd par o Hport Hpin Hnf Hcur Hpar Ho Hw
    | p port_node pin_node curd Hport Hpin Hnf Hcur Hpar
    | o instance_node Hinst Hl
    | o instance_node port_node pin_node w cable_node wire_node
         Hinst Hl Hport Hpin Hw Hcab Hwire
    | o instance_node port_node pin_node Hinst Hl Hport Hpin Hw ].
  - exists st'. split; [|done]. eapply step_skip; [done..|]. by rewrite Hf.
  - exists (push wire_node (mark pin_node st')). split.
    + eapply (step_up _ _ _ _ _ _ _ _ _ _ _ _ _ _ Hport Hpin);
        [by rewrite Hf|exact Hcur|exact Hpar|exact Ho|exact Hw|exact Hcab
        |exact Hwire].
    + by apply drop_ports_push, drop_ports_mark.
  - exists (mark pin_node st'). split.
    + eapply (step_up_open _ _ _ _ _ _ _ _ _ _ _ Hport Hpin);
        [by rewrite Hf|exact Hcur|exact Hpar|exact Ho|exact Hw].
    + by apply drop_ports_mark.
  - exists (mark pin_node st'). split.
    + apply (step_top netlist s false c st' p port_node pin_node curd
               Hport Hpin); [by rewrite Hf|exact Hcur|exact Hpar].
    + apply drop_ports_emit_port; [|by apply drop_ports_mark].
      rewrite (tree_top _ _ _ Hok _ _ Hcur Hpar) in Hport.
      by eapply kid_port_top.
  - exists (emit instance_node st'). split.
    + by eapply step_leaf.
    + apply drop_ports_emit; [|done]. by eapply kid_instance_not_top.
  - exists (push wire_node (mark pin_node st')). split.
    + by eapply step_down.
    + by apply drop_ports_push, drop_ports_mark.
  - exists (mark pin_node st'). split.
    + by eapply step_down_open.
    + by apply drop_ports_mark.
Qed.

Lemma visit_pins_flag cur pins : ∀ st st1 st',
  fold_result (visit_pin netlist s true cur) st pins = Ok st1 →
  drop_ports tops st st' →
  ∃ st1', fold_result (visit_pin netlist s false cur) st' pins = Ok st1'
          ∧ drop_ports tops st1 st1'.
Proof using Hok Htops.
  induction pins as [|pin pins IH]; intros st st1 st'; simpl.
  - intros [= <-] ?. by exists st'.
  - intros (st2 & Hpin & Hrest)%bind_Ok Hrel.
    apply (visit_pin_step _ _ top) in Hpin as (c & -> & Hstep); [|done].
    destruct (pin_step_flag _ _ _ _ _ Hstep Hrel) as (st2' & Hstep' & Hrel').
    rewrite (pin_step_visit _ _ _ _ _ _ _ Hstep'). simpl.
    by eapply IH.
Qed.

Lemma visit_wire_flag w st st1 st' :
  visit_wire netlist s true w st = Ok st1 → drop_ports tops st st' →
  ∃ st1', visit_wire netlist s false w st' = Ok st1' ∧ drop_ports tops st1 st1'.
Proof using Hok Htops.
  intros (wd & cab & cabd & pins & Hw & Hp & Hcab & Hpins & Hfold)%visit_wire_Ok Hrel.
  destruct (visit_pins_flag _ _ _ _ _ Hfold Hrel) as (st1' & Hfold' & Hrel').
  exists st1'. split; [|done].
  unfold visit_wire, get. rewrite Hw. simpl. rewrite Hp. simpl.
  unfold get. rewrite Hcab. simpl. by rewrite Hpins.
Qed.

Lemma traverse_flag fuel : ∀ st st' ds,
  traverse netlist fuel s true st = Ok ds → drop_ports tops st st' →
  traverse netlist fuel s false st' = Ok (filter (λ d, d ∉ tops) ds).
Proof using Hok Htops.
  induction fuel as [|fuel IH]; intros st st' ds; simpl; [done|].
  intros Ht (Hf & Hs & Hd). rewrite Hs.
  destruct (search_stack st) as [|w rest].
  - injection Ht as <-. by rewrite Hd.
  - apply bind_Ok in Ht as (st1 & Hw & Ht).
    destruct (visit_wire_flag w _ _
      (mkSearch (found_pin_nodes st') rest (downstream_nodes st')) Hw)
      as (st1' & Hw' & Hrel').
    { split_and!; simpl; done. }
    rewrite Hw'. simpl. by eapply IH.
Qed.

(** From an instance node, the search without top ports returns what
    the search with top ports returns, less the top port nodes. *)
Lemma get_downstream_nodes_flag fuel n nd i ds :
  node s n = Some nd → item nd = Instance i →
  get_downstream_nodes netlist fuel s n true = Ok ds →
  get_downstream_nodes netlist fuel s n false
  = Ok (filter (λ d, d ∉ tops) ds).
Proof using Hok Htops.
  intros Hn Hi (st & Hseeds & Ht)%bind_Ok.
  unfold get_downstream_nodes.
  assert (seeds netlist s n false = Ok st) as ->.
  { revert Hseeds. unfold seeds, get. rewrite Hn. simpl. by rewrite Hi. }
  simpl. eapply traverse_flag; [done|].
  split_and!; [done..|].
  rewrite (seeds_downstream _ _ _ _ _ Hseeds). done.
Qed.
End Flag.

Lemma add_node_app g n :
  ∃ l, g_nodes (add_node g n) = g_nodes g ++ l ∧ ∀ x, x ∈ l → x = n.
Proof.
  unfold add_node. case_decide; simpl.
  - exists []. split; [by rewrite app_nil_r|]. by intros ? ?%elem_of_nil.
  - exists [n]. split; [done|]. by intros ? ?%list_elem_of_singleton.
Qed.

Lemma add_nodes_from_app ns : ∀ g,
  ∃ l, g_nodes (add_nodes_from g ns) = g_nodes g ++ l ∧ ∀ x, x ∈ l → x ∈ ns.
Proof.
  unfold add_nodes_from.
  induction ns as [|n ns IH]; intros g; simpl.
  - exists []. split; [by rewrite app_nil_r|done].
  - destruct (IH (add_node g n)) as (l & Hl & Hin).
    destruct (add_node_app g n) as (l0 & Hl0 & Hin0).
    exists (l0 ++ l). split; [by rewrite Hl, Hl0, app_assoc|].
    intros x [->%Hin0|?]%elem_of_app; [left|right; auto].
Qed.

Section Remove.
Context (tops : list nat).

Lemma remove_nodes_add_node_kept g x :
  x ∉ tops →
  remove_nodes tops (add_node g x) = add_node (remove_nodes tops g) x.
Proof.
  intros Hx. unfold add_node, remove_nodes. simpl.
  destruct (decide (x ∈ g_nodes g)) as [Hin|Hin].
  - rewrite decide_True; [done|]. by apply list_elem_of_filter.
  - rewrite decide_False; [|by intros [_ ?]%list_elem_of_filter]. simpl.
    rewrite filter_app, filter_cons. by rewrite decide_True.
Qed.

Lemma remove_nodes_add_node_dropped g x :
  x ∈ tops ∨ x ∈ g_nodes g →
  remove_nodes tops (add_node g x) = remove_nodes tops g.
Proof.
  intros Hx. unfold add_node, remove_nodes.
  destruct (decide (x ∈ g_nodes g)) as [Hin|Hin]; [done|]. simpl.
  destruct Hx as [Hx|?]; [|done].
  rewrite filter_app, filter_cons.
  rewrite decide_False by (intros Hn; by apply Hn).
  by rewrite filter_nil, app_nil_r.
Qed.

Lemma remove_nodes_add_edge_kept g u v :
  u ∉ tops → v ∉ tops →
  remove_nodes tops (add_edge g u v) = add_edge (remove_nodes tops g) u v.
Proof.
  intros Hu Hv. unfold add_edge. cbv zeta.
  rewrite <- !remove_nodes_add_node_kept by done.
  set (g1 := add_node (add_node g u) v).
  destruct (decide ((u, v) ∈ g_edges g1)) as [Hin|Hin].
  - rewrite decide_True; [done|]. simpl. by apply list_elem_of_filter.
  - rewrite decide_False; [|by intros [_ ?]%list_elem_of_filter].
    unfold remove_nodes. simpl. rewrite filter_app, filter_cons.
    by rewrite decide_True.
Qed.

Lemma remove_nodes_add_edge_dropped g u v :
  u ∈ tops ∨ v ∈ tops →
  u ∈ tops ∨ u ∈ g_nodes g → v ∈ tops ∨ v ∈ g_nodes g →
  remove_nodes tops (add_edge g u v) = remove_nodes tops g.
Proof.
  intros Huv Hu Hv. unfold add_edge. cbv zeta.
  set (g1 := add_node (add_node g u) v).
  assert (remove_nodes tops g1 = remove_nodes tops g) as Hg1.
  { unfold g1. rewrite remove_nodes_add_node_dropped.
    - by apply remove_nodes_add_node_dropped.
    - destruct Hv as [?|?]; [by left|right].
      apply add_node_nodes. by left. }
  destruct (decide ((u, v) ∈ g_edges g1)) as [Hin|Hin]; [done|].
  rewrite <- Hg1. unfold remove_nodes. simpl. f_equal.
  rewrite filter_app, filter_cons. simpl.
  rewrite decide_False by (intros [? ?]; by destruct Huv).
  by rewrite filter_nil, app_nil_r.
Qed.

Lemma add_edges_from_grows u vs : ∀ g x,
  x ∈ g_nodes g → x ∈ g_nodes (add_edges_from g u vs).
Proof. intros g x ?. apply add_edges_from_nodes. by left. Qed.

Lemma remove_nodes_add_edges_kept u vs : ∀ g,
  u ∉ tops → u ∈ g_nodes g →
  remove_nodes tops (add_edges_from g u vs)
  = add_edges_from (remove_nodes tops g) u (filter (λ d, d ∉ tops) vs).
Proof.
  unfold add_edges_from.
  induction vs as [|v vs IH]; intros g Hu Hin; simpl; [done|].
  rewrite filter_cons. destruct (decide (v ∉ tops)) as [Hv|Hv]; simpl.
  - rewrite IH; [|done|apply add_edge_nodes; by left].
    by rewrite remove_nodes_add_edge_kept.
  - rewrite IH; [|done|apply add_edge_nodes; by left].
    rewrite remove_nodes_add_edge_dropped; [done| |by right|].
    + right. by apply dec_stable.
    + left. by apply dec_stable.
Qed.

Lemma remove_nodes_add_edges_dropped u vs : ∀ g,
  u ∈ tops → (∀ v, v ∈ vs → v ∈ tops ∨ v ∈ g_nodes g) →
  remove_nodes tops (add_edges_from g u vs) = remove_nodes tops g.
Proof.
  unfold add_edges_from.
  induction vs as [|v vs IH]; intros g Hu Hvs; simpl; [done|].
  rewrite IH; [|done|].
  - apply remove_nodes_add_edge_dropped; [by left|by left|].
    apply Hvs. left.
  - intros v' Hv'. destruct (Hvs v') as [?|?]; [by right|by left|].
    right. apply add_edge_nodes. by left.
Qed.
End Remove.

Section Monotone.
Context (netlist : Netlist) (s : Store) (top : nat) (tops : list nat).
Hypothesis Hok : tree_ok netlist s top.
Hypothesis Htops : get_top_port_nodes s top = Ok tops.

Lemma connect_leaves fuel l : ∀ g gT,
  (∀ n, n ∈ l → n ∉ tops ∧ n ∈ g_nodes g
                ∧ ∃ nd i, node s n = Some nd ∧ item nd = Instance i) →
  fold_result (connect netlist fuel s true) g l = Ok gT →
  fold_result (connect netlist fuel s false) (remove_nodes tops g) l
  = Ok (remove_nodes tops gT)
  ∧ ∀ x, x ∈ g_nodes g → x ∈ g_nodes gT.
Proof using Hok Htops.
  induction l as [|n l IH]; intros g gT Hl; simpl.
  - by intros [= <-].
  - intros (g1 & (ds & Hds & [= <-])%bind_Ok & Hrest)%bind_Ok.
    destruct (Hl n) as (Hn & Hin & nd & i & Hnd & Hi); [left|].
    assert (connect netlist fuel s false (remove_nodes tops g) n
            = Ok (remove_nodes tops (add_edges_from g n ds))) as ->.
    { unfold connect.
      rewrite (get_downstream_nodes_flag _ _ _ _ Hok Htops _ _ _ _ _ Hnd Hi Hds).
      simpl. by rewrite remove_nodes_add_edges_kept. }
    simpl. destruct (IH (add_edges_from g n ds) gT) as [-> Hsub]; [|done|].
    + intros x Hx. destruct (Hl x) as (? & ? & ?); [by right|].
      split_and!; [done| |done]. by apply add_edges_from_grows.
    + split; [done|]. intros x ?. by apply Hsub, add_edges_from_grows.
Qed.

Lemma connect_ports fuel l : ∀ g gT,
  (∀ t, t ∈ l → t ∈ tops) →
  (∀ t ds d, t ∈ l → get_downstream_nodes netlist fuel s t true = Ok ds →
             d ∈ ds → d ∈ tops ∨ d ∈ g_nodes g) →
  fold_result (connect netlist fuel s true) g l = Ok gT →
  remove_nodes tops gT = remove_nodes tops g.
Proof.
  induction l as [|t l IH]; intros g gT Hl Hds; simpl.
  - by intros [= <-].
  - intros (g1 & (ds & Hd & [= <-])%bind_Ok & Hrest)%bind_Ok.
    rewrite (IH (add_edges_from g t ds) gT); [| | |done].
    + apply remove_nodes_add_edges_dropped; [apply Hl; left|].
      intros v Hv. eapply Hds; [left|done..].
    + intros t' ?. apply Hl. by right.
    + intros t' ds' d Ht' Hds' Hd'.
      destruct (Hds t' ds' d) as [?|?]; [by right|done..|by left|].
      right. by apply add_edges_from_grows.
Qed.
End Monotone.

Lemma filter_all {A} (P : A → Prop) `{∀ x, Decision (P x)} (l : list A) :
  (∀ x, x ∈ l → P x) → filter P l = l.
Proof.
  induction l as [|a l IH]; intros Hl; [done|].
  rewrite filter_cons, decide_True by (apply Hl; left).
  f_equal. apply IH. intros x ?. apply Hl. by right.
Qed.

Lemma filter_none {A} (P : A → Prop) `{∀ x, Decision (P x)} (l : list A) :
  (∀ x, x ∈ l → ¬ P x) → filter P l = [].
Proof.
  induction l as [|a l IH]; intros Hl; [done|].
  rewrite filter_cons, decide_False by (apply Hl; left).
  apply IH. intros x ?. apply Hl. by right.
Qed.


(** ** Runs from different allocation counters *)

Global Instance shift_inj δ : Inj (=) (=) (shift δ).
Proof. intros n m. unfold shift. lia. Qed.

Lemma fmap_bind_result {A B C} (f : B → C) (g : A → result B) (r : result A) :
  f <$> (r ≫= g) = r ≫= λ a, f <$> g a.
Proof. by destruct r. Qed.

Lemma bind_fmap_result {A B C} (f : A → B) (g : B → result C) (r : result A) :
  (f <$> r) ≫= g = r ≫= λ a, g (f a).
Proof. by destruct r. Qed.

Lemma bind_ext_result {A B} (f g : A → result B) (r : result A) :
  (∀ a, f a = g a) → r ≫= f = r ≫= g.
Proof. intros Hfg. destruct r; simpl; auto. Qed.

Lemma fold_result_shift {A B A' B'} (f : A → B → result A)
    (f' : A' → B' → result A') (ha : A → A') (hb : B → B') l :
  (∀ a b, f' (ha a) (hb b) = ha <$> f a b) →
  ∀ a, fold_result f' (ha a) (hb <$> l) = ha <$> fold_result f a l.
Proof.
  intros Hf. induction l as [|b l IH]; intros a; simpl; [done|].
  rewrite Hf, bind_fmap_result, fmap_bind_result.
  apply bind_ext_result. intros a'. apply IH.
Qed.

Section Shift.
Context (netlist : Netlist) (δ : nat).

Lemma dict_get_shift d e :
  dict_get (shift_dict δ d) e = shift δ <$> dict_get d e.
Proof.
  induction d as [|[k v] d IH]; simpl; [done|].
  by destruct (decide (e = k)).
Qed.

Lemma dict_set_shift d e c :
  dict_set (shift_dict δ d) e (shift δ c) = shift_dict δ (dict_set d e c).
Proof.
  induction d as [|[k v] d IH]; simpl; [done|].
  destruct (decide (e = k)); simpl; [done|]. by rewrite IH.
Qed.

Lemma with_child_shift e c nd :
  with_child e (shift δ c) (shift_node δ nd) = shift_node δ (with_child e c nd).
Proof. unfold with_child, shift_node. simpl. by rewrite dict_set_shift. Qed.

Lemma shift_le a b : shift δ a ≤ shift δ b ↔ a ≤ b.
Proof. unfold shift. lia. Qed.

Lemma shift_sub a b : shift δ a - shift δ b = a - b.
Proof. unfold shift. lia. Qed.

Lemma node_shift s n :
  node (shift_store δ s) (shift δ n) = shift_node δ <$> node s n.
Proof.
  unfold node, shift_store. simpl.
  destruct (decide (base s ≤ n)).
  - rewrite decide_True by (by apply shift_le).
    rewrite shift_sub. apply list_lookup_fmap.
  - by rewrite decide_False by (by rewrite shift_le).
Qed.

Lemma limit_shift s : limit (shift_store δ s) = shift δ (limit s).
Proof. unfold limit, shift_store, shift. simpl. rewrite length_fmap. lia. Qed.

Lemma alloc_shift s nd :
  alloc (shift_store δ s) (shift_node δ nd)
  = (shift δ (alloc s nd).1, shift_store δ (alloc s nd).2).
Proof.
  unfold alloc. rewrite limit_shift. simpl. f_equal.
  unfold shift_store. simpl. by rewrite fmap_app.
Qed.

Lemma set_child_shift s m e c :
  set_child (shift_store δ s) (shift δ m) e (shift δ c)
  = shift_store δ (set_child s m e c).
Proof.
  unfold set_child. simpl.
  destruct (decide (base s ≤ m)).
  - rewrite decide_True by (by apply shift_le).
    unfold shift_store. simpl. f_equal.
    rewrite shift_sub. symmetry. apply list_fmap_alter.
    apply Forall_forall. intros nd _. symmetry. apply with_child_shift.
  - by rewrite decide_False by (by rewrite shift_le).
Qed.

Lemma new_child_shift m s st e :
  new_child (shift δ m) (shift_store δ s, shift δ <$> st) e
  = (shift_store δ (new_child m (s, st) e).1,
     shift δ <$> (new_child m (s, st) e).2).
Proof.
  unfold new_child. cbn [fst snd].
  change (mkNode (Some (shift δ m)) e [])
    with (shift_node δ (mkNode (Some m) e [])).
  rewrite alloc_shift. cbn [fst snd].
  by rewrite set_child_shift.
Qed.

Lemma expand_shift m es : ∀ s st,
  foldl (new_child (shift δ m)) (shift_store δ s, shift δ <$> st) es
  = (shift_store δ (foldl (new_child m) (s, st) es).1,
     shift δ <$> (foldl (new_child m) (s, st) es).2).
Proof.
  induction es as [|e es IH]; intros s st; simpl; [done|].
  rewrite new_child_shift.
  destruct (new_child m (s, st) e) as [s1 st1]. apply IH.
Qed.

Lemma generate_step_shift s st m it :
  generate_step netlist (shift_store δ s) (shift δ <$> st) (shift δ m) it
  = (shift_store δ (generate_step netlist s st m it).1,
     shift δ <$> (generate_step netlist s st m it).2).
Proof. rewrite !generate_step_foldl. apply expand_shift. Qed.

Lemma get_shift s n :
  get (shift_store δ s) (shift δ n) = shift_node δ <$> get s n.
Proof. unfold get. rewrite node_shift. by destruct (node s n). Qed.

Lemma generate_loop_shift fuel : ∀ s st,
  generate_loop netlist fuel (shift_store δ s) (shift δ <$> st)
  = shift_store δ <$> generate_loop netlist fuel s st.
Proof.
  induction fuel as [|fuel IH]; intros s st; simpl; [done|].
  destruct st as [|m rest]; simpl; [done|].
  rewrite get_shift, bind_fmap_result, fmap_bind_result.
  apply bind_ext_result. intros nd. simpl.
  rewrite generate_step_shift.
  destruct (generate_step netlist s rest m (item nd)) as [s1 st1]. apply IH.
Qed.

Lemma generate_nodes_shift fuel counter :
  generate_nodes netlist fuel (shift δ counter)
  = prod_map (shift δ) (shift_store δ) <$> generate_nodes netlist fuel counter.
Proof.
  unfold generate_nodes. cbv zeta.
  set (root := mkNode None (Instance (top_instance netlist)) []).
  change (alloc (mkStore (shift δ counter) []) root)
    with (alloc (shift_store δ (mkStore counter [])) (shift_node δ root)).
  rewrite alloc_shift. cbn [fst snd].
  set (a := alloc (mkStore counter []) root).
  change [shift δ a.1] with (shift δ <$> [a.1]).
  rewrite generate_loop_shift, bind_fmap_result, fmap_bind_result.
  by apply bind_ext_result.
Qed.

Lemma parent_shift nd : parent (shift_node δ nd) = shift δ <$> parent nd.
Proof. done. Qed.
Lemma item_shift nd : item (shift_node δ nd) = item nd.
Proof. done. Qed.
Lemma children_shift nd :
  children (shift_node δ nd) = shift_dict δ (children nd).
Proof. done. Qed.

Lemma shift_dict_values d : (shift_dict δ d).*2 = shift δ <$> d.*2.
Proof.
  unfold shift_dict. induction d as [|[k v] d IH]; csimpl; [done|].
  by rewrite IH.
Qed.

Lemma shift_dict_filter (P : Element → bool) d :
  (filter (λ kv, P kv.1) (shift_dict δ d)).*2
  = shift δ <$> (filter (λ kv, P kv.1) d).*2.
Proof.
  unfold shift_dict. induction d as [|[k v] d IH]; csimpl; [done|].
  rewrite !filter_cons. csimpl.
  destruct (decide (P k)); csimpl; by rewrite IH.
Qed.

Lemma leaf_loop_shift fuel : ∀ s (stack acc : list nat),
  leaf_loop netlist fuel (shift_store δ s) (shift δ <$> stack) (shift δ <$> acc)
  = fmap (M:=list) (shift δ) <$> leaf_loop netlist fuel s stack acc.
Proof.
  induction fuel as [|fuel IH]; intros s stack acc; simpl; [done|].
  destruct stack as [|m rest]; simpl; [done|].
  rewrite get_shift, bind_fmap_result, fmap_bind_result.
  apply bind_ext_result. intros nd. rewrite item_shift, children_shift.
  destruct (item nd); try apply IH.
  destruct (is_leaf _ _).
  - change [shift δ m] with (shift δ <$> [m]). rewrite <- fmap_app. apply IH.
  - rewrite shift_dict_values, <- fmap_reverse, <- fmap_app. apply IH.
Qed.

Lemma get_leaf_instance_nodes_shift fuel s top :
  get_leaf_instance_nodes netlist fuel (shift_store δ s) (shift δ top)
  = fmap (M:=list) (shift δ) <$> get_leaf_instance_nodes netlist fuel s top.
Proof. apply (leaf_loop_shift fuel s [top] []). Qed.

Lemma get_top_port_nodes_shift s top :
  get_top_port_nodes (shift_store δ s) (shift δ top)
  = fmap (M:=list) (shift δ) <$> get_top_port_nodes s top.
Proof.
  unfold get_top_port_nodes.
  rewrite get_shift, bind_fmap_result, fmap_bind_result.
  apply bind_ext_result. intros nd. rewrite children_shift.
  by rewrite (shift_dict_filter is_Port).
Qed.

Lemma deref_shift s on :
  deref (shift_store δ s) (shift δ <$> on) = shift_node δ <$> deref s on.
Proof. destruct on; simpl; [apply get_shift|done]. Qed.

Lemma child_of_shift s on e :
  child_of (shift_store δ s) (shift δ <$> on) e = shift δ <$> child_of s on e.
Proof.
  unfold child_of.
  rewrite deref_shift, bind_fmap_result, fmap_bind_result.
  apply bind_ext_result. intros nd. rewrite children_shift, dict_get_shift.
  by destruct (dict_get (children nd) e).
Qed.

Lemma child_of_shift_Some s n e :
  child_of (shift_store δ s) (Some (shift δ n)) e
  = shift δ <$> child_of s (Some n) e.
Proof. apply (child_of_shift s (Some n)). Qed.

Lemma elem_of_shift (X : gset nat) n :
  shift δ n ∈ set_map (C:=gset nat) (D:=gset nat) (shift δ) X ↔ n ∈ X.
Proof.
  rewrite elem_of_map. split; [|by exists n].
  by intros (m & ->%(inj _) & ?).
Qed.

Lemma mark_shift x st :
  mark (shift δ x) (shift_search δ st) = shift_search δ (mark x st).
Proof.
  unfold mark, shift_search. simpl. f_equal.
  by rewrite set_map_union_L, set_map_singleton_L.
Qed.

Lemma push_shift x st :
  push (shift δ x) (shift_search δ st) = shift_search δ (push x st).
Proof. done. Qed.

Lemma emit_shift x st :
  emit (shift δ x) (shift_search δ st) = shift_search δ (emit x st).
Proof. unfold emit, shift_search. simpl. by rewrite fmap_app. Qed.
End Shift.

(** Moves one look-up of a child past the renaming. *)
Ltac shift_child :=
  first [ rewrite child_of_shift_Some | rewrite child_of_shift ];
  rewrite bind_fmap_result, fmap_bind_result;
  apply bind_ext_result; intros ?.

Section ShiftSearch.
Context (netlist : Netlist) (δ : nat).

Lemma seed_instance_pin_shift s n par st pin :
  seed_instance_pin netlist (shift_store δ s) (shift δ n) (shift δ <$> par)
    (shift_search δ st) pin
  = shift_search δ <$> seed_instance_pin netlist s n par st pin.
Proof.
  unfold seed_instance_pin.
  destruct (outer_wire netlist pin); [|done].
  destruct (drives _); [|done].
  do 4 shift_child. by rewrite mark_shift, push_shift.
Qed.

Lemma seed_port_pin_shift s n par st pin :
  seed_port_pin netlist (shift_store δ s) (shift δ n) (shift δ <$> par)
    (shift_search δ st) pin
  = shift_search δ <$> seed_port_pin netlist s n par st pin.
Proof.
  unfold seed_port_pin.
  destruct (inner_wire netlist pin); [|done].
  do 3 shift_child. by rewrite mark_shift, push_shift.
Qed.

Lemma seeds_shift s n flag :
  seeds netlist (shift_store δ s) (shift δ n) flag
  = shift_search δ <$> seeds netlist s n flag.
Proof.
  unfold seeds.
  rewrite get_shift, bind_fmap_result, fmap_bind_result.
  apply bind_ext_result. intros nd. rewrite item_shift, parent_shift.
  assert (mkSearch ∅ [] [] = shift_search δ (mkSearch ∅ [] [])) as Hinit.
  { unfold shift_search. simpl. by rewrite set_map_empty. }
  destruct (item nd); try (by rewrite Hinit at 1).
  - rewrite Hinit at 1. rewrite <- (list_fmap_id (instance_pins _ _)) at 1.
    apply fold_result_shift. intros. apply seed_instance_pin_shift.
  - destruct flag; [|by rewrite Hinit at 1].
    destruct (receives _); [|by rewrite Hinit at 1].
    rewrite Hinit at 1. rewrite <- (list_fmap_id (port_pins _ _)) at 1.
    apply fold_result_shift. intros. apply seed_port_pin_shift.
Qed.

Lemma visit_pin_shift s flag cur st pin :
  visit_pin netlist (shift_store δ s) flag (shift δ <$> cur)
    (shift_search δ st) pin
  = shift_search δ <$> visit_pin netlist s flag cur st pin.
Proof.
  unfold visit_pin. destruct pin as [p|o].
  - do 2 shift_child.
    destruct (decide (a0 ∈ found_pin_nodes st)) as [Hin|Hin].
    + rewrite decide_True; [done|]. by apply elem_of_shift.
    + rewrite decide_False; [|intros H; by apply elem_of_shift in H].
      rewrite deref_shift, bind_fmap_result, fmap_bind_result.
      apply bind_ext_result. intros curd. rewrite parent_shift, item_shift.
      destruct (parent curd) as [par|]; simpl.
      * rewrite fmap_bind_result. apply bind_ext_result. intros op.
        destruct (outer_wire netlist op); [|by rewrite mark_shift].
        do 2 shift_child. by rewrite mark_shift, push_shift.
      * destruct flag; by rewrite mark_shift, ?emit_shift.
  - shift_child. destruct (is_leaf _ _); [by rewrite emit_shift|].
    do 2 shift_child.
    destruct (inner_wire _ _); [|by rewrite mark_shift].
    do 2 shift_child. by rewrite mark_shift, push_shift.
Qed.

Lemma visit_wire_shift s flag w st :
  visit_wire netlist (shift_store δ s) flag (shift δ w) (shift_search δ st)
  = shift_search δ <$> visit_wire netlist s flag w st.
Proof.
  unfold visit_wire.
  rewrite get_shift, bind_fmap_result, fmap_bind_result.
  apply bind_ext_result. intros wd. rewrite parent_shift, item_shift.
  rewrite deref_shift, bind_fmap_result, fmap_bind_result.
  apply bind_ext_result. intros cabd. rewrite parent_shift.
  rewrite fmap_bind_result. apply bind_ext_result. intros pins.
  rewrite <- (list_fmap_id pins) at 1.
  apply fold_result_shift. intros. apply visit_pin_shift.
Qed.

Lemma traverse_shift fuel s flag : ∀ st,
  traverse netlist fuel (shift_store δ s) flag (shift_search δ st)
  = fmap (M:=list) (shift δ) <$> traverse netlist fuel s flag st.
Proof.
  induction fuel as [|fuel IH]; intros st; [done|].
  destruct st as [found stack ds]. destruct stack as [|w rest]; [done|].
  transitivity
    (visit_wire netlist (shift_store δ s) flag (shift δ w)
       (shift_search δ (mkSearch found rest ds))
     ≫= traverse netlist fuel (shift_store δ s) flag); [done|].
  rewrite visit_wire_shift, bind_fmap_result.
  transitivity
    (visit_wire netlist s flag w (mkSearch found rest ds)
     ≫= λ st', fmap (M:=list) (shift δ) <$> traverse netlist fuel s flag st');
    [|simpl; by destruct (visit_wire netlist s flag w (mkSearch found rest ds))].
  apply bind_ext_result. intros st'. apply IH.
Qed.

Lemma get_downstream_nodes_shift fuel s n flag :
  get_downstream_nodes netlist fuel (shift_store δ s) (shift δ n) flag
  = fmap (M:=list) (shift δ) <$> get_downstream_nodes netlist fuel s n flag.
Proof.
  unfold get_downstream_nodes.
  rewrite seeds_shift, bind_fmap_result, fmap_bind_result.
  apply bind_ext_result. intros st. apply traverse_shift.
Qed.
End ShiftSearch.

Section ShiftGraph.
Context (netlist : Netlist) (δ : nat).

Lemma add_node_shift g n :
  add_node (shift_graph δ g) (shift δ n) = shift_graph δ (add_node g n).
Proof.
  unfold add_node, shift_graph. cbn [g_nodes g_edges].
  destruct (decide (n ∈ g_nodes g)).
  - rewrite decide_True; [done|]. by apply list_elem_of_fmap_2.
  - rewrite decide_False;
      [|intros Hin; by apply (list_elem_of_fmap_inj_2 (shift δ)) in Hin].
    cbn [g_nodes g_edges]. by rewrite fmap_app.
Qed.

Lemma add_nodes_from_shift ns : ∀ g,
  add_nodes_from (shift_graph δ g) (shift δ <$> ns)
  = shift_graph δ (add_nodes_from g ns).
Proof.
  unfold add_nodes_from.
  induction ns as [|n ns IH]; intros g; csimpl; [done|].
  by rewrite add_node_shift, IH.
Qed.

Lemma add_edge_shift g u v :
  add_edge (shift_graph δ g) (shift δ u) (shift δ v)
  = shift_graph δ (add_edge g u v).
Proof.
  unfold add_edge. cbv zeta. rewrite !add_node_shift.
  set (g1 := add_node (add_node g u) v).
  unfold shift_graph at 1 2 3. cbn [g_nodes g_edges].
  destruct (decide ((u, v) ∈ g_edges g1)).
  - rewrite decide_True; [done|].
    by apply (list_elem_of_fmap_2 (prod_map (shift δ) (shift δ)) _ (u, v)).
  - rewrite decide_False.
    + unfold shift_graph. cbn [g_nodes g_edges]. by rewrite fmap_app.
    + intros Hin.
      by apply (list_elem_of_fmap_inj_2 (prod_map (shift δ) (shift δ)) _ (u, v))
        in Hin.
Qed.

Lemma add_edges_from_shift u vs : ∀ g,
  add_edges_from (shift_graph δ g) (shift δ u) (shift δ <$> vs)
  = shift_graph δ (add_edges_from g u vs).
Proof.
  unfold add_edges_from.
  induction vs as [|v vs IH]; intros g; csimpl; [done|].
  by rewrite add_edge_shift, IH.
Qed.

Lemma connect_shift fuel s flag g n :
  connect netlist fuel (shift_store δ s) flag (shift_graph δ g) (shift δ n)
  = shift_graph δ <$> connect netlist fuel s flag g n.
Proof.
  unfold connect.
  rewrite get_downstream_nodes_shift, bind_fmap_result, fmap_bind_result.
  apply bind_ext_result. intros ds. simpl. by rewrite add_edges_from_shift.
Qed.

(** A call from a counter moved by [δ] returns the same graph over the
    same store, with every address moved by [δ]. *)
Lemma get_connectivity_graph_shift fuel flag counter :
  get_connectivity_graph netlist fuel flag (shift δ counter)
  = prod_map (shift_graph δ) (shift_store δ)
      <$> get_connectivity_graph netlist fuel flag counter.
Proof.
  unfold get_connectivity_graph.
  rewrite generate_nodes_shift, bind_fmap_result, fmap_bind_result.
  apply bind_ext_result. intros [top s]. simpl.
  rewrite get_leaf_instance_nodes_shift, bind_fmap_result, fmap_bind_result.
  apply bind_ext_result. intros leaves. cbv zeta.
  set (g0 := add_nodes_from (mkDiGraph [] []) leaves).
  assert (add_nodes_from (mkDiGraph [] []) (shift δ <$> leaves)
          = shift_graph δ g0) as ->
    by apply (add_nodes_from_shift leaves (mkDiGraph [] [])).
  assert (∀ g, fold_result (connect netlist fuel (shift_store δ s) flag)
                 (shift_graph δ g) (g_nodes (shift_graph δ g))
               ≫= (λ g', Ok (g', shift_store δ s))
             = prod_map (shift_graph δ) (shift_store δ)
                 <$> (fold_result (connect netlist fuel s flag) g (g_nodes g)
                      ≫= λ g', Ok (g', s))) as Hfold.
  { intros g. change (g_nodes (shift_graph δ g)) with (shift δ <$> g_nodes g).
    rewrite (fold_result_shift (connect netlist fuel s flag)
               (connect netlist fuel (shift_store δ s) flag)
               (shift_graph δ) (shift δ));
      [|intros; apply connect_shift].
    by destruct (fold_result _ _ _). }
  destruct flag.
  - rewrite get_top_port_nodes_shift.
    destruct (get_top_port_nodes s top) as [tops| |]; simpl; [|done..].
    rewrite add_nodes_from_shift. apply Hfold.
  - simpl. apply Hfold.
Qed.

Lemma path_aux_shift fuel : ∀ s n,
  path_aux fuel (shift_store δ s) (shift δ n) = path_aux fuel s n.
Proof.
  induction fuel as [|fuel IH]; intros s n; simpl; [done|].
  rewrite node_shift. destruct (node s n) as [nd|]; simpl; [|done].
  destruct (parent nd) as [p|]; simpl; [|done]. by rewrite IH.
Qed.

Lemma path_shift s n : path (shift_store δ s) (shift δ n) = path s n.
Proof.
  unfold path. simpl. rewrite length_fmap. apply path_aux_shift.
Qed.
End ShiftGraph.

(** C8, as the code has it.  Two calls of [get_connectivity_graph] in a
    row with the same flag on the same netlist return the same graph up
    to the identity of the Node objects: the second call allocates as
    many nodes as the first, each node of the second graph is the node of
    the first moved by that number, it has the same hierarchical path,
    and so the two graphs have the same nodes and the same edges once
    every node is named by its hierarchical path. *)
Theorem repeated_call_same_paths netlist fuel flag counter g1 s1 g2 s2 :
  get_connectivity_graph_twice netlist fuel flag counter
  = Ok ((g1, s1), (g2, s2)) →
  let δ := length (cells s1) in
  g2 = shift_graph δ g1 ∧ s2 = shift_store δ s1
  ∧ (∀ n, path s2 (shift δ n) = path s1 n)
  ∧ path s2 <$> g_nodes g2 = path s1 <$> g_nodes g1
  ∧ prod_map (path s2) (path s2) <$> g_edges g2
    = prod_map (path s1) (path s1) <$> g_edges g1.
Proof.
  unfold get_connectivity_graph_twice.
  intros ([g1' s1'] & H1 & ([g2' s2'] & H2 & [= -> -> -> ->])%bind_Ok)%bind_Ok.
  simpl in H2. cbv zeta. set (δ := length (cells s1)).
  destruct (get_connectivity_graph_Ok _ _ _ _ _ _ H1) as (top & _ & _ & Hgen & _).
  destruct (generate_nodes_tree _ _ _ _ _ Hgen) as (_ & Hbase & _).
  assert (limit s1 = shift δ counter) as Hlimit.
  { unfold limit, shift, δ. by rewrite Hbase. }
  rewrite Hlimit, get_connectivity_graph_shift, H1 in H2.
  injection H2 as <- <-.
  assert (∀ n, path (shift_store δ s1) (shift δ n) = path s1 n) as Hpath
    by (intros; apply path_shift).
  split_and!; [done..| |].
  - unfold shift_graph. simpl. rewrite <- list_fmap_compose.
    apply list_fmap_ext. intros _ n _. apply Hpath.
  - unfold shift_graph. simpl. rewrite <- list_fmap_compose.
    apply list_fmap_ext. intros _ [u v] _. simpl. by rewrite !Hpath.
Qed.

(** ** The naming utility *)

Lemma string_app_length (s t : string) :
  String.length (s +:+ t) = String.length s + String.length t.
Proof.
  induction s as [|a s IH]; [done|].
  change (S (String.length (s +:+ t)) = S (String.length s + String.length t)).
  by rewrite IH.
Qed.

Lemma string_app_inj_r (s1 s2 t : string) : s1 +:+ t = s2 +:+ t → s1 = s2.
Proof.
  revert s2. induction s1 as [|a s1 IH]; intros [|b s2] H.
  - done.
  - apply (f_equal String.length) in H.
    rewrite !string_app_length in H. simpl in H. lia.
  - apply (f_equal String.length) in H.
    rewrite !string_app_length in H. simpl in H. lia.
  - change (String a (s1 +:+ t) = String b (s2 +:+ t)) in H.
    injection H as -> H. f_equal. by apply IH.
Qed.

Lemma bracket_inj prefix i j : bracket prefix i = bracket prefix j → i = j.
Proof.
  unfold bracket. intros H.
  apply (inj (String.app prefix)) in H.
  apply (inj (String.app "[")) in H.
  apply string_app_inj_r in H. by apply (inj pretty) in H.
Qed.

Lemma index_Ok l x i : index l x = Ok i → l !! i = Some x.
Proof.
  unfold index. destruct (list_find _ l) as [[j y]|] eqn:Hf; [|done].
  intros [= ->]. apply list_find_Some in Hf as (? & -> & _). done.
Qed.

Section Names.
Context (netlist : Netlist).

(** The shape of the result of [get_hiearchical_name]. *)
Lemma get_hiearchical_name_Ok fuel s n r :
  get_hiearchical_name netlist fuel s n = Ok r →
  ∃ nd parents prefix,
    node s n = Some nd
    ∧ ancestors fuel s (parent nd) = Ok parents
    ∧ join "/" (get_name netlist <$> reverse parents) = Ok prefix
    ∧ match item nd with
      | Wire w =>
          ∃ i, wires netlist (cable netlist w) !! i = Some w
               ∧ r = Some (bracket prefix i)
      | InnerPin p =>
          ∃ i, port_pins netlist (port netlist p) !! i = Some p
               ∧ r = Some (bracket prefix i)
      | _ =>
          r = if decide (prefix = "") then get_name netlist nd
              else Some (prefix +:+ "/" +:+ str (get_name netlist nd))
      end.
Proof.
  unfold get_hiearchical_name.
  intros (nd & Hn%get_Ok & H)%bind_Ok.
  apply bind_Ok in H as (parents & Hp & H).
  apply bind_Ok in H as (prefix & Hj & H).
  exists nd, parents, prefix. split_and!; [done..|].
  destruct (item nd) as [i|p|c|w|p].
  - by case_decide; injection H as <-.
  - by case_decide; injection H as <-.
  - by case_decide; injection H as <-.
  - apply bind_Ok in H as (i & Hi%index_Ok & [= <-]). eauto.
  - apply bind_Ok in H as (i & Hi%index_Ok & [= <-]). eauto.
Qed.
End Names.

(** C6, as the code has it.  When the element a node wraps carries
    neither 'EDIF.original_identifier' nor 'EDIF.identifier', [get_name]
    returns [None] and signals nothing; for a node that wraps an
    instance, a port or a cable and whose ancestors resolve their names,
    [get_hiearchical_name] then returns [None] when the prefix is empty
    and otherwise the prefix followed by "/None", without an error.
    Graph construction never resolves a name: its result does not depend
    on the attributes of the elements. *)
Theorem unnamed_element_not_reported netlist fuel s n nd parents prefix :
  node s n = Some nd →
  attr netlist (item nd) "EDIF.original_identifier" = None →
  attr netlist (item nd) "EDIF.identifier" = None →
  ancestors fuel s (parent nd) = Ok parents →
  join "/" (get_name netlist <$> reverse parents) = Ok prefix →
  get_name netlist nd = None
  ∧ match item nd with
    | Wire _ | InnerPin _ => True
    | _ =>
        get_hiearchical_name netlist fuel s n
        = Ok (if decide (prefix = "") then None
              else Some (prefix +:+ "/None"))
    end
  ∧ ∀ a fuel' flag counter,
      get_connectivity_graph (with_attr netlist a) fuel' flag counter
      = get_connectivity_graph netlist fuel' flag counter.
Proof.
  intros Hn Ho Hg Hp Hj.
  assert (get_name netlist nd = None) as Hname.
  { unfold get_name. by rewrite Ho, Hg. }
  split_and!; [done| |done].
  unfold get_hiearchical_name, get. rewrite Hn. simpl. rewrite Hp. simpl.
  rewrite Hj. simpl. rewrite Hname.
  destruct (item nd); try done; by case_decide.
Qed.

Section Siblings.
Context (netlist : Netlist) (s : Store) (top : nat).
Hypothesis Hok : tree_ok netlist s top.
Hypothesis Hreg : registered s.

(** The parent of a node that wraps [e] lists [e]. *)
Lemma parent_lists n nd :
  node s n = Some nd → n ≠ top →
  ∃ p pd, parent nd = Some p ∧ node s p = Some pd
          ∧ item nd ∈ elements_of netlist (item pd).
Proof using Hok Hreg.
  intros Hn Hne. destruct (parent nd) as [p|] eqn:Hp.
  - destruct (Hreg _ _ _ Hn Hp) as (pd & Hpd & Hd).
    exists p, pd. split_and!; [done..|].
    eapply tree_keys; [done..|]. by rewrite Hd.
  - by destruct Hne; eapply tree_top.
Qed.

Lemma node_not_top_wire n nd w :
  node s n = Some nd → item nd = Wire w → n ≠ top.
Proof using Hok.
  intros Hn Hi ->. destruct (tree_root _ _ _ Hok) as (rd & ? & ? & ?).
  congruence.
Qed.

Lemma node_not_top_pin n nd p :
  node s n = Some nd → item nd = InnerPin p → n ≠ top.
Proof using Hok.
  intros Hn Hi ->. destruct (tree_root _ _ _ Hok) as (rd & ? & ? & ?).
  congruence.
Qed.

Lemma siblings_differ n1 n2 nd1 nd2 :
  node s n1 = Some nd1 → node s n2 = Some nd2 →
  n2 ≠ n1 → parent nd2 = parent nd1 → item nd2 ≠ item nd1.
Proof using Hok Hreg.
  intros H1 H2 Hne Hp Hi. apply Hne.
  destruct (parent nd1) as [p|] eqn:Hp1.
  - destruct (Hreg _ _ _ H1 Hp1) as (pd & Hpd & Hd1).
    destruct (Hreg _ _ _ H2 Hp) as (pd' & Hpd' & Hd2).
    rewrite Hi in Hd2. congruence.
  - rewrite (tree_top _ _ _ Hok _ _ H1 Hp1).
    by rewrite (tree_top _ _ _ Hok _ _ H2 Hp).
Qed.
End Siblings.

(** C7, as the code has it.  In the tree built by [generate_nodes] for a
    netlist in which no element is listed twice and every wire and pin
    names its owner, the name [get_hiearchical_name] gives a wire node
    ends with the index of the wire within the wires of its cable, in
    brackets, and the name of a pin node with the index of the pin within
    the pins of its port; so a wire node and any other node under the
    same cable node, and a pin node and any other node under the same
    port node, have different names. *)
Theorem wire_and_pin_names netlist fuel0 counter top s fuel n1 nd1 r1 :
  listed_once netlist → owned netlist →
  generate_nodes netlist fuel0 counter = Ok (top, s) →
  node s n1 = Some nd1 →
  get_hiearchical_name netlist fuel s n1 = Ok r1 →
  match item nd1 with
  | Wire w =>
      (∃ prefix i, r1 = Some (bracket prefix i)
                   ∧ wires netlist (cable netlist w) !! i = Some w)
      ∧ ∀ n2 nd2 r2,
          node s n2 = Some nd2 → n2 ≠ n1 → parent nd2 = parent nd1 →
          get_hiearchical_name netlist fuel s n2 = Ok r2 → r2 ≠ r1
  | InnerPin p =>
      (∃ prefix i, r1 = Some (bracket prefix i)
                   ∧ port_pins netlist (port netlist p) !! i = Some p)
      ∧ ∀ n2 nd2 r2,
          node s n2 = Some nd2 → n2 ≠ n1 → parent nd2 = parent nd1 →
          get_hiearchical_name netlist fuel s n2 = Ok r2 → r2 ≠ r1
  | _ => True
  end.
Proof.
  intros Hnd [Hwires Hpins] Hgen Hn1 Hr1.
  destruct (generate_nodes_tree _ _ _ _ _ Hgen) as (_ & _ & Hok & _).
  pose proof (generate_nodes_registered _ _ _ _ _ Hnd Hgen) as Hreg.
  destruct (get_hiearchical_name_Ok _ _ _ _ _ Hr1)
    as (nd1' & parents & prefix & Hn1' & Hanc & Hjoin & Hshape).
  assert (nd1' = nd1) as -> by congruence.
  destruct (item nd1) as [| | |w|p] eqn:Hi1; try done.
  - destruct Hshape as (i1 & Hi1' & ->). split; [eauto|].
    intros n2 nd2 r2 Hn2 Hne Hp Hr2 Heq.
    destruct (parent_lists netlist s top Hok Hreg _ _ Hn1)
      as (p & pd & Hp1 & Hpd & Hin1).
    { by eapply node_not_top_wire. }
    rewrite Hi1 in Hin1.
    destruct (elements_of_Wire _ _ _ Hin1) as (c & Hc & Hw1).
    rewrite Hp1 in Hp. destruct (Hreg _ _ _ Hn2 Hp) as (pd' & Hpd' & Hd2).
    assert (pd' = pd) as -> by congruence.
    assert (item nd2 ∈ elements_of netlist (item pd)) as Hin2.
    { eapply tree_keys; [done..|]. by rewrite Hd2. }
    rewrite Hc in Hin2. simpl in Hin2.
    apply list_elem_of_fmap in Hin2 as (w2 & Hi2 & Hw2).
    destruct (get_hiearchical_name_Ok _ _ _ _ _ Hr2)
      as (nd2' & parents2 & prefix2 & Hn2' & Hanc2 & Hjoin2 & Hshape2).
    assert (nd2' = nd2) as -> by congruence.
    rewrite Hp, <- Hp1, Hanc in Hanc2. injection Hanc2 as <-.
    rewrite Hjoin in Hjoin2. injection Hjoin2 as <-.
    rewrite Hi2 in Hshape2. destruct Hshape2 as (i2 & Hi2' & ->).
    injection Heq as Heq%bracket_inj. subst i2.
    rewrite (Hwires _ _ Hw1) in Hi1'. rewrite (Hwires _ _ Hw2) in Hi2'.
    apply (siblings_differ netlist s top Hok Hreg n1 n2 nd1 nd2);
      [done..|congruence|congruence].
  - destruct Hshape as (i1 & Hi1' & ->). split; [eauto|].
    intros n2 nd2 r2 Hn2 Hne Hp Hr2 Heq.
    destruct (parent_lists netlist s top Hok Hreg _ _ Hn1)
      as (q & pd & Hp1 & Hpd & Hin1).
    { by eapply node_not_top_pin. }
    rewrite Hi1 in Hin1.
    destruct (elements_of_InnerPin _ _ _ Hin1) as (c & Hc & Hw1).
    rewrite Hp1 in Hp. destruct (Hreg _ _ _ Hn2 Hp) as (pd' & Hpd' & Hd2).
    assert (pd' = pd) as -> by congruence.
    assert (item nd2 ∈ elements_of netlist (item pd)) as Hin2.
    { eapply tree_keys; [done..|]. by rewrite Hd2. }
    rewrite Hc in Hin2. simpl in Hin2.
    apply list_elem_of_fmap in Hin2 as (w2 & Hi2 & Hw2).
    destruct (get_hiearchical_name_Ok _ _ _ _ _ Hr2)
      as (nd2' & parents2 & prefix2 & Hn2' & Hanc2 & Hjoin2 & Hshape2).
    assert (nd2' = nd2) as -> by congruence.
    rewrite Hp, <- Hp1, Hanc in Hanc2. injection Hanc2 as <-.
    rewrite Hjoin in Hjoin2. injection Hjoin2 as <-.
    rewrite Hi2 in Hshape2. destruct Hshape2 as (i2 & Hi2' & ->).
    injection Heq as Heq%bracket_inj. subst i2.
    rewrite (Hpins _ _ Hw1) in Hi1'. rewrite (Hpins _ _ Hw2) in Hi2'.
    apply (siblings_differ netlist s top Hok Hreg n1 n2 nd1 nd2);
      [done..|congruence|congruence].
Qed.

(** ** The scenario netlist, evaluated *)

(** C1, evaluated.  On the scenario netlist, [get_connectivity_graph]
    with top ports returns the nodes [B], [A], [P_in], [P_out] (nodes 7, 6,
    1, 2 of the tree) and the edges [P_in -> A], [A -> B], [B -> P_out]
    and also the loops [A -> A] and [B -> B]; without top ports it
    returns the nodes [B], [A] and the edges [A -> B], [A -> A] and
    [B -> B].  The wire that an output pin of a leaf instance drives holds
    that pin too, and the search emits the instance of every outer pin of
    a leaf instance it meets. *)
Theorem scenario_graph_has_loops :
  get_connectivity_graph Scenario.netlist 30 true 0
  = Ok (Scenario.graph_with_ports, Scenario.store)
  ∧ get_connectivity_graph Scenario.netlist 30 false 0
    = Ok (Scenario.graph_without_ports, Scenario.store)
  ∧ path Scenario.store <$> [6; 7; 1; 2]
    = [[Instance 0; Instance 1]; [Instance 0; Instance 2];
       [Instance 0; Port 0]; [Instance 0; Port 1]]
  ∧ (6, 6) ∈ g_edges Scenario.graph_with_ports
  ∧ (6, 6) ∈ g_edges Scenario.graph_without_ports.
Proof.
  split_and!; [by vm_compute..| |].
  - unfold Scenario.graph_with_ports. simpl. set_solver.
  - unfold Scenario.graph_without_ports. simpl. set_solver.
Qed.

Lemma scenario_leaf_childless : leaf_childless Scenario.netlist.
Proof. intros [|d]; [done|by intros _]. Qed.

Lemma feedback_leaf_childless : leaf_childless Feedback.netlist.
Proof. intros [|[|d]]; [done|done|by intros _]. Qed.

Lemma scenario_listed_once : listed_once Scenario.netlist.
Proof.
  assert (∀ l : list Element, bool_decide (NoDup l) = true → NoDup l) as Hdec
    by (intros l; apply bool_decide_eq_true_1).
  intros [i|p|c|w|p]; simpl.
  - destruct i as [|i]; by apply Hdec.
  - destruct p as [|[|[|[|p]]]]; by apply Hdec.
  - destruct c as [|[|[|c]]]; by apply Hdec.
  - apply NoDup_nil_2.
  - apply NoDup_nil_2.
Qed.

Lemma scenario_owned : owned Scenario.netlist.
Proof.
  split.
  - intros c w. simpl. destruct c as [|[|[|c]]]; set_solver.
  - intros p q. simpl. destruct p as [|[|[|[|p]]]]; set_solver.
Qed.

(** *** Where the code departs from the specification *)

(** C2: the graph of a call without top ports, made after a call with
    them as [run] does, is not the first graph less its top port nodes:
    its nodes are fresh Node objects, none of them a node of the first
    graph. *)
Lemma top_ports_removed_fresh_nodes :
  get_connectivity_graph Scenario.netlist 30 true 0
  = Ok (Scenario.graph_with_ports, Scenario.store)
  ∧ get_top_port_nodes Scenario.store 0 = Ok [1; 2]
  ∧ remove_nodes [1; 2] Scenario.graph_with_ports
    = Scenario.graph_without_ports
  ∧ get_connectivity_graph Scenario.netlist 30 false (limit Scenario.store)
    = Ok (mkDiGraph [28; 27] [(28, 28); (27, 27); (27, 28)],
          shift_store 21 Scenario.store)
  ∧ mkDiGraph [28; 27] [(28, 28); (27, 27); (27, 28)]
    ≠ remove_nodes [1; 2] Scenario.graph_with_ports
  ∧ ∀ x, x ∈ [28; 27] → x ∉ g_nodes Scenario.graph_with_ports.
Proof.
  split_and!; [by vm_compute..|done|].
  unfold Scenario.graph_with_ports. simpl.
  intros x. rewrite !elem_of_cons, !elem_of_nil. lia.
Qed.

(** C4: the node of a top instance that is a leaf has no parent; its
    output pin is on a wire, which the claim has pushed as a seed, and
    the look-up of the cable node in [node.parent] raises
    [AttributeError]: no seed is recorded and nothing is returned. *)
Lemma root_instance_seed_raises :
  generate_nodes LeafTop.netlist 30 0 = Ok (0, LeafTop.store)
  ∧ node LeafTop.store 0
    = Some (mkNode None (Instance 1) [(Port 2, 1); (Port 3, 2)])
  ∧ get_leaf_instance_nodes LeafTop.netlist 30 LeafTop.store 0 = Ok [0]
  ∧ omap (λ o, if drives (direction LeafTop.netlist
                            (port LeafTop.netlist
                               (inner_pin LeafTop.netlist o)))
               then outer_wire LeafTop.netlist o else None)
         (instance_pins LeafTop.netlist 1) = [1]
  ∧ (∀ flag, seeds LeafTop.netlist LeafTop.store 0 flag
             = Raise AttributeError)
  ∧ (∀ flag, get_downstream_nodes LeafTop.netlist 30 LeafTop.store 0 flag
             = Raise AttributeError)
  ∧ ∀ flag, get_connectivity_graph LeafTop.netlist 30 flag 0
            = Raise AttributeError.
Proof. split_and!; try intros []; by vm_compute. Qed.

(** What the seed step does at a port node below the top level, which
    [get_connectivity_graph] never passes: the test is
    [isinstance(node.item, sdn.Port)] alone, so with top ports enabled a
    seed is recorded and a downstream node returned. *)
Lemma nested_port_node_seeds :
  generate_nodes Feedback.netlist 60 0 = Ok (0, Feedback.store)
  ∧ node Feedback.store 21 = Some (mkNode (Some 6) (Port 2) [(InnerPin 2, 33)])
  ∧ node Feedback.store 6
    = Some (mkNode (Some 0) (Instance 1)
              [(Port 2, 21); (Port 3, 22); (Cable 3, 23); (Cable 4, 24);
               (Instance 3, 25)])
  ∧ search_stack <$> seeds Feedback.netlist Feedback.store 21 true = Ok [31]
  ∧ get_downstream_nodes Feedback.netlist 60 Feedback.store 21 true = Ok [25].
Proof. split_and!; by vm_compute. Qed.

(** C5: the node of the leaf instance [A] has children, one per port of
    its definition. *)
Lemma leaf_instance_node_has_children :
  generate_nodes Scenario.netlist 30 0 = Ok (0, Scenario.store)
  ∧ node Scenario.store 6 = Some Scenario.A_node
  ∧ item Scenario.A_node = Instance 1
  ∧ is_leaf Scenario.netlist (reference Scenario.netlist 1) = true
  ∧ children Scenario.A_node = [(Port 2, 12); (Port 3, 13)].
Proof. split_and!; by vm_compute. Qed.

(** C6: for the instance [A] without identifiers, name resolution
    returns [None] and the name "top/None"; no error is raised. *)
Lemma unnamed_instance_gets_a_name :
  node Scenario.store 6 = Some Scenario.A_node
  ∧ attr Scenario.unnamed (item Scenario.A_node) "EDIF.original_identifier" = None
  ∧ attr Scenario.unnamed (item Scenario.A_node) "EDIF.identifier" = None
  ∧ get_name Scenario.unnamed Scenario.A_node = None
  ∧ get_hiearchical_name Scenario.unnamed 30 Scenario.store 6
    = Ok (Some "top/None").
Proof. split_and!; by vm_compute. Qed.

(** C7: the port [P_in] and the cable of the same name get the same
    hierarchical name, and so do their pin and their wire, although every
    element on their paths resolves a name. *)
Lemma port_and_cable_share_a_name :
  1 ≠ 3
  ∧ get_hiearchical_name Scenario.netlist 30 Scenario.store 1 = Ok (Some "top/P_in")
  ∧ get_hiearchical_name Scenario.netlist 30 Scenario.store 3 = Ok (Some "top/P_in")
  ∧ 20 ≠ 18
  ∧ get_hiearchical_name Scenario.netlist 30 Scenario.store 20
    = Ok (Some "top/P_in[0]")
  ∧ get_hiearchical_name Scenario.netlist 30 Scenario.store 18
    = Ok (Some "top/P_in[0]").
Proof. split_and!; by vm_compute. Qed.

(** C8: the nodes of the graph of a second call are none of the nodes of
    the graph of the first. *)
Lemma repeated_call_fresh_nodes :
  get_connectivity_graph_twice Scenario.netlist 30 true 0
  = Ok ((Scenario.graph_with_ports, Scenario.store),
        (Scenario.second_graph, shift_store 21 Scenario.store))
  ∧ g_nodes Scenario.graph_with_ports ≠ g_nodes Scenario.second_graph
  ∧ ∀ x, x ∈ g_nodes Scenario.graph_with_ports →
         x ∉ g_nodes Scenario.second_graph.
Proof.
  split_and!; [by vm_compute|done|].
  unfold Scenario.graph_with_ports, Scenario.second_graph. simpl.
  intros x. rewrite !elem_of_cons, !elem_of_nil. lia.
Qed.

(** *** The theorems at concrete netlists *)

Lemma get_downstream_nodes_terminates_witness :
  ranked Feedback.netlist (λ d, 2 - d)
  ∧ ∃ fuel0 top s,
      generate_nodes Feedback.netlist fuel0 0 = Ok (top, s)
      ∧ ∀ n flag,
          ∃ fuel r, r ≠ OutOfFuel
            ∧ ∀ fuel', fuel ≤ fuel' →
                get_downstream_nodes Feedback.netlist fuel' s n flag = r.
Proof.
  assert (ranked Feedback.netlist (λ d, 2 - d)) as Hrank.
  { intros [|[|d]] i; simpl.
    - intros [->|[->|[]%elem_of_nil]%elem_of_cons]%elem_of_cons; simpl; lia.
    - intros [->|[]%elem_of_nil]%elem_of_cons; simpl; lia.
    - intros []%elem_of_nil. }
  split; [exact Hrank|].
  apply (get_downstream_nodes_terminates Feedback.netlist (λ d, 2 - d) 0).
  exact Hrank.
Defined.

Lemma generate_nodes_children_witness :
  generate_nodes Scenario.netlist 30 0 = Ok (0, Scenario.store)
  ∧ node Scenario.store 6 = Some Scenario.A_node
  ∧ (∀ e, is_Some (dict_get (children Scenario.A_node) e) ↔
          (∃ p, e = Port p ∧ p ∈ [2; 3])
          ∨ (∃ c, e = Cable c ∧ c ∈ [])
          ∨ (∃ j, e = Instance j ∧ j ∈ []))
  ∧ ∀ e c, dict_get (children Scenario.A_node) e = Some c →
           ∃ cd, node Scenario.store c = Some cd ∧ parent cd = Some 6
                 ∧ item cd = e.
Proof.
  split; [vm_compute; reflexivity|].
  split; [vm_compute; reflexivity|].
  apply (generate_nodes_children Scenario.netlist 30 0 0 Scenario.store 6
           Scenario.A_node).
  - vm_compute; reflexivity.
  - vm_compute; reflexivity.
Defined.

Lemma unnamed_element_not_reported_witness :
  node Scenario.store 6 = Some Scenario.A_node
  ∧ attr Scenario.unnamed (item Scenario.A_node) "EDIF.original_identifier" = None
  ∧ attr Scenario.unnamed (item Scenario.A_node) "EDIF.identifier" = None
  ∧ ancestors 30 Scenario.store (parent Scenario.A_node) = Ok [Scenario.root_node]
  ∧ join "/" (get_name Scenario.unnamed <$> reverse [Scenario.root_node]) = Ok "top"
  ∧ get_name Scenario.unnamed Scenario.A_node = None
  ∧ get_hiearchical_name Scenario.unnamed 30 Scenario.store 6
    = Ok (Some "top/None")
  ∧ ∀ a fuel' flag counter,
      get_connectivity_graph (with_attr Scenario.unnamed a) fuel' flag counter
      = get_connectivity_graph Scenario.unnamed fuel' flag counter.
Proof.
  split; [vm_compute; reflexivity|].
  split; [vm_compute; reflexivity|].
  split; [vm_compute; reflexivity|].
  split; [vm_compute; reflexivity|].
  split; [vm_compute; reflexivity|].
  apply (unnamed_element_not_reported Scenario.unnamed 30 Scenario.store 6
           Scenario.A_node [Scenario.root_node] "top");
    vm_compute; reflexivity.
Defined.

Lemma wire_and_pin_names_witness :
  listed_once Scenario.netlist ∧ owned Scenario.netlist
  ∧ generate_nodes Scenario.netlist 30 0 = Ok (0, Scenario.store)
  ∧ node Scenario.store 18 = Some Scenario.wire0_node
  ∧ get_hiearchical_name Scenario.netlist 30 Scenario.store 18
    = Ok (Some "top/P_in[0]")
  ∧ (∃ prefix i, Some "top/P_in[0]" = Some (bracket prefix i)
                 ∧ wires Scenario.netlist (cable Scenario.netlist 0) !! i = Some 0)
  ∧ ∀ n2 nd2 r2,
      node Scenario.store n2 = Some nd2 → n2 ≠ 18 →
      parent nd2 = parent Scenario.wire0_node →
      get_hiearchical_name Scenario.netlist 30 Scenario.store n2 = Ok r2 →
      r2 ≠ Some "top/P_in[0]".
Proof.
  split; [exact scenario_listed_once|].
  split; [exact scenario_owned|].
  split; [vm_compute; reflexivity|].
  split; [vm_compute; reflexivity|].
  split; [vm_compute; reflexivity|].
  apply (wire_and_pin_names Scenario.netlist 30 0 0 Scenario.store 30 18
           Scenario.wire0_node (Some "top/P_in[0]")).
  - exact scenario_listed_once.
  - exact scenario_owned.
  - vm_compute; reflexivity.
  - vm_compute; reflexivity.
  - vm_compute; reflexivity.
Defined.

Lemma repeated_call_same_paths_witness :
  get_connectivity_graph_twice Scenario.netlist 30 true 0
  = Ok ((Scenario.graph_with_ports, Scenario.store),
        (Scenario.second_graph, shift_store 21 Scenario.store))
  ∧ Scenario.second_graph = shift_graph 21 Scenario.graph_with_ports
  ∧ shift_store 21 Scenario.store = shift_store 21 Scenario.store
  ∧ (∀ n, path (shift_store 21 Scenario.store) (shift 21 n)
          = path Scenario.store n)
  ∧ path (shift_store 21 Scenario.store) <$> g_nodes Scenario.second_graph
    = path Scenario.store <$> g_nodes Scenario.graph_with_ports
  ∧ prod_map (path (shift_store 21 Scenario.store))
             (path (shift_store 21 Scenario.store))
      <$> g_edges Scenario.second_graph
    = prod_map (path Scenario.store) (path Scenario.store)
        <$> g_edges Scenario.graph_with_ports.
Proof.
  split; [vm_compute; reflexivity|].
  apply (repeated_call_same_paths Scenario.netlist 30 true 0
           Scenario.graph_with_ports Scenario.store Scenario.second_graph
           (shift_store 21 Scenario.store)).
  vm_compute; reflexivity.
Defined.

Lemma downstream_nodes_are_graph_nodes_witness :
  leaf_childless Feedback.netlist
  ∧ get_connectivity_graph Feedback.netlist 60 true 0
    = Ok (Feedback.graph_with_ports, Feedback.store)
  ∧ ∃ top leaves tops,
      generate_nodes Feedback.netlist 60 0 = Ok (top, Feedback.store)
      ∧ get_leaf_instance_nodes Feedback.netlist 60 Feedback.store top = Ok leaves
      ∧ get_top_port_nodes Feedback.store top = Ok tops
      ∧ let sel := leaves ++ tops in
        (∀ n fuel' ds d,
           n ∈ sel →
           get_downstream_nodes Feedback.netlist fuel' Feedback.store n true = Ok ds →
           d ∈ ds → d ∈ sel ∧ wraps_selected Feedback.netlist Feedback.store top true d)
        ∧ (∀ x, x ∈ g_nodes Feedback.graph_with_ports ↔ x ∈ sel)
        ∧ (∀ u v, (u, v) ∈ g_edges Feedback.graph_with_ports → u ∈ sel ∧ v ∈ sel).
Proof.
  split; [exact feedback_leaf_childless|].
  split; [vm_compute; reflexivity|].
  apply (downstream_nodes_are_graph_nodes Feedback.netlist 60 true 0
           Feedback.graph_with_ports Feedback.store).
  - exact feedback_leaf_childless.
  - vm_compute; reflexivity.
Defined.


(** * The edges of the graph *)

Section Edges.
Context (netlist : Netlist).

(** The edges the loop [for node in list(connectivity_graph.nodes)]
    adds. *)
Lemma connect_edges fuel s flag l : ∀ g g',
  fold_result (connect netlist fuel s flag) g l = Ok g' →
  ∀ u v, (u, v) ∈ g_edges g' ↔
    (u, v) ∈ g_edges g
    ∨ (u ∈ l ∧ ∃ ds, get_downstream_nodes netlist fuel s u flag = Ok ds
                     ∧ v ∈ ds).
Proof.
  induction l as [|n l IH]; intros g g'; simpl.
  - intros [= <-] u v. rewrite elem_of_nil. naive_solver.
  - intros (g1 & Hc & Hfold)%bind_Ok u v.
    apply bind_Ok in Hc as (ds & Hds & [= <-]).
    rewrite (IH _ _ Hfold), add_edges_from_edges, elem_of_cons. split.
    + intros [[?|(d & Hd & [= -> ->])]|[? ?]]; eauto 10.
    + intros [?|[[->|?] (ds' & Hds' & Hv)]]; eauto.
      left. right. exists v. split; [|done]. congruence.
Qed.

Lemma connect_returns fuel s flag l : ∀ g g',
  fold_result (connect netlist fuel s flag) g l = Ok g' →
  ∀ n, n ∈ l → ∃ ds, get_downstream_nodes netlist fuel s n flag = Ok ds.
Proof.
  induction l as [|x l IH]; intros g g'; simpl.
  - by intros _ n ?%elem_of_nil.
  - intros (g1 & Hc & Hfold)%bind_Ok n [->|Hin]%elem_of_cons.
    + apply bind_Ok in Hc as (ds & Hds & _). by exists ds.
    + by apply (IH _ _ Hfold).
Qed.

Lemma initial_nodes (leaves tops : list nat) (flag : bool) x :
  x ∈ g_nodes (add_nodes_from (add_nodes_from (mkDiGraph [] []) leaves)
                 (if flag then tops else []))
  ↔ x ∈ leaves ++ (if flag then tops else []).
Proof.
  rewrite !add_nodes_from_nodes, elem_of_app. simpl.
  rewrite elem_of_nil. naive_solver.
Qed.

Lemma graph_edges fuel flag counter g s top leaves tops u v :
  get_connectivity_graph netlist fuel flag counter = Ok (g, s) →
  generate_nodes netlist fuel counter = Ok (top, s) →
  get_leaf_instance_nodes netlist fuel s top = Ok leaves →
  get_top_port_nodes s top = Ok tops →
  (u, v) ∈ g_edges g ↔
    u ∈ leaves ++ (if flag then tops else [])
    ∧ ∃ ds, get_downstream_nodes netlist fuel s u flag = Ok ds ∧ v ∈ ds.
Proof.
  intros (top' & leaves' & tops' & Hgen & Hl & Ht & Hfold)%get_connectivity_graph_Ok
    Hgen' Hl' Ht'.
  assert (top' = top) as -> by congruence.
  assert (leaves' = leaves) as -> by congruence.
  assert (tops' = tops) as -> by congruence.
  cbv zeta in Hfold. rewrite (connect_edges _ _ _ _ _ _ Hfold).
  rewrite !add_nodes_from_edges. simpl. rewrite elem_of_nil, initial_nodes.
  naive_solver.
Qed.

(** A search that reports something started from a seed. *)
Lemma downstream_seeded fuel s n flag ds d :
  get_downstream_nodes netlist fuel s n flag = Ok ds → d ∈ ds →
  ∃ st, seeds netlist s n flag = Ok st ∧ search_stack st ≠ [].
Proof.
  intros (st & Hst & Htr)%bind_Ok Hd. exists st. split; [done|].
  intros Hnil. destruct fuel as [|fuel]; [done|]. simpl in Htr.
  rewrite Hnil in Htr. injection Htr as <-.
  rewrite (seeds_downstream _ _ _ _ _ Hst) in Hd. by apply elem_of_nil in Hd.
Qed.

Lemma omap_nonempty {A B} (f : A → option B) (l : list A) :
  omap f l ≠ [] → ∃ x y, x ∈ l ∧ f x = Some y.
Proof.
  destruct (omap f l) as [|y l'] eqn:Hl; [done|]. intros _.
  assert (y ∈ omap f l) as (x & ? & ?)%list_elem_of_omap
    by (rewrite Hl; left).
  by exists x, y.
Qed.

Lemma Forall2_nonempty {A B} (R : A → B → Prop) l k :
  Forall2 R l k → l ≠ [] → k ≠ [].
Proof. by destruct 1. Qed.
End Edges.

(** The edge set of the graph [get_connectivity_graph] returns: [(u, v)]
    is an edge exactly when [u] is one of the nodes the graph holds
    before the loop over [list(connectivity_graph.nodes)] starts (the
    leaf instance nodes, then the top port nodes when they are enabled)
    and [v] is in the list [get_downstream_nodes(u, include_top_ports)]
    returns. *)
Theorem edges_are_downstream netlist fuel flag counter g s u v :
  get_connectivity_graph netlist fuel flag counter = Ok (g, s) →
  (u, v) ∈ g_edges g ↔
    ∃ top leaves tops ds,
      generate_nodes netlist fuel counter = Ok (top, s)
      ∧ get_leaf_instance_nodes netlist fuel s top = Ok leaves
      ∧ get_top_port_nodes s top = Ok tops
      ∧ u ∈ leaves ++ (if flag then tops else [])
      ∧ get_downstream_nodes netlist fuel s u flag = Ok ds
      ∧ v ∈ ds.
Proof.
  intros Hg.
  destruct (get_connectivity_graph_Ok _ _ _ _ _ _ Hg)
    as (top & leaves & tops & Hgen & Hl & Ht & _).
  rewrite (graph_edges _ _ _ _ _ _ _ _ _ _ _ Hg Hgen Hl Ht). split.
  - intros (? & ds & ? & ?). by exists top, leaves, tops, ds.
  - intros (top' & leaves' & tops' & ds & Hgen' & Hl' & Ht' & ? & ? & ?).
    assert (top' = top) as -> by congruence.
    assert (leaves' = leaves) as -> by congruence.
    assert (tops' = tops) as -> by congruence.
    eauto.
Qed.

(** No edge starts at a node that cannot drive: the source of every edge
    wraps an instance that has a pin of direction OUT or INOUT attached
    to a wire, or, with top ports enabled, a port of direction IN or
    INOUT that has a pin attached to a wire.  A top port of direction OUT
    and an instance without a connected output are never the source of
    an edge. *)
Theorem edge_sources_drive netlist fuel flag counter g s u v :
  get_connectivity_graph netlist fuel flag counter = Ok (g, s) →
  (u, v) ∈ g_edges g →
  ∃ ud, node s u = Some ud
    ∧ match item ud with
      | Instance i =>
          ∃ o w, o ∈ instance_pins netlist i
            ∧ drives (direction netlist (port netlist (inner_pin netlist o))) = true
            ∧ outer_wire netlist o = Some w
      | Port p =>
          flag = true ∧ receives (direction netlist p) = true
          ∧ ∃ q w, q ∈ port_pins netlist p ∧ inner_wire netlist q = Some w
      | _ => False
      end.
Proof.
  intros Hg Huv.
  destruct (get_connectivity_graph_Ok _ _ _ _ _ _ Hg)
    as (top & leaves & tops & Hgen & Hl & Ht & _).
  apply (graph_edges _ _ _ _ _ _ _ _ _ _ _ Hg Hgen Hl Ht) in Huv
    as (_ & ds & Hds & Hv).
  destruct (generate_nodes_tree _ _ _ _ _ Hgen) as (_ & _ & Hok & _).
  destruct (downstream_seeded _ _ _ _ _ _ _ Hds Hv) as (st & Hst & Hne).
  unfold seeds in Hst. apply bind_Ok in Hst as (ud & Hu%get_Ok & Hst).
  exists ud. split; [done|].
  destruct (item ud) as [i|p|c|w|p].
  - pose proof (seed_instance_pins netlist s top Hok _ _ _ _ _ [] Hst
                  ltac:(constructor)) as HF.
    apply Forall2_nonempty in HF;
      [|intros Hr; apply Hne; by rewrite <-(reverse_involutive (search_stack st)), Hr].
    apply omap_nonempty in HF as (o & w & Ho & Hw). exists o, w.
    destruct (drives _); [done|done].
  - destruct flag; [|by injection Hst as <-].
    destruct (receives _); [|by injection Hst as <-]. split_and!; [done..|].
    pose proof (seed_port_pins netlist s top Hok _ _ _ _ _ [] Hst
                  ltac:(constructor)) as HF.
    apply Forall2_nonempty in HF;
      [|intros Hr; apply Hne; by rewrite <-(reverse_involutive (search_stack st)), Hr].
    by apply omap_nonempty in HF.
  - by injection Hst as <-.
  - by injection Hst as <-.
  - by injection Hst as <-.
Qed.

(** ** What a search is sure to report *)

Section Successors.
Context (netlist : Netlist) (s : Store) (top : nat).
Hypothesis Hok : tree_ok netlist s top.

Lemma pin_step_keeps flag c st pin st' d :
  pin_step netlist s flag c st pin st' →
  d ∈ downstream_nodes st → d ∈ downstream_nodes st'.
Proof.
  destruct 1; simpl; try done; try destruct flag; simpl;
    rewrite ?elem_of_app; auto.
Qed.

Lemma visit_pins_keep flag cur pins : ∀ st st' d,
  fold_result (visit_pin netlist s flag cur) st pins = Ok st' →
  d ∈ downstream_nodes st → d ∈ downstream_nodes st'.
Proof using Hok.
  induction pins as [|pin pins IH]; simpl; intros st st' d.
  - by intros [= <-].
  - intros (st1 & H1 & H2)%bind_Ok Hd. apply (IH _ _ _ H2).
    destruct (visit_pin_step _ _ _ _ _ _ _ _ Hok H1) as (c & -> & Hstep).
    by eapply pin_step_keeps.
Qed.

(** Every outer pin of a leaf instance met on a wire reports the node
    of that instance. *)
Lemma visit_pins_report flag c pins o : ∀ st st',
  fold_result (visit_pin netlist s flag (Some c)) st pins = Ok st' →
  Outer o ∈ pins →
  is_leaf netlist (reference netlist (instance netlist o)) = true →
  ∃ d, kid s c (Instance (instance netlist o)) d ∧ d ∈ downstream_nodes st'.
Proof using Hok.
  induction pins as [|pin pins IH]; simpl; intros st st'.
  - by intros _ ?%elem_of_nil.
  - intros (st1 & H1 & H2)%bind_Ok [<-|Hin]%elem_of_cons Hleaf.
    + destruct (visit_pin_step _ _ _ _ _ _ _ _ Hok H1) as (c' & [= <-] & Hstep).
      inversion Hstep; subst; try congruence.
      exists instance_node. split; [done|].
      apply (visit_pins_keep _ _ _ _ _ _ H2). simpl.
      rewrite elem_of_app, list_elem_of_singleton. by right.
    + by apply (IH _ _ H2).
Qed.

Lemma visit_wire_report flag wn st st' c cab w o :
  kid s c (Cable (cable netlist w)) cab → kid s cab (Wire w) wn →
  visit_wire netlist s flag wn st = Ok st' →
  Outer o ∈ wire_pins netlist w →
  is_leaf netlist (reference netlist (instance netlist o)) = true →
  ∃ d, kid s c (Instance (instance netlist o)) d ∧ d ∈ downstream_nodes st'.
Proof using Hok.
  intros Hcab Hwn (wd & cab' & cabd & pins & Hwd & Hp & Hcabd & Hpins & Hfold)%visit_wire_Ok.
  destruct (kid_parent _ _ _ _ _ Hwn Hwd) as [Hp' Hit].
  assert (cab' = cab) as -> by congruence.
  destruct (kid_parent _ _ _ _ _ Hcab Hcabd) as [Hc _].
  rewrite Hit in Hpins. injection Hpins as <-. rewrite Hc in Hfold.
  by eapply visit_pins_report.
Qed.

Lemma visit_wire_keeps flag wn st st' d :
  visit_wire netlist s flag wn st = Ok st' →
  d ∈ downstream_nodes st → d ∈ downstream_nodes st'.
Proof using Hok.
  intros (wd & cab' & cabd & pins & _ & _ & _ & _ & Hfold)%visit_wire_Ok.
  by eapply visit_pins_keep.
Qed.

Lemma traverse_keeps flag fuel : ∀ st ds d,
  traverse netlist fuel s flag st = Ok ds →
  d ∈ downstream_nodes st → d ∈ ds.
Proof using Hok.
  induction fuel as [|fuel IH]; intros st ds d; simpl; [done|].
  destruct (search_stack st) as [|x rest] eqn:Hst.
  - by intros [= <-].
  - intros (st' & Hv & Htr)%bind_Ok Hd. apply (IH _ _ _ Htr).
    by apply (visit_wire_keeps _ _ _ _ _ Hv).
Qed.

(** Every wire node on the stack is visited before the search returns. *)
Lemma traverse_reports flag fuel : ∀ st ds wn c cab w o,
  traverse netlist fuel s flag st = Ok ds →
  wn ∈ search_stack st →
  kid s c (Cable (cable netlist w)) cab → kid s cab (Wire w) wn →
  Outer o ∈ wire_pins netlist w →
  is_leaf netlist (reference netlist (instance netlist o)) = true →
  ∃ d, kid s c (Instance (instance netlist o)) d ∧ d ∈ ds.
Proof using Hok.
  induction fuel as [|fuel IH]; intros st ds wn c cab w o; simpl; [done|].
  destruct (search_stack st) as [|x rest] eqn:Hst.
  - by intros _ ?%elem_of_nil.
  - intros (st' & Hv & Htr)%bind_Ok [->|Hin]%elem_of_cons Hcab Hwn Ho Hleaf.
    + destruct (visit_wire_report _ _ _ _ _ _ _ _ Hcab Hwn Hv Ho Hleaf)
        as (d & Hd & Hin).
      exists d. split; [done|]. by apply (traverse_keeps _ _ _ _ _ Htr).
    + apply (IH st' ds wn c cab w o Htr); [|done..].
      destruct (visit_wire_progress _ _ _ _ _ _ _ Hok Hv)
        as [(_ & new & -> & _) _].
      simpl. rewrite elem_of_app. by right.
Qed.

(** The seed step pushes the wire of every connected driving pin. *)
Lemma seed_instance_pins_push n par pins : ∀ st st',
  fold_result (seed_instance_pin netlist s n par) st pins = Ok st' →
  (∀ x, x ∈ search_stack st → x ∈ search_stack st')
  ∧ ∀ o w, o ∈ pins →
      drives (direction netlist (port netlist (inner_pin netlist o))) = true →
      outer_wire netlist o = Some w →
      ∃ p cab wn, par = Some p ∧ kid s p (Cable (cable netlist w)) cab
                  ∧ kid s cab (Wire w) wn ∧ wn ∈ search_stack st'.
Proof using Hok.
  induction pins as [|pin pins IH]; simpl; intros st st'.
  - intros [= <-]. split; [done|]. by intros ?? ?%elem_of_nil.
  - intros (st1 & H1 & H2)%bind_Ok.
    destruct (IH _ _ H2) as [IH1 IH2]. unfold seed_instance_pin in H1.
    split.
    + intros x Hx. apply IH1.
      destruct (outer_wire netlist pin); [|by injection H1 as <-].
      destruct (drives _); [|by injection H1 as <-].
      apply bind_Ok in H1 as (? & _ & H1). apply bind_Ok in H1 as (? & _ & H1).
      apply bind_Ok in H1 as (? & _ & H1). apply bind_Ok in H1 as (? & _ & H1).
      injection H1 as <-. simpl. by right.
    + intros o w [->|Hin]%elem_of_cons Hd Hw; [|by eapply IH2].
      rewrite Hw, Hd in H1.
      apply bind_Ok in H1 as (? & _ & H1). apply bind_Ok in H1 as (? & _ & H1).
      apply bind_Ok in H1 as (cab & Hcab & H1).
      apply bind_Ok in H1 as (wn & Hwn & H1). injection H1 as <-.
      apply (child_of_kid netlist _ top) in Hcab as (p & -> & Hcab); [|done].
      apply (child_of_kid netlist _ top) in Hwn as (? & [= <-] & Hwn); [|done].
      exists p, cab, wn. split_and!; [done..|]. apply IH1. simpl. by left.
Qed.

Lemma downstream_reports fuel n nd i flag ds o w o' :
  node s n = Some nd → item nd = Instance i →
  o ∈ instance_pins netlist i →
  drives (direction netlist (port netlist (inner_pin netlist o))) = true →
  outer_wire netlist o = Some w →
  Outer o' ∈ wire_pins netlist w →
  is_leaf netlist (reference netlist (instance netlist o')) = true →
  get_downstream_nodes netlist fuel s n flag = Ok ds →
  ∃ par d, parent nd = Some par
           ∧ kid s par (Instance (instance netlist o')) d ∧ d ∈ ds.
Proof using Hok.
  intros Hn Hit Ho Hd Hw Ho' Hleaf (st & Hst & Htr)%bind_Ok.
  unfold seeds in Hst. apply bind_Ok in Hst as (nd' & Hn'%get_Ok & Hst).
  assert (nd' = nd) as -> by congruence. rewrite Hit in Hst.
  destruct (seed_instance_pins_push _ _ _ _ _ Hst) as [_ Hpush].
  destruct (Hpush o w Ho Hd Hw) as (p & cab & wn & Hp & Hcab & Hwn & Hin).
  destruct (traverse_reports _ _ _ _ _ _ _ _ _ Htr Hin Hcab Hwn Ho' Hleaf)
    as (d & Hkid & Hds).
  by exists p, d.
Qed.
End Successors.

(** Direct successors.  When a pin of the start instance has direction
    OUT or INOUT and is attached to a wire, every outer pin on that wire
    that belongs to an instance of a leaf definition puts the node of
    that instance, taken under the parent of the start node, in the list
    [get_downstream_nodes] returns. *)
Theorem direct_successors netlist fuel0 counter top s fuel n nd i flag ds o w o' :
  generate_nodes netlist fuel0 counter = Ok (top, s) →
  node s n = Some nd → item nd = Instance i →
  o ∈ instance_pins netlist i →
  drives (direction netlist (port netlist (inner_pin netlist o))) = true →
  outer_wire netlist o = Some w →
  Outer o' ∈ wire_pins netlist w →
  is_leaf netlist (reference netlist (instance netlist o')) = true →
  get_downstream_nodes netlist fuel s n flag = Ok ds →
  ∃ par pd d, parent nd = Some par ∧ node s par = Some pd
    ∧ dict_get (children pd) (Instance (instance netlist o')) = Some d
    ∧ d ∈ ds.
Proof.
  intros Hgen Hn Hit Ho Hd Hw Ho' Hleaf Hds.
  destruct (generate_nodes_tree _ _ _ _ _ Hgen) as (_ & _ & Hok & _).
  destruct (downstream_reports netlist s top Hok _ _ _ _ _ _ _ _ _
              Hn Hit Ho Hd Hw Ho' Hleaf Hds)
    as (par & d & Hpar & (pd & ? & ? & ? & _) & Hin).
  by exists par, pd, d.
Qed.

(** A leaf instance is downstream of itself, and the graph has a loop at
    its node, as soon as one of its pins of direction OUT or INOUT is
    attached to a wire whose pin list holds that pin: the branch for
    outer pins reports the instance of every outer pin on the wire, the
    driving one included. *)
Theorem driving_leaf_has_loop netlist fuel flag counter g s leaves n nd i o w :
  listed_once netlist →
  get_connectivity_graph netlist fuel flag counter = Ok (g, s) →
  get_leaf_instance_nodes netlist fuel s counter = Ok leaves →
  n ∈ leaves → node s n = Some nd → item nd = Instance i →
  o ∈ instance_pins netlist i → instance netlist o = i →
  drives (direction netlist (port netlist (inner_pin netlist o))) = true →
  outer_wire netlist o = Some w →
  Outer o ∈ wire_pins netlist w →
  (∀ ds, get_downstream_nodes netlist fuel s n flag = Ok ds → n ∈ ds)
  ∧ (n, n) ∈ g_edges g.
Proof.
  intros Hlist Hg Hleaves Hn Hnd Hit Ho Hinst Hd Hw Hpin.
  destruct (get_connectivity_graph_Ok _ _ _ _ _ _ Hg)
    as (top & leaves' & tops & Hgen & Hl & Ht & Hfold).
  destruct (generate_nodes_tree _ _ _ _ _ Hgen) as (-> & _ & Hok & _).
  assert (leaves' = leaves) as -> by congruence.
  pose proof (generate_nodes_registered _ _ _ _ _ Hlist Hgen) as Hreg.
  assert (is_leaf netlist (reference netlist (instance netlist o)) = true)
    as Hleaf.
  { apply (get_leaf_instance_nodes_spec _ _ _ _ _ Hok Hl) in Hn
      as [_ (nd' & i' & Hnd' & Hit' & Hleaf)].
    rewrite Hinst. congruence. }
  assert (∀ ds, get_downstream_nodes netlist fuel s n flag = Ok ds → n ∈ ds)
    as Hself.
  { intros ds Hds.
    destruct (downstream_reports netlist s counter Hok _ _ _ _ _ _ _ _ _
                Hnd Hit Ho Hd Hw Hpin Hleaf Hds)
      as (par & d & Hpar & (pd & ? & Hpd & Hdict & _) & Hin).
    destruct (Hreg _ _ _ Hnd Hpar) as (pd' & Hpd' & Hdict').
    rewrite Hit, <-Hinst in Hdict'. congruence. }
  split; [done|].
  apply (graph_edges _ _ _ _ _ _ _ _ _ _ _ Hg Hgen Hl Ht).
  split; [rewrite elem_of_app; by left|].
  cbv zeta in Hfold.
  destruct (connect_returns _ _ _ _ _ _ _ Hfold n) as (ds & Hds);
    [apply initial_nodes; rewrite elem_of_app; by left|].
  exists ds. split; [done|]. by apply Hself.
Qed.

(** * One node for each hierarchical path *)

Section Paths.
Context (netlist : Netlist) (s : Store) (top : nat).
Hypothesis Hok : tree_ok netlist s top.

Lemma path_aux_stable k : ∀ k' n,
  n < base s + k → n < base s + k' → path_aux k s n = path_aux k' s n.
Proof using Hok.
  induction k as [|k IH]; intros k' n Hk Hk'.
  - assert (node s n = None) as Hn.
    { unfold node. destruct (decide (base s ≤ n)); [lia|done]. }
    destruct k'; simpl; [done|]. by rewrite Hn.
  - destruct k' as [|k'].
    + assert (node s n = None) as Hn.
      { unfold node. destruct (decide (base s ≤ n)); [lia|done]. }
      simpl. by rewrite Hn.
    + simpl. destruct (node s n) as [nd|] eqn:Hn; [|done].
      destruct (parent nd) as [p|] eqn:Hp; [|done].
      destruct (tree_parent _ _ _ Hok _ _ _ Hn Hp) as [Hlt _].
      f_equal. apply IH; lia.
Qed.

Lemma path_child n nd p :
  node s n = Some nd → parent nd = Some p → path s n = path s p ++ [item nd].
Proof using Hok.
  intros Hn Hp. unfold path.
  pose proof (node_Some_lt _ _ _ Hn) as Hlt. unfold limit in Hlt.
  destruct (length (cells s)) as [|k] eqn:Hlen; [lia|].
  destruct (tree_parent _ _ _ Hok _ _ _ Hn Hp) as [Hlt' _].
  rewrite <-(path_aux_stable k (S k) p) by lia.
  simpl. by rewrite Hn, Hp.
Qed.

Lemma path_orphan n nd :
  node s n = Some nd → parent nd = None → path s n = [item nd].
Proof.
  intros Hn Hp. unfold path.
  pose proof (node_Some_lt _ _ _ Hn) as Hlt. unfold limit in Hlt.
  destruct (length (cells s)) as [|k] eqn:Hlen; [lia|].
  simpl. by rewrite Hn, Hp.
Qed.

Lemma path_last n nd : node s n = Some nd → last (path s n) = Some (item nd).
Proof using Hok.
  intros Hn. destruct (parent nd) as [p|] eqn:Hp.
  - rewrite (path_child _ _ _ Hn Hp). apply last_snoc.
  - by rewrite (path_orphan _ _ Hn Hp).
Qed.

Lemma path_length n nd : node s n = Some nd → 0 < length (path s n).
Proof using Hok.
  intros Hn%path_last. destruct (path s n); [done|simpl; lia].
Qed.

Hypothesis Hreg : registered s.
Hypothesis Hexp : ∀ n, expanded netlist s n.

Lemma path_valid n : ∀ nd,
  node s n = Some nd → hierarchical_path netlist (path s n).
Proof using Hok Hreg.
  induction (lt_wf n) as [n _ IH]. intros nd Hn.
  destruct (decide (n = top)) as [->|Hne].
  - destruct (tree_root _ _ _ Hok) as (rd & Hrd & Hp & Hit).
    rewrite (path_orphan _ _ Hrd Hp), Hit. constructor.
  - destruct (parent_lists netlist s top Hok Hreg _ _ Hn Hne)
      as (p & pd & Hp & Hpd & Hin).
    destruct (tree_parent _ _ _ Hok _ _ _ Hn Hp) as [Hlt _].
    pose proof (IH p Hlt pd Hpd) as IHp.
    rewrite (path_child _ _ _ Hn Hp).
    pose proof (path_last _ _ Hpd) as Hlast.
    destruct (path s p) as [|x l] using rev_ind; [done|].
    rewrite last_snoc in Hlast. injection Hlast as ->.
    by constructor.
Qed.

Lemma path_node l :
  hierarchical_path netlist l →
  ∃ n nd, node s n = Some nd ∧ path s n = l.
Proof using Hok Hexp.
  induction 1 as [|l e e' _ (n & nd & Hn & Hpath) He'].
  - destruct (tree_root _ _ _ Hok) as (rd & Hrd & Hp & Hit).
    exists top, rd. split; [done|]. by rewrite (path_orphan _ _ Hrd Hp), Hit.
  - pose proof (path_last _ _ Hn) as Hlast.
    rewrite Hpath, last_snoc in Hlast. injection Hlast as ->.
    destruct (Hexp n nd _ Hn He') as [c Hc].
    destruct (tree_child _ _ _ Hok _ _ _ _ Hn Hc) as (cd & Hcd & Hp & Hit).
    exists c, cd. split; [done|].
    by rewrite (path_child _ _ _ Hcd Hp), Hpath, Hit.
Qed.

Lemma path_inj n1 : ∀ n2 nd1 nd2,
  node s n1 = Some nd1 → node s n2 = Some nd2 →
  path s n1 = path s n2 → n1 = n2.
Proof using Hok Hreg.
  induction (lt_wf n1) as [n1 _ IH]. intros n2 nd1 nd2 Hn1 Hn2 Hpath.
  destruct (parent nd1) as [p1|] eqn:Hp1; destruct (parent nd2) as [p2|] eqn:Hp2.
  - rewrite (path_child _ _ _ Hn1 Hp1), (path_child _ _ _ Hn2 Hp2) in Hpath.
    apply app_inj_tail in Hpath as [Hpath [= Hit]].
    destruct (tree_parent _ _ _ Hok _ _ _ Hn1 Hp1) as [Hlt [pd1 Hpd1]].
    destruct (tree_parent _ _ _ Hok _ _ _ Hn2 Hp2) as [_ [pd2 Hpd2]].
    pose proof (IH p1 Hlt p2 pd1 pd2 Hpd1 Hpd2 Hpath) as <-.
    destruct (decide (n2 = n1)) as [->|Hne]; [done|].
    destruct (siblings_differ netlist s top Hok Hreg _ _ _ _ Hn1 Hn2 Hne);
      congruence.
  - rewrite (path_child _ _ _ Hn1 Hp1), (path_orphan _ _ Hn2 Hp2) in Hpath.
    destruct (tree_parent _ _ _ Hok _ _ _ Hn1 Hp1) as [_ [pd1 Hpd1]].
    pose proof (path_length _ _ Hpd1). apply (f_equal length) in Hpath.
    rewrite length_app in Hpath. simpl in Hpath. lia.
  - rewrite (path_orphan _ _ Hn1 Hp1), (path_child _ _ _ Hn2 Hp2) in Hpath.
    destruct (tree_parent _ _ _ Hok _ _ _ Hn2 Hp2) as [_ [pd2 Hpd2]].
    pose proof (path_length _ _ Hpd2). apply (f_equal length) in Hpath.
    rewrite length_app in Hpath. simpl in Hpath. lia.
  - rewrite (tree_top _ _ _ Hok _ _ Hn1 Hp1).
    by rewrite (tree_top _ _ _ Hok _ _ Hn2 Hp2).
Qed.
End Paths.

(** [generate_nodes] "generates a unique node for all instances of
    elements in a netlist": for a netlist that lists no element twice,
    the nodes of the tree it returns are in one-to-one correspondence
    with the hierarchical paths of the netlist.  Every hierarchical path
    is the path of a node, the path of every node is a hierarchical
    path, and two nodes with the same path are the same node; an element
    of a definition that is instanced several times gets one node for
    each instance. *)
Theorem one_node_per_path netlist fuel counter top s :
  listed_once netlist →
  generate_nodes netlist fuel counter = Ok (top, s) →
  (∀ l, hierarchical_path netlist l ↔ ∃ n nd, node s n = Some nd ∧ path s n = l)
  ∧ (∀ n1 n2 nd1 nd2,
       node s n1 = Some nd1 → node s n2 = Some nd2 →
       path s n1 = path s n2 → n1 = n2).
Proof.
  intros Hlist Hgen.
  destruct (generate_nodes_tree _ _ _ _ _ Hgen) as (_ & _ & Hok & Hexp).
  pose proof (generate_nodes_registered _ _ _ _ _ Hlist Hgen) as Hreg.
  split.
  - intros l. split.
    + by apply (path_node netlist s top).
    + intros (n & nd & Hn & <-). by eapply path_valid.
  - intros n1 n2 nd1 nd2. by apply (path_inj netlist s top).
Qed.

(** * The whole construction terminates *)

Section Fuel.
Context (netlist : Netlist).

Lemma generate_loop_fuel fuel : ∀ s stack s' fuel',
  generate_loop netlist fuel s stack = Ok s' → fuel ≤ fuel' →
  generate_loop netlist fuel' s stack = Ok s'.
Proof.
  induction fuel as [|fuel IH]; intros s stack s' fuel' Hloop Hle; [done|].
  destruct fuel' as [|fuel']; [lia|]. simpl in *.
  destruct stack as [|x rest]; [done|].
  destruct (get s x) as [nd| |]; simpl in *; [|done..].
  destruct (generate_step netlist s rest x (item nd)) as [s1 st1].
  apply IH; [done|lia].
Qed.

Lemma generate_nodes_fuel fuel counter r fuel' :
  generate_nodes netlist fuel counter = Ok r → fuel ≤ fuel' →
  generate_nodes netlist fuel' counter = Ok r.
Proof.
  unfold generate_nodes. cbv zeta.
  intros (s' & Hloop & [= <-])%bind_Ok Hle.
  by rewrite (generate_loop_fuel _ _ _ _ _ Hloop Hle).
Qed.

Lemma leaf_loop_fuel fuel : ∀ s stack acc res fuel',
  leaf_loop netlist fuel s stack acc = Ok res → fuel ≤ fuel' →
  leaf_loop netlist fuel' s stack acc = Ok res.
Proof.
  induction fuel as [|fuel IH]; intros s stack acc res fuel' Hloop Hle; [done|].
  destruct fuel' as [|fuel']; [lia|]. simpl in *.
  destruct stack as [|x rest]; [done|].
  destruct (get s x) as [nd| |]; simpl in *; [|done..].
  destruct (item nd); try (apply IH; [done|lia]).
  destruct (is_leaf _ _); (apply IH; [done|lia]).
Qed.
End Fuel.

Section Collects.
Context (netlist : Netlist) (s : Store) (top : nat).
Hypothesis Hok : tree_ok netlist s top.

Lemma children_deeper x xd c :
  node s x = Some xd → c ∈ (children xd).*2 →
  ∃ cd, node s c = Some cd ∧ weight s c < weight s x.
Proof using Hok.
  intros Hx ([e c'] & -> & Hin)%list_elem_of_fmap. simpl.
  apply dict_get_elem in Hin; [|by eapply tree_dict].
  destruct (tree_child _ _ _ Hok _ _ _ _ Hx Hin) as (cd & Hcd & Hp & _).
  exists cd. split; [done|].
  eapply (weight_deeper netlist s top Hok); [done..|].
  by eapply (depth_child netlist s top Hok).
Qed.

(** The loop of [get_leaf_instance_nodes] returns from a stack of
    nodes of the tree, whatever it has collected so far. *)
Lemma leaf_loop_halts k : ∀ rest,
  (∀ acc, ∃ fuel res, leaf_loop netlist fuel s rest acc = Ok res) →
  ∀ ws,
    (∀ x, x ∈ ws → ∃ xd, node s x = Some xd ∧ weight s x ≤ k) →
    ∀ acc, ∃ fuel res, leaf_loop netlist fuel s (ws ++ rest) acc = Ok res.
Proof using Hok.
  induction k as [|k IHk]; intros rest Hrest ws.
  - destruct ws as [|x ws]; [intros _; apply Hrest|].
    intros Hws. destruct (Hws x) as (xd & Hx & Hw); [left|].
    pose proof (weight_pos netlist s top Hok _ _ Hx). lia.
  - induction ws as [|x ws IHws]; intros Hws acc; [apply Hrest|].
    destruct (Hws x) as (xd & Hx & Hw); [left|].
    assert (∀ acc, ∃ fuel res, leaf_loop netlist fuel s (ws ++ rest) acc = Ok res)
      as Hnext.
    { apply IHws. intros y Hy. apply Hws. by right. }
    assert (∀ fuel res acc',
      (match item xd with
       | Instance i =>
           if is_leaf netlist (reference netlist i)
           then leaf_loop netlist fuel s (ws ++ rest) (acc ++ [x])
           else leaf_loop netlist fuel s
                  (reverse (children xd).*2 ++ (ws ++ rest)) acc
       | _ => leaf_loop netlist fuel s (ws ++ rest) acc
       end) = Ok res →
      acc' = acc →
      ∃ fuel res, leaf_loop netlist fuel s ((x :: ws) ++ rest) acc' = Ok res)
      as Hstep.
    { intros fuel res acc' Hloop ->. exists (S fuel), res. simpl.
      unfold get. by rewrite Hx. }
    destruct (item xd) as [i|p|c|w|p] eqn:Hit;
      try (destruct (Hnext acc) as (fuel & res & Hloop);
           by apply (Hstep fuel res)).
    destruct (is_leaf netlist (reference netlist i)) eqn:Hleaf.
    + destruct (Hnext (acc ++ [x])) as (fuel & res & Hloop).
      by apply (Hstep fuel res).
    + destruct (IHk (ws ++ rest) Hnext (reverse (children xd).*2)) with (acc := acc)
        as (fuel & res & Hloop).
      * intros c Hc. rewrite elem_of_reverse in Hc.
        destruct (children_deeper _ _ _ Hx Hc) as (cd & Hcd & Hlt).
        exists cd. split; [done|lia].
      * by apply (Hstep fuel res).
Qed.

Lemma get_leaf_instance_nodes_halts n nd :
  node s n = Some nd →
  ∃ fuel leaves, get_leaf_instance_nodes netlist fuel s n = Ok leaves.
Proof using Hok.
  intros Hn. unfold get_leaf_instance_nodes.
  destruct (leaf_loop_halts (weight s n) []
              (λ acc, ex_intro _ 1 (ex_intro _ acc eq_refl)) [n])
    with (acc := @nil nat) as (fuel & res & Hloop).
  - intros x ->%list_elem_of_singleton. by exists nd.
  - exists fuel, res. by rewrite app_nil_r in Hloop.
Qed.

Lemma connect_eq fuel flag g n :
  connect netlist fuel s flag g n
  = get_downstream_nodes netlist fuel s n flag
    ≫= λ ds, Ok (add_edges_from g n ds).
Proof. done. Qed.

(** One amount of fuel serves the searches from all the nodes of a
    list. *)
Lemma connect_halts flag l :
  ∃ fuel, ∀ g, ∃ r, finished r
    ∧ ∀ fuel', fuel ≤ fuel' →
        fold_result (connect netlist fuel' s flag) g l = r.
Proof using Hok.
  induction l as [|x l [F IH]].
  - exists 0. intros g. by exists (Ok g).
  - destruct (get_downstream_nodes_halts netlist s top x flag Hok)
      as (fx & rx & Hrx & Hfx).
    exists (fx `max` F). intros g.
    destruct rx as [ds|e|]; [| |done].
    + destruct (IH (add_edges_from g x ds)) as (r & Hr & Hfold).
      exists r. split; [done|]. intros fuel' Hle.
      simpl. rewrite connect_eq, Hfx by lia. simpl. apply Hfold. lia.
    + exists (Raise e). split; [done|]. intros fuel' Hle.
      simpl. by rewrite connect_eq, Hfx by lia.
Qed.
End Collects.

Lemma construction_halts netlist rank (flag : bool) counter :
  ranked netlist rank →
  ∃ fuel top s (leaves tops : list nat) (r : result DiGraph),
    generate_nodes netlist fuel counter = Ok (top, s)
    ∧ get_leaf_instance_nodes netlist fuel s top = Ok leaves
    ∧ get_top_port_nodes s top = Ok tops
    ∧ r ≠ OutOfFuel
    ∧ (let g1 := add_nodes_from (add_nodes_from (mkDiGraph [] []) leaves)
                   (if flag then tops else []) in
       fold_result (connect netlist fuel s flag) g1 (g_nodes g1) = r)
    ∧ ∀ fuel', fuel ≤ fuel' →
        get_connectivity_graph netlist fuel' flag counter = (g ← r; Ok (g, s)).
Proof.
  intros Hrank.
  destruct (generate_nodes_halts netlist rank Hrank counter)
    as (f0 & top & s & Hgen).
  destruct (generate_nodes_tree _ _ _ _ _ Hgen) as (_ & _ & Hok & _).
  destruct (tree_root _ _ _ Hok) as (rd & Hrd & _).
  destruct (get_leaf_instance_nodes_halts netlist s top Hok _ _ Hrd)
    as (f1 & leaves & Hleaves).
  assert (∃ tops, get_top_port_nodes s top = Ok tops) as [tops Htops].
  { unfold get_top_port_nodes, get. rewrite Hrd. by eexists. }
  set (g1 := add_nodes_from (add_nodes_from (mkDiGraph [] []) leaves)
               (if flag then tops else [])).
  destruct (connect_halts netlist s top Hok flag (g_nodes g1)) as [f2 Hf2].
  destruct (Hf2 g1) as (r & Hr & Hfold).
  set (f := f0 `max` f1 `max` f2).
  unfold get_leaf_instance_nodes in *.
  exists f, top, s, leaves, tops, r. split_and!.
  - apply (generate_nodes_fuel _ _ _ _ _ Hgen). lia.
  - apply (leaf_loop_fuel _ _ _ _ _ _ _ Hleaves). lia.
  - done.
  - done.
  - apply Hfold. lia.
  - intros fuel' Hle. unfold get_connectivity_graph, get_leaf_instance_nodes.
    rewrite (generate_nodes_fuel _ _ _ _ fuel' Hgen) by lia. simpl.
    rewrite (leaf_loop_fuel _ _ _ _ _ _ fuel' Hleaves) by lia. simpl.
    rewrite <-(Hfold fuel') by lia. unfold g1.
    destruct flag; [rewrite Htops|]; done.
Qed.

(** [get_connectivity_graph] terminates on every netlist whose hierarchy
    has finite depth, with or without top ports and whatever the wiring:
    from some amount of fuel on, the three loops it runs ([generate_nodes],
    [get_leaf_instance_nodes] and one [get_downstream_nodes] for every
    graph node) all finish, and the call returns its graph or raises,
    the same at every larger amount. *)
Theorem get_connectivity_graph_terminates netlist rank flag counter :
  ranked netlist rank →
  ∃ fuel r, r ≠ OutOfFuel
    ∧ ∀ fuel', fuel ≤ fuel' →
        get_connectivity_graph netlist fuel' flag counter = r.
Proof.
  intros Hrank.
  destruct (construction_halts netlist rank flag counter Hrank)
    as (fuel & top & s & leaves & tops & r & _ & _ & _ & Hr & _ & Hg).
  exists fuel, (g ← r; Ok (g, s)). split; [by destruct r|done].
Qed.

(** * No look-up fails on a consistent netlist *)

Section Returns.
Context (netlist : Netlist) (s : Store) (top : nat).
Hypothesis Hok : tree_ok netlist s top.
Hypothesis Hexp : ∀ n, expanded netlist s n.
Hypothesis Hreg : registered s.
Hypothesis Hcons : consistent netlist.

Lemma child_ok n nd e :
  node s n = Some nd → e ∈ elements_of netlist (item nd) →
  ∃ c cd, child_of s (Some n) e = Ok c
          ∧ node s c = Some cd ∧ parent cd = Some n ∧ item cd = e.
Proof using Hok Hexp.
  intros Hn He. destruct (Hexp n nd e Hn He) as [c Hc].
  destruct (tree_child _ _ _ Hok _ _ _ _ Hn Hc) as (cd & ? & ? & ?).
  exists c, cd. split; [|done].
  unfold child_of, deref, get. rewrite Hn. simpl. by rewrite Hc.
Qed.

Lemma port_child n nd i p :
  node s n = Some nd → item nd = Instance i →
  p ∈ ports netlist (reference netlist i) →
  ∃ c cd, child_of s (Some n) (Port p) = Ok c
          ∧ node s c = Some cd ∧ parent cd = Some n ∧ item cd = Port p.
Proof using Hok Hexp.
  intros Hn Hit Hp. apply (child_ok _ _ _ Hn). rewrite Hit. simpl.
  rewrite !elem_of_app, !list_elem_of_fmap. eauto.
Qed.

Lemma cable_child n nd i c :
  node s n = Some nd → item nd = Instance i →
  c ∈ cables netlist (reference netlist i) →
  ∃ x xd, child_of s (Some n) (Cable c) = Ok x
          ∧ node s x = Some xd ∧ parent xd = Some n ∧ item xd = Cable c.
Proof using Hok Hexp.
  intros Hn Hit Hp. apply (child_ok _ _ _ Hn). rewrite Hit. simpl.
  rewrite !elem_of_app, !list_elem_of_fmap. eauto.
Qed.

Lemma instance_child n nd i j :
  node s n = Some nd → item nd = Instance i →
  j ∈ def_children netlist (reference netlist i) →
  ∃ x xd, child_of s (Some n) (Instance j) = Ok x
          ∧ node s x = Some xd ∧ parent xd = Some n ∧ item xd = Instance j.
Proof using Hok Hexp.
  intros Hn Hit Hp. apply (child_ok _ _ _ Hn). rewrite Hit. simpl.
  rewrite !elem_of_app, !list_elem_of_fmap. eauto 10.
Qed.

Lemma pin_child n nd p q :
  node s n = Some nd → item nd = Port p → q ∈ port_pins netlist p →
  ∃ x xd, child_of s (Some n) (InnerPin q) = Ok x
          ∧ node s x = Some xd ∧ parent xd = Some n ∧ item xd = InnerPin q.
Proof using Hok Hexp.
  intros Hn Hit Hp. apply (child_ok _ _ _ Hn). rewrite Hit. simpl.
  rewrite list_elem_of_fmap. eauto.
Qed.

Lemma wire_child n nd c w :
  node s n = Some nd → item nd = Cable c → w ∈ wires netlist c →
  ∃ x xd, child_of s (Some n) (Wire w) = Ok x
          ∧ node s x = Some xd ∧ parent xd = Some n ∧ item xd = Wire w.
Proof using Hok Hexp.
  intros Hn Hit Hp. apply (child_ok _ _ _ Hn). rewrite Hit. simpl.
  rewrite list_elem_of_fmap. eauto.
Qed.

(** The look-up of the wire node of [w] under the instance node [n]. *)
Lemma wire_lookup n nd i w :
  node s n = Some nd → item nd = Instance i →
  cable netlist w ∈ cables netlist (reference netlist i) →
  w ∈ wires netlist (cable netlist w) →
  ∃ cab wn, child_of s (Some n) (Cable (cable netlist w)) = Ok cab
    ∧ child_of s (Some cab) (Wire w) = Ok wn ∧ wraps_wire s wn w.
Proof using Hok Hexp.
  intros Hn Hit Hc Hw.
  destruct (cable_child _ _ _ _ Hn Hit Hc) as (cab & cabd & Hcab & Hcabd & _ & Hci).
  destruct (wire_child _ _ _ _ Hcabd Hci Hw) as (wn & wd & Hwn & Hwd & _ & Hwi).
  exists cab, wn. split_and!; [done..|]. by exists wd.
Qed.

(** The node above an instance node wraps the instance that holds it. *)
Lemma instance_parent n nd i p :
  node s n = Some nd → item nd = Instance i → parent nd = Some p →
  ∃ pd j, node s p = Some pd ∧ item pd = Instance j
          ∧ i ∈ def_children netlist (reference netlist j).
Proof using Hok Hreg.
  intros Hn Hit Hp.
  destruct (Hreg _ _ _ Hn Hp) as (pd & Hpd & Hd).
  assert (Instance i ∈ elements_of netlist (item pd)) as Hin.
  { eapply tree_keys; [done..|]. by rewrite <-Hit, Hd. }
  apply elements_of_Instance in Hin as (j & ? & ?). by exists pd, j.
Qed.

Lemma visit_pin_returns flag cur curd i c w pin st :
  node s cur = Some curd → item curd = Instance i →
  c ∈ cables netlist (reference netlist i) → w ∈ wires netlist c →
  pin ∈ wire_pins netlist w → wires_only s st →
  ∃ st', visit_pin netlist s flag (Some cur) st pin = Ok st' ∧ wires_only s st'.
Proof using Hok Hexp Hreg Hcons.
  intros Hcur Hit Hc Hw Hpin Hst. destruct pin as [p|o]; simpl.
  - destruct (wire_inner_pin _ Hcons _ _ _ _ Hc Hw Hpin) as [Hport Hp].
    destruct (port_child _ _ _ _ Hcur Hit Hport)
      as (pn & pnd & -> & Hpn & _ & Hpi). simpl.
    destruct (pin_child _ _ _ _ Hpn Hpi Hp) as (qn & qnd & -> & _). simpl.
    destruct (decide (qn ∈ found_pin_nodes st)); [by exists st|].
    unfold get. rewrite Hcur. simpl.
    destruct (parent curd) as [par|] eqn:Hpar.
    + destruct (instance_parent _ _ _ _ Hcur Hit Hpar) as (pard & j & Hpard & Hj & Hin).
      destruct (instance_outer_pin _ Hcons _ _ _ _ Hin Hport Hp) as (o & Ho & Hwire).
      rewrite Hit. simpl. rewrite Ho. simpl.
      destruct (outer_wire netlist o) as [w'|] eqn:Hw'.
      * destruct (Hwire w' eq_refl) as [Hc' Hw''].
        destruct (wire_lookup _ _ _ _ Hpard Hj Hc' Hw'')
          as (cab & wn & -> & Hwn & Hwraps). simpl. rewrite Hwn. simpl.
        eexists. split; [done|]. intros x [->|Hx]%elem_of_cons; [by exists w'|].
        by apply Hst.
      * eexists. split; [done|]. exact Hst.
    + destruct flag; eexists; (split; [done|exact Hst]).
  - destruct (wire_outer_pin _ Hcons _ _ _ _ Hc Hw Hpin) as (Hinst & Hport & Hp).
    destruct (instance_child _ _ _ _ Hcur Hit Hinst)
      as (inn & innd & -> & Hinn & _ & Hii). simpl.
    destruct (is_leaf _ _); [eexists; split; [done|exact Hst]|].
    destruct (port_child _ _ _ _ Hinn Hii Hport)
      as (pn & pnd & -> & Hpn & _ & Hpi). simpl.
    destruct (pin_child _ _ _ _ Hpn Hpi Hp) as (qn & qnd & -> & _). simpl.
    destruct (inner_wire netlist (inner_pin netlist o)) as [w'|] eqn:Hw'.
    + destruct (inner_pin_wire _ Hcons _ _ _ _ Hport Hp Hw') as [Hc' Hw''].
      destruct (wire_lookup _ _ _ _ Hinn Hii Hc' Hw'')
        as (cab & wn & -> & Hwn & Hwraps). simpl. rewrite Hwn. simpl.
      eexists. split; [done|]. intros x [->|Hx]%elem_of_cons; [by exists w'|].
      by apply Hst.
    + eexists. split; [done|]. exact Hst.
Qed.

Lemma visit_pins_return flag cur curd i c w pins : ∀ st,
  node s cur = Some curd → item curd = Instance i →
  c ∈ cables netlist (reference netlist i) → w ∈ wires netlist c →
  (∀ pin, pin ∈ pins → pin ∈ wire_pins netlist w) → wires_only s st →
  ∃ st', fold_result (visit_pin netlist s flag (Some cur)) st pins = Ok st'
         ∧ wires_only s st'.
Proof using Hok Hexp Hreg Hcons.
  induction pins as [|pin pins IH]; intros st Hcur Hit Hc Hw Hpins Hst; simpl.
  - by exists st.
  - destruct (visit_pin_returns flag _ _ _ _ _ pin st Hcur Hit Hc Hw)
      as (st1 & -> & Hst1); [apply Hpins; left|done|].
    simpl. apply IH; try done. intros pin' ?. apply Hpins. by right.
Qed.

Lemma visit_wire_returns flag wn w st :
  wraps_wire s wn w → wires_only s st →
  ∃ st', visit_wire netlist s flag wn st = Ok st' ∧ wires_only s st'.
Proof using Hok Hexp Hreg Hcons.
  intros (wd & Hwd & Hwi) Hst.
  destruct (parent_lists netlist s top Hok Hreg _ _ Hwd)
    as (cab & cabd & Hp & Hcabd & Hin); [by eapply node_not_top_wire|].
  rewrite Hwi in Hin. apply elements_of_Wire in Hin as (c & Hci & Hw).
  destruct (parent_lists netlist s top Hok Hreg _ _ Hcabd)
    as (cur & curd & Hp' & Hcurd & Hin).
  { intros ->. destruct (tree_root _ _ _ Hok) as (rd & ? & _ & ?). congruence. }
  rewrite Hci in Hin. apply elements_of_Cable in Hin as (i & Hii & Hc).
  unfold visit_wire, get. rewrite Hwd. simpl. rewrite Hp. simpl.
  unfold get. rewrite Hcabd. simpl. rewrite Hwi, Hp'. simpl.
  by eapply visit_pins_return.
Qed.

Lemma traverse_no_raise flag fuel : ∀ st e,
  wires_only s st → traverse netlist fuel s flag st ≠ Raise e.
Proof using Hok Hexp Hreg Hcons.
  induction fuel as [|fuel IH]; intros st e Hst; simpl; [done|].
  destruct (search_stack st) as [|x rest] eqn:Hstack; [done|].
  destruct (Hst x) as [w Hw]; [rewrite Hstack; left|].
  destruct (visit_wire_returns flag x w
              (mkSearch (found_pin_nodes st) rest (downstream_nodes st)) Hw)
    as (st' & -> & Hst').
  { intros y Hy. apply Hst. rewrite Hstack. by right. }
  simpl. by apply IH.
Qed.

Lemma seed_instance_pins_return n nd i par pard j pins : ∀ st,
  node s n = Some nd → item nd = Instance i →
  node s par = Some pard → item pard = Instance j →
  i ∈ def_children netlist (reference netlist j) →
  (∀ o, o ∈ pins → o ∈ instance_pins netlist i) → wires_only s st →
  ∃ st', fold_result (seed_instance_pin netlist s n (Some par)) st pins = Ok st'
         ∧ wires_only s st'.
Proof using Hok Hexp Hcons.
  induction pins as [|o pins IH]; intros st Hn Hit Hpar Hj Hin Hpins Hst; simpl.
  - by exists st.
  - assert (∃ st1, seed_instance_pin netlist s n (Some par) st o = Ok st1
                   ∧ wires_only s st1) as (st1 & -> & Hst1).
    { unfold seed_instance_pin.
      destruct (outer_wire netlist o) as [w|] eqn:Hw; [|by exists st].
      destruct (drives _) eqn:Hd; [|by exists st].
      destruct (driving_pin _ Hcons _ _ _ _ Hin (Hpins o ltac:(left)) Hw Hd)
        as (Hport & Hp & Hc & Hw').
      destruct (port_child _ _ _ _ Hn Hit Hport)
        as (pn & pnd & -> & Hpn & _ & Hpi). simpl.
      destruct (pin_child _ _ _ _ Hpn Hpi Hp) as (qn & qnd & -> & _). simpl.
      destruct (wire_lookup _ _ _ _ Hpar Hj Hc Hw')
        as (cab & wn & -> & Hwn & Hwraps). simpl. rewrite Hwn. simpl.
      eexists. split; [done|]. intros x [->|Hx]%elem_of_cons; [by exists w|].
      by apply Hst. }
    simpl. apply IH; try done. intros o' ?. apply Hpins. by right.
Qed.

Lemma seed_root_pins_return n pins : ∀ st,
  is_leaf netlist (reference netlist (top_instance netlist)) = true →
  (∀ o, o ∈ pins → o ∈ instance_pins netlist (top_instance netlist)) →
  fold_result (seed_instance_pin netlist s n None) st pins = Ok st.
Proof using Hcons.
  induction pins as [|o pins IH]; intros st Hleaf Hpins; simpl; [done|].
  assert (seed_instance_pin netlist s n None st o = Ok st) as ->.
  { unfold seed_instance_pin.
    destruct (outer_wire netlist o) as [w|] eqn:Hw; [|done].
    by rewrite (top_pin _ Hcons _ _ Hleaf (Hpins o ltac:(left)) Hw). }
  simpl. apply IH; [done|]. intros o' ?. apply Hpins. by right.
Qed.

Lemma seed_port_pins_return n nd p pins : ∀ st,
  node s n = Some nd → item nd = Port p →
  p ∈ ports netlist (reference netlist (top_instance netlist)) →
  (∀ q, q ∈ pins → q ∈ port_pins netlist p) → wires_only s st →
  ∃ st', fold_result (seed_port_pin netlist s n (Some top)) st pins = Ok st'
         ∧ wires_only s st'.
Proof using Hok Hexp Hcons.
  induction pins as [|q pins IH]; intros st Hn Hit Hp Hpins Hst; simpl.
  - by exists st.
  - assert (∃ st1, seed_port_pin netlist s n (Some top) st q = Ok st1
                   ∧ wires_only s st1) as (st1 & -> & Hst1).
    { unfold seed_port_pin.
      destruct (inner_wire netlist q) as [w|] eqn:Hw; [|by exists st].
      destruct (pin_child _ _ _ _ Hn Hit (Hpins q ltac:(left)))
        as (qn & qnd & -> & _). simpl.
      destruct (inner_pin_wire _ Hcons _ _ _ _ Hp (Hpins q ltac:(left)) Hw)
        as [Hc Hw'].
      destruct (tree_root _ _ _ Hok) as (rd & Hrd & _ & Hri).
      destruct (wire_lookup _ _ _ _ Hrd Hri Hc Hw')
        as (cab & wn & -> & Hwn & Hwraps). simpl. rewrite Hwn. simpl.
      eexists. split; [done|]. intros x [->|Hx]%elem_of_cons; [by exists w|].
      by apply Hst. }
    simpl. apply IH; try done. intros q' ?. apply Hpins. by right.
Qed.

Lemma seeds_return flag n :
  selected netlist s top flag n →
  ∃ st, seeds netlist s n flag = Ok st ∧ wires_only s st.
Proof using Hok Hexp Hreg Hcons.
  assert (wires_only s (mkSearch ∅ [] [])) as Hnil
    by (by intros x ?%elem_of_nil).
  intros [[_ (nd & i & Hn & Hit & Hleaf)]|[-> (td & p & Htd & Hp)]].
  - unfold seeds, get. rewrite Hn. simpl. rewrite Hit.
    destruct (parent nd) as [par|] eqn:Hpar.
    + destruct (instance_parent _ _ _ _ Hn Hit Hpar) as (pard & j & Hpard & Hj & Hin).
      by eapply seed_instance_pins_return.
    + destruct (tree_root _ _ _ Hok) as (rd & Hrd & _ & Hri).
      assert (n = top) as -> by (by eapply tree_top).
      assert (i = top_instance netlist) as -> by congruence.
      rewrite seed_root_pins_return; [by eexists|done..].
  - destruct (tree_child _ _ _ Hok _ _ _ _ Htd Hp) as (nd & Hn & Hpar & Hit).
    assert (Port p ∈ elements_of netlist (item td)) as Hin
      by (eapply tree_keys; [done..|by rewrite Hp]).
    destruct (tree_root _ _ _ Hok) as (rd & Hrd & _ & Hri).
    assert (td = rd) as -> by congruence. rewrite Hri in Hin.
    apply elements_of_Port in Hin as (? & [= <-] & Hin).
    unfold seeds, get. rewrite Hn. simpl. rewrite Hit, Hpar.
    destruct (receives _); [|by eexists].
    by eapply seed_port_pins_return.
Qed.

Lemma get_downstream_nodes_no_raise fuel flag n e :
  selected netlist s top flag n →
  get_downstream_nodes netlist fuel s n flag ≠ Raise e.
Proof using Hok Hexp Hreg Hcons.
  intros (st & Hst & Hwires)%seeds_return. unfold get_downstream_nodes.
  rewrite Hst. simpl. by apply traverse_no_raise.
Qed.

Lemma connect_no_raise fuel flag l : ∀ g e,
  (∀ x, x ∈ l → selected netlist s top flag x) →
  fold_result (connect netlist fuel s flag) g l ≠ Raise e.
Proof using Hok Hexp Hreg Hcons.
  induction l as [|x l IH]; intros g e Hl; simpl; [done|].
  rewrite connect_eq.
  pose proof (get_downstream_nodes_no_raise fuel flag x e (Hl x ltac:(left))).
  destruct (get_downstream_nodes netlist fuel s x flag) as [ds| |]; simpl;
    [|by intros [= ->]|done].
  apply IH. intros y ?. apply Hl. by right.
Qed.
End Returns.

(** On a netlist of finite hierarchy depth that lists no element twice
    and whose cross-references are consistent, [get_connectivity_graph]
    returns a graph: none of the look-ups [node.children[...]],
    [instance.pins[pin]] and [node.parent] of the downstream searches
    raises a [KeyError] or an [AttributeError].  Consistent means: the
    pins on a wire of a definition belong to a port or to a child
    instance of that definition; the wire of a pin is listed in the
    cable it names, in the definition where the code looks for it; a
    child instance has an outer pin for every inner pin of its
    definition; and a top instance that is a leaf, whose node has no
    parent, has no pin that is on a wire and belongs to a port of
    direction OUT or INOUT. *)
Theorem get_connectivity_graph_returns netlist rank flag counter :
  ranked netlist rank → listed_once netlist → consistent netlist →
  ∃ fuel g s, ∀ fuel', fuel ≤ fuel' →
    get_connectivity_graph netlist fuel' flag counter = Ok (g, s).
Proof.
  intros Hrank Hlist Hcons.
  destruct (construction_halts netlist rank flag counter Hrank)
    as (fuel & top & s & leaves & tops & r & Hgen & Hl & Ht & Hr & Hfold & Hg).
  destruct (generate_nodes_tree _ _ _ _ _ Hgen) as (_ & _ & Hok & Hexp).
  pose proof (generate_nodes_registered _ _ _ _ _ Hlist Hgen) as Hreg.
  cbv zeta in Hfold.
  destruct r as [g|e|]; [| |done].
  - exists fuel, g, s. exact Hg.
  - exfalso. revert Hfold.
    apply (connect_no_raise netlist s top Hok Hexp Hreg Hcons).
    intros x Hx%initial_nodes.
    by apply (selected_list netlist s top flag leaves tops fuel x Hok Hl Ht).
Qed.

(** * Hierarchical names *)

Lemma bind_Ok_l {A B} (a : A) (f : A → result B) : Ok a ≫= f = f a.
Proof. done. Qed.

Lemma string_app_assoc (a b c : string) : (a +:+ b) +:+ c = a +:+ (b +:+ c).
Proof.
  induction a as [|x a IH]; [done|].
  change (String x ((a +:+ b) +:+ c) = String x (a +:+ (b +:+ c))).
  by rewrite IH.
Qed.

Lemma string_app_nonempty (a b : string) : b ≠ "" → a +:+ b ≠ "".
Proof.
  intros Hb H. apply (f_equal String.length) in H.
  rewrite string_app_length in H. destruct b; [done|simpl in H; lia].
Qed.

Lemma string_app_nonempty_l (a b : string) : a ≠ "" → a +:+ b ≠ "".
Proof. by destruct a. Qed.

Lemma string_app_cons a (x y : string) : String a x +:+ y = String a (x +:+ y).
Proof. done. Qed.

Lemma string_app_nil (y : string) : "" +:+ y = y.
Proof. done. Qed.

(** A string without "/" is not a string followed by "/". *)
Lemma slash_free_no_sep (x y r : string) :
  slash_free x = true → x ≠ y +:+ "/" +:+ r.
Proof.
  revert x. induction y as [|b y IH]; intros [|a x] Hx H; try done.
  - rewrite string_app_nil, string_app_cons, string_app_nil in H.
    injection H as -> _. by vm_compute in Hx.
  - rewrite string_app_cons in H.
    injection H as -> H. simpl in Hx. case_decide; [done|].
    by apply (IH x).
Qed.

Lemma slash_free_sep_inj (x y r1 r2 : string) :
  slash_free x = true → slash_free y = true →
  x +:+ "/" +:+ r1 = y +:+ "/" +:+ r2 → x = y ∧ r1 = r2.
Proof.
  revert y. induction x as [|a x IH]; intros [|b y] Hx Hy H.
  - rewrite !string_app_nil, !string_app_cons, !string_app_nil in H.
    by injection H as ->.
  - rewrite string_app_nil, !string_app_cons, string_app_nil in H.
    injection H as <- _. by vm_compute in Hy.
  - rewrite string_app_nil, !string_app_cons, string_app_nil in H.
    injection H as -> _. by vm_compute in Hx.
  - rewrite !string_app_cons in H.
    injection H as -> H. simpl in Hx, Hy. case_decide; [done|].
    destruct (IH y Hx Hy H) as [-> ->]. done.
Qed.

Section Join.
Context (sep : string).

Lemma join_cons x l :
  l ≠ [] → join sep (Some x :: l) = rest ← join sep l; Ok (x +:+ sep +:+ rest).
Proof. by destruct l. Qed.

Lemma join_None l : None ∈ l → join sep l = Raise TypeError.
Proof.
  induction l as [|[x|] l IH]; [by intros ?%elem_of_nil| |done].
  intros [?|Hin]%elem_of_cons; [done|].
  rewrite join_cons by (intros ->; by apply elem_of_nil in Hin).
  by rewrite (IH Hin).
Qed.

Lemma join_Ok_Some l r : join sep l = Ok r → ∀ o, o ∈ l → is_Some o.
Proof.
  intros Hj [x|] Ho; [done|]. by rewrite (join_None _ Ho) in Hj.
Qed.

(** [sep.join(l + [o])] *)
Lemma join_snoc l o :
  l ≠ [] →
  join sep (l ++ [o])
  = pre ← join sep l;
    match o with
    | Some x => Ok (pre +:+ sep +:+ x)
    | None => Raise TypeError
    end.
Proof.
  induction l as [|[y|] l IH]; intros Hne; [done| |done].
  destruct l as [|o' l].
  - by destruct o.
  - change ((Some y :: o' :: l) ++ [o]) with (Some y :: ((o' :: l) ++ [o])).
    rewrite join_cons by done. rewrite (join_cons y (o' :: l)) by done.
    rewrite IH by done.
    destruct (join sep (o' :: l)) as [pre| |]; simpl; [|done..].
    destruct o; simpl; [|done]. by rewrite !string_app_assoc.
Qed.

Lemma join_snoc_inv l o r :
  join sep (l ++ [o]) = Ok r →
  ∃ x, o = Some x
    ∧ (l = [] ∧ r = x
       ∨ l ≠ [] ∧ ∃ pre, join sep l = Ok pre ∧ r = pre +:+ sep +:+ x).
Proof.
  destruct l as [|o' l].
  - destruct o as [x|]; [|done]. intros [= <-]. exists x. by split; [|left].
  - rewrite join_snoc by done. intros (pre & Hpre & H)%bind_Ok.
    destruct o as [x|]; [|done]. injection H as <-.
    exists x. split; [done|]. right. split; [done|]. by exists pre.
Qed.

Lemma join_head_nonempty x l r :
  x ≠ "" → join sep (Some x :: l) = Ok r → r ≠ "".
Proof.
  intros Hx. destruct l as [|o l]; [by intros [= <-]|].
  rewrite join_cons by done. intros (rest & _ & [= <-])%bind_Ok.
  by apply string_app_nonempty_l.
Qed.
End Join.

(** Joining with "/" loses nothing when the strings hold no "/". *)
Lemma join_inj (l1 : list (option string)) : ∀ l2 r,
  (∀ o, o ∈ l1 → ∃ x, o = Some x ∧ slash_free x = true) →
  (∀ o, o ∈ l2 → ∃ x, o = Some x ∧ slash_free x = true) →
  l1 ≠ [] → l2 ≠ [] →
  join "/" l1 = Ok r → join "/" l2 = Ok r → l1 = l2.
Proof.
  induction l1 as [|o1 l1 IH]; intros [|o2 l2] r H1 H2 Hn1 Hn2 Hj1 Hj2; try done.
  destruct (H1 o1) as (x & -> & Hx); [left|].
  destruct (H2 o2) as (y & -> & Hy); [left|].
  destruct l1 as [|o1' l1]; destruct l2 as [|o2' l2].
  - injection Hj1 as <-. injection Hj2 as <-. done.
  - injection Hj1 as <-. rewrite join_cons in Hj2 by done.
    apply bind_Ok in Hj2 as (rest & _ & [= Hr]).
    by destruct (slash_free_no_sep x y rest Hx).
  - injection Hj2 as <-. rewrite join_cons in Hj1 by done.
    apply bind_Ok in Hj1 as (rest & _ & [= Hr]).
    by destruct (slash_free_no_sep y x rest Hy).
  - rewrite join_cons in Hj1, Hj2 by done.
    apply bind_Ok in Hj1 as (r1 & Hr1 & [= <-]).
    apply bind_Ok in Hj2 as (r2 & Hr2 & [= Heq]).
    destruct (slash_free_sep_inj y x r2 r1 Hy Hx Heq) as [-> ->].
    f_equal. apply (IH _ r1); try done.
    + intros o Ho. apply H1. by right.
    + intros o Ho. apply H2. by right.
Qed.

Section Ancestors.
Context (netlist : Netlist) (s : Store) (top : nat).
Hypothesis Hok : tree_ok netlist s top.

Lemma ancestors_None fuel : ancestors fuel s None = Ok [].
Proof. by destruct fuel. Qed.

Lemma ancestors_Some fuel p l :
  ancestors fuel s (Some p) = Ok l →
  ∃ fuel' pd rest, fuel = S fuel' ∧ node s p = Some pd
    ∧ ancestors fuel' s (parent pd) = Ok rest ∧ l = pd :: rest.
Proof.
  destruct fuel as [|fuel']; [done|]. simpl.
  intros (pd & Hp%get_Ok & H)%bind_Ok.
  apply bind_Ok in H as (rest & Hrest & [= <-]). by exists fuel', pd, rest.
Qed.

Lemma ancestors_fuel fuel : ∀ x l fuel',
  ancestors fuel s x = Ok l → fuel ≤ fuel' → ancestors fuel' s x = Ok l.
Proof.
  induction fuel as [|fuel IH]; intros [p|] l fuel' Ha Hle;
    try done; try (rewrite ancestors_None in *; done).
  destruct fuel' as [|fuel']; [lia|]. simpl in *.
  destruct (get s p) as [pd| |]; simpl in *; [|done..].
  destruct (ancestors fuel s (parent pd)) as [rest| |] eqn:Hrest; [|done..].
  by rewrite (IH _ _ fuel' Hrest) by lia.
Qed.

(** The loop [while parent] ends at the root. *)
Lemma ancestors_root fuel : ∀ p l,
  ancestors fuel s (Some p) = Ok l →
  ∃ l' rd, l = l' ++ [rd] ∧ node s top = Some rd.
Proof using Hok.
  induction fuel as [|fuel IH]; intros p l Ha; [done|].
  apply ancestors_Some in Ha as (? & pd & rest & [= <-] & Hp & Hrest & ->).
  destruct (parent pd) as [q|] eqn:Hq.
  - destruct (IH _ _ Hrest) as (l' & rd & -> & Hrd).
    by exists (pd :: l'), rd.
  - rewrite ancestors_None in Hrest. injection Hrest as <-.
    exists [], pd. split; [done|]. by rewrite <-(tree_top _ _ _ Hok _ _ Hp Hq).
Qed.

(** The loop [while parent] terminates: the parent of a node was
    allocated before it. *)
Lemma ancestors_halts fuel : ∀ p pd,
  node s p = Some pd → p - base s < fuel →
  ∃ l, ancestors fuel s (Some p) = Ok l.
Proof using Hok.
  induction fuel as [|fuel IH]; intros p pd Hp Hlt; [lia|].
  simpl. unfold get. rewrite Hp. simpl.
  destruct (parent pd) as [q|] eqn:Hq.
  - destruct (tree_parent _ _ _ Hok _ _ _ Hp Hq) as [Hqp [qd Hqd]].
    pose proof (node_Some_lt _ _ _ Hqd).
    destruct (IH q qd Hqd) as [l ->]; [lia|]. by eexists.
  - rewrite ancestors_None. by eexists.
Qed.
End Ancestors.

(** An ancestor without a name makes [get_hiearchical_name] fail with a
    [TypeError], whatever the node wraps: ["/".join] meets the [None]
    that [get_name] returned for the ancestor, before the name or the
    index of the node itself is looked at. *)
Theorem unnamed_ancestor_raises netlist fuel s n nd parents a :
  node s n = Some nd →
  ancestors fuel s (parent nd) = Ok parents →
  a ∈ parents → get_name netlist a = None →
  get_hiearchical_name netlist fuel s n = Raise TypeError.
Proof.
  intros Hn Hp Ha Hname. unfold get_hiearchical_name, get.
  rewrite Hn. simpl. rewrite Hp. simpl. rewrite join_None; [done|].
  apply list_elem_of_fmap. exists a. split; [done|]. by apply elem_of_reverse.
Qed.

Section Prefix.
Context (netlist : Netlist) (s : Store) (top : nat).
Hypothesis Hok : tree_ok netlist s top.
Hypothesis Hreg : registered s.

(** A node that has a child wraps an instance, a port or a cable. *)
Lemma parent_item n nd p pd :
  node s n = Some nd → parent nd = Some p → node s p = Some pd →
  match item pd with Wire _ | InnerPin _ => False | _ => True end.
Proof using Hok Hreg.
  intros Hn Hp Hpd. destruct (Hreg _ _ _ Hn Hp) as (pd' & Hpd' & Hd).
  assert (pd' = pd) as -> by congruence.
  assert (item nd ∈ elements_of netlist (item pd)) as Hin
    by (eapply tree_keys; [done..|by rewrite Hd]).
  destruct (item pd); try done; simpl in Hin; by apply elem_of_nil in Hin.
Qed.

(** The prefix of a node is the hierarchical name of its parent, when
    the root has a name that is not empty. *)
Lemma prefix_is_parent_name fuel n nd p rd x0 parents prefix :
  node s top = Some rd → get_name netlist rd = Some x0 → x0 ≠ "" →
  node s n = Some nd → parent nd = Some p →
  ancestors fuel s (parent nd) = Ok parents →
  join "/" (get_name netlist <$> reverse parents) = Ok prefix →
  get_hiearchical_name netlist fuel s p = Ok (Some prefix) ∧ prefix ≠ "".
Proof using Hok Hreg.
  intros Hrd Hx0 Hne Hn Hp Hanc Hjoin. rewrite Hp in Hanc.
  destruct (ancestors_Some _ _ _ _ Hanc)
    as (fuel' & pd & rest & -> & Hpd & Hrest & ->).
  pose proof (parent_item _ _ _ _ Hn Hp Hpd) as Hitem.
  rewrite reverse_cons, fmap_app in Hjoin. simpl in Hjoin.
  apply join_snoc_inv in Hjoin as (xp & Hxp & Hcase).
  pose proof (ancestors_fuel s fuel' _ _ (S fuel') Hrest ltac:(lia)) as Hrest'.
  unfold get_hiearchical_name.
  rewrite (proj2 (get_Ok s p pd) Hpd), bind_Ok_l, Hrest', bind_Ok_l.
  destruct Hcase as [[Hnil ->]|[Hnn (pre & Hpre & ->)]].
  - apply fmap_nil_inv in Hnil.
    assert (rest = []) as -> by (by rewrite <-(reverse_involutive rest), Hnil).
    simpl.
    assert (parent pd = None) as Hroot.
    { destruct (parent pd) as [q|] eqn:Hq; [|done].
      by apply ancestors_Some in Hrest as (? & ? & ? & _ & _ & _ & ?). }
    assert (pd = rd) as ->.
    { rewrite (tree_top _ _ _ Hok _ _ Hpd Hroot) in Hpd. congruence. }
    assert (xp = x0) as -> by congruence.
    split; [|done]. rewrite Hxp.
    destruct (item rd); try done; by rewrite decide_True.
  - rewrite Hpre. simpl. rewrite Hxp. simpl.
    assert (pre ≠ "") as Hpne.
    { destruct (parent pd) as [q|] eqn:Hq.
      - destruct (ancestors_root netlist s top Hok _ _ _ Hrest)
          as (l' & rd' & -> & Hrd').
        assert (rd' = rd) as -> by congruence.
        rewrite reverse_app in Hpre. simpl in Hpre. rewrite Hx0 in Hpre.
        by eapply join_head_nonempty.
      - rewrite ancestors_None in Hrest. injection Hrest as <-. done. }
    split.
    + destruct (item pd); try done; by rewrite decide_False.
    + apply string_app_nonempty. by apply string_app_nonempty_l.
Qed.
End Prefix.

(** Names compose along the tree.  For a netlist that lists no element
    twice and whose top instance has a name that is not empty, the
    hierarchical name of a node under a parent is the hierarchical name
    of the parent followed by "/" and the own name for an instance, a
    port or a cable (the text [None] when it has none), and followed by
    the bracketed index for a wire or a pin. *)
Theorem name_extends_parent_name netlist fuel0 counter top s rd x0 fuel n nd p r :
  listed_once netlist →
  generate_nodes netlist fuel0 counter = Ok (top, s) →
  node s top = Some rd → get_name netlist rd = Some x0 → x0 ≠ "" →
  node s n = Some nd → parent nd = Some p →
  get_hiearchical_name netlist fuel s n = Ok r →
  ∃ hp, get_hiearchical_name netlist fuel s p = Ok (Some hp)
    ∧ match item nd with
      | Wire w =>
          ∃ i, wires netlist (cable netlist w) !! i = Some w
               ∧ r = Some (hp +:+ "[" +:+ pretty i +:+ "]")
      | InnerPin q =>
          ∃ i, port_pins netlist (port netlist q) !! i = Some q
               ∧ r = Some (hp +:+ "[" +:+ pretty i +:+ "]")
      | _ => r = Some (hp +:+ "/" +:+ str (get_name netlist nd))
      end.
Proof.
  intros Hlist Hgen Hrd Hx0 Hne Hn Hp Hname.
  destruct (generate_nodes_tree _ _ _ _ _ Hgen) as (_ & _ & Hok & _).
  pose proof (generate_nodes_registered _ _ _ _ _ Hlist Hgen) as Hreg.
  destruct (get_hiearchical_name_Ok _ _ _ _ _ Hname)
    as (nd' & parents & prefix & Hn' & Hanc & Hjoin & Hr).
  assert (nd' = nd) as -> by congruence.
  destruct (prefix_is_parent_name netlist s top Hok Hreg _ _ _ _ _ _ _ _
              Hrd Hx0 Hne Hn Hp Hanc Hjoin) as [Hparent Hpne].
  exists prefix. split; [done|].
  destruct (item nd); try done; by rewrite decide_False in Hr.
Qed.

Lemma index_elem l x : x ∈ l → ∃ i, index l x = Ok i.
Proof.
  intros Hin. unfold index.
  destruct (list_find (λ y, y = x) l) as [[i y]|] eqn:Hf; [by exists i|].
  apply list_find_None in Hf. rewrite Forall_forall in Hf.
  by destruct (Hf x Hin).
Qed.

Lemma join_all_Some sep l : (∀ o, o ∈ l → is_Some o) → ∃ r, join sep l = Ok r.
Proof.
  induction l as [|o l IH]; intros Hl; [by exists ""|].
  destruct (Hl o) as [x ->]; [left|].
  destruct IH as [r Hr]; [intros o' ?; apply Hl; by right|].
  destruct l as [|o' l]; [by exists x|].
  rewrite join_cons by done. rewrite Hr. by eexists.
Qed.

Section Named.
Context (netlist : Netlist) (s : Store) (top : nat).
Hypothesis Hok : tree_ok netlist s top.
Hypothesis Hreg : registered s.

(** The nodes the loop [while parent] collects all have a child. *)
Lemma ancestors_have_children fuel : ∀ p c cd l a,
  node s c = Some cd → parent cd = Some p →
  ancestors fuel s (Some p) = Ok l → a ∈ l →
  ∃ m c' cd', node s m = Some a ∧ node s c' = Some cd' ∧ parent cd' = Some m.
Proof using Hok.
  induction fuel as [|fuel IH]; intros p c cd l a Hc Hp Ha Hin; [done|].
  apply ancestors_Some in Ha as (? & pd & rest & [= <-] & Hpd & Hrest & ->).
  apply elem_of_cons in Hin as [->|Hin]; [by exists p, c, cd|].
  destruct (parent pd) as [q|] eqn:Hq.
  - by apply (IH q p pd rest a).
  - rewrite ancestors_None in Hrest. injection Hrest as <-.
    by apply elem_of_nil in Hin.
Qed.

Lemma ancestors_named fuel n nd l :
  nodes_named netlist s →
  node s n = Some nd → ancestors fuel s (parent nd) = Ok l →
  ∀ a, a ∈ l → is_Some (get_name netlist a).
Proof using Hok Hreg.
  intros Hnamed Hn Ha a Hin.
  destruct (parent nd) as [p|] eqn:Hp.
  - destruct (ancestors_have_children _ _ _ _ _ _ Hn Hp Ha Hin)
      as (m & c & cd & Hm & Hc & Hpc).
    pose proof (parent_item netlist s top Hok Hreg _ _ _ _ Hc Hpc Hm) as Hit.
    pose proof (Hnamed m a Hm) as Hname.
    by destruct (item a).
  - rewrite ancestors_None in Ha. injection Ha as <-.
    by apply elem_of_nil in Hin.
Qed.

Lemma ancestors_exist fuel n nd :
  node s n = Some nd → length (cells s) ≤ fuel →
  ∃ l, ancestors fuel s (parent nd) = Ok l.
Proof using Hok.
  intros Hn Hfuel. destruct (parent nd) as [p|] eqn:Hp.
  - destruct (tree_parent _ _ _ Hok _ _ _ Hn Hp) as [Hlt [pd Hpd]].
    pose proof (node_Some_lt _ _ _ Hn) as Hn'. unfold limit in Hn'.
    apply (ancestors_halts netlist s top Hok fuel p pd Hpd). lia.
  - rewrite ancestors_None. by eexists.
Qed.
End Named.

(** [get_hiearchical_name] returns a name for every node of the tree,
    once the loop over the parents is given as many steps as the tree
    has nodes: for a netlist that lists no element twice, in which every
    wire names its cable and every pin its port, and whose instance,
    port and cable nodes all resolve a name, it raises no [TypeError]
    (from the join) and no [ValueError] (from the index). *)
Theorem every_node_gets_a_name netlist fuel0 counter top s fuel n nd :
  listed_once netlist → owned netlist →
  generate_nodes netlist fuel0 counter = Ok (top, s) →
  nodes_named netlist s →
  node s n = Some nd → length (cells s) ≤ fuel →
  ∃ x, get_hiearchical_name netlist fuel s n = Ok (Some x).
Proof.
  intros Hlist [Hwires Hpins] Hgen Hnamed Hn Hfuel.
  destruct (generate_nodes_tree _ _ _ _ _ Hgen) as (_ & _ & Hok & _).
  pose proof (generate_nodes_registered _ _ _ _ _ Hlist Hgen) as Hreg.
  destruct (ancestors_exist netlist s top Hok fuel n nd Hn Hfuel) as [l Hl].
  destruct (join_all_Some "/" (get_name netlist <$> reverse l)) as [prefix Hj].
  { intros o (a & -> & Ha)%list_elem_of_fmap. rewrite elem_of_reverse in Ha.
    by eapply (ancestors_named netlist s top). }
  unfold get_hiearchical_name.
  rewrite (proj2 (get_Ok s n nd) Hn), bind_Ok_l, Hl, bind_Ok_l, Hj, bind_Ok_l.
  pose proof (Hnamed n nd Hn) as Hname.
  destruct (item nd) as [i|p|c|w|q] eqn:Hit.
  - destruct Hname as [x Hx]. rewrite Hx. case_decide; by eexists.
  - destruct Hname as [x Hx]. rewrite Hx. case_decide; by eexists.
  - destruct Hname as [x Hx]. rewrite Hx. case_decide; by eexists.
  - destruct (parent_lists netlist s top Hok Hreg _ _ Hn)
      as (p & pd & _ & _ & Hin); [by eapply node_not_top_wire|].
    rewrite Hit in Hin. apply elements_of_Wire in Hin as (c & _ & Hw).
    rewrite (Hwires c w Hw).
    destruct (index_elem _ _ Hw) as [i ->]. by eexists.
  - destruct (parent_lists netlist s top Hok Hreg _ _ Hn)
      as (p & pd & _ & _ & Hin); [by eapply node_not_top_pin|].
    rewrite Hit in Hin. apply elements_of_InnerPin in Hin as (c & _ & Hw).
    rewrite (Hpins c q Hw).
    destruct (index_elem _ _ Hw) as [i ->]. by eexists.
Qed.

Section Unique.
Context (netlist : Netlist) (s : Store) (top : nat).
Hypothesis Hok : tree_ok netlist s top.
Hypothesis Hreg : registered s.
Hypothesis Hnamed : instances_named netlist.
Hypothesis Hapart : siblings_named_apart netlist.

Lemma get_name_name nd : get_name netlist nd = name netlist (item nd).
Proof. done. Qed.

(** The node above an instance node wraps the instance that lists it. *)
Lemma instance_above n nd i p :
  node s n = Some nd → item nd = Instance i → parent nd = Some p →
  ∃ pd j, node s p = Some pd ∧ item pd = Instance j
          ∧ i ∈ def_children netlist (reference netlist j).
Proof using Hok Hreg.
  intros Hn Hit Hp. destruct (Hreg _ _ _ Hn Hp) as (pd & Hpd & Hd).
  assert (Instance i ∈ elements_of netlist (item pd)) as Hin.
  { eapply tree_keys; [done..|]. by rewrite <-Hit, Hd. }
  apply elements_of_Instance in Hin as (j & ? & ?). by exists pd, j.
Qed.

Lemma instance_in_hierarchy n nd i :
  node s n = Some nd → item nd = Instance i → in_hierarchy netlist i.
Proof using Hok Hreg.
  intros Hn Hit. destruct (parent nd) as [p|] eqn:Hp.
  - destruct (instance_above _ _ _ _ Hn Hit Hp) as (pd & j & _ & _ & Hin).
    right. by eexists.
  - left. destruct (tree_root _ _ _ Hok) as (rd & Hrd & _ & Hri).
    rewrite (tree_top _ _ _ Hok _ _ Hn Hp) in Hn. congruence.
Qed.

Lemma instance_node_named n nd i :
  node s n = Some nd → item nd = Instance i →
  ∃ x, get_name netlist nd = Some x ∧ x ≠ "" ∧ slash_free x = true.
Proof using Hok Hreg Hnamed.
  intros Hn Hit. rewrite get_name_name, Hit. apply Hnamed.
  by eapply instance_in_hierarchy.
Qed.

(** Above an instance node there are instance nodes only. *)
Lemma instance_ancestors fuel : ∀ n nd i l a,
  node s n = Some nd → item nd = Instance i →
  ancestors fuel s (parent nd) = Ok l → a ∈ l →
  ∃ x, get_name netlist a = Some x ∧ x ≠ "" ∧ slash_free x = true.
Proof using Hok Hreg Hnamed.
  induction fuel as [|fuel IH]; intros n nd i l a Hn Hit Ha Hin.
  - destruct (parent nd); [done|]. injection Ha as <-.
    by apply elem_of_nil in Hin.
  - destruct (parent nd) as [p|] eqn:Hp.
    + destruct (instance_above _ _ _ _ Hn Hit Hp) as (pd & j & Hpd & Hj & _).
      apply ancestors_Some in Ha as (? & pd' & rest & [= <-] & Hpd' & Hrest & ->).
      assert (pd' = pd) as -> by congruence.
      apply elem_of_cons in Hin as [->|Hin]; [by eapply instance_node_named|].
      by apply (IH p pd j rest a).
    + rewrite ancestors_None in Ha. injection Ha as <-.
      by apply elem_of_nil in Hin.
Qed.

(** The hierarchical name of an instance node is the join of the names
    on its path. *)
Lemma instance_name_join fuel n nd i r :
  node s n = Some nd → item nd = Instance i →
  get_hiearchical_name netlist fuel s n = Ok r →
  ∃ l x, ancestors fuel s (parent nd) = Ok l ∧ r = Some x
    ∧ join "/" (get_name netlist <$> reverse (nd :: l)) = Ok x.
Proof using Hok Hreg Hnamed.
  intros Hn Hit Hname.
  destruct (get_hiearchical_name_Ok _ _ _ _ _ Hname)
    as (nd' & l & prefix & Hn' & Hanc & Hjoin & Hr).
  assert (nd' = nd) as -> by congruence. rewrite Hit in Hr.
  destruct (instance_node_named _ _ _ Hn Hit) as (x & Hx & _).
  rewrite Hx in Hr. simpl in Hr. exists l.
  rewrite reverse_cons, fmap_app. simpl. rewrite Hx.
  destruct (reverse l) as [|a l'] eqn:Hl.
  - injection Hjoin as <-. rewrite decide_True in Hr by done.
    by exists x.
  - rewrite join_snoc by done. rewrite Hjoin. simpl.
    assert (prefix ≠ "") as Hne.
    { destruct (instance_ancestors fuel n nd i l a Hn Hit Hanc)
        as (y & Hy & Hyne & _).
      { apply elem_of_reverse. rewrite Hl. left. }
      simpl in Hjoin. rewrite Hy in Hjoin. by eapply join_head_nonempty. }
    rewrite decide_False in Hr by done. by eexists.
Qed.

(** Two instance nodes whose paths carry the same names are the same
    node. *)
Lemma same_names_same_node l1 : ∀ l2 fuel1 fuel2 n1 n2 nd1 nd2 i1 i2,
  node s n1 = Some nd1 → item nd1 = Instance i1 →
  node s n2 = Some nd2 → item nd2 = Instance i2 →
  ancestors fuel1 s (parent nd1) = Ok l1 →
  ancestors fuel2 s (parent nd2) = Ok l2 →
  get_name netlist <$> (nd1 :: l1) = get_name netlist <$> (nd2 :: l2) →
  n1 = n2.
Proof using Hok Hreg Hapart.
  induction l1 as [|pd1 l1 IH];
    intros [|pd2 l2] fuel1 fuel2 n1 n2 nd1 nd2 i1 i2 Hn1 Hi1 Hn2 Hi2 Ha1 Ha2 Heq;
    try done.
  - destruct (parent nd1) as [p1|] eqn:Hp1.
    { by apply ancestors_Some in Ha1 as (? & ? & ? & _ & _ & _ & ?). }
    destruct (parent nd2) as [p2|] eqn:Hp2.
    { by apply ancestors_Some in Ha2 as (? & ? & ? & _ & _ & _ & ?). }
    rewrite (tree_top _ _ _ Hok _ _ Hn1 Hp1).
    by rewrite (tree_top _ _ _ Hok _ _ Hn2 Hp2).
  - destruct (parent nd1) as [p1|] eqn:Hp1;
      [|by rewrite ancestors_None in Ha1].
    destruct (parent nd2) as [p2|] eqn:Hp2;
      [|by rewrite ancestors_None in Ha2].
    apply ancestors_Some in Ha1 as (f1 & ? & ? & -> & Hpd1 & Hr1 & [= <- <-]).
    apply ancestors_Some in Ha2 as (f2 & ? & ? & -> & Hpd2 & Hr2 & [= <- <-]).
    destruct (instance_above _ _ _ _ Hn1 Hi1 Hp1) as (? & j1 & ? & Hj1 & Hin1).
    destruct (instance_above _ _ _ _ Hn2 Hi2 Hp2) as (? & j2 & ? & Hj2 & Hin2).
    simplify_eq/=.
    assert (p1 = p2) as ->.
    { eapply (IH l2 f1 f2); [exact Hpd1|done|exact Hpd2|done|done|done|].
      simpl. by f_equal. }
    assert (pd1 = pd2) as -> by congruence.
    assert (j1 = j2) as -> by congruence.
    assert (i1 = i2) as ->.
    { apply (Hapart (reference netlist j2)); [done..|].
      rewrite <-Hi1, <-Hi2, <-!get_name_name. congruence. }
    destruct (decide (n2 = n1)) as [->|Hne]; [done|].
    destruct (siblings_differ netlist s top Hok Hreg _ _ _ _ Hn1 Hn2 Hne);
      congruence.
Qed.
End Unique.

(** "Uniqueness can be guaranteed by including the hierarchical path
    when referencing the desired instance": for a netlist that lists no
    element twice, whose instances have names that are not empty and
    hold no "/", and whose definitions give different names to their
    child instances, two different instance nodes never get the same
    hierarchical name, also when they wrap the same instance of a
    definition that is instanced several times. *)
Theorem instance_names_differ netlist fuel0 counter top s fuel n1 n2 nd1 nd2 i1 i2 r1 r2 :
  listed_once netlist → instances_named netlist →
  siblings_named_apart netlist →
  generate_nodes netlist fuel0 counter = Ok (top, s) →
  node s n1 = Some nd1 → item nd1 = Instance i1 →
  node s n2 = Some nd2 → item nd2 = Instance i2 →
  n1 ≠ n2 →
  get_hiearchical_name netlist fuel s n1 = Ok r1 →
  get_hiearchical_name netlist fuel s n2 = Ok r2 →
  r1 ≠ r2.
Proof.
  intros Hlist Hnamed Hapart Hgen Hn1 Hi1 Hn2 Hi2 Hne Hr1 Hr2 <-.
  destruct (generate_nodes_tree _ _ _ _ _ Hgen) as (_ & _ & Hok & _).
  pose proof (generate_nodes_registered _ _ _ _ _ Hlist Hgen) as Hreg.
  destruct (instance_name_join netlist s top Hok Hreg Hnamed _ _ _ _ _ Hn1 Hi1 Hr1)
    as (l1 & x1 & Ha1 & -> & Hj1).
  destruct (instance_name_join netlist s top Hok Hreg Hnamed _ _ _ _ _ Hn2 Hi2 Hr2)
    as (l2 & x2 & Ha2 & [= <-] & Hj2).
  apply Hne.
  apply (same_names_same_node netlist s top Hok Hreg Hapart l1 l2 fuel fuel
           n1 n2 nd1 nd2 i1 i2); try done.
  apply (inj reverse). rewrite <-!fmap_reverse.
  apply (join_inj _ _ x1); try done.
  - intros o (a & -> & Ha)%list_elem_of_fmap. rewrite elem_of_reverse in Ha.
    apply elem_of_cons in Ha as [->|Ha].
    + destruct (instance_node_named netlist s top Hok Hreg Hnamed _ _ _ Hn1 Hi1)
        as (x & ? & _ & ?). by exists x.
    + destruct (instance_ancestors netlist s top Hok Hreg Hnamed
                  _ _ _ _ _ a Hn1 Hi1 Ha1 Ha) as (x & ? & _ & ?). by exists x.
  - intros o (a & -> & Ha)%list_elem_of_fmap. rewrite elem_of_reverse in Ha.
    apply elem_of_cons in Ha as [->|Ha].
    + destruct (instance_node_named netlist s top Hok Hreg Hnamed _ _ _ Hn2 Hi2)
        as (x & ? & _ & ?). by exists x.
    + destruct (instance_ancestors netlist s top Hok Hreg Hnamed
                  _ _ _ _ _ a Hn2 Hi2 Ha2 Ha) as (x & ? & _ & ?). by exists x.
  - rewrite reverse_cons, fmap_app. by destruct (get_name netlist <$> reverse l1).
  - rewrite reverse_cons, fmap_app. by destruct (get_name netlist <$> reverse l2).
Qed.

(** * The caller: run *)

(** The graph without top ports, from the same allocation counter. *)
Lemma without_top_ports netlist fuel counter gT s :
  leaf_childless netlist →
  get_connectivity_graph netlist fuel true counter = Ok (gT, s) →
  ∃ top tops,
    generate_nodes netlist fuel counter = Ok (top, s)
    ∧ get_top_port_nodes s top = Ok tops
    ∧ get_connectivity_graph netlist fuel false counter
      = Ok (remove_nodes tops gT, s).
Proof.
  intros Hleaf (top & leaves & tops & Hgen & Hl & Ht & Hfold)%get_connectivity_graph_Ok.
  exists top, tops. split_and!; [done..|].
  destruct (generate_nodes_tree _ _ _ _ _ Hgen) as (_ & _ & Hok & _).
  cbv zeta in Hfold.
  set (g0 := add_nodes_from (mkDiGraph [] []) leaves) in *.
  set (g1 := add_nodes_from g0 tops) in *.
  destruct (add_nodes_from_app tops g0) as (l & Hl1 & Hl_tops). fold g1 in Hl1.
  assert (g_edges g0 = []) as Hg0e by (unfold g0; by rewrite add_nodes_from_edges).
  assert (g_edges g1 = []) as Hg1e by (unfold g1; by rewrite add_nodes_from_edges).
  assert (∀ n, n ∈ g_nodes g0 → n ∈ leaves) as Hg0.
  { intros n. unfold g0. rewrite add_nodes_from_nodes. simpl.
    rewrite elem_of_nil. naive_solver. }
  assert (∀ n, n ∈ leaves → n ∈ g_nodes g0) as Hg0'.
  { intros n ?. unfold g0. rewrite add_nodes_from_nodes. by right. }
  assert (∀ n, n ∈ leaves → n ∉ tops
                ∧ ∃ nd i, node s n = Some nd ∧ item nd = Instance i) as Hleaves.
  { intros n [_ (nd & i & Hnd & Hi & _)]%(get_leaf_instance_nodes_spec _ _ _ _ _ Hok Hl).
    split; [|eauto].
    intros (td & p & Htd & Hd)%(get_top_port_nodes_spec netlist _ _ _ Hok Ht).
    destruct (tree_child _ _ _ Hok _ _ _ _ Htd Hd) as (cd & ? & ? & ?).
    congruence. }
  assert (remove_nodes tops g1 = g0) as Hrem.
  { unfold remove_nodes. rewrite Hl1, Hg1e, filter_app.
    rewrite filter_all by (intros x ?; by apply Hleaves, Hg0).
    rewrite filter_none by (intros x ?%Hl_tops Hn; by apply Hn).
    rewrite app_nil_r. destruct g0; simpl in *. by subst. }
  rewrite Hl1, fold_result_app in Hfold.
  apply bind_Ok in Hfold as (gM & HfoldL & HfoldT).
  assert (∀ n, n ∈ g_nodes g0 → n ∉ tops ∧ n ∈ g_nodes g1
            ∧ ∃ nd i, node s n = Some nd ∧ item nd = Instance i) as Hcond.
  { intros n Hn. destruct (Hleaves n (Hg0 n Hn)) as [? ?].
    split_and!; [done| |done]. rewrite Hl1. apply elem_of_app. by left. }
  destruct (connect_leaves netlist s top tops Hok Ht fuel _ _ _ Hcond HfoldL)
    as [HfoldF Hsub].
  rewrite Hrem in HfoldF.
  assert (remove_nodes tops gT = remove_nodes tops gM) as ->.
  { eapply connect_ports; [exact Hl_tops| |exact HfoldT].
    intros t ds d Ht' Hds Hd.
    assert (selected netlist s top true t) as Hsel.
    { right. split; [done|].
      by apply (get_top_port_nodes_spec netlist _ _ _ Hok Ht), Hl_tops. }
    destruct (get_downstream_nodes_selected _ _ _ _ _ _ _ Hok Hleaf Hsel Hds d Hd)
      as [Hvl|[_ Htp]].
    - right. apply Hsub. rewrite Hl1. apply elem_of_app. left.
      by apply Hg0', (get_leaf_instance_nodes_spec _ _ _ _ _ Hok Hl).
    - left. by apply (get_top_port_nodes_spec netlist _ _ _ Hok Ht). }
  unfold get_connectivity_graph. rewrite Hgen. simpl. rewrite Hl. simpl.
  fold g0. by rewrite HfoldF.
Qed.

Lemma number_of_nodes_shift δ g :
  number_of_nodes (shift_graph δ g) = number_of_nodes g.
Proof. unfold number_of_nodes, shift_graph. simpl. apply length_fmap. Qed.

Lemma number_of_edges_shift δ g :
  number_of_edges (shift_graph δ g) = number_of_edges g.
Proof. unfold number_of_edges, shift_graph. simpl. apply length_fmap. Qed.

(** [run] on a netlist whose leaf definitions have no child instances:
    as soon as its first call of [get_connectivity_graph], with top
    ports, returns, the second call, which builds its own tree of fresh
    nodes, returns too; [run] prints four counts, and neither the number
    of nodes nor the number of edges printed for the graph without top
    level ports exceeds the one printed for the graph with them. *)
Theorem run_prints_smaller_counts netlist fuel counter g1 s1 :
  leaf_childless netlist →
  get_connectivity_graph netlist fuel true counter = Ok (g1, s1) →
  ∃ n2 e2,
    run netlist fuel counter
    = ([("Total nodes in connectivity_graph with top_level_ports",
         number_of_nodes g1);
        ("Total edges in connectivity_graph with top_level_ports",
         number_of_edges g1);
        ("Total nodes in connectivity_graph without top_level_ports", n2);
        ("Total edges in connectivity_graph without top_level_ports", e2)],
       Ok ())
    ∧ n2 ≤ number_of_nodes g1 ∧ e2 ≤ number_of_edges g1.
Proof.
  intros Hleaf Hg.
  destruct (without_top_ports _ _ _ _ _ Hleaf Hg) as (top & tops & Hgen & _ & Hf).
  destruct (generate_nodes_tree _ _ _ _ _ Hgen) as (_ & Hbase & _).
  set (δ := length (cells s1)).
  assert (limit s1 = shift δ counter) as Hlimit.
  { unfold limit, shift, δ. by rewrite Hbase. }
  exists (number_of_nodes (remove_nodes tops g1)),
         (number_of_edges (remove_nodes tops g1)).
  split; [|split; apply length_filter].
  unfold run. rewrite Hg, Hlimit, get_connectivity_graph_shift, Hf. simpl.
  by rewrite number_of_nodes_shift, number_of_edges_shift.
Qed.

(** * How many nodes the top ports add *)

Lemma add_nodes_from_fresh ns : ∀ g,
  NoDup ns → (∀ x, x ∈ ns → x ∉ g_nodes g) →
  g_nodes (add_nodes_from g ns) = g_nodes g ++ ns.
Proof.
  unfold add_nodes_from.
  induction ns as [|n ns IH]; intros g Hnd Hfresh; simpl.
  - by rewrite app_nil_r.
  - apply NoDup_cons in Hnd as [Hn Hnd].
    assert (add_node g n = mkDiGraph (g_nodes g ++ [n]) (g_edges g)) as ->.
    { unfold add_node. rewrite decide_False; [done|]. apply Hfresh. left. }
    rewrite IH; [simpl; by rewrite <-app_assoc|done|].
    intros x Hx. simpl. rewrite elem_of_app, list_elem_of_singleton.
    intros [?| ->]; [|done]. by apply (Hfresh x); [right|].
Qed.

Lemma add_edge_keeps_nodes g u v :
  u ∈ g_nodes g → v ∈ g_nodes g → g_nodes (add_edge g u v) = g_nodes g.
Proof.
  intros Hu Hv. unfold add_edge.
  rewrite (add_node_present g u Hu), (add_node_present g v Hv).
  by case_decide.
Qed.

Lemma add_edges_from_keeps_nodes u vs : ∀ g,
  u ∈ g_nodes g → (∀ v, v ∈ vs → v ∈ g_nodes g) →
  g_nodes (add_edges_from g u vs) = g_nodes g.
Proof.
  unfold add_edges_from.
  induction vs as [|v vs IH]; intros g Hu Hvs; simpl; [done|].
  assert (g_nodes (add_edge g u v) = g_nodes g) as Hg
    by (apply add_edge_keeps_nodes; [done|apply Hvs; left]).
  rewrite IH; [done|by rewrite Hg|].
  intros x ?. rewrite Hg. apply Hvs. by right.
Qed.

Lemma filter_keys {V} (P : Element → bool) (d : list (Element * V)) :
  (filter (λ kv, P kv.1) d).*1 = filter (λ k, P k) d.*1.
Proof.
  induction d as [|[k v] d IH]; [done|].
  rewrite fmap_cons, !filter_cons. cbn [fst].
  destruct (decide (P k)); [rewrite fmap_cons|]; by rewrite IH.
Qed.

Section Counts.
Context (netlist : Netlist) (s : Store) (top : nat).
Hypothesis Hok : tree_ok netlist s top.

Lemma connect_keeps_nodes fuel flag l : ∀ g g',
  (∀ n, n ∈ l → n ∈ g_nodes g) →
  (∀ n ds d, n ∈ l → get_downstream_nodes netlist fuel s n flag = Ok ds →
             d ∈ ds → d ∈ g_nodes g) →
  fold_result (connect netlist fuel s flag) g l = Ok g' →
  g_nodes g' = g_nodes g.
Proof.
  induction l as [|x l IH]; intros g g' Hl Hds; simpl; [by intros [= <-]|].
  intros (g1 & Hc & Hfold)%bind_Ok.
  apply bind_Ok in Hc as (ds & Hx & [= <-]).
  assert (g_nodes (add_edges_from g x ds) = g_nodes g) as Hg.
  { apply add_edges_from_keeps_nodes; [apply Hl; left|].
    intros v Hv. apply (Hds x ds v); [left|done..]. }
  rewrite <-Hg. apply IH; [| |done].
  - intros n ?. rewrite Hg. apply Hl. by right.
  - intros n ds' d ? ? ?. rewrite Hg. apply (Hds n ds' d); [by right|done..].
Qed.

(** The nodes of the top ports are all different. *)
Lemma top_port_nodes_NoDup tops :
  get_top_port_nodes s top = Ok tops → NoDup tops.
Proof using Hok.
  unfold get_top_port_nodes. intros (td & Htd%get_Ok & [= <-])%bind_Ok.
  pose proof (tree_dict _ _ _ Hok _ _ Htd) as Hkeys.
  apply NoDup_fmap_2_strong.
  - intros [k1 v1] [k2 v2] [_ H1]%list_elem_of_filter [_ H2]%list_elem_of_filter.
    simpl. intros <-.
    apply dict_get_elem in H1; [|done]. apply dict_get_elem in H2; [|done].
    destruct (tree_child _ _ _ Hok _ _ _ _ Htd H1) as (cd1 & ? & _ & ?).
    destruct (tree_child _ _ _ Hok _ _ _ _ Htd H2) as (cd2 & ? & _ & ?).
    f_equal. congruence.
  - apply NoDup_filter. by eapply NoDup_fmap_1.
Qed.

(** One node for each port of the top definition. *)
Lemma top_port_nodes_length tops :
  (∀ n, expanded netlist s n) →
  NoDup (ports netlist (reference netlist (top_instance netlist))) →
  get_top_port_nodes s top = Ok tops →
  length tops
  = length (ports netlist (reference netlist (top_instance netlist))).
Proof using Hok.
  intros Hexp Hports. unfold get_top_port_nodes.
  intros (td & Htd%get_Ok & [= <-])%bind_Ok.
  destruct (tree_root _ _ _ Hok) as (rd & Hrd & _ & Hri).
  assert (td = rd) as -> by congruence.
  rewrite length_fmap, <-(length_fmap fst), filter_keys.
  rewrite <-(length_fmap Port
               (ports netlist (reference netlist (top_instance netlist)))).
  apply Permutation_length, NoDup_Permutation.
  - apply NoDup_filter. by eapply tree_dict.
  - apply NoDup_fmap_2_strong; [|done]. by intros ?? _ _ [= ->].
  - intros e. rewrite list_elem_of_filter. split.
    + intros [He Hin]. destruct e as [|p| | |]; try (by destruct He).
      apply list_elem_of_fmap_2.
      assert (Port p ∈ elements_of netlist (item rd)) as Hel.
      { eapply tree_keys; [done..|]. by apply dict_get_is_Some. }
      rewrite Hri in Hel.
      by apply elements_of_Port in Hel as (? & [= <-] & ?).
    + intros (p & -> & Hp)%list_elem_of_fmap. split; [done|].
      apply dict_get_is_Some, (Hexp top rd); [done|].
      rewrite Hri. simpl. rewrite !elem_of_app, list_elem_of_fmap. eauto.
Qed.
End Counts.

(** For a start node that wraps an instance, [include_top_ports] only
    decides whether top port nodes are reported: the list returned
    without it is the list returned with it, less the top port nodes, in
    the same order and with the same repetitions. *)
Theorem flag_only_adds_top_ports netlist fuel0 counter top s tops fuel n nd i ds :
  generate_nodes netlist fuel0 counter = Ok (top, s) →
  get_top_port_nodes s top = Ok tops →
  node s n = Some nd → item nd = Instance i →
  get_downstream_nodes netlist fuel s n true = Ok ds →
  get_downstream_nodes netlist fuel s n false
  = Ok (filter (λ d, d ∉ tops) ds).
Proof.
  intros Hgen Ht Hn Hi Hds.
  destruct (generate_nodes_tree _ _ _ _ _ Hgen) as (_ & _ & Hok & _).
  by eapply (get_downstream_nodes_flag netlist s top tops Hok Ht).
Qed.

(** * The parser front end *)

Section Paths.
Import Parsers.

Lemma sep_free_app x y : sep_free (x +:+ y) = sep_free x && sep_free y.
Proof.
  induction x as [|a x IH]; [done|].
  rewrite string_app_cons. simpl. by destruct (is_sep a).
Qed.

Lemma split_sep_sep_free b : sep_free b = true → split_sep b = ("", b).
Proof.
  destruct b as [|a b]; [done|]. simpl.
  destruct (is_sep a); [done|]. by intros ->.
Qed.

Lemma split_sep_tail_free p : sep_free (split_sep p).2 = true.
Proof.
  induction p as [|a p IH]; [done|]. simpl.
  destruct (sep_free p) eqn:Hp; [|done].
  destruct (is_sep a) eqn:Ha; simpl; [done|]. by rewrite Ha.
Qed.

Lemma split_sep_recompose p : p = (split_sep p).1 +:+ (split_sep p).2.
Proof.
  induction p as [|a p IH]; [done|]. simpl.
  destruct (sep_free p); [by destruct (is_sep a)|].
  simpl. rewrite string_app_cons. by rewrite <-IH.
Qed.

(** A last component that grows leaves the directory part alone. *)
Lemma split_sep_app h b :
  sep_free b = true →
  split_sep (h +:+ b) = ((split_sep h).1, (split_sep h).2 +:+ b).
Proof.
  intros Hb. induction h as [|a h IH].
  - by rewrite string_app_nil, split_sep_sep_free.
  - rewrite string_app_cons. simpl. rewrite sep_free_app, Hb, andb_true_r.
    destruct (sep_free h); [by destruct (is_sep a)|].
    by rewrite IH.
Qed.

Lemma split_sep_snoc_sep d : split_sep (d +:+ "/") = (d +:+ "/", "").
Proof.
  induction d as [|a d IH]; [done|].
  rewrite string_app_cons. simpl. rewrite sep_free_app. simpl.
  rewrite andb_false_r. by rewrite IH.
Qed.

Lemma basename_join d b : sep_free b = true → basename (join d b) = b.
Proof.
  intros Hb. unfold basename, join.
  destruct (starts_with_sep b) eqn:Hs.
  { destruct b as [|a b]; [done|]. simpl in *. by rewrite Hs in Hb. }
  destruct (bool_decide (d = "")) eqn:Hd; simpl.
  { apply bool_decide_eq_true_1 in Hd as ->.
    by rewrite string_app_nil, split_sep_sep_free. }
  destruct (ends_with_sep d) eqn:He.
  - apply bool_decide_eq_true_1 in He as [He _].
    by rewrite split_sep_app, He.
  - rewrite <-string_app_assoc, split_sep_app by done.
    by rewrite split_sep_snoc_sep.
Qed.

(** The extension is a matter of the last path component. *)
Lemma splitext_ext p : (splitext p).2 = (splitext (basename p)).2.
Proof.
  unfold splitext, basename.
  rewrite (split_sep_sep_free (split_sep p).2) by apply split_sep_tail_free.
  simpl. by destruct (rsplit_dot _) as [[??]|].
Qed.

Lemma lstrip_dots_recompose b : b = (lstrip_dots b).1 +:+ (lstrip_dots b).2.
Proof.
  induction b as [|a b IH]; [done|]. simpl.
  destruct (is_dot a); [|done]. simpl. by rewrite string_app_cons, <-IH.
Qed.

Lemma rsplit_dot_recompose r root ext :
  rsplit_dot r = Some (root, ext) → r = root +:+ ext.
Proof.
  revert root. induction r as [|a r IH]; intros root; [done|]. simpl.
  destruct (rsplit_dot r) as [[root' ext']|].
  - intros [= <- <-]. by rewrite string_app_cons, <-(IH root').
  - destruct (is_dot a); [|done]. by intros [= <- <-].
Qed.

Lemma splitext_recompose p : p = (splitext p).1 +:+ (splitext p).2.
Proof.
  unfold splitext.
  destruct (rsplit_dot _) as [[root ext]|] eqn:Hr; simpl.
  - apply rsplit_dot_recompose in Hr.
    rewrite !string_app_assoc, <-Hr, <-lstrip_dots_recompose.
    apply split_sep_recompose.
  - clear. induction p as [|a p IH]; [done|].
    by rewrite string_app_cons, <-IH.
Qed.

Lemma sep_free_stem p : sep_free (splitext (basename p)).1 = true.
Proof.
  pose proof (split_sep_tail_free p) as Hb. fold (basename p) in Hb.
  rewrite (splitext_recompose (basename p)), sep_free_app in Hb.
  by apply andb_true_iff in Hb as [? _].
Qed.

Lemma get_lowercase_extension_join d b :
  sep_free b = true →
  get_lowercase_extension (join d b) = get_lowercase_extension b.
Proof.
  intros Hb. unfold get_lowercase_extension.
  rewrite splitext_ext, basename_join by done.
  rewrite (splitext_ext b). unfold basename.
  by rewrite split_sep_sep_free.
Qed.
End Paths.

Section Case.
Import Parsers.

Lemma lower_char_sep a : is_sep (lower_char a) = is_sep a.
Proof. by destruct a as [[] [] [] [] [] [] [] []]. Qed.

Lemma lower_char_dot a : is_dot (lower_char a) = is_dot a.
Proof. by destruct a as [[] [] [] [] [] [] [] []]. Qed.

Lemma lower_char_idemp a : lower_char (lower_char a) = lower_char a.
Proof. by destruct a as [[] [] [] [] [] [] [] []]. Qed.

Lemma lower_idemp x : lower (lower x) = lower x.
Proof.
  induction x as [|a x IH]; [done|]. simpl. by rewrite lower_char_idemp, IH.
Qed.

Lemma lower_app x y : lower (x +:+ y) = lower x +:+ lower y.
Proof.
  induction x as [|a x IH]; [done|].
  rewrite string_app_cons. simpl. by rewrite string_app_cons, IH.
Qed.

Lemma sep_free_lower x : sep_free (lower x) = sep_free x.
Proof.
  induction x as [|a x IH]; [done|]. simpl. by rewrite lower_char_sep, IH.
Qed.

Lemma split_sep_lower p :
  split_sep (lower p) = (lower (split_sep p).1, lower (split_sep p).2).
Proof.
  induction p as [|a p IH]; [done|]. simpl.
  rewrite sep_free_lower, lower_char_sep, IH.
  destruct (sep_free p); [by destruct (is_sep a)|done].
Qed.

Lemma lstrip_dots_lower b :
  lstrip_dots (lower b) = (lower (lstrip_dots b).1, lower (lstrip_dots b).2).
Proof.
  induction b as [|a b IH]; [done|]. simpl.
  rewrite lower_char_dot, IH. by destruct (is_dot a).
Qed.

Lemma rsplit_dot_lower r :
  rsplit_dot (lower r) = prod_map lower lower <$> rsplit_dot r.
Proof.
  induction r as [|a r IH]; [done|]. simpl. rewrite IH, lower_char_dot.
  destruct (rsplit_dot r) as [[root ext]|]; [done|]. by destruct (is_dot a).
Qed.

Lemma get_lowercase_extension_lower p :
  get_lowercase_extension (lower p) = get_lowercase_extension p.
Proof.
  unfold get_lowercase_extension, splitext.
  rewrite split_sep_lower. simpl. rewrite lstrip_dots_lower. simpl.
  rewrite rsplit_dot_lower.
  destruct (rsplit_dot _) as [[root ext]|]; simpl; [|done].
  apply lower_idemp.
Qed.

Lemma dot_free_rsplit r : dot_free r = true → rsplit_dot r = None.
Proof.
  induction r as [|a r IH]; [done|]. simpl.
  destruct (is_dot a); [done|]. by intros ->%IH.
Qed.

Lemma lstrip_all_dots d r :
  all_dots d = true → (lstrip_dots (d +:+ r)).2 = (lstrip_dots r).2.
Proof.
  induction d as [|a d IH]; [done|]. rewrite string_app_cons. simpl.
  destruct (is_dot a); [|done]. simpl. apply IH.
Qed.

Lemma lstrip_dot_free r : dot_free r = true → dot_free (lstrip_dots r).2 = true.
Proof.
  destruct r as [|a r]; [done|]. simpl.
  destruct (is_dot a) eqn:Ha; [done|]. simpl. by rewrite Ha.
Qed.
End Case.

Section ParseProperties.
Import Parsers.
Context {N P H : Type} (w : World N P H).

Lemma parse_zip filename n :
  parse w filename = Returns n →
  get_lowercase_extension filename = ".zip" →
  let stem := (splitext (basename filename)).1 in
  is_zipfile w filename = true
  ∧ namelist w filename = Returns [stem]
  ∧ extract w filename stem (tempdirname w) = Returns ()
  ∧ _parse w (join (tempdirname w) stem) None = Returns n.
Proof.
  intros Hp Hext. cbv zeta. unfold parse in Hp. cbv zeta in Hp.
  rewrite Hext in Hp. simpl in Hp.
  destruct (is_zipfile w filename); [|done]. split; [done|].
  destruct (namelist w filename) as [files|]; [|done]. simpl in Hp.
  destruct files as [|file [|]]; [done| |done].
  case_bool_decide as Hfile; [|done]. subst file. split; [done|].
  destruct (extract _ _ _ _) as [[]|]; [|done]. done.
Qed.

Lemma parse_file_Returns filename h n :
  _parse w filename h = Returns n →
  get_lowercase_extension filename = ".edf"
  ∨ get_lowercase_extension filename = ".edif".
Proof.
  unfold _parse. cbv zeta. case_bool_decide as Hin; [|done]. intros _.
  apply elem_of_cons in Hin as [?|Hin]; [by left|].
  apply list_elem_of_singleton in Hin. by right.
Qed.
End ParseProperties.

(** A zip archive is parsed only when its own name carries two
    extensions: if [parse] returns a netlist for a file name whose
    extension is ".zip" in any case, then the name without that
    extension ends in ".edf" or ".edif" in any case, the archive holds
    exactly one file, of that name, and the netlist is the one the EDIF
    parser reads from that file in the temporary directory.  An archive
    [design.zip], or a zip in a zip, is never parsed. *)
Theorem zip_archive_needs_two_extensions {N P H} (w : Parsers.World N P H) filename n :
  Parsers.parse w filename = Parsers.Returns n →
  Parsers.get_lowercase_extension filename = ".zip" →
  let stem := (Parsers.splitext (Parsers.basename filename)).1 in
  Parsers.basename filename
  = stem +:+ (Parsers.splitext filename).2
  ∧ (Parsers.get_lowercase_extension stem = ".edf"
     ∨ Parsers.get_lowercase_extension stem = ".edif")
  ∧ Parsers.is_zipfile w filename = true
  ∧ Parsers.namelist w filename = Parsers.Returns [stem]
  ∧ ∃ parser parser',
      Parsers.from_filename w (Parsers.join (Parsers.tempdirname w) stem)
      = Parsers.Returns parser
      ∧ Parsers.parse_edif w parser = Parsers.Returns parser'
      ∧ n = Parsers.netlist_of w parser'.
Proof.
  intros Hp Hext. cbv zeta.
  destruct (parse_zip w filename n Hp Hext) as (Hzip & Hfiles & _ & Hparse).
  split_and!; [|..|done|done|].
  - rewrite splitext_ext. apply splitext_recompose.
  - apply parse_file_Returns in Hparse as Hcase.
    by rewrite get_lowercase_extension_join in Hcase by apply sep_free_stem.
  - unfold Parsers._parse in Hparse. cbv zeta in Hparse.
    case_bool_decide; [|done].
    destruct (Parsers.from_filename _ _) as [parser|]; [|done].
    simpl in Hparse.
    destruct (Parsers.parse_edif w parser) as [parser'|] eqn:Hrun; [|done].
    injection Hparse as <-. by exists parser, parser'.
Qed.

(** The extension is recognised whatever its case, and so is the rest of
    the file name: two file names over characters of code point below
    256 that differ in case only ([p.lower() == q.lower()]) have the
    same lower-case extension, so [parse] and [_parse] take the same
    branch for both. *)
Theorem extension_ignores_case p q :
  Parsers.lower p = Parsers.lower q →
  Parsers.get_lowercase_extension p = Parsers.get_lowercase_extension q.
Proof.
  intros Heq.
  by rewrite <-(get_lowercase_extension_lower p),
             <-(get_lowercase_extension_lower q), Heq.
Qed.

(** A file name whose last component has no dot after its leading dots
    has no extension: [_parse] raises the [RuntimeError] "Extension  not
    recognized." for it, with or without a file handle, and creates no
    parser.  So a file called [.edf] or [dir/.edif] is not read as
    EDIF. *)
Theorem hidden_file_not_recognized {N P H} (w : Parsers.World N P H)
    filename dots rest file_handle :
  Parsers.basename filename = dots +:+ rest →
  Parsers.all_dots dots = true → Parsers.dot_free rest = true →
  Parsers._parse w filename file_handle
  = Parsers.Raises (Parsers.RuntimeError "Extension  not recognized.").
Proof.
  intros Hbase Hdots Hrest.
  assert (Parsers.get_lowercase_extension filename = "") as Hext.
  { unfold Parsers.get_lowercase_extension. rewrite splitext_ext, Hbase.
    unfold Parsers.splitext.
    rewrite (split_sep_sep_free (dots +:+ rest)).
    - simpl. rewrite lstrip_all_dots by done.
      by rewrite dot_free_rsplit by (by apply lstrip_dot_free).
    - rewrite <-Hbase. apply split_sep_tail_free. }
  unfold Parsers._parse. cbv zeta. by rewrite Hext.
Qed.

(** * The leaf instance nodes are collected once *)

Section Leaves.
Context (netlist : Netlist) (s : Store) (top : nat).
Hypothesis Hok : tree_ok netlist s top.

Lemma below_le a x : below s a x → a ≤ x.
Proof using Hok.
  induction 1 as [|x xd p Hx Hp _ IH]; [done|].
  destruct (tree_parent _ _ _ Hok _ _ _ Hx Hp). lia.
Qed.

Lemma below_parent c cd m r :
  node s c = Some cd → parent cd = Some m → below s c r → below s m r.
Proof.
  intros Hc Hp. induction 1 as [|x xd p Hx Hxp _ IH].
  - eapply below_child; [done..|]. constructor.
  - by eapply below_child.
Qed.

Lemma below_strict a x xd p :
  below s a x → a ≠ x → node s x = Some xd → parent xd = Some p →
  below s a p.
Proof.
  destruct 1 as [|x xd' p' Hx Hp' Hb]; [done|]. intros _ ? ?. congruence.
Qed.

Lemma children_nodes m md c :
  node s m = Some md → c ∈ (children md).*2 →
  ∃ cd, node s c = Some cd ∧ parent cd = Some m.
Proof using Hok.
  intros Hm ([e c'] & -> & Hin)%list_elem_of_fmap. simpl.
  apply dict_get_elem in Hin; [|by eapply tree_dict].
  destruct (tree_child _ _ _ Hok _ _ _ _ Hm Hin) as (cd & ? & ? & _).
  by exists cd.
Qed.

Lemma children_NoDup m md : node s m = Some md → NoDup (children md).*2.
Proof using Hok.
  intros Hm. pose proof (tree_dict _ _ _ Hok _ _ Hm) as Hkeys.
  apply NoDup_fmap_2_strong; [|by eapply NoDup_fmap_1].
  intros [k1 v1] [k2 v2] H1 H2. simpl. intros <-.
  apply dict_get_elem in H1; [|done]. apply dict_get_elem in H2; [|done].
  destruct (tree_child _ _ _ Hok _ _ _ _ Hm H1) as (cd1 & ? & _ & ?).
  destruct (tree_child _ _ _ Hok _ _ _ _ Hm H2) as (cd2 & ? & _ & ?).
  f_equal. congruence.
Qed.

Lemma apart_pop m rest acc : apart s (m :: rest) acc → apart s rest acc.
Proof.
  intros (Hacc & [Hm Hrest]%NoDup_cons & Hst & Hres).
  split_and!; [done..| |].
  - intros m1 m2 ? ?. apply Hst; by right.
  - intros a m' ? ?. apply Hres; [done|by right].
Qed.

Lemma apart_collect m rest acc :
  apart s (m :: rest) acc → apart s rest (acc ++ [m]).
Proof.
  intros Hap. pose proof (apart_pop _ _ _ Hap) as (Hacc & Hrest & Hst & Hres).
  destruct Hap as (_ & [Hm _]%NoDup_cons & Hst' & Hres').
  split_and!; [|done..|].
  - apply NoDup_app. split_and!; [done| |apply NoDup_singleton].
    intros a Ha ->%list_elem_of_singleton.
    apply (Hres' m m); [done|left|constructor].
  - intros a r [Ha| ->%list_elem_of_singleton]%elem_of_app Hr; [by apply Hres|].
    apply Hst'; [by right|left|]. by intros ->.
Qed.

Lemma apart_expand m md rest acc :
  node s m = Some md →
  apart s (m :: rest) acc → apart s (reverse (children md).*2 ++ rest) acc.
Proof using Hok.
  intros Hm Hap.
  pose proof (apart_pop _ _ _ Hap) as (Hacc & Hrest & Hst & Hres).
  destruct Hap as (_ & [Hmr _]%NoDup_cons & Hst' & Hres').
  assert (∀ c, c ∈ reverse (children md).*2 →
               ∃ cd, node s c = Some cd ∧ parent cd = Some m ∧ m < c) as Hkids.
  { intros c Hc. rewrite elem_of_reverse in Hc.
    destruct (children_nodes _ _ _ Hm Hc) as (cd & Hcd & Hp).
    exists cd. split_and!; [done..|].
    by destruct (tree_parent _ _ _ Hok _ _ _ Hcd Hp). }
  assert (∀ c r, c ∈ reverse (children md).*2 → r ∈ rest →
                 c ≠ r ∧ ¬ below s c r ∧ ¬ below s r c) as Hcr.
  { intros c r Hc Hr. destruct (Hkids c Hc) as (cd & Hcd & Hp & Hlt).
    assert (m ≠ r) as Hne by (by intros ->).
    assert (¬ below s r c) as Hrc.
    { intros Hb. destruct (decide (r = c)) as [->|Hne'].
      - apply (Hst' m c); [left|by right|lia|].
        eapply below_child; [done..|constructor].
      - apply (Hst' r m); [by right|left|done|].
        by eapply below_strict. }
    split_and!; [|intros Hb|done].
    - intros ->. apply Hrc. constructor.
    - apply (Hst' m r); [left|by right|done|]. by eapply below_parent. }
  split_and!; [done| | |].
  - apply NoDup_app. split_and!; [|intros c Hc Hr; by destruct (Hcr c c Hc Hr)|done].
    rewrite reverse_Permutation. by eapply children_NoDup.
  - intros m1 m2 [H1|H1]%elem_of_app [H2|H2]%elem_of_app Hne.
    + destruct (Hkids m1 H1) as (cd1 & Hcd1 & Hp1 & Hlt1).
      destruct (Hkids m2 H2) as (cd2 & Hcd2 & Hp2 & Hlt2).
      intros Hb. pose proof (below_strict _ _ _ _ Hb Hne Hcd2 Hp2) as Hb'.
      apply below_le in Hb'. lia.
    + by destruct (Hcr m1 m2 H1 H2) as (_ & ? & _).
    + by destruct (Hcr m2 m1 H2 H1) as (_ & _ & ?).
    + by apply Hst.
  - intros a c Ha [Hc|Hc]%elem_of_app; [|by apply Hres].
    destruct (Hkids c Hc) as (cd & Hcd & Hp & _). intros Hb.
    apply (Hres' a m); [done|left|]. by eapply below_parent.
Qed.

Lemma leaf_loop_NoDup fuel : ∀ stack acc res,
  apart s stack acc →
  leaf_loop netlist fuel s stack acc = Ok res → NoDup res.
Proof using Hok.
  induction fuel as [|fuel IH]; intros stack acc res Hap; simpl; [done|].
  destruct stack as [|m rest]; [intros [= <-]; by destruct Hap|].
  intros (md & Hm%get_Ok & Hloop)%bind_Ok.
  destruct (item md) as [i| | | |];
    [destruct (is_leaf netlist (reference netlist i))|..];
    (eapply IH; [|exact Hloop]);
    eauto using apart_pop, apart_collect, apart_expand.
Qed.
End Leaves.

(** [get_leaf_instance_nodes] on the tree of [generate_nodes]: it
    returns, it returns no node twice, and what it returns are the nodes
    that wrap an instance of a leaf definition and are reached from the
    root through instance nodes that are not leaves; what lies under a
    leaf instance is never visited. *)
Theorem leaf_instance_nodes_once netlist fuel0 counter top s :
  generate_nodes netlist fuel0 counter = Ok (top, s) →
  ∃ fuel leaves,
    (∀ fuel', fuel ≤ fuel' →
       get_leaf_instance_nodes netlist fuel' s top = Ok leaves)
    ∧ NoDup leaves
    ∧ ∀ x, x ∈ leaves ↔ visited netlist s top x ∧ leaf_node netlist s x.
Proof.
  intros Hgen.
  destruct (generate_nodes_tree _ _ _ _ _ Hgen) as (_ & _ & Hok & _).
  destruct (tree_root _ _ _ Hok) as (rd & Hrd & _).
  destruct (get_leaf_instance_nodes_halts netlist s top Hok _ _ Hrd)
    as (fuel & leaves & Hleaves).
  exists fuel, leaves. split_and!.
  - intros fuel' Hle. by apply (leaf_loop_fuel netlist fuel s [top] [] leaves).
  - apply (leaf_loop_NoDup netlist s top Hok fuel [top] [] leaves); [|done].
    split_and!; [constructor|apply NoDup_singleton| |].
    + by intros m1 m2 ->%list_elem_of_singleton ->%list_elem_of_singleton.
    + by intros a m ?%elem_of_nil.
  - by apply (get_leaf_instance_nodes_spec netlist fuel s top leaves).
Qed.

(** * The dictionaries keep the order of the netlist *)

Lemma dict_set_fresh {V} (d : list (Element * V)) k v :
  k ∉ d.*1 → dict_set d k v = d ++ [(k, v)].
Proof.
  induction d as [|[k0 v0] d IH]; simpl; [done|].
  intros [Hk Hd]%not_elem_of_cons.
  rewrite decide_False by done. by rewrite IH.
Qed.

Section Order.
Context (netlist : Netlist).
Hypothesis Hnd : listed_once netlist.

Lemma expand_keys m es : ∀ s st md,
  node s m = Some md → NoDup ((children md).*1 ++ es) →
  ∃ md', node (foldl (new_child m) (s, st) es).1 m = Some md'
         ∧ (children md').*1 = (children md).*1 ++ es.
Proof.
  induction es as [|e es IH]; intros s st md Hm Hdup; simpl.
  - exists md. by rewrite app_nil_r.
  - pose proof (node_Some_lt _ _ _ Hm) as Hlt.
    assert (node (new_child m (s, st) e).1 m
            = Some (with_child e (limit s) md)) as Hm'.
    { rewrite node_new_child by lia.
      rewrite decide_False by lia. rewrite decide_True by done.
      by rewrite Hm. }
    assert ((children (with_child e (limit s) md)).*1
            = (children md).*1 ++ [e]) as Hk.
    { simpl. rewrite dict_set_fresh, fmap_app; [done|].
      apply NoDup_app in Hdup as (_ & Hdis & _).
      intros Hin. apply (Hdis e Hin). left. }
    destruct (new_child m (s, st) e) as [s1 st1] eqn:Hnc. simpl in Hm'.
    destruct (IH s1 st1 _ Hm') as (md' & ? & Hk').
    { rewrite Hk, <-app_assoc. done. }
    exists md'. split; [done|]. by rewrite Hk', Hk, <-app_assoc.
Qed.

Lemma in_order_step s m rest md top :
  gen_inv netlist s (m :: rest) top → reg_inv s (m :: rest) →
  in_order netlist s (m :: rest) → node s m = Some md →
  let r := generate_step netlist s rest m (item md) in
  in_order netlist r.1 r.2.
Proof using Hnd.
  intros (Hok & Hst & Hexp) (Hreg & Hdup & Hfresh) Hord Hm.
  rewrite generate_step_foldl.
  set (es := elements_of netlist (item md)).
  pose proof (expand_spec m es s rest md Hm) as
    (Hb & Hl & Hst' & Hfr & (md' & Hm' & Hp' & Hi' & Hk & Hv) & Hnew).
  pose proof (node_Some_lt _ _ _ Hm) as Hlt.
  apply NoDup_cons in Hdup as [Hm_rest Hdup].
  assert (∀ n, n ∈ rest → n < limit s) as Hrest.
  { intros n Hn. destruct (Hst n) as [nd Hnd']; [by right|].
    by apply node_Some_lt in Hnd' as [? ?]. }
  destruct (Hord _ _ Hm) as [Hnil _]. specialize (Hnil ltac:(left)).
  destruct (expand_keys m es s rest md Hm) as (md2 & Hm2 & Hkeys).
  { rewrite Hnil. simpl. apply Hnd. }
  assert (md2 = md') as -> by congruence.
  cbv zeta. intros n nd Hn.
  pose proof (node_Some_lt _ _ _ Hn) as Hlt'. rewrite Hl in Hlt'.
  rewrite Hst', elem_of_app, elem_of_reverse, elem_of_seq.
  destruct (decide (limit s ≤ n)).
  - destruct (lookup_lt_is_Some_2 es (n - limit s)) as [e He]; [lia|].
    pose proof (Hnew _ _ He) as Hc'.
    replace (limit s + (n - limit s)) with n in Hc' by lia.
    assert (nd = mkNode (Some m) e []) as -> by congruence.
    split; [done|]. intros Hnot. exfalso. apply Hnot. left. lia.
  - destruct (decide (n = m)) as [->|?].
    + assert (nd = md') as -> by congruence. split.
      * intros [[? ?]|?]; [lia|done].
      * intros _. rewrite Hkeys, Hnil, Hi'. done.
    + rewrite Hfr in Hn by lia. destruct (Hord _ _ Hn) as [H1 H2]. split.
      * intros [[? ?]|?]; [lia|]. apply H1. by right.
      * intros Hnot. apply H2. intros [->|?]%elem_of_cons; [done|].
        apply Hnot. by right.
Qed.

Lemma generate_loop_in_order top fuel : ∀ s stack s',
  gen_inv netlist s stack top → reg_inv s stack → in_order netlist s stack →
  generate_loop netlist fuel s stack = Ok s' →
  ∀ n nd, node s' n = Some nd →
          (children nd).*1 = elements_of netlist (item nd).
Proof using Hnd.
  induction fuel as [|fuel IH]; intros s stack s' Hinv Hreg Hord; simpl; [done|].
  destruct stack as [|m rest].
  - intros [= <-] n nd Hn. apply (Hord _ _ Hn), not_elem_of_nil.
  - intros (md & Hget & Hloop)%bind_Ok.
    unfold get in Hget. destruct (node s m) as [md0|] eqn:Hm; [|done].
    injection Hget as ->.
    pose proof (gen_inv_step _ _ _ _ _ _ Hinv Hm) as Hinv'.
    pose proof (reg_inv_step _ _ _ _ _ _ Hnd Hinv Hreg Hm) as Hreg'.
    pose proof (in_order_step _ _ _ _ _ Hinv Hreg Hord Hm) as Hord'.
    destruct (generate_step netlist s rest m (item md)) as [s1 st1].
    by eapply IH.
Qed.

Lemma generate_nodes_in_order fuel counter top s :
  generate_nodes netlist fuel counter = Ok (top, s) →
  ∀ n nd, node s n = Some nd →
          (children nd).*1 = elements_of netlist (item nd).
Proof using Hnd.
  unfold generate_nodes. cbv zeta.
  assert ((alloc (mkStore counter [])
             (mkNode None (Instance (top_instance netlist)) [])).1 = counter)
    as -> by (unfold alloc, limit; simpl; lia).
  intros (s' & Hloop & [= <- <-])%bind_Ok.
  pose proof (tree_ok_init netlist counter) as Hinit.
  eapply generate_loop_in_order; [done| | |done].
  - split_and!.
    + by intros c cd p [-> ->]%node_init.
    + apply NoDup_singleton.
    + by intros m c cd _ [-> ->]%node_init.
  - intros n nd [-> ->]%node_init. split; [done|].
    intros Hnot. exfalso. apply Hnot. left.
Qed.
End Order.

Lemma dict_Forall2 {V} (d : list (Element * V)) (R : V → Element → Prop) :
  NoDup d.*1 → (∀ k v, dict_get d k = Some v → R v k) →
  Forall2 (λ kv e, kv.1 = e ∧ R kv.2 e) d d.*1.
Proof.
  intros Hdup HR. apply Forall2_fmap_r, Forall_Forall2_diag, Forall_forall.
  intros [k v] Hin. split; [done|]. simpl. by apply HR, dict_get_elem.
Qed.

Lemma Forall2_filter_Port {V} (Q : Element * V → Element → Prop) d es :
  (∀ kv e, Q kv e → kv.1 = e) → Forall2 Q d es →
  Forall2 Q (filter (λ kv, is_Port kv.1) d) (filter (λ e, is_Port e) es).
Proof.
  intros HQ. induction 1 as [|kv e d es Hq _ IH]; [constructor|].
  rewrite !filter_cons. rewrite (HQ _ _ Hq).
  destruct (decide (is_Port e)); [by constructor|done].
Qed.

Lemma filter_Port_elements netlist i :
  filter (λ e, is_Port e) (elements_of netlist (Instance i))
  = Port <$> ports netlist (reference netlist i).
Proof.
  simpl. rewrite !filter_app.
  assert (∀ l, filter (λ e, is_Port e) (Port <$> l) = Port <$> l) as ->.
  { induction l as [|p l IH]; [done|].
    rewrite fmap_cons, filter_cons. simpl. by rewrite IH. }
  assert (∀ l, filter (λ e, is_Port e) (Cable <$> l) = []) as ->.
  { induction l as [|p l IH]; [done|]. by rewrite fmap_cons, filter_cons. }
  assert (∀ l, filter (λ e, is_Port e) (Instance <$> l) = []) as ->.
  { induction l as [|p l IH]; [done|]. by rewrite fmap_cons, filter_cons. }
  by rewrite !app_nil_r.
Qed.

(** The dictionary [children] of every node that [generate_nodes] built
    lists the elements under the node's item in the order of the netlist
    (for an instance: the ports of its reference, then the cables, then the
    child instances; for a port its pins; for a cable its wires), each once,
    and maps each of them to a node that wraps it and has the node as its
    parent; pins and wires have no children. *)
Theorem children_follow_netlist_order netlist fuel counter top s n nd :
  listed_once netlist →
  generate_nodes netlist fuel counter = Ok (top, s) →
  node s n = Some nd →
  Forall2 (λ kv e, kv.1 = e
                   ∧ ∃ cd, node s kv.2 = Some cd ∧ parent cd = Some n
                           ∧ item cd = e)
          (children nd) (elements_of netlist (item nd)).
Proof.
  intros Hnd Hgen Hn.
  destruct (generate_nodes_tree _ _ _ _ _ Hgen) as (_ & _ & Hok & _).
  rewrite <-(generate_nodes_in_order _ Hnd _ _ _ _ Hgen _ _ Hn).
  apply (dict_Forall2 (children nd)
           (λ c e, ∃ cd, node s c = Some cd ∧ parent cd = Some n ∧ item cd = e)).
  - by eapply tree_dict.
  - intros k v Hkv. by eapply tree_child.
Qed.

(** [get_top_port_nodes] on the tree of [generate_nodes] returns one node
    for each port of the top definition, in the order in which the
    definition lists its ports: the k-th node returned wraps the k-th
    port and is a child of the top node. *)
Theorem top_port_nodes_in_port_order netlist fuel counter top s :
  listed_once netlist →
  generate_nodes netlist fuel counter = Ok (top, s) →
  ∃ tops,
    get_top_port_nodes s top = Ok tops
    ∧ Forall2 (λ t p, ∃ td, node s t = Some td ∧ parent td = Some top
                            ∧ item td = Port p)
              tops (ports netlist (reference netlist (top_instance netlist))).
Proof.
  intros Hnd Hgen.
  destruct (generate_nodes_tree _ _ _ _ _ Hgen) as (_ & _ & Hok & _).
  destruct (tree_root _ _ _ Hok) as (rd & Hrd & _ & Hri).
  unfold get_top_port_nodes, get. rewrite Hrd. simpl. eexists. split; [done|].
  assert (Forall2 (λ kv e, kv.1 = e
                           ∧ ∃ cd, node s kv.2 = Some cd
                                   ∧ parent cd = Some top ∧ item cd = e)
            (children rd) (elements_of netlist (item rd))) as Hall.
  { rewrite <-(generate_nodes_in_order _ Hnd _ _ _ _ Hgen _ _ Hrd).
    apply (dict_Forall2 (children rd)
             (λ c e, ∃ cd, node s c = Some cd ∧ parent cd = Some top
                           ∧ item cd = e)).
    - by eapply tree_dict.
    - intros k v Hkv. by eapply tree_child. }
  apply Forall2_filter_Port in Hall; [|by intros ?? [? _]].
  rewrite Hri, filter_Port_elements in Hall.
  apply Forall2_fmap_l. apply Forall2_fmap_r in Hall.
  eapply Forall2_impl; [exact Hall|].
  intros [k t] p [_ ?]. done.
Qed.

(** * Two calls in a row: with and without top ports *)

(** A call from the counter [c] is the call from [0] with every address
    moved by [c]. *)
Lemma get_connectivity_graph_from_zero netlist fuel flag c g s :
  get_connectivity_graph netlist fuel flag c = Ok (g, s) →
  ∃ g0 s0,
    get_connectivity_graph netlist fuel flag 0 = Ok (g0, s0)
    ∧ g = shift_graph c g0 ∧ s = shift_store c s0.
Proof.
  change c with (shift c 0) at 1. rewrite get_connectivity_graph_shift.
  destruct (get_connectivity_graph netlist fuel flag 0) as [[g0 s0]|e|];
    simpl; [|done..].
  intros [= <- <-]. by exists g0, s0.
Qed.

Lemma paths_of_shifted_nodes δ s (l : list nat) :
  path (shift_store δ s) <$> (shift δ <$> l) = path s <$> l.
Proof.
  rewrite <-list_fmap_compose. apply list_fmap_ext.
  intros _ n _. apply path_shift.
Qed.

Lemma paths_of_shifted_edges δ s (l : list (nat * nat)) :
  prod_map (path (shift_store δ s)) (path (shift_store δ s))
    <$> (prod_map (shift δ) (shift δ) <$> l)
  = prod_map (path s) (path s) <$> l.
Proof.
  rewrite <-list_fmap_compose. apply list_fmap_ext.
  intros _ [u v] _. simpl. by rewrite !path_shift.
Qed.

Lemma remove_nodes_shift δ tops g :
  remove_nodes (shift δ <$> tops) (shift_graph δ g)
  = shift_graph δ (remove_nodes tops g).
Proof.
  assert (∀ n, shift δ n ∈ shift δ <$> tops ↔ n ∈ tops) as Hin.
  { intros n. rewrite list_elem_of_fmap. split; [|by eauto].
    intros (m & Hm & ?). unfold shift in Hm.
    by replace n with m by lia. }
  unfold remove_nodes, shift_graph. simpl. f_equal.
  - induction (g_nodes g) as [|n l IH]; [done|].
    rewrite fmap_cons, !filter_cons, IH.
    destruct (decide (n ∉ tops)) as [Hn|Hn].
    + rewrite decide_True by by rewrite Hin. done.
    + rewrite decide_False by by rewrite Hin. done.
  - induction (g_edges g) as [|[u v] l IH]; [done|].
    rewrite fmap_cons, !filter_cons, IH. simpl.
    destruct (decide (u ∉ tops ∧ v ∉ tops)) as [Hn|Hn].
    + rewrite decide_True by by rewrite !Hin. done.
    + rewrite decide_False by by rewrite !Hin. done.
Qed.

(** C2, as the code has it.  Each call of [get_connectivity_graph]
    builds its own tree of Node objects, so the graph of a call without
    top ports shares no node with the graph of a call with them.  For
    every netlist and any two allocation counters [cT] and [cF]: when the
    call with top ports returns a graph, the call without top ports
    returns too; its graph has no more nodes and no more edges; and it
    is the graph with top ports, less the top port nodes and every edge
    incident to one of them, up to the addresses of the nodes: both are
    copies of one graph, and they have the same nodes and the same edges
    once every node is named by its hierarchical path.  A leaf definition
    is "a circuit definition with no internal instances". *)
Theorem top_ports_monotone netlist fuel cT cF gT sT :
  leaf_childless netlist →
  get_connectivity_graph netlist fuel true cT = Ok (gT, sT) →
  ∃ tops gF sF,
    get_top_port_nodes sT cT = Ok tops
    ∧ get_connectivity_graph netlist fuel false cF = Ok (gF, sF)
    ∧ number_of_nodes gF ≤ number_of_nodes gT
    ∧ number_of_edges gF ≤ number_of_edges gT
    ∧ (∃ g0, remove_nodes tops gT = shift_graph cT g0
             ∧ gF = shift_graph cF g0)
    ∧ path sF <$> g_nodes gF = path sT <$> g_nodes (remove_nodes tops gT)
    ∧ prod_map (path sF) (path sF) <$> g_edges gF
      = prod_map (path sT) (path sT) <$> g_edges (remove_nodes tops gT).
Proof.
  intros Hleaf HT.
  destruct (get_connectivity_graph_from_zero _ _ _ _ _ _ HT)
    as (gT0 & s0 & HT0 & -> & ->).
  destruct (without_top_ports _ _ _ _ _ Hleaf HT0)
    as (top & tops0 & Hgen & Ht0 & HF0).
  destruct (generate_nodes_tree _ _ _ _ _ Hgen) as (-> & _).
  exists (shift cT <$> tops0), (shift_graph cF (remove_nodes tops0 gT0)),
         (shift_store cF s0).
  rewrite remove_nodes_shift.
  split_and!.
  - change cT with (shift cT 0) at 2.
    by rewrite get_top_port_nodes_shift, Ht0.
  - change cF with (shift cF 0) at 1.
    by rewrite get_connectivity_graph_shift, HF0.
  - rewrite !number_of_nodes_shift. apply length_filter.
  - rewrite !number_of_edges_shift. apply length_filter.
  - by exists (remove_nodes tops0 gT0).
  - unfold shift_graph. simpl. by rewrite !paths_of_shifted_nodes.
  - unfold shift_graph. simpl. by rewrite !paths_of_shifted_edges.
Qed.

(** Within one call, the top port nodes come after the nodes of the leaf
    instances in the node list of the graph. *)
Lemma top_port_nodes_appended netlist fuel counter gT s tops :
  leaf_childless netlist →
  get_connectivity_graph netlist fuel true counter = Ok (gT, s) →
  get_top_port_nodes s counter = Ok tops →
  g_nodes gT = g_nodes (remove_nodes tops gT) ++ tops.
Proof.
  intros Hleaf Hg Ht.
  destruct (get_connectivity_graph_Ok _ _ _ _ _ _ Hg)
    as (top & leaves & tops' & Hgen & Hl & Ht' & Hfold).
  destruct (generate_nodes_tree _ _ _ _ _ Hgen) as (-> & _ & Hok & Hexp).
  assert (tops' = tops) as -> by congruence.
  cbv zeta in Hfold.
  set (g0 := add_nodes_from (mkDiGraph [] []) leaves) in *.
  set (g1 := add_nodes_from g0 tops) in *.
  assert (∀ n, n ∈ g_nodes g0 → n ∉ tops) as Hdisj.
  { intros n Hn. unfold g0 in Hn. rewrite add_nodes_from_nodes in Hn.
    destruct Hn as [[]%elem_of_nil|Hn].
    apply (get_leaf_instance_nodes_spec _ _ _ _ _ Hok Hl) in Hn
      as [_ (nd & i & Hnd & Hi & _)].
    intros (td & p & Htd & Hd)%(get_top_port_nodes_spec netlist _ _ _ Hok Ht).
    destruct (tree_child _ _ _ Hok _ _ _ _ Htd Hd) as (cd & ? & ? & ?).
    congruence. }
  assert (g_nodes g1 = g_nodes g0 ++ tops) as Hg1.
  { apply add_nodes_from_fresh; [by eapply top_port_nodes_NoDup|].
    intros x Hx Hx0. by apply (Hdisj x). }
  assert (g_nodes gT = g_nodes g1) as HgT.
  { apply (connect_keeps_nodes netlist s fuel true _ _ _ ltac:(done))
      in Hfold; [done|].
    intros n ds d Hn Hds Hd. apply (initial_nodes leaves tops true d).
    apply (selected_list netlist s counter true leaves tops fuel d Hok Hl Ht).
    eapply get_downstream_nodes_selected; [done..| |done|done].
    apply (selected_list netlist s counter true leaves tops fuel n Hok Hl Ht).
    by apply (initial_nodes leaves tops true n). }
  unfold remove_nodes. simpl. rewrite HgT, Hg1, filter_app.
  rewrite filter_all by (intros x ?; by apply Hdisj).
  rewrite filter_none by (intros x ? Hn; by apply Hn).
  by rewrite app_nil_r.
Qed.

(** The hierarchical paths of the top port nodes: the top instance, then
    the port, for each port of the top definition in turn. *)
Lemma top_port_paths netlist fuel counter top s tops :
  listed_once netlist →
  generate_nodes netlist fuel counter = Ok (top, s) →
  get_top_port_nodes s top = Ok tops →
  path s <$> tops
  = (λ p, [Instance (top_instance netlist); Port p])
      <$> ports netlist (reference netlist (top_instance netlist)).
Proof.
  intros Hnd Hgen Ht.
  destruct (generate_nodes_tree _ _ _ _ _ Hgen) as (_ & _ & Hok & _).
  destruct (tree_root _ _ _ Hok) as (rd & Hrd & Hrp & Hri).
  unfold get_top_port_nodes, get in Ht. rewrite Hrd in Ht. simpl in Ht.
  injection Ht as <-.
  assert (Forall2 (λ kv e, kv.1 = e
                           ∧ ∃ cd, node s kv.2 = Some cd
                                   ∧ parent cd = Some top ∧ item cd = e)
            (children rd) (elements_of netlist (item rd))) as Hall.
  { rewrite <-(generate_nodes_in_order _ Hnd _ _ _ _ Hgen _ _ Hrd).
    apply (dict_Forall2 (children rd)
             (λ c e, ∃ cd, node s c = Some cd ∧ parent cd = Some top
                           ∧ item cd = e)).
    - by eapply tree_dict.
    - intros k v Hkv. by eapply tree_child. }
  apply Forall2_filter_Port in Hall; [|by intros ?? [? _]].
  rewrite Hri, filter_Port_elements in Hall.
  apply Forall2_fmap_r in Hall.
  rewrite <-list_fmap_compose.
  induction Hall as [|[k t] p d ps [_ (td & Htd & Htp & Hti)] _ IH]; [done|].
  rewrite !fmap_cons, IH. f_equal. simpl.
  rewrite (path_child netlist s top Hok t td top Htd Htp).
  rewrite (path_orphan s top rd Hrd Hrp). by rewrite Hri, Hti.
Qed.

(** Enabling top ports adds one graph node for each port of the top
    definition, after the others, and removes none.  The two graphs come
    from two calls and share no Node object; on a netlist that lists no
    element twice and whose leaf definitions have no child instances,
    the number of nodes of the graph with top ports is the number of
    nodes of the graph without them plus the number of ports of the top
    definition, and the hierarchical paths of its nodes are those of the
    nodes of the graph without top ports, in the same order, followed by
    the path of each port of the top definition in turn. *)
Theorem top_ports_add_their_nodes netlist fuel cT cF gT sT gF sF :
  leaf_childless netlist → listed_once netlist →
  get_connectivity_graph netlist fuel true cT = Ok (gT, sT) →
  get_connectivity_graph netlist fuel false cF = Ok (gF, sF) →
  number_of_nodes gT
  = number_of_nodes gF
    + length (ports netlist (reference netlist (top_instance netlist)))
  ∧ path sT <$> g_nodes gT
    = (path sF <$> g_nodes gF)
      ++ ((λ p, [Instance (top_instance netlist); Port p])
            <$> ports netlist (reference netlist (top_instance netlist))).
Proof.
  intros Hleaf Hnd HT HF.
  destruct (get_connectivity_graph_from_zero _ _ _ _ _ _ HT)
    as (gT0 & s0 & HT0 & -> & ->).
  destruct (get_connectivity_graph_from_zero _ _ _ _ _ _ HF)
    as (gF0 & sF0 & HF0 & -> & ->).
  destruct (without_top_ports _ _ _ _ _ Hleaf HT0)
    as (top & tops & Hgen & Ht & HF0').
  rewrite HF0 in HF0'. injection HF0' as -> ->.
  destruct (generate_nodes_tree _ _ _ _ _ Hgen) as (-> & _).
  pose proof (top_port_nodes_appended _ _ _ _ _ _ Hleaf HT0 Ht) as Hnodes.
  pose proof (top_port_paths _ _ _ _ _ _ Hnd Hgen Ht) as Hpaths.
  assert (path s0 <$> g_nodes gT0
          = (path s0 <$> g_nodes (remove_nodes tops gT0))
            ++ ((λ p, [Instance (top_instance netlist); Port p])
                  <$> ports netlist (reference netlist (top_instance netlist))))
    as Hall by (by rewrite Hnodes at 1; rewrite fmap_app, Hpaths).
  split.
  - rewrite !number_of_nodes_shift. unfold number_of_nodes.
    apply (f_equal length) in Hall.
    by rewrite length_app, !length_fmap in Hall.
  - unfold shift_graph. simpl. by rewrite !paths_of_shifted_nodes.
Qed.

(** * The seed step *)

Section SeedStep.
Context (netlist : Netlist) (s : Store) (top : nat).
Hypothesis Hok : tree_ok netlist s top.

Lemma seed_instance_pins_exact n par pins : ∀ st st' acc,
  fold_result (seed_instance_pin netlist s n (Some par)) st pins = Ok st' →
  Forall2 (wire_node netlist s par) acc (reverse (search_stack st)) →
  Forall2 (wire_node netlist s par)
    (acc ++ omap (λ o, if drives (direction netlist
                                    (port netlist (inner_pin netlist o)))
                       then outer_wire netlist o else None) pins)
    (reverse (search_stack st'))
  ∧ downstream_nodes st' = downstream_nodes st.
Proof using Hok.
  induction pins as [|pin pins IH]; intros st st' acc; simpl.
  - intros [= <-]. by rewrite app_nil_r.
  - intros (st1 & H1 & H2)%bind_Ok Hacc. unfold seed_instance_pin in H1.
    destruct (outer_wire netlist pin) as [w|] eqn:Hw.
    + destruct (drives _) eqn:Hd.
      * apply bind_Ok in H1 as (? & _ & H1).
        apply bind_Ok in H1 as (pn & _ & H1).
        apply bind_Ok in H1 as (cn & Hcn & H1).
        apply bind_Ok in H1 as (wn & Hwn & H1).
        injection H1 as <-.
        apply (child_of_kid netlist _ top) in Hcn as (? & [= <-] & Hcn);
          [|done].
        apply (child_of_kid netlist _ top) in Hwn as (? & [= <-] & Hwn);
          [|done].
        rewrite cons_middle, app_assoc.
        destruct (IH _ _ (acc ++ [w]) H2) as [? ?]; [|done].
        simpl. rewrite reverse_cons. apply Forall2_app; [done|].
        constructor; [|done]. by exists cn.
      * injection H1 as <-. by apply (IH _ _ _ H2).
    + injection H1 as <-. rewrite Tauto.if_same. by apply (IH _ _ _ H2).
Qed.

Lemma seed_port_pins_exact n par pins : ∀ st st' acc,
  fold_result (seed_port_pin netlist s n (Some par)) st pins = Ok st' →
  Forall2 (wire_node netlist s par) acc (reverse (search_stack st)) →
  Forall2 (wire_node netlist s par)
    (acc ++ omap (inner_wire netlist) pins) (reverse (search_stack st'))
  ∧ downstream_nodes st' = downstream_nodes st.
Proof using Hok.
  induction pins as [|pin pins IH]; intros st st' acc; simpl.
  - intros [= <-]. by rewrite app_nil_r.
  - intros (st1 & H1 & H2)%bind_Ok Hacc. unfold seed_port_pin in H1.
    destruct (inner_wire netlist pin) as [w|] eqn:Hw.
    + apply bind_Ok in H1 as (pn & _ & H1).
      apply bind_Ok in H1 as (cn & Hcn & H1).
      apply bind_Ok in H1 as (wn & Hwn & H1).
      injection H1 as <-.
      apply (child_of_kid netlist _ top) in Hcn as (? & [= <-] & Hcn);
        [|done].
      apply (child_of_kid netlist _ top) in Hwn as (? & [= <-] & Hwn);
        [|done].
      rewrite cons_middle, app_assoc.
      destruct (IH _ _ (acc ++ [w]) H2) as [? ?]; [|done].
      simpl. rewrite reverse_cons. apply Forall2_app; [done|].
      constructor; [|done]. by exists cn.
    + injection H1 as <-. by apply (IH _ _ _ H2).
Qed.
End SeedStep.

(** C4, as the code has it.  The seed step of [get_downstream_nodes] on
    a node of the tree, for a netlist with consistent cross-references
    that lists no element twice.  If the node wraps an instance and has
    a parent node, the step returns, and the wire nodes it has pushed
    are, in order, the nodes in the parent instance of exactly the wires
    attached to the pins of the instance whose inner pin belongs to a
    port of direction OUT or INOUT and whose wire is not [None].  If the
    node wraps a top-level port and [include_top_ports] is true, they
    are the nodes in the top instance of the wires of the pins of the
    port that have one when the direction of the port is IN or INOUT,
    and none otherwise, and then the list returned is empty.  For a node
    that wraps a cable, a wire or a pin, and for a port node when
    [include_top_ports] is false, no seed is recorded and the list
    returned is empty.  Nothing is said of the root node, which has no
    parent, nor of a port node below the top level when
    [include_top_ports] is true. *)
Theorem seed_step netlist fuel counter top s n nd flag :
  listed_once netlist → consistent netlist →
  generate_nodes netlist fuel counter = Ok (top, s) →
  node s n = Some nd →
  match item nd with
  | Instance i =>
      ∀ par, parent nd = Some par →
      ∃ st, seeds netlist s n flag = Ok st
        ∧ Forall2 (wire_node netlist s par)
            (omap (λ o, if drives (direction netlist
                                     (port netlist (inner_pin netlist o)))
                        then outer_wire netlist o else None)
                  (instance_pins netlist i))
            (reverse (search_stack st))
        ∧ downstream_nodes st = []
  | Port p =>
      if flag then
        parent nd = Some top →
        ∃ st, seeds netlist s n flag = Ok st
          ∧ Forall2 (wire_node netlist s top)
              (if receives (direction netlist p)
               then omap (inner_wire netlist) (port_pins netlist p) else [])
              (reverse (search_stack st))
          ∧ downstream_nodes st = []
          ∧ (receives (direction netlist p) = false →
             ∀ fuel', get_downstream_nodes netlist (S fuel') s n flag = Ok [])
      else
        seeds netlist s n flag = Ok (mkSearch ∅ [] [])
        ∧ ∀ fuel', get_downstream_nodes netlist (S fuel') s n flag = Ok []
  | _ =>
      seeds netlist s n flag = Ok (mkSearch ∅ [] [])
      ∧ ∀ fuel', get_downstream_nodes netlist (S fuel') s n flag = Ok []
  end.
Proof.
  intros Hlist Hcons Hgen Hn.
  destruct (generate_nodes_tree _ _ _ _ _ Hgen) as (_ & _ & Hok & Hexp).
  pose proof (generate_nodes_registered _ _ _ _ _ Hlist Hgen) as Hreg.
  assert (wires_only s (mkSearch ∅ [] [])) as Hnil
    by (by intros x ?%elem_of_nil).
  unfold get_downstream_nodes, seeds, get. rewrite Hn. simpl.
  destruct (item nd) as [i|p|c|w|p] eqn:Hit; try done.
  - intros par Hpar. rewrite Hpar.
    destruct (instance_parent netlist s top Hok Hreg _ _ _ _ Hn Hit Hpar)
      as (pard & j & Hpard & Hj & Hin).
    destruct (seed_instance_pins_return netlist s top Hok Hexp Hcons
                n nd i par pard j (instance_pins netlist i) (mkSearch ∅ [] [])
                Hn Hit Hpard Hj Hin ltac:(done) Hnil) as (st & Hst & _).
    exists st. split; [done|].
    by apply (seed_instance_pins_exact netlist s top Hok _ _ _ _ _ [] Hst).
  - destruct flag; [|done]. intros Hpar. rewrite Hpar.
    destruct (receives (direction netlist p)) eqn:Hrec.
    + destruct (Hreg _ _ _ Hn Hpar) as (td & Htd & Hd). rewrite Hit in Hd.
      destruct (tree_root _ _ _ Hok) as (rd & Hrd & _ & Hri).
      assert (td = rd) as -> by congruence.
      assert (Port p ∈ elements_of netlist (item rd)) as Hin
        by (eapply tree_keys; [done..|by rewrite Hd]).
      rewrite Hri in Hin. apply elements_of_Port in Hin as (? & [= <-] & Hin).
      destruct (seed_port_pins_return netlist s top Hok Hexp Hcons
                  n nd p (port_pins netlist p) (mkSearch ∅ [] [])
                  Hn Hit Hin ltac:(done) Hnil) as (st & Hst & _).
      exists st. split; [done|]. split_and!; [| |done].
      * by apply (seed_port_pins_exact netlist s top Hok _ _ _ _ _ [] Hst).
      * by apply (seed_port_pins_exact netlist s top Hok _ _ _ _ _ [] Hst).
    + eexists. split; [done|]. split_and!; [constructor|done|done].
Qed.

(** * One node for each listed element *)

Lemma cells_new_child m s st e :
  (new_child m (s, st) e).1
  = set_child (mkStore (base s) (cells s ++ [mkNode (Some m) e []])) m e (limit s).
Proof. done. Qed.

Lemma new_child_items m s st e n :
  child_items (new_child m (s, st) e).1 n
  = child_items s n ++ (if decide (m = n) then [e] else []).
Proof.
  rewrite cells_new_child. unfold child_items, set_child. cbn [base cells].
  assert (∀ (i : nat) (l : list Node), item <$> filter (λ cd, parent cd = Some n)
                            (alter (with_child e (limit s)) i l)
                 = item <$> filter (λ cd, parent cd = Some n) l) as Halter.
  { intros i l. revert i. induction l as [|cd l IH]; intros i; [done|].
    destruct i as [|i].
    - change (alter (with_child e (limit s)) 0 (cd :: l))
        with (with_child e (limit s) cd :: l).
      rewrite !filter_cons. simpl.
      destruct (decide (parent cd = Some n)); by rewrite ?fmap_cons.
    - change (alter (with_child e (limit s)) (S i) (cd :: l))
        with (cd :: alter (with_child e (limit s)) i l).
      rewrite !filter_cons.
      destruct (decide (parent cd = Some n)); by rewrite ?fmap_cons, IH. }
  assert (item <$> filter (λ cd, parent cd = Some n)
                     (cells s ++ [mkNode (Some m) e []])
          = (item <$> filter (λ cd, parent cd = Some n) (cells s))
            ++ (if decide (m = n) then [e] else [])) as Happ.
  { rewrite filter_app, fmap_app. f_equal.
    rewrite filter_cons. simpl.
    destruct (decide (m = n)) as [->|?].
    - by rewrite decide_True.
    - rewrite decide_False; [done|]. by intros [= ?]. }
  destruct (decide (base s ≤ m)); cbn [cells]; by rewrite ?Halter.
Qed.

Lemma expand_items m es n : ∀ s st,
  child_items (foldl (new_child m) (s, st) es).1 n
  = child_items s n ++ (if decide (m = n) then es else []).
Proof.
  induction es as [|e es IH]; intros s st; simpl.
  - destruct (decide (m = n)); by rewrite app_nil_r.
  - destruct (new_child m (s, st) e) as [s1 st1] eqn:Hnc.
    rewrite IH. replace s1 with (new_child m (s, st) e).1 by by rewrite Hnc.
    rewrite new_child_items, <-app_assoc. by destruct (decide (m = n)).
Qed.

Section Born.
Context (netlist : Netlist).

(** No node has a parent that is not a node. *)
Lemma child_items_fresh s top n :
  tree_ok netlist s top → node s n = None → child_items s n = [].
Proof.
  intros Hok Hn. unfold child_items.
  rewrite filter_none; [done|].
  intros cd [i Hi]%list_elem_of_lookup_1 Hp.
  assert (node s (base s + i) = Some cd) as Hc.
  { unfold node. rewrite decide_True by lia.
    by replace (base s + i - base s) with i by lia. }
  destruct (tree_parent _ _ _ Hok _ _ _ Hc Hp) as [_ [? ?]]. congruence.
Qed.

Lemma born_step s m rest md top :
  gen_inv netlist s (m :: rest) top → born netlist s (m :: rest) →
  node s m = Some md →
  let r := generate_step netlist s rest m (item md) in
  born netlist r.1 r.2.
Proof.
  intros (Hok & Hst & Hexp) (Hdup & Hborn) Hm.
  rewrite generate_step_foldl.
  set (es := elements_of netlist (item md)).
  pose proof (expand_spec m es s rest md Hm) as
    (Hb & Hl & Hst' & Hfr & (md' & Hm' & Hp' & Hi' & Hk & Hv) & Hnew).
  pose proof (node_Some_lt _ _ _ Hm) as Hlt.
  apply NoDup_cons in Hdup as [Hm_rest Hdup].
  assert (∀ n, n ∈ rest → n < limit s) as Hrest.
  { intros n Hn. destruct (Hst n) as [nd Hnd']; [by right|].
    by apply node_Some_lt in Hnd' as [? ?]. }
  cbv zeta. split.
  - rewrite Hst'. apply NoDup_app. split_and!.
    + rewrite reverse_Permutation. apply NoDup_seq.
    + intros n. rewrite elem_of_reverse, elem_of_seq. intros [? ?] ?%Hrest. lia.
    + done.
  - intros n nd Hn. rewrite expand_items.
    pose proof (node_Some_lt _ _ _ Hn) as Hlt'. rewrite Hl in Hlt'.
    destruct (decide (limit s ≤ n)).
    + rewrite (child_items_fresh s top n Hok) by (apply node_limit_None; lia).
      rewrite decide_False by lia. rewrite decide_True; [done|].
      rewrite Hst', elem_of_app, elem_of_reverse, elem_of_seq. left. lia.
    + destruct (decide (n = m)) as [->|Hnm].
      * assert (nd = md') as -> by congruence.
        rewrite (Hborn _ _ Hm), decide_True by left. rewrite decide_True by done.
        rewrite decide_False; [by rewrite Hi'|].
        rewrite Hst', elem_of_app, elem_of_reverse, elem_of_seq.
        intros [[? ?]|?]; [lia|done].
      * rewrite Hfr in Hn by lia. rewrite (Hborn _ _ Hn).
        rewrite (decide_False (P := m = n)) by done. rewrite app_nil_r.
        destruct (decide (n ∈ m :: rest)) as [Hin|Hin].
        -- rewrite decide_True; [done|].
           rewrite Hst', elem_of_app. right.
           by apply elem_of_cons in Hin as [?|?].
        -- rewrite decide_False; [done|].
           rewrite Hst', elem_of_app, elem_of_reverse, elem_of_seq.
           intros [[? ?]|?]; [lia|]. apply Hin. by right.
Qed.

Lemma generate_loop_born top fuel : ∀ s stack s',
  gen_inv netlist s stack top → born netlist s stack →
  generate_loop netlist fuel s stack = Ok s' →
  ∀ n nd, node s' n = Some nd →
          child_items s' n = elements_of netlist (item nd).
Proof.
  induction fuel as [|fuel IH]; intros s stack s' Hinv Hborn; simpl; [done|].
  destruct stack as [|m rest].
  - intros [= <-] n nd Hn. destruct Hborn as [_ Hborn].
    rewrite (Hborn _ _ Hn). by rewrite decide_False by apply not_elem_of_nil.
  - intros (md & Hget & Hloop)%bind_Ok.
    unfold get in Hget. destruct (node s m) as [md0|] eqn:Hm; [|done].
    injection Hget as ->.
    pose proof (gen_inv_step _ _ _ _ _ _ Hinv Hm) as Hinv'.
    pose proof (born_step _ _ _ _ _ Hinv Hborn Hm) as Hborn'.
    destruct (generate_step netlist s rest m (item md)) as [s1 st1].
    by eapply IH.
Qed.

Lemma generate_nodes_born fuel counter top s :
  generate_nodes netlist fuel counter = Ok (top, s) →
  ∀ n nd, node s n = Some nd →
          child_items s n = elements_of netlist (item nd).
Proof.
  unfold generate_nodes. cbv zeta.
  assert ((alloc (mkStore counter [])
             (mkNode None (Instance (top_instance netlist)) [])).1 = counter)
    as -> by (unfold alloc, limit; simpl; lia).
  intros (s' & Hloop & [= <- <-])%bind_Ok.
  pose proof (tree_ok_init netlist counter) as Hinit.
  eapply generate_loop_born; [done| |done].
  split; [apply NoDup_singleton|].
  intros n nd [-> ->]%node_init. by rewrite decide_True by left.
Qed.

(** Where the nodes created under a node wrap pairwise different
    elements, a node is known by its parent and its element. *)
Lemma child_items_unique s n c1 c2 cd1 cd2 :
  NoDup (child_items s n) →
  node s c1 = Some cd1 → node s c2 = Some cd2 →
  parent cd1 = Some n → parent cd2 = Some n → item cd1 = item cd2 →
  c1 = c2.
Proof.
  unfold child_items, node. intros Hdup H1 H2 Hp1 Hp2 Hi.
  case_decide; [|done]. case_decide; [|done].
  assert (∀ (l : list Node) (i j : nat) x y, NoDup (item <$> filter (λ cd, parent cd = Some n) l) →
            l !! i = Some x → l !! j = Some y →
            parent x = Some n → parent y = Some n → item x = item y →
            i = j) as Hgen.
  { clear. induction l as [|a l IH]; intros i j x y Hdup Hi Hj Hx Hy Hxy;
      [done|].
    rewrite filter_cons in Hdup.
    destruct i as [|i], j as [|j]; simpl in *.
    - done.
    - injection Hi as <-. rewrite decide_True, fmap_cons in Hdup by done.
      apply NoDup_cons in Hdup as [Hnot _]. exfalso. apply Hnot.
      rewrite Hxy. apply list_elem_of_fmap_2, list_elem_of_filter.
      split; [done|]. by eapply list_elem_of_lookup_2.
    - injection Hj as <-. rewrite decide_True, fmap_cons in Hdup by done.
      apply NoDup_cons in Hdup as [Hnot _]. exfalso. apply Hnot.
      rewrite <-Hxy. apply list_elem_of_fmap_2, list_elem_of_filter.
      split; [done|]. by eapply list_elem_of_lookup_2.
    - f_equal. apply (IH i j x y); try done.
      destruct (decide (parent a = Some n)); [|done].
      rewrite fmap_cons in Hdup. by apply NoDup_cons in Hdup as [_ ?]. }
  pose proof (Hgen _ _ _ _ _ Hdup H1 H2 Hp1 Hp2 Hi). lia.
Qed.
End Born.

(** C10.  The tree built by [generate_nodes]: the root has parent [None]
    and wraps the top instance, and it is the only node without a
    parent.  For every node [n]: for every key [e] of [n.children], the
    child [c = n.children[e]] has [c.parent == n] and [c.item == e]; the
    keys are the elements listed under the item of [n], so each of them
    has a child; the nodes created with parent [n] wrap, in the order of
    their creation, exactly the listed elements, one node for each; and
    so, the listed elements being pairwise different, a node with parent
    [n] is the child registered for its element: there is exactly one
    node per (parent node, element) pair. *)
Theorem generate_nodes_parent_child netlist fuel counter top s :
  generate_nodes netlist fuel counter = Ok (top, s) →
  (∃ rd, node s top = Some rd ∧ parent rd = None
         ∧ item rd = Instance (top_instance netlist))
  ∧ (∀ n nd, node s n = Some nd → parent nd = None → n = top)
  ∧ ∀ n nd, node s n = Some nd →
      (∀ e c, dict_get (children nd) e = Some c →
         ∃ cd, node s c = Some cd ∧ parent cd = Some n ∧ item cd = e)
      ∧ (∀ e, e ∈ elements_of netlist (item nd)
              ↔ is_Some (dict_get (children nd) e))
      ∧ child_items s n = elements_of netlist (item nd)
      ∧ (NoDup (elements_of netlist (item nd)) →
         ∀ c cd, node s c = Some cd → parent cd = Some n →
                 dict_get (children nd) (item cd) = Some c).
Proof.
  intros Hgen.
  destruct (generate_nodes_tree _ _ _ _ _ Hgen) as (_ & _ & Hok & Hexp).
  pose proof (generate_nodes_born _ _ _ _ _ Hgen) as Hborn.
  split; [apply Hok|]. split; [apply Hok|].
  intros n nd Hn. split_and!.
  - intros e c. by eapply tree_child.
  - intros e. split; [by apply (Hexp n)|by eapply tree_keys].
  - by apply Hborn.
  - intros Hdup c cd Hc Hp.
    assert (item cd ∈ child_items s n) as Hin.
    { unfold child_items. apply list_elem_of_fmap_2, list_elem_of_filter.
      split; [done|]. unfold node in Hc. case_decide; [|done].
      by eapply list_elem_of_lookup_2. }
    rewrite (Hborn _ _ Hn) in Hin.
    destruct (Hexp n nd (item cd) Hn Hin) as [c' Hc'].
    destruct (tree_child _ _ _ Hok _ _ _ _ Hn Hc') as (cd' & Hcd' & Hp' & Hi').
    rewrite Hc'. f_equal.
    apply (child_items_unique s n c' c cd' cd); try done.
    by rewrite (Hborn _ _ Hn).
Qed.

(** ** The further properties, on the scenario netlists *)

Lemma edges_are_downstream_witness :
  get_connectivity_graph Scenario.netlist 30 true 0
  = Ok (Scenario.graph_with_ports, Scenario.store)
  ∧ ((6, 7) ∈ g_edges Scenario.graph_with_ports ↔
       ∃ top leaves tops ds,
         generate_nodes Scenario.netlist 30 0 = Ok (top, Scenario.store)
         ∧ get_leaf_instance_nodes Scenario.netlist 30 Scenario.store top = Ok leaves
         ∧ get_top_port_nodes Scenario.store top = Ok tops
         ∧ 6 ∈ leaves ++ tops
         ∧ get_downstream_nodes Scenario.netlist 30 Scenario.store 6 true = Ok ds
         ∧ 7 ∈ ds).
Proof.
  split; [vm_compute; reflexivity|].
  apply (edges_are_downstream Scenario.netlist 30 true 0
           Scenario.graph_with_ports Scenario.store 6 7).
  vm_compute; reflexivity.
Defined.

Lemma edge_sources_drive_witness :
  get_connectivity_graph Scenario.netlist 30 true 0
  = Ok (Scenario.graph_with_ports, Scenario.store)
  ∧ (1, 6) ∈ g_edges Scenario.graph_with_ports
  ∧ ∃ ud, node Scenario.store 1 = Some ud
      ∧ match item ud with
        | Instance i =>
            ∃ o w, o ∈ instance_pins Scenario.netlist i
              ∧ drives (direction Scenario.netlist
                          (port Scenario.netlist (inner_pin Scenario.netlist o)))
                = true
              ∧ outer_wire Scenario.netlist o = Some w
        | Port p =>
            true = true ∧ receives (direction Scenario.netlist p) = true
            ∧ ∃ q w, q ∈ port_pins Scenario.netlist p
                     ∧ inner_wire Scenario.netlist q = Some w
        | _ => False
        end.
Proof.
  assert ((1, 6) ∈ g_edges Scenario.graph_with_ports) as Hedge
    by (unfold Scenario.graph_with_ports; simpl; set_solver).
  split; [vm_compute; reflexivity|].
  split; [exact Hedge|].
  apply (edge_sources_drive Scenario.netlist 30 true 0
           Scenario.graph_with_ports Scenario.store 1 6).
  - vm_compute; reflexivity.
  - exact Hedge.
Defined.

Lemma direct_successors_witness :
  generate_nodes Scenario.netlist 30 0 = Ok (0, Scenario.store)
  ∧ node Scenario.store 6 = Some Scenario.A_node
  ∧ get_downstream_nodes Scenario.netlist 30 Scenario.store 6 true = Ok [6; 7]
  ∧ ∃ par pd d, parent Scenario.A_node = Some par
      ∧ node Scenario.store par = Some pd
      ∧ dict_get (children pd) (Instance (instance Scenario.netlist 2)) = Some d
      ∧ d ∈ [6; 7].
Proof.
  split; [vm_compute; reflexivity|].
  split; [vm_compute; reflexivity|].
  split; [vm_compute; reflexivity|].
  apply (direct_successors Scenario.netlist 30 0 0 Scenario.store 30 6
           Scenario.A_node 1 true [6; 7] 1 1 2).
  - vm_compute; reflexivity.
  - vm_compute; reflexivity.
  - reflexivity.
  - simpl. set_solver.
  - reflexivity.
  - reflexivity.
  - simpl. set_solver.
  - reflexivity.
  - vm_compute; reflexivity.
Defined.

Lemma driving_leaf_has_loop_witness :
  listed_once Scenario.netlist
  ∧ get_connectivity_graph Scenario.netlist 30 false 0
    = Ok (Scenario.graph_without_ports, Scenario.store)
  ∧ get_leaf_instance_nodes Scenario.netlist 30 Scenario.store 0 = Ok [7; 6]
  ∧ node Scenario.store 6 = Some Scenario.A_node
  ∧ Outer 1 ∈ wire_pins Scenario.netlist 1
  ∧ (∀ ds, get_downstream_nodes Scenario.netlist 30 Scenario.store 6 false = Ok ds →
           6 ∈ ds)
  ∧ (6, 6) ∈ g_edges Scenario.graph_without_ports.
Proof.
  split; [exact scenario_listed_once|].
  split; [vm_compute; reflexivity|].
  split; [vm_compute; reflexivity|].
  split; [vm_compute; reflexivity|].
  split; [simpl; set_solver|].
  apply (driving_leaf_has_loop Scenario.netlist 30 false 0
           Scenario.graph_without_ports Scenario.store [7; 6] 6
           Scenario.A_node 1 1 1).
  - exact scenario_listed_once.
  - vm_compute; reflexivity.
  - vm_compute; reflexivity.
  - set_solver.
  - vm_compute; reflexivity.
  - reflexivity.
  - simpl. set_solver.
  - reflexivity.
  - reflexivity.
  - reflexivity.
  - simpl. set_solver.
Defined.

Lemma feedback_listed_once : listed_once Feedback.netlist.
Proof.
  assert (∀ l : list Element, bool_decide (NoDup l) = true → NoDup l) as Hdec
    by (intros l; apply bool_decide_eq_true_1).
  intros [i|p|c|w|p]; simpl.
  - destruct i as [|[|[|i]]]; by apply Hdec.
  - destruct p as [|[|[|[|[|[|p]]]]]]; by apply Hdec.
  - destruct c as [|[|[|[|[|c]]]]]; by apply Hdec.
  - apply NoDup_nil_2.
  - apply NoDup_nil_2.
Qed.

Lemma one_node_per_path_witness :
  listed_once Feedback.netlist
  ∧ generate_nodes Feedback.netlist 60 0 = Ok (0, Feedback.store)
  ∧ (∀ l, hierarchical_path Feedback.netlist l ↔
          ∃ n nd, node Feedback.store n = Some nd ∧ path Feedback.store n = l)
  ∧ (∀ n1 n2 nd1 nd2,
       node Feedback.store n1 = Some nd1 → node Feedback.store n2 = Some nd2 →
       path Feedback.store n1 = path Feedback.store n2 → n1 = n2).
Proof.
  split; [exact feedback_listed_once|].
  split; [vm_compute; reflexivity|].
  apply (one_node_per_path Feedback.netlist 60 0 0 Feedback.store).
  - exact feedback_listed_once.
  - vm_compute; reflexivity.
Defined.

Lemma feedback_ranked : ranked Feedback.netlist (λ d, 2 - d).
Proof.
  intros [|[|d]] i; simpl.
  - intros [->|[->|[]%elem_of_nil]%elem_of_cons]%elem_of_cons; simpl; lia.
  - intros [->|[]%elem_of_nil]%elem_of_cons; simpl; lia.
  - intros []%elem_of_nil.
Qed.

Lemma get_connectivity_graph_terminates_witness :
  ranked Feedback.netlist (λ d, 2 - d)
  ∧ ∃ fuel r, r ≠ OutOfFuel
      ∧ ∀ fuel', fuel ≤ fuel' →
          get_connectivity_graph Feedback.netlist fuel' true 0 = r.
Proof.
  split; [exact feedback_ranked|].
  apply (get_connectivity_graph_terminates Feedback.netlist (λ d, 2 - d) true 0).
  exact feedback_ranked.
Defined.

(** Case analysis on membership in the lists of a concrete netlist. *)
Ltac enumerate := repeat match goal with
  | H : _ ∈ [] |- _ => by apply elem_of_nil in H
  | H : _ ∈ _ :: _ |- _ => apply elem_of_cons in H as [?|H]; simplify_eq/=
  end.
Ltac listed := simpl; repeat first [by left | right].

Lemma feedback_consistent : consistent Feedback.netlist.
Proof.
  split.
  - intros d c w p Hc Hw Hp.
    destruct d as [|[|[|d]]]; simpl in *; enumerate; split; listed.
  - intros d c w o Hc Hw Ho.
    destruct d as [|[|[|d]]]; simpl in *; enumerate; split_and!; listed.
  - intros d p q w Hp Hq Hw.
    destruct d as [|[|[|d]]]; simpl in *; enumerate; split_and!; listed.
  - intros d i p q Hi Hp Hq.
    destruct d as [|[|[|d]]]; simpl in *; enumerate;
      (eexists; split; [reflexivity|]); intros w Hw; simplify_eq/=; split; listed.
  - intros d i o w Hi Ho Hw Hd.
    destruct d as [|[|[|d]]]; simpl in *; enumerate; split_and!; listed.
  - intros o w Hleaf. simpl in Hleaf. done.
Qed.

Lemma get_connectivity_graph_returns_witness :
  ranked Feedback.netlist (λ d, 2 - d)
  ∧ listed_once Feedback.netlist
  ∧ consistent Feedback.netlist
  ∧ ∃ fuel g s, ∀ fuel', fuel ≤ fuel' →
      get_connectivity_graph Feedback.netlist fuel' true 0 = Ok (g, s).
Proof.
  split; [exact feedback_ranked|].
  split; [exact feedback_listed_once|].
  split; [exact feedback_consistent|].
  apply (get_connectivity_graph_returns Feedback.netlist (λ d, 2 - d) true 0).
  - exact feedback_ranked.
  - exact feedback_listed_once.
  - exact feedback_consistent.
Defined.

Lemma unnamed_ancestor_raises_witness :
  node Scenario.store 12 = Some (mkNode (Some 6) (Port 2) [(InnerPin 2, 15)])
  ∧ ancestors 30 Scenario.store (Some 6) = Ok [Scenario.A_node; Scenario.root_node]
  ∧ get_name Scenario.unnamed Scenario.A_node = None
  ∧ get_hiearchical_name Scenario.unnamed 30 Scenario.store 12 = Raise TypeError.
Proof.
  split; [vm_compute; reflexivity|].
  split; [vm_compute; reflexivity|].
  split; [vm_compute; reflexivity|].
  apply (unnamed_ancestor_raises Scenario.unnamed 30 Scenario.store 12
           (mkNode (Some 6) (Port 2) [(InnerPin 2, 15)])
           [Scenario.A_node; Scenario.root_node] Scenario.A_node).
  - vm_compute; reflexivity.
  - vm_compute; reflexivity.
  - left.
  - vm_compute; reflexivity.
Defined.

Lemma name_extends_parent_name_witness :
  listed_once Scenario.netlist
  ∧ generate_nodes Scenario.netlist 30 0 = Ok (0, Scenario.store)
  ∧ node Scenario.store 0 = Some Scenario.root_node
  ∧ get_name Scenario.netlist Scenario.root_node = Some "top"
  ∧ node Scenario.store 18 = Some Scenario.wire0_node
  ∧ get_hiearchical_name Scenario.netlist 30 Scenario.store 18
    = Ok (Some "top/P_in[0]")
  ∧ ∃ hp, get_hiearchical_name Scenario.netlist 30 Scenario.store 3 = Ok (Some hp)
      ∧ ∃ i, wires Scenario.netlist (cable Scenario.netlist 0) !! i = Some 0
             ∧ Some "top/P_in[0]" = Some (hp +:+ "[" +:+ pretty i +:+ "]").
Proof.
  split; [exact scenario_listed_once|].
  split; [vm_compute; reflexivity|].
  split; [vm_compute; reflexivity|].
  split; [vm_compute; reflexivity|].
  split; [vm_compute; reflexivity|].
  split; [vm_compute; reflexivity|].
  apply (name_extends_parent_name Scenario.netlist 30 0 0 Scenario.store
           Scenario.root_node "top" 30 18 Scenario.wire0_node 3
           (Some "top/P_in[0]")).
  - exact scenario_listed_once.
  - vm_compute; reflexivity.
  - vm_compute; reflexivity.
  - vm_compute; reflexivity.
  - discriminate.
  - vm_compute; reflexivity.
  - reflexivity.
  - vm_compute; reflexivity.
Defined.

Lemma nodes_named_cells netlist s :
  Forall (λ md, match item md with
                | Wire _ | InnerPin _ => True
                | _ => is_Some (get_name netlist md)
                end) (cells s) →
  nodes_named netlist s.
Proof.
  intros HF m md Hm. unfold node in Hm. case_decide; [|done].
  by apply (Forall_lookup_1 _ _ _ _ HF Hm).
Qed.

Lemma scenario_nodes_named : nodes_named Scenario.netlist Scenario.store.
Proof.
  apply nodes_named_cells. unfold Scenario.store. simpl.
  repeat (constructor; [first [exact I | vm_compute; by eexists]|]).
  constructor.
Qed.

Lemma every_node_gets_a_name_witness :
  listed_once Scenario.netlist ∧ owned Scenario.netlist
  ∧ generate_nodes Scenario.netlist 30 0 = Ok (0, Scenario.store)
  ∧ nodes_named Scenario.netlist Scenario.store
  ∧ node Scenario.store 18 = Some Scenario.wire0_node
  ∧ ∃ x, get_hiearchical_name Scenario.netlist 21 Scenario.store 18 = Ok (Some x).
Proof.
  split; [exact scenario_listed_once|].
  split; [exact scenario_owned|].
  split; [vm_compute; reflexivity|].
  split; [exact scenario_nodes_named|].
  split; [vm_compute; reflexivity|].
  apply (every_node_gets_a_name Scenario.netlist 30 0 0 Scenario.store 21 18
           Scenario.wire0_node).
  - exact scenario_listed_once.
  - exact scenario_owned.
  - vm_compute; reflexivity.
  - exact scenario_nodes_named.
  - vm_compute; reflexivity.
  - vm_compute. lia.
Defined.

Lemma feedback_instances_named : instances_named Feedback.netlist.
Proof.
  intros i [->|[d Hd]].
  - by exists "top".
  - destruct d as [|[|d]]; simpl in Hd; enumerate.
    + by exists "X".
    + by exists "Y".
    + by exists "L".
Qed.

Lemma feedback_siblings_named_apart : siblings_named_apart Feedback.netlist.
Proof.
  intros d i j Hi Hj.
  destruct d as [|[|d]]; simpl in Hi, Hj; enumerate; done.
Qed.

Lemma instance_names_differ_witness :
  listed_once Feedback.netlist ∧ instances_named Feedback.netlist
  ∧ siblings_named_apart Feedback.netlist
  ∧ generate_nodes Feedback.netlist 60 0 = Ok (0, Feedback.store)
  ∧ node Feedback.store 25
    = Some (mkNode (Some 6) (Instance 3) [(Port 4, 26); (Port 5, 27)])
  ∧ node Feedback.store 12
    = Some (mkNode (Some 7) (Instance 3) [(Port 4, 13); (Port 5, 14)])
  ∧ get_hiearchical_name Feedback.netlist 60 Feedback.store 25
    = Ok (Some "top/X/L")
  ∧ get_hiearchical_name Feedback.netlist 60 Feedback.store 12
    = Ok (Some "top/Y/L")
  ∧ Some "top/X/L" ≠ Some "top/Y/L".
Proof.
  split; [exact feedback_listed_once|].
  split; [exact feedback_instances_named|].
  split; [exact feedback_siblings_named_apart|].
  split; [vm_compute; reflexivity|].
  split; [vm_compute; reflexivity|].
  split; [vm_compute; reflexivity|].
  split; [vm_compute; reflexivity|].
  split; [vm_compute; reflexivity|].
  apply (instance_names_differ Feedback.netlist 60 0 0 Feedback.store 60 25 12
           (mkNode (Some 6) (Instance 3) [(Port 4, 26); (Port 5, 27)])
           (mkNode (Some 7) (Instance 3) [(Port 4, 13); (Port 5, 14)])
           3 3 (Some "top/X/L") (Some "top/Y/L")).
  - exact feedback_listed_once.
  - exact feedback_instances_named.
  - exact feedback_siblings_named_apart.
  - vm_compute; reflexivity.
  - vm_compute; reflexivity.
  - reflexivity.
  - vm_compute; reflexivity.
  - reflexivity.
  - lia.
  - vm_compute; reflexivity.
  - vm_compute; reflexivity.
Defined.

Lemma run_prints_smaller_counts_witness :
  leaf_childless Feedback.netlist
  ∧ get_connectivity_graph Feedback.netlist 60 true 0
    = Ok (Feedback.graph_with_ports, Feedback.store)
  ∧ ∃ n2 e2,
      run Feedback.netlist 60 0
      = ([("Total nodes in connectivity_graph with top_level_ports",
           number_of_nodes Feedback.graph_with_ports);
          ("Total edges in connectivity_graph with top_level_ports",
           number_of_edges Feedback.graph_with_ports);
          ("Total nodes in connectivity_graph without top_level_ports", n2);
          ("Total edges in connectivity_graph without top_level_ports", e2)],
         Ok ())
      ∧ n2 ≤ number_of_nodes Feedback.graph_with_ports
      ∧ e2 ≤ number_of_edges Feedback.graph_with_ports.
Proof.
  split; [exact feedback_leaf_childless|].
  split; [vm_compute; reflexivity|].
  apply (run_prints_smaller_counts Feedback.netlist 60 0
           Feedback.graph_with_ports Feedback.store).
  - exact feedback_leaf_childless.
  - vm_compute; reflexivity.
Defined.

Lemma flag_only_adds_top_ports_witness :
  generate_nodes Feedback.netlist 60 0 = Ok (0, Feedback.store)
  ∧ get_top_port_nodes Feedback.store 0 = Ok [1; 2]
  ∧ node Feedback.store 12
    = Some (mkNode (Some 7) (Instance 3) [(Port 4, 13); (Port 5, 14)])
  ∧ get_downstream_nodes Feedback.netlist 60 Feedback.store 12 true
    = Ok [12; 2; 25; 12]
  ∧ get_downstream_nodes Feedback.netlist 60 Feedback.store 12 false
    = Ok (filter (λ d, d ∉ [1; 2]) [12; 2; 25; 12]).
Proof.
  split; [vm_compute; reflexivity|].
  split; [vm_compute; reflexivity|].
  split; [vm_compute; reflexivity|].
  split; [vm_compute; reflexivity|].
  apply (flag_only_adds_top_ports Feedback.netlist 60 0 0 Feedback.store
           [1; 2] 60 12
           (mkNode (Some 7) (Instance 3) [(Port 4, 13); (Port 5, 14)]) 3
           [12; 2; 25; 12]).
  - vm_compute; reflexivity.
  - vm_compute; reflexivity.
  - vm_compute; reflexivity.
  - reflexivity.
  - vm_compute; reflexivity.
Defined.

Lemma zip_archive_needs_two_extensions_witness :
  Parsers.parse Parsers.archive_world "lib/design.EDF.zip" = Parsers.Returns 1
  ∧ Parsers.get_lowercase_extension "lib/design.EDF.zip" = ".zip"
  ∧ Parsers.basename "lib/design.EDF.zip"
    = (Parsers.splitext (Parsers.basename "lib/design.EDF.zip")).1
      +:+ (Parsers.splitext "lib/design.EDF.zip").2
  ∧ (Parsers.get_lowercase_extension
       (Parsers.splitext (Parsers.basename "lib/design.EDF.zip")).1 = ".edf"
     ∨ Parsers.get_lowercase_extension
         (Parsers.splitext (Parsers.basename "lib/design.EDF.zip")).1 = ".edif")
  ∧ Parsers.is_zipfile Parsers.archive_world "lib/design.EDF.zip" = true
  ∧ Parsers.namelist Parsers.archive_world "lib/design.EDF.zip"
    = Parsers.Returns
        [(Parsers.splitext (Parsers.basename "lib/design.EDF.zip")).1]
  ∧ ∃ parser parser',
      Parsers.from_filename Parsers.archive_world
        (Parsers.join (Parsers.tempdirname Parsers.archive_world)
           (Parsers.splitext (Parsers.basename "lib/design.EDF.zip")).1)
      = Parsers.Returns parser
      ∧ Parsers.parse_edif Parsers.archive_world parser = Parsers.Returns parser'
      ∧ 1 = Parsers.netlist_of Parsers.archive_world parser'.
Proof.
  split; [vm_compute; reflexivity|].
  split; [vm_compute; reflexivity|].
  apply (zip_archive_needs_two_extensions Parsers.archive_world
           "lib/design.EDF.zip" 1).
  - vm_compute; reflexivity.
  - vm_compute; reflexivity.
Defined.

Lemma extension_ignores_case_witness :
  Parsers.lower "Lib/Design.EDF" = Parsers.lower "lib/design.edf"
  ∧ Parsers.get_lowercase_extension "Lib/Design.EDF"
    = Parsers.get_lowercase_extension "lib/design.edf".
Proof.
  split; [vm_compute; reflexivity|].
  apply (extension_ignores_case "Lib/Design.EDF" "lib/design.edf").
  vm_compute; reflexivity.
Defined.

Lemma hidden_file_not_recognized_witness :
  Parsers.basename "dir/.edf" = "." +:+ "edf"
  ∧ Parsers._parse Parsers.archive_world "dir/.edf" None
    = Parsers.Raises (Parsers.RuntimeError "Extension  not recognized.").
Proof.
  split; [vm_compute; reflexivity|].
  apply (hidden_file_not_recognized Parsers.archive_world "dir/.edf" "." "edf"
           None).
  - vm_compute; reflexivity.
  - reflexivity.
  - reflexivity.
Defined.

Lemma leaf_instance_nodes_once_witness :
  generate_nodes Feedback.netlist 60 0 = Ok (0, Feedback.store)
  ∧ ∃ fuel leaves,
      (∀ fuel', fuel ≤ fuel' →
         get_leaf_instance_nodes Feedback.netlist fuel' Feedback.store 0
         = Ok leaves)
      ∧ NoDup leaves
      ∧ ∀ x, x ∈ leaves
             ↔ visited Feedback.netlist Feedback.store 0 x
               ∧ leaf_node Feedback.netlist Feedback.store x.
Proof.
  split; [vm_compute; reflexivity|].
  apply (leaf_instance_nodes_once Feedback.netlist 60 0 0 Feedback.store).
  vm_compute; reflexivity.
Defined.

Lemma children_follow_netlist_order_witness :
  listed_once Feedback.netlist
  ∧ generate_nodes Feedback.netlist 60 0 = Ok (0, Feedback.store)
  ∧ node Feedback.store 21
    = Some (mkNode (Some 6) (Port 2) [(InnerPin 2, 33)])
  ∧ Forall2 (λ kv e, kv.1 = e
                     ∧ ∃ cd, node Feedback.store kv.2 = Some cd
                             ∧ parent cd = Some 21 ∧ item cd = e)
            [(InnerPin 2, 33)] (elements_of Feedback.netlist (Port 2)).
Proof.
  split; [apply feedback_listed_once|].
  split; [vm_compute; reflexivity|].
  split; [vm_compute; reflexivity|].
  apply (children_follow_netlist_order Feedback.netlist 60 0 0 Feedback.store
           21 (mkNode (Some 6) (Port 2) [(InnerPin 2, 33)])).
  - apply feedback_listed_once.
  - vm_compute; reflexivity.
  - vm_compute; reflexivity.
Defined.

Lemma top_port_nodes_in_port_order_witness :
  listed_once Feedback.netlist
  ∧ generate_nodes Feedback.netlist 60 0 = Ok (0, Feedback.store)
  ∧ ∃ tops,
      get_top_port_nodes Feedback.store 0 = Ok tops
      ∧ Forall2 (λ t p, ∃ td, node Feedback.store t = Some td
                              ∧ parent td = Some 0 ∧ item td = Port p)
                tops
                (ports Feedback.netlist
                   (reference Feedback.netlist
                      (top_instance Feedback.netlist))).
Proof.
  split; [apply feedback_listed_once|].
  split; [vm_compute; reflexivity|].
  apply (top_port_nodes_in_port_order Feedback.netlist 60 0 0 Feedback.store).
  - apply feedback_listed_once.
  - vm_compute; reflexivity.
Defined.

(** *** The claims at concrete netlists *)

Lemma top_ports_monotone_witness :
  leaf_childless Feedback.netlist
  ∧ get_connectivity_graph Feedback.netlist 60 true 0
    = Ok (Feedback.graph_with_ports, Feedback.store)
  ∧ ∃ tops gF sF,
      get_top_port_nodes Feedback.store 0 = Ok tops
      ∧ get_connectivity_graph Feedback.netlist 60 false
          (limit Feedback.store) = Ok (gF, sF)
      ∧ number_of_nodes gF ≤ number_of_nodes Feedback.graph_with_ports
      ∧ number_of_edges gF ≤ number_of_edges Feedback.graph_with_ports
      ∧ (∃ g0, remove_nodes tops Feedback.graph_with_ports = shift_graph 0 g0
               ∧ gF = shift_graph (limit Feedback.store) g0)
      ∧ path sF <$> g_nodes gF
        = path Feedback.store
            <$> g_nodes (remove_nodes tops Feedback.graph_with_ports)
      ∧ prod_map (path sF) (path sF) <$> g_edges gF
        = prod_map (path Feedback.store) (path Feedback.store)
            <$> g_edges (remove_nodes tops Feedback.graph_with_ports).
Proof.
  split; [exact feedback_leaf_childless|].
  split; [vm_compute; reflexivity|].
  apply (top_ports_monotone Feedback.netlist 60 0 (limit Feedback.store)
           Feedback.graph_with_ports Feedback.store).
  - exact feedback_leaf_childless.
  - vm_compute; reflexivity.
Defined.

Lemma seed_step_witness :
  listed_once Feedback.netlist ∧ consistent Feedback.netlist
  ∧ generate_nodes Feedback.netlist 60 0 = Ok (0, Feedback.store)
  ∧ node Feedback.store 12
    = Some (mkNode (Some 7) (Instance 3) [(Port 4, 13); (Port 5, 14)])
  ∧ ∃ st, seeds Feedback.netlist Feedback.store 12 true = Ok st
      ∧ Forall2 (wire_node Feedback.netlist Feedback.store 7) [4]
          (reverse (search_stack st))
      ∧ downstream_nodes st = [].
Proof.
  split; [exact feedback_listed_once|].
  split; [exact feedback_consistent|].
  split; [vm_compute; reflexivity|].
  split; [vm_compute; reflexivity|].
  exact (seed_step Feedback.netlist 60 0 0 Feedback.store 12
           (mkNode (Some 7) (Instance 3) [(Port 4, 13); (Port 5, 14)]) true
           feedback_listed_once feedback_consistent
           ltac:(vm_compute; reflexivity) ltac:(vm_compute; reflexivity) 7
           eq_refl).
Defined.

Lemma generate_nodes_parent_child_witness :
  generate_nodes Scenario.netlist 30 0 = Ok (0, Scenario.store)
  ∧ (∃ rd, node Scenario.store 0 = Some rd ∧ parent rd = None
           ∧ item rd = Instance (top_instance Scenario.netlist))
  ∧ (∀ n nd, node Scenario.store n = Some nd → parent nd = None → n = 0)
  ∧ ∀ n nd, node Scenario.store n = Some nd →
      (∀ e c, dict_get (children nd) e = Some c →
         ∃ cd, node Scenario.store c = Some cd ∧ parent cd = Some n
               ∧ item cd = e)
      ∧ (∀ e, e ∈ elements_of Scenario.netlist (item nd)
              ↔ is_Some (dict_get (children nd) e))
      ∧ child_items Scenario.store n
        = elements_of Scenario.netlist (item nd)
      ∧ (NoDup (elements_of Scenario.netlist (item nd)) →
         ∀ c cd, node Scenario.store c = Some cd → parent cd = Some n →
                 dict_get (children nd) (item cd) = Some c).
Proof.
  split; [vm_compute; reflexivity|].
  apply (generate_nodes_parent_child Scenario.netlist 30 0 0 Scenario.store).
  vm_compute; reflexivity.
Defined.

Lemma top_ports_add_their_nodes_witness :
  leaf_childless Feedback.netlist ∧ listed_once Feedback.netlist
  ∧ get_connectivity_graph Feedback.netlist 60 true 0
    = Ok (Feedback.graph_with_ports, Feedback.store)
  ∧ get_connectivity_graph Feedback.netlist 60 false (limit Feedback.store)
    = Ok (mkDiGraph [51; 64] [(51, 51); (51, 64); (64, 64); (64, 51)],
          shift_store 39 Feedback.store)
  ∧ number_of_nodes Feedback.graph_with_ports
    = 2 + length (ports Feedback.netlist
                    (reference Feedback.netlist
                       (top_instance Feedback.netlist)))
  ∧ path Feedback.store <$> g_nodes Feedback.graph_with_ports
    = (path (shift_store 39 Feedback.store) <$> [51; 64])
      ++ ((λ p, [Instance (top_instance Feedback.netlist); Port p])
            <$> ports Feedback.netlist
                  (reference Feedback.netlist
                     (top_instance Feedback.netlist))).
Proof.
  split; [exact feedback_leaf_childless|].
  split; [exact feedback_listed_once|].
  split; [vm_compute; reflexivity|].
  split; [vm_compute; reflexivity|].
  apply (top_ports_add_their_nodes Feedback.netlist 60 0
           (limit Feedback.store) Feedback.graph_with_ports Feedback.store
           (mkDiGraph [51; 64] [(51, 51); (51, 64); (64, 64); (64, 51)])
           (shift_store 39 Feedback.store)).
  - exact feedback_leaf_childless.
  - exact feedback_listed_once.
  - vm_compute; reflexivity.
  - vm_compute; reflexivity.
Defined.
